(** * NUPACK equilibrium-concentration solver (thermo/concentrations/CalcConc.c)

    A shallow embedding of the trust-region solver [CalcConc] and of the
    functions it calls, followed by the properties established for it.

    Numbers.  The C code computes with [double].  The embedding is written
    once over an interface [Double] of the operations the code uses, and is
    read at the instance [Float64]: IEEE binary64 as the kernel's primitive
    floats (what the compiled code runs on).  [exp], [log] and [pow] come
    from the C library and are fields of the interface.  Properties of the
    control flow are proved for every instance of the interface; properties
    that depend on the numbers are proved in binary64, from the IEEE
    specification of the operations.

    Arrays.  A [double *] or [int *] of length [n] is a list; [v.[i]] reads
    and [upd i a v] writes one cell.  A function that writes through a
    pointer returns the new contents of that buffer.

    Integers.  Loop bounds and counters are [Z] or [nat]; every counter of
    [CalcConc] is bounded by [MaxIters] or [MaxTrial], so no C [int]
    wraps.

    Other files.  utils.c, constants.h, the Cholesky routines and the random
    number generator are not part of the sources at hand: the small kernels
    of utils.c are written out as section 2 of the specification describes
    them, the rest are parameters ([Extern]).

    The command line.  The last part of the file embeds
    thermo/complexes/ReadCommandLine.c, the option parser and the reader of
    the input file of the [complexes] executable: C strings are [string]s,
    the standard output and the file read are explicit, and what comes from
    the C library or from headers that are not at hand ([getopt_long_only],
    [sscanf], [fopen], the constants) is a parameter. *)

From Stdlib Require Import ZArith List Bool Lia Floats Uint63.
Import ListNotations.
From Stdlib Require String Ascii.
Import String.StringSyntax.
Import Ascii.AsciiSyntax.

(* ================================================================== *)
(** ** The arithmetic the code runs on *)

Class Double (D : Type) : Type := {
  of_int : Z -> D;               (* (double) n, and integer literals *)
  dadd : D -> D -> D;
  dsub : D -> D -> D;
  dmul : D -> D -> D;
  ddiv : D -> D -> D;
  dneg : D -> D;                 (* unary minus *)
  fabs : D -> D;
  sqrt : D -> D;
  exp : D -> D;                  (* libm *)
  log : D -> D;                  (* libm *)
  pow : D -> D -> D;             (* libm *)
  dlt : D -> D -> bool;          (* a < b *)
  dle : D -> D -> bool           (* a <= b *)
}.

Declare Scope dbl_scope.
Delimit Scope dbl_scope with dbl.
Infix "+" := dadd : dbl_scope.
Infix "-" := dsub : dbl_scope.
Infix "*" := dmul : dbl_scope.
Infix "/" := ddiv : dbl_scope.
Notation "- a" := (dneg a) : dbl_scope.
Notation "a <? b" := (dlt a b) : dbl_scope.
Notation "a <=? b" := (dle a b) : dbl_scope.
Notation "a >? b" := (dlt b a) : dbl_scope.
Notation "a >=? b" := (dle b a) : dbl_scope.

(** Cell read and write.  Reading or writing outside the buffer is undefined
    in C; here a read gives [d] and a write does nothing. *)
Fixpoint upd {A : Type} (i : nat) (a : A) (v : list A) : list A :=
  match v, i with
  | [], _ => []
  | _ :: t, O => a :: t
  | h :: t, S i' => h :: upd i' a t
  end.

(** What a run can end in: a value; [exit(code)]; [Unfinished], when a call
    of [PerturbLambda] is still looping after the passes the model grants it;
    [OutOfFuel], when a counted loop outruns the count the model grants it
    (this never happens: lemmas [trust_region_total] and [trials_total]). *)
Inductive outcome (A : Type) : Type :=
| Ret (a : A)
| Exit (code : Z)
| Unfinished
| OutOfFuel.
Arguments Ret {A} a.
Arguments Exit {A} code.
Arguments Unfinished {A}.
Arguments OutOfFuel {A}.

Definition bind {A B : Type} (m : outcome A) (k : A -> outcome B) : outcome B :=
  match m with
  | Ret a => k a
  | Exit c => Exit c
  | Unfinished => Unfinished
  | OutOfFuel => OutOfFuel
  end.

Notation "x <- m ;; k" := (bind m (fun x => k))
  (at level 61, m at next level, right associativity).

(** Code of the repository that CalcConc.c calls but that lives in other
    files (constants.h, the Cholesky routines, the Mersenne-Twister
    generator): taken as parameters. *)
Class Extern (D rng : Type) : Type := {
  MAXLOGX : D;
  NUM_PRECISION : D;
  ERR_OVERFLOW : Z;
  (* in-place decomposition: success flag and the decomposed matrix *)
  choleskyDecomposition : list (list D) -> nat -> Z * list (list D);
  (* choleskySolve(A, n, b, x): the contents of x afterwards *)
  choleskySolve : list (list D) -> nat -> list D -> list D -> list D;
  (* the generator, with its state of type rng passed along *)
  genrand_real1 : rng -> D * rng;
  init_genrand : Z -> rng;
  GetRandSeed : Z -> Z
}.

(* ================================================================== *)
(** ** The program *)

Section Program.

Context {D rng : Type} {DD : Double D} {EE : Extern D rng}.

Local Open Scope dbl_scope.

(** The literals of the source.  Those that are not integers are written as
    the quotient of two integers: in binary64 that quotient is the fraction
    rounded to nearest, the number the C literal denotes. *)
Definition d0 : D := of_int 0.
Definition d1 : D := of_int 1.
Definition d2 : D := of_int 2.
Definition d4 : D := of_int 4.
Definition d0_5 : D := of_int 1 / of_int 2.
Definition d0_25 : D := of_int 1 / of_int 4.
Definition d0_75 : D := of_int 3 / of_int 4.
Definition d0_99 : D := of_int 99 / of_int 100.

Notation "v .[ i ]" := (nth i v d0) (at level 1, left associativity, format "v .[ i ]").
Notation "v .z[ i ]" := (nth i v 0%Z) (at level 1, left associativity, format "v .z[ i ]").
Notation "m .r[ i ]" := (nth i m (@nil _)) (at level 1, left associativity, format "m .r[ i ]").

(** [malloc(n * sizeof(double))]: a fresh buffer; every cell is written
    before it is read. *)
Definition malloc (n : nat) : list D := repeat d0 n.

(** *** utils.c *)

(** Modelled from the spec: utils.c is not among the sources; section 2 of
    the spec lists its kernels (dot products, matrix-vector multiply, integer
    transpose, norm, sum, min).  Sums run left to right from zero. *)
Definition dot (v1 v2 : list D) (len : nat) : D :=
  fold_left (fun acc i => acc + v1.[i] * v2.[i]) (seq 0 len) d0.

(** Modelled from the spec: the dot product of a real and an integer array. *)
Definition didot (v1 : list D) (v2 : list Z) (len : nat) : D :=
  fold_left (fun acc i => acc + v1.[i] * of_int v2.z[i]) (seq 0 len) d0.

(** Modelled from the spec: the sum of the entries. *)
Definition sum (ar : list D) (len : nat) : D :=
  fold_left (fun acc i => acc + ar.[i]) (seq 0 len) d0.

(** Modelled from the spec: the sum of the entries of an integer array. *)
Definition sumint (ar : list Z) (len : nat) : Z :=
  fold_left (fun acc i => (acc + ar.z[i])%Z) (seq 0 len) 0%Z.

(** Modelled from the spec: the Euclidean norm. *)
Definition norm (ar : list D) (len : nat) : D := sqrt (dot ar ar len).

(** Modelled from the spec: the smaller of two reals. *)
Definition min2 (a b : D) : D := if a <? b then a else b.

(** Modelled from the spec: [c = A b] for a square matrix. *)
Definition MatrixVectorMult (A : list (list D)) (b : list D) (n : nat) : list D :=
  map (fun i => dot A.r[i] b n) (seq 0 n).

(** Modelled from the spec: [AT[j][i] = A[i][j]]. *)
Definition IntTranspose (A : list (list Z)) (numSS numTotal : nat) : list (list Z) :=
  map (fun j => map (fun i => A.r[i].z[j]) (seq 0 numSS)) (seq 0 numTotal).

(** Modelled from the spec: the index of the first non-zero entry (section
    4.3: the column [j*] with [A[i][j*] <> 0]); [-1] when there is none. *)
Fixpoint FindNonZero_from (js : list nat) (ar : list Z) : Z :=
  match js with
  | [] => (-1)%Z
  | j :: js' => if (ar.z[j] =? 0)%Z then FindNonZero_from js' ar else Z.of_nat j
  end.
Definition FindNonZero (ar : list Z) (len : nat) : Z :=
  FindNonZero_from (seq 0 len) ar.

(** *** CalcConc.c *)

(** [getx]: the mole fractions from lambda, G and AT.  Returns 1 and the new
    [x], or 0 at the first complex whose log exceeds [MAXLOGX], with [x] as
    written up to there. *)
Fixpoint getx_loop (js : list nat) (x lambda G : list D) (AT : list (list Z))
    (numSS : nat) : Z * list D :=
  match js with
  | [] => (1%Z, x)
  | j :: js' =>
      let logx := - G.[j] + didot lambda AT.r[j] numSS in
      if logx >? MAXLOGX then (0%Z, x)
      else getx_loop js' (upd j (exp logx) x) lambda G AT numSS
  end.

Definition getx (x lambda G : list D) (AT : list (list Z)) (numSS numTotal : nat)
    : Z * list D :=
  getx_loop (seq 0 numTotal) x lambda G AT numSS.

(** [getGrad]: the gradient of -g(lambda). *)
Definition getGrad (Grad x0 x : list D) (A : list (list Z)) (numSS numTotal : nat)
    : list D :=
  fold_left (fun Grad i => upd i (- x0.[i] + didot x A.r[i] numTotal) Grad)
            (seq 0 numSS) Grad.

(** [getHes]: the upper triangle from A and x, then the lower one copied
    from it. *)
Definition Hes_entry (x : list D) (A : list (list Z)) (numTotal m n : nat) : D :=
  let Avec := map (fun j => of_int A.r[m].z[j] * of_int A.r[n].z[j]) (seq 0 numTotal) in
  dot x Avec numTotal.

Definition getHes (x : list D) (A : list (list Z)) (numSS numTotal : nat)
    : list (list D) :=
  map (fun m => map (fun n => if (m <=? n)%nat then Hes_entry x A numTotal m n
                              else Hes_entry x A numTotal n m)
                    (seq 0 numSS))
      (seq 0 numSS).

(** [CheckTol]: 1 if every entry of the gradient is within its tolerance,
    0 at the first that is not. *)
Fixpoint CheckTol_loop (idx : list nat) (Grad AbsTol : list D) : Z :=
  match idx with
  | [] => 1%Z
  | i :: idx' =>
      if fabs Grad.[i] >? AbsTol.[i] then 0%Z else CheckTol_loop idx' Grad AbsTol
  end.

Definition CheckTol (Grad AbsTol : list D) (numSS : nat) : Z :=
  CheckTol_loop (seq 0 numSS) Grad AbsTol.

(** [for (i = lo; i < lo + n; i++) body]. *)
Definition forloop {S : Type} (lo n : nat) (body : nat -> S -> S) (s : S) : S :=
  fold_left (fun s i => body i s) (seq lo n) s.

(** [PerturbLambda]: adds PerturbScale times a random number in [-1,1] to
    each entry of lambda, halving the scale until the perturbed lambda gives
    no overflow.  The [while (xOK == 0)] loop has no bound in the source;
    [fuel] bounds the passes here and [None] says it was not enough.
    Returns the new lambda and the state of the generator. *)
Fixpoint PerturbLambda (fuel : nat) (lambda : list D) (PerturbScale : D)
    (G : list D) (AT : list (list Z)) (numSS numTotal : nat) (dummyx : list D)
    (gen : rng) : option (list D * rng) :=
  match fuel with
  | O => None
  | S fuel' =>
      let '(newlambda, gen') :=
        forloop 0 numSS
          (fun i '(nl, g) =>
             let '(u, g') := genrand_real1 g in
             (upd i (lambda.[i] + PerturbScale * d2 * (u - d0_5)) nl, g'))
          (malloc numSS, gen) in
      let '(xOK, dummyx') := getx dummyx newlambda G AT numSS numTotal in
      if (xOK =? 0)%Z
      then PerturbLambda fuel' lambda (PerturbScale / d2) G AT numSS numTotal dummyx' gen'
      else Some (forloop 0 numSS (fun i l => upd i newlambda.[i] l) lambda, gen')
  end.

(** [getInitialGuess]: the largest uniform lambda keeping every mole
    fraction below exp(MaxLogx), perturbed when [rand_seed <> 0], and then
    the known value for every single species whose row of A sums to 1. *)
Definition getInitialGuess (fuel : nat) (x0 lambda G : list D) (AT A : list (list Z))
    (numSS numTotal : nat) (PerturbScale : D) (rand_seed : Z) (gen : rng)
    : option (list D * rng) :=
  let MaxLogx := d1 in
  let LambdaVal :=
    forloop 1 (numTotal - 1)
      (fun j LambdaVal =>
         let NewLambdaVal := (MaxLogx + G.[j]) / of_int (sumint AT.r[j] numSS) in
         if NewLambdaVal <? LambdaVal then NewLambdaVal else LambdaVal)
      ((MaxLogx + G.[0]) / of_int (sumint AT.r[0] numSS)) in
  let lambda := forloop 0 numSS (fun i l => upd i LambdaVal l) lambda in
  match (if (rand_seed =? 0)%Z then Some (lambda, gen)
         else PerturbLambda fuel lambda PerturbScale G AT numSS numTotal
                (malloc numTotal) gen) with
  | None => None
  | Some (lambda, gen') =>
      Some (forloop 0 numSS
              (fun i l =>
                 if (sumint A.r[i] numTotal =? 1)%Z
                 then let tG := G.[Z.to_nat (FindNonZero A.r[i] numTotal)] in
                      upd i (log x0.[i] + tG) l
                 else l)
              lambda,
            gen')
  end.

(** The copy of the Hessian handed to the Cholesky routine:
    [HesCopy[i][j] = Hes[i][j]] for [j <= i]; the other cells of the fresh
    matrix are never written. *)
Definition HesCopy_of (Hes : list (list D)) (numSS : nat) : list (list D) :=
  map (fun i => map (fun j => if (j <=? i)%nat then Hes.r[i].[j] else d0) (seq 0 numSS))
      (seq 0 numSS).

(** [getSearchDir]: the dogleg step.  Returns the code (1 Newton, 2 Cauchy,
    3 dogleg, 4 Cholesky failed and Cauchy taken, 5 Cholesky failed and
    Cauchy would have been taken anyway, 6 dogleg calculation failed) and
    the new contents of [p]. *)
Definition getSearchDir (p Grad : list D) (Hes : list (list D)) (delta : D)
    (numSS : nat) : Z * list D :=
  let delta2 := pow delta d2 in
  let '(CholSuccess, HesCopy) := choleskyDecomposition (HesCopy_of Hes numSS) numSS in
  let pB :=
    if (CholSuccess =? 1)%Z
    then forloop 0 numSS (fun i pB => upd i (pB.[i] * - d1) pB)
           (choleskySolve HesCopy numSS Grad (malloc numSS))
    else malloc numSS in
  let pB2 := if (CholSuccess =? 1)%Z then dot pB pB numSS else d0 in
  if ((CholSuccess =? 1)%Z && (pB2 <=? delta2))%bool
  then (1%Z, forloop 0 numSS (fun i p => upd i pB.[i] p) p)
  else
    let pU := forloop 0 numSS (fun i pU => upd i (- Grad.[i]) pU) (malloc numSS) in
    let HGrad := MatrixVectorMult Hes Grad numSS in
    let mag1 := dot Grad Grad numSS in
    let mag2 := dot Grad HGrad numSS in
    let pUcoeff := mag1 / mag2 in
    let pU := forloop 0 numSS (fun i pU => upd i (pUcoeff * pU.[i]) pU) pU in
    let pU2 := dot pU pU numSS in
    if pU2 >=? delta2
    then
      let tau := sqrt (delta2 / pU2) in
      (if (CholSuccess =? 1)%Z then 2%Z else 5%Z,
       forloop 0 numSS (fun i p => upd i (tau * pU.[i]) p) p)
    else if negb (CholSuccess =? 1)%Z
    then (4%Z, forloop 0 numSS (fun i p => upd i pU.[i] p) p)
    else
      let pBpU := dot pB pU numSS in
      let a := pB2 + pU2 - d2 * pBpU in
      let b := of_int 2 * (pBpU - pU2) in
      let c := pU2 - delta2 in
      let sgnb := if b <? d0 then of_int (-1) else of_int 1 in
      let q := - d0_5 * (b + sgnb * sqrt (b * b - of_int 4 * a * c)) in
      let x1 := q / a in
      let x2 := c / q in
      if ((x2 >=? d0) && (x2 <=? d1))%bool
      then (3%Z, forloop 0 numSS (fun i p => upd i (pU.[i] + x2 * (pB.[i] - pU.[i])) p) p)
      else if ((x1 >=? d0) && (x1 <=? d1))%bool
      then (3%Z, forloop 0 numSS (fun i p => upd i (pU.[i] + x1 * (pB.[i] - pU.[i])) p) p)
      else (6%Z, forloop 0 numSS (fun i p => upd i pU.[i] p) p).

(** [getRho]: the ratio of actual to predicted reduction; -1 when the
    mole fractions at [lambda + p] overflow. *)
Definition getRho (lambda p Grad x : list D) (Hes : list (list D))
    (x0 G : list D) (AT : list (list Z)) (numSS numTotal : nat) : D :=
  let negh := sum x numTotal in
  let negh := negh - dot lambda x0 numSS in
  let newlambda :=
    forloop 0 numSS (fun i nl => upd i (lambda.[i] + p.[i]) nl) (malloc numSS) in
  let '(ok, newx) := getx (malloc numTotal) newlambda G AT numSS numTotal in
  if negb (ok =? 0)%Z
  then
    let NewNegh := sum newx numTotal in
    let NewNegh := NewNegh - dot newlambda x0 numSS in
    let Hp := MatrixVectorMult Hes p numSS in
    let pHp := dot p Hp numSS in
    (negh - NewNegh) / (- dot Grad p numSS - pHp / d2)
  else - d1.

(** [getCauchyPoint] (not called by [CalcConc]). *)
Definition getCauchyPoint (CauchyPoint : list D) (Hes : list (list D))
    (Grad : list D) (delta : D) (numSS : nat) : list D :=
  let normGrad := norm Grad numSS in
  let Hgrad := MatrixVectorMult Hes Grad numSS in
  let numerator := pow normGrad (of_int 3) in
  let denominator := delta * dot Grad Hgrad numSS in
  let tau := min2 (numerator / denominator) d1 in
  let coeff := - tau * delta / normGrad in
  forloop 0 numSS (fun i cp => upd i (coeff * Grad.[i]) cp) CauchyPoint.

(** *** The driver *)

(** The locals of [CalcConc] that live across loop iterations, the buffer
    [x] of the caller, and the state of the process-wide generator. *)
Record state : Type := mkState {
  st_x : list D;
  st_lambda : list D;
  st_Grad : list D;
  st_p : list D;
  st_delta : D;
  st_iters : Z;
  st_nNoStep : Z;
  st_nTrial : Z;
  st_rand_seed : Z;
  st_RunStats : list Z;
  st_gen : rng
}.

Section Solver.

Variables (A : list (list Z)) (G x0 : list D) (numSS numTotal : nat).
Variables (MaxIters : Z) (tol deltaBar eta kT : D) (MaxNoStep MaxTrial : Z).
Variables (PerturbScale MolesWaterPerLiter : D) (seed : Z).
(** Fuel for each call of [PerturbLambda]. *)
Variable pfuel : nat.

Definition AbsTol_of : list D :=
  forloop 0 numSS (fun i a => upd i (tol * x0.[i]) a) (malloc numSS).

Definition AT_of : list (list Z) := IntTranspose A numSS numTotal.

(** Lines 165-170: the new radius from rho, the step and the old radius. *)
Definition adjust_delta (rho : D) (p : list D) (delta : D) : D :=
  if rho <? d0_25 then delta / d4
  else if ((rho >? d0_75) && (fabs (norm p numSS - delta) <? NUM_PRECISION))%bool
       then min2 (d2 * delta) deltaBar
       else delta.

(** Lines 155-190: one pass of the trust-region loop. *)
Definition inner_body (st : state) : outcome state :=
  let Hes := getHes (st_x st) A numSS numTotal in
  let '(code, p) := getSearchDir (st_p st) (st_Grad st) Hes (st_delta st) numSS in
  let k := Z.to_nat (code - 1) in
  let RunStats := upd k (nth k (st_RunStats st) 0 + 1)%Z (st_RunStats st) in
  let rho := getRho (st_lambda st) p (st_Grad st) (st_x st) Hes x0 G AT_of numSS numTotal in
  let delta := adjust_delta rho p (st_delta st) in
  let '(lambda, nNoStep) :=
    if rho >? eta
    then (forloop 0 numSS (fun i l => upd i (l.[i] + p.[i]) l) (st_lambda st), 0%Z)
    else (st_lambda st, (st_nNoStep st + 1)%Z) in
  let '(ok, x) := getx (st_x st) lambda G AT_of numSS numTotal in
  if (ok =? 0)%Z then Exit ERR_OVERFLOW
  else
    let Grad := getGrad (st_Grad st) x0 x A numSS numTotal in
    Ret (mkState x lambda Grad p delta (st_iters st + 1)%Z nNoStep
                 (st_nTrial st) (st_rand_seed st) RunStats (st_gen st)).

Definition inner_guard (st : state) : bool :=
  ((st_iters st <? MaxIters)%Z
   && (CheckTol (st_Grad st) AbsTol_of numSS =? 0)%Z
   && (st_nNoStep st <? MaxNoStep)%Z)%bool.

(** Lines 152-191.  [n] bounds the passes; [MaxIters - iters] is enough
    (lemma [trust_region_total]). *)
Fixpoint trust_region (n : nat) (st : state) : outcome state :=
  if inner_guard st
  then match n with
       | O => OutOfFuel
       | S n' => st' <- inner_body st ;; trust_region n' st'
       end
  else Ret st.

(** Lines 121-194: one trial. *)
Definition trial_body (st : state) : outcome state :=
  let '(rand_seed, gen) :=
    if (st_nTrial st =? 1)%Z
    then let rs := GetRandSeed seed in (rs, init_genrand rs)
    else (st_rand_seed st, st_gen st) in
  match getInitialGuess pfuel x0 (st_lambda st) G AT_of A numSS numTotal
          PerturbScale rand_seed gen with
  | None => Unfinished
  | Some (lambda, gen') =>
      let '(ok, x) := getx (st_x st) lambda G AT_of numSS numTotal in
      if (ok =? 0)%Z then Exit ERR_OVERFLOW
      else
        let Grad := getGrad (st_Grad st) x0 x A numSS numTotal in
        let delta := d0_99 * deltaBar in
        st' <- trust_region (Z.to_nat MaxIters)
                 (mkState x lambda Grad (st_p st) delta 0%Z 0%Z
                          (st_nTrial st) rand_seed (repeat 0%Z 6) gen') ;;
        Ret (mkState (st_x st') (st_lambda st') (st_Grad st') (st_p st')
                     (st_delta st') (st_iters st') (st_nNoStep st')
                     (st_nTrial st' + 1)%Z (st_rand_seed st')
                     (st_RunStats st') (st_gen st'))
  end.

Definition outer_guard (st : state) : bool :=
  ((CheckTol (st_Grad st) AbsTol_of numSS =? 0)%Z && (st_nTrial st <? MaxTrial)%Z)%bool.

(** Lines 119-195.  [n] bounds the trials; [MaxTrial - nTrial] is enough
    (lemma [trials_total]). *)
Fixpoint trials (n : nat) (st : state) : outcome state :=
  if outer_guard st
  then match n with
       | O => OutOfFuel
       | S n' => st' <- trial_body st ;; trials n' st'
       end
  else Ret st.

(** Lines 90-118: the state on entry of the trial loop.  [x] is the buffer
    of the caller and [gen] the state of the generator; [delta], [nNoStep]
    and [RunStats] are not yet assigned in the source (they are before they
    are read) and start at zero here. *)
Definition init_state (x : list D) (gen : rng) : state :=
  let AbsTol := AbsTol_of in
  let Grad := forloop 0 numSS (fun i g => upd i (AbsTol.[i] + d1) g) (malloc numSS) in
  mkState x (malloc numSS) Grad (malloc numSS) d0 0%Z 0%Z 0%Z 0%Z (repeat 0%Z 6) gen.

(** Lines 197-210: the free energy in kcal per litre of solution. *)
Definition FreeEnergy_of (x : list D) : D :=
  let FreeEnergy := d0 in
  let FreeEnergy :=
    forloop 0 numSS (fun i F => F + x0.[i] * (d1 - log x0.[i])) FreeEnergy in
  let FreeEnergy :=
    forloop 0 numTotal
      (fun j F => if x.[j] >? d0 then F + x.[j] * (log x.[j] + G.[j] - d1) else F)
      FreeEnergy in
  FreeEnergy * (kT * MolesWaterPerLiter).

(** Everything [CalcConc] has computed when it reaches its [return]: the
    final loop state, the local [FreeEnergy], and the value returned. *)
Record final : Type := mkFinal {
  fin_state : state;
  fin_FreeEnergy : D;
  fin_ret : Z
}.

Definition CalcConc_run (x : list D) (gen : rng) : outcome final :=
  st <- trials (Z.to_nat MaxTrial) (init_state x gen) ;;
  let FreeEnergy := FreeEnergy_of (st_x st) in
  Ret (mkFinal st FreeEnergy (if (st_nTrial st =? MaxTrial)%Z then 0%Z else 1%Z)).

(** [int CalcConc(double *x, ...)]: what the caller gets, the returned
    [int] and the contents of [x]. *)
Definition CalcConc (x : list D) (gen : rng) : outcome (Z * list D) :=
  f <- CalcConc_run x gen ;;
  Ret (fin_ret f, st_x (fin_state f)).

End Solver.

End Program.

Arguments state : clear implicits.
Arguments final : clear implicits.

Notation "v .[ i ]" := (nth i v d0) (at level 1, left associativity, format "v .[ i ]").
Notation "v .z[ i ]" := (nth i v 0%Z) (at level 1, left associativity, format "v .z[ i ]").
Notation "m .r[ i ]" := (nth i m (@nil _)) (at level 1, left associativity, format "m .r[ i ]").

(* ================================================================== *)
(** ** Instances *)

(** *** IEEE binary64 *)

(** [(double) z] for a C [int] [z]. *)
Definition float_of_int (z : Z) : float :=
  if (z <? 0)%Z then PrimFloat.opp (PrimFloat.of_uint63 (Uint63.of_Z (- z)))
  else PrimFloat.of_uint63 (Uint63.of_Z z).

(** The arithmetic of the compiled code: binary64 with round to nearest
    even, and the three functions it takes from the C library. *)
Definition Float64 (libm_exp libm_log : float -> float)
    (libm_pow : float -> float -> float) : Double float :=
  {| of_int := float_of_int;
     dadd := PrimFloat.add;
     dsub := PrimFloat.sub;
     dmul := PrimFloat.mul;
     ddiv := PrimFloat.div;
     dneg := PrimFloat.opp;
     fabs := PrimFloat.abs;
     sqrt := PrimFloat.sqrt;
     exp := libm_exp;
     log := libm_log;
     pow := libm_pow;
     dlt := PrimFloat.ltb;
     dle := PrimFloat.leb |}.

(** *** Stand-ins to run the model

    The functions below stand in for the C library and for the routines of
    the repository that are parameters of the model, so that the model can be
    run on examples.  No property of the solver is proved about them: the
    theorems hold for every choice of these parameters. *)

Section StandIns.

Context {D : Type} {DD : Double D}.
Local Open Scope dbl_scope.

(** In-place Cholesky on the lower triangle; 0 at a pivot that is not
    positive. *)
Definition chol_cell (A : list (list D)) (i j : nat) : D :=
  forloop 0 i (fun k s => s - A.r[i].[k] * A.r[j].[k]) A.r[j].[i].

Definition chol_column (i n : nat) (st : Z * list (list D)) : Z * list (list D) :=
  forloop i (n - i)
    (fun j '(ok, A) =>
       if (ok =? 0)%Z then (ok, A)
       else
         let s := chol_cell A i j in
         if (j =? i)%nat
         then if s <=? d0 then (0%Z, A) else (1%Z, upd i (upd i (sqrt s) A.r[i]) A)
         else (1%Z, upd j (upd i (s / A.r[i].[i]) A.r[j]) A))
    st.

Definition chol_decomposition (A : list (list D)) (n : nat) : Z * list (list D) :=
  forloop 0 n (fun i st => chol_column i n st) (1%Z, A).

Definition chol_solve (A : list (list D)) (n : nat) (b x : list D) : list D :=
  let y :=
    forloop 0 n
      (fun i y =>
         upd i (forloop 0 i (fun k s => s - A.r[i].[k] * y.[k]) b.[i] / A.r[i].[i]) y)
      x in
  fold_right
    (fun i x =>
       upd i (forloop (S i) (n - S i) (fun k s => s - A.r[k].[i] * x.[k]) y.[i]
              / A.r[i].[i]) x)
    y (seq 0 n).

(** A linear congruential generator, returning a real in [0,1]. *)
Definition lcg_real1 (g : Z) : D * Z :=
  (of_int (g mod 1001) / of_int 1000, ((g * 1103515245 + 12345) mod 2147483648)%Z).

Definition Extern_demo : Extern D Z :=
  {| MAXLOGX := of_int 250;
     NUM_PRECISION := of_int 1 / of_int 1000000000000;
     ERR_OVERFLOW := 1%Z;
     choleskyDecomposition := chol_decomposition;
     choleskySolve := chol_solve;
     genrand_real1 := lcg_real1;
     init_genrand := fun s => s;
     GetRandSeed := fun s => if (s =? 0)%Z then 20061101%Z else s |}.

End StandIns.

(** [exp] by its Taylor series at [x / 1024], squared ten times. *)
Definition exp_demo (x : float) : float :=
  let y := PrimFloat.div x 1024 in
  let t := fold_right (fun k r => PrimFloat.add 1 (PrimFloat.div (PrimFloat.mul y r) (float_of_int (Z.of_nat k))))
                      1%float (seq 1 14) in
  fold_left (fun r _ => PrimFloat.mul r r) (seq 0 10) t.

(** [log] of [m * 2^e], [1 <= m < 2], as [e log 2 + 2 atanh ((m-1)/(m+1))]. *)
Definition atanh2_demo (z : float) : float :=
  let z2 := PrimFloat.mul z z in
  PrimFloat.mul (PrimFloat.mul 2 z)
    (fold_right (fun k r => PrimFloat.add (PrimFloat.div 1 (float_of_int (Z.of_nat (2 * k + 1))))
                                          (PrimFloat.mul z2 r))
                0%float (seq 0 30)).

Definition log_demo (x : float) : float :=
  if PrimFloat.leb x 0 then PrimFloat.neg_infinity
  else
    let '(m, e) := Z.frexp x in
    let m := PrimFloat.mul 2 m in
    let e := (e - 1)%Z in
    PrimFloat.add (PrimFloat.mul (float_of_int e) (atanh2_demo (PrimFloat.div 1 3)))
                  (atanh2_demo (PrimFloat.div (PrimFloat.sub m 1) (PrimFloat.add m 1))).

Definition pow_demo (x y : float) : float :=
  if PrimFloat.eqb y 2 then PrimFloat.mul x x else exp_demo (PrimFloat.mul y (log_demo x)).

Definition Float64_demo : Double float := Float64 exp_demo log_demo pow_demo.


(* ================================================================== *)
(** ** Loops that fill a buffer *)

Lemma upd_length {A : Type} (i : nat) (a : A) (v : list A) :
  length (upd i a v) = length v.
Proof.
  revert i; induction v as [|h t IH]; intros [|i]; simpl; auto.
Qed.

Lemma nth_upd_same {A : Type} (i : nat) (a d : A) (v : list A) :
  (i < length v)%nat -> nth i (upd i a v) d = a.
Proof.
  revert i; induction v as [|h t IH]; intros [|i] H; simpl in *; try lia; auto.
  apply IH; lia.
Qed.

Lemma nth_upd_other {A : Type} (i j : nat) (a d : A) (v : list A) :
  i <> j -> nth j (upd i a v) d = nth j v d.
Proof.
  revert i j; induction v as [|h t IH]; intros [|i] [|j] H; simpl; auto; try lia.
Qed.

Section Fill.

Context {A : Type}.

(** [for (i = lo; i < lo + n; i++) v[i] = f i]. *)
Lemma forloop_upd_length (f : nat -> list A -> A) (lo n : nat) (v : list A) :
  length (forloop lo n (fun i v => upd i (f i v) v) v) = length v.
Proof.
  unfold forloop. revert lo v.
  induction n as [|n IH]; intros lo v; simpl; auto.
  rewrite IH. apply upd_length.
Qed.

Lemma forloop_upd_out (f : nat -> list A -> A) (lo n : nat) (v : list A) (d : A) (k : nat) :
  (k < lo \/ lo + n <= k)%nat ->
  nth k (forloop lo n (fun i v => upd i (f i v) v) v) d = nth k v d.
Proof.
  unfold forloop. revert lo v.
  induction n as [|n IH]; intros lo v Hk; simpl; auto.
  rewrite IH by lia. apply nth_upd_other. lia.
Qed.

(** When the value written in cell [i] does not depend on the buffer. *)
Lemma forloop_upd_in (f : nat -> A) (lo n : nat) (v : list A) (d : A) (k : nat) :
  (lo <= k < lo + n)%nat -> (lo + n <= length v)%nat ->
  nth k (forloop lo n (fun i v => upd i (f i) v) v) d = f k.
Proof.
  unfold forloop. revert lo v.
  induction n as [|n IH]; intros lo v Hk Hlen; simpl; [lia|].
  destruct (Nat.eq_dec k lo) as [->|Hne].
  - pose proof (forloop_upd_out (fun i _ => f i) (S lo) n (upd lo (f lo) v) d lo) as E.
    unfold forloop in E. rewrite E by lia.
    apply nth_upd_same. lia.
  - apply IH; [lia|]. rewrite upd_length. lia.
Qed.

(** When the value written in cell [i] depends on the old cell [i] only. *)
Lemma forloop_upd_cell (g : nat -> A -> A) (lo n : nat) (v : list A) (d : A) (k : nat) :
  (lo <= k < lo + n)%nat -> (lo + n <= length v)%nat ->
  nth k (forloop lo n (fun i v => upd i (g i (nth i v d)) v) v) d = g k (nth k v d).
Proof.
  unfold forloop. revert lo v.
  induction n as [|n IH]; intros lo v Hk Hlen; simpl; [lia|].
  destruct (Nat.eq_dec k lo) as [->|Hne].
  - pose proof (forloop_upd_out (fun i v => g i (nth i v d)) (S lo) n
                  (upd lo (g lo (nth lo v d)) v) d lo) as E.
    unfold forloop in E. rewrite E by lia.
    apply nth_upd_same. lia.
  - rewrite IH; [|lia|rewrite upd_length; lia].
    rewrite nth_upd_other by lia. reflexivity.
Qed.

Lemma forloop_snoc {S : Type} (body : nat -> S -> S) (lo n : nat) (s : S) :
  forloop lo (Datatypes.S n) body s = body (lo + n)%nat (forloop lo n body s).
Proof.
  unfold forloop. rewrite seq_S, fold_left_app. reflexivity.
Qed.

Lemma malloc_length {D : Type} {DD : Double D} (n : nat) : length (malloc n) = n.
Proof. apply repeat_length. Qed.

End Fill.

(* ================================================================== *)
(** ** The parameter map [getx] *)

Section Getx.

Context {D rng : Type} {DD : Double D} {EE : Extern D rng}.
Local Open Scope dbl_scope.

Variables (lambda G : list D) (AT : list (list Z)) (numSS : nat).

(** The log of mole fraction [j], as line 294 computes it. *)
Definition logx_of (j : nat) : D := - G.[j] + didot lambda AT.r[j] numSS.

(** Complex [j] is the first whose log exceeds [MAXLOGX]. *)
Definition first_overflow (lo j : nat) : Prop :=
  (logx_of j >? MAXLOGX) = true /\
  forall k, (lo <= k < j)%nat -> (logx_of k >? MAXLOGX) = false.

Definition write_x (lo n : nat) (x : list D) : list D :=
  forloop lo n (fun j x => upd j (exp (logx_of j)) x) x.

Lemma getx_loop_ok (n lo : nat) (x : list D) :
  (forall k, (lo <= k < lo + n)%nat -> (logx_of k >? MAXLOGX) = false) ->
  getx_loop (seq lo n) x lambda G AT numSS = (1%Z, write_x lo n x).
Proof.
  revert lo x. induction n as [|n IH]; intros lo x H; simpl; [reflexivity|].
  fold (logx_of lo). rewrite (H lo) by lia.
  rewrite IH by (intros; apply H; lia). reflexivity.
Qed.

Lemma getx_loop_overflow (n lo j : nat) (x : list D) :
  (lo <= j < lo + n)%nat -> first_overflow lo j ->
  getx_loop (seq lo n) x lambda G AT numSS = (0%Z, write_x lo (j - lo) x).
Proof.
  revert lo x. induction n as [|n IH]; intros lo x Hj [Hov Hbefore]; simpl; [lia|].
  fold (logx_of lo).
  destruct (Nat.eq_dec j lo) as [->|Hne].
  - rewrite Hov. rewrite Nat.sub_diag. reflexivity.
  - rewrite (Hbefore lo) by lia.
    rewrite (IH (S lo)); [|lia|split; [exact Hov|intros; apply Hbefore; lia]].
    replace (j - lo)%nat with (S (j - S lo)) by lia. reflexivity.
Qed.

(** Either no complex overflows or there is a first one that does. *)
Lemma overflow_dec (n lo : nat) :
  (forall k, (lo <= k < lo + n)%nat -> (logx_of k >? MAXLOGX) = false) \/
  (exists j, (lo <= j < lo + n)%nat /\ first_overflow lo j).
Proof.
  induction n as [|n IH]; [left; intros; lia|].
  destruct IH as [IH|[j [Hj Hf]]].
  - destruct (logx_of (lo + n) >? MAXLOGX) eqn:E.
    + right. exists (lo + n)%nat. split; [lia|]. split; [exact E|].
      intros; apply IH; lia.
    + left. intros k Hk. destruct (Nat.eq_dec k (lo + n)) as [->|]; [exact E|].
      apply IH; lia.
  - right. exists j. split; [lia|exact Hf].
Qed.

End Getx.

Section GetxMemory.

Context {D rng : Type} {DD : Double D} {EE : Extern D rng}.
Local Open Scope dbl_scope.

(** The [double] buffers of the process, by address.  [getx_mem] is [getx]
    with its three pointer arguments as addresses: each pass reads [G[j]]
    and lambda from memory and stores [x[j]] into memory, as lines 293-299
    do. *)
Definition memory : Type := list (list D).

Fixpoint getx_mem_loop (js : list nat) (px pl pG : nat) (AT : list (list Z))
    (numSS : nat) (m : memory) : Z * memory :=
  match js with
  | [] => (1%Z, m)
  | j :: js' =>
      let logx := - m.r[pG].[j] + didot m.r[pl] AT.r[j] numSS in
      if logx >? MAXLOGX then (0%Z, m)
      else getx_mem_loop js' px pl pG AT numSS (upd px (upd j (exp logx) m.r[px]) m)
  end.

Definition getx_mem (px pl pG : nat) (AT : list (list Z)) (numSS numTotal : nat)
    (m : memory) : Z * memory :=
  getx_mem_loop (seq 0 numTotal) px pl pG AT numSS m.

Lemma upd_nth_id {A : Type} (i : nat) (d : A) (v : list A) :
  (i < length v)%nat -> upd i (nth i v d) v = v.
Proof.
  revert i; induction v as [|h t IH]; intros [|i] H; simpl in *; try lia; auto.
  f_equal. apply IH. lia.
Qed.

Lemma upd_upd {A : Type} (i : nat) (a b : A) (v : list A) :
  upd i b (upd i a v) = upd i b v.
Proof.
  revert i; induction v as [|h t IH]; intros [|i]; simpl; auto.
  f_equal. apply IH.
Qed.

Lemma getx_mem_loop_pure (js : list nat) (px pl pG : nat) (AT : list (list Z))
    (numSS : nat) (m : memory) :
  px <> pl -> px <> pG -> (px < length m)%nat ->
  getx_mem_loop js px pl pG AT numSS m =
  (fst (getx_loop js m.r[px] m.r[pl] m.r[pG] AT numSS),
   upd px (snd (getx_loop js m.r[px] m.r[pl] m.r[pG] AT numSS)) m).
Proof.
  intros Hl HG. revert m.
  induction js as [|j js IH]; intros m Hpx; simpl.
  - rewrite upd_nth_id by exact Hpx. reflexivity.
  - destruct (- m.r[pG].[j] + didot m.r[pl] AT.r[j] numSS >? MAXLOGX) eqn:E; simpl.
    + rewrite upd_nth_id by exact Hpx. reflexivity.
    + rewrite IH by (rewrite upd_length; exact Hpx).
      rewrite nth_upd_same by exact Hpx.
      rewrite !nth_upd_other by congruence.
      rewrite upd_upd. reflexivity.
Qed.

End GetxMemory.

Section GetxSpec.

Context {D rng : Type} {DD : Double D} {EE : Extern D rng}.
Local Open Scope dbl_scope.

Lemma getx_flag (x lambda G : list D) (AT : list (list Z)) (numSS numTotal : nat) :
  fst (getx x lambda G AT numSS numTotal) = 0%Z \/
  fst (getx x lambda G AT numSS numTotal) = 1%Z.
Proof.
  unfold getx.
  destruct (overflow_dec lambda G AT numSS numTotal 0) as [H|[j [Hj Hf]]].
  - rewrite getx_loop_ok by exact H. right; reflexivity.
  - rewrite (getx_loop_overflow lambda G AT numSS numTotal 0 j) by assumption.
    left; reflexivity.
Qed.

(** The result of [getx] does not depend on what the output buffer held. *)
Lemma getx_flag_indep (x x' lambda G : list D) (AT : list (list Z)) (numSS numTotal : nat) :
  fst (getx x lambda G AT numSS numTotal) = fst (getx x' lambda G AT numSS numTotal).
Proof.
  unfold getx.
  destruct (overflow_dec lambda G AT numSS numTotal 0) as [H|[j [Hj Hf]]].
  - rewrite !getx_loop_ok by exact H. reflexivity.
  - rewrite !(getx_loop_overflow lambda G AT numSS numTotal 0 j) by assumption.
    reflexivity.
Qed.

Lemma getx_overflow_iff (x lambda G : list D) (AT : list (list Z)) (numSS numTotal : nat) :
  fst (getx x lambda G AT numSS numTotal) = 0%Z <->
  exists j, (j < numTotal)%nat /\ (logx_of lambda G AT numSS j >? MAXLOGX) = true.
Proof.
  unfold getx.
  destruct (overflow_dec lambda G AT numSS numTotal 0) as [H|[j [Hj Hf]]].
  - rewrite getx_loop_ok by exact H. simpl. split; [discriminate|].
    intros [j [Hj E]]. rewrite H in E by lia. discriminate.
  - rewrite (getx_loop_overflow lambda G AT numSS numTotal 0 j) by assumption.
    simpl. split; [|reflexivity]. intros _. exists j. split; [lia|apply Hf].
Qed.

Lemma getx_success (x lambda G : list D) (AT : list (list Z)) (numSS numTotal : nat) :
  (numTotal <= length x)%nat ->
  fst (getx x lambda G AT numSS numTotal) = 1%Z ->
  forall j, (j < numTotal)%nat ->
    (snd (getx x lambda G AT numSS numTotal)).[j] = exp (logx_of lambda G AT numSS j).
Proof.
  unfold getx. intros Hlen.
  destruct (overflow_dec lambda G AT numSS numTotal 0) as [H|[j [Hj Hf]]].
  - rewrite getx_loop_ok by exact H. simpl. intros _ j Hj.
    unfold write_x.
    apply (forloop_upd_in (fun j => exp (logx_of lambda G AT numSS j))); lia.
  - rewrite (getx_loop_overflow lambda G AT numSS numTotal 0 j) by assumption.
    simpl. discriminate.
Qed.

Lemma getx_length (x lambda G : list D) (AT : list (list Z)) (numSS numTotal : nat) :
  length (snd (getx x lambda G AT numSS numTotal)) = length x.
Proof.
  unfold getx.
  destruct (overflow_dec lambda G AT numSS numTotal 0) as [H|[j [Hj Hf]]].
  - rewrite getx_loop_ok by exact H. apply forloop_upd_length.
  - rewrite (getx_loop_overflow lambda G AT numSS numTotal 0 j) by assumption.
    apply forloop_upd_length.
Qed.

(** C4.  For every lambda, G and AT (held in buffers other than the one [x]
    points to), [getx] reports overflow exactly when some complex j has
    -G[j] + <lambda, AT[j]> > MAXLOGX; when it reports success, x[j] is
    exp(-G[j] + <lambda, AT[j]>) for every j; and in either case the buffers
    of lambda and G hold what they held.  The function of the same name on
    buffer contents, which the driver is written with, is this one. *)
Theorem getx_spec (m : memory) (px pl pG : nat) (AT : list (list Z))
    (numSS numTotal : nat) :
  px <> pl -> px <> pG -> (px < length m)%nat -> (numTotal <= length m.r[px])%nat ->
  let lambda := m.r[pl] in
  let G := m.r[pG] in
  let r := fst (getx_mem px pl pG AT numSS numTotal m) in
  let m' := snd (getx_mem px pl pG AT numSS numTotal m) in
  (r = 0%Z <-> exists j, (j < numTotal)%nat /\
                 (- G.[j] + didot lambda AT.r[j] numSS >? MAXLOGX) = true) /\
  (r <> 0%Z -> r = 1%Z /\ forall j, (j < numTotal)%nat ->
                 m'.r[px].[j] = exp (- G.[j] + didot lambda AT.r[j] numSS)) /\
  m'.r[pl] = lambda /\ m'.r[pG] = G /\
  (r, m'.r[px]) = getx m.r[px] lambda G AT numSS numTotal.
Proof.
  intros Hl HG Hpx Hlen lambda G r m'.
  subst r m'. unfold getx_mem.
  rewrite getx_mem_loop_pure by assumption. simpl fst; simpl snd.
  fold (getx m.r[px] m.r[pl] m.r[pG] AT numSS numTotal).
  fold lambda; fold G.
  rewrite nth_upd_same by exact Hpx.
  rewrite !nth_upd_other by congruence.
  split; [apply getx_overflow_iff|].
  split.
  - intros Hr.
    destruct (getx_flag m.r[px] lambda G AT numSS numTotal) as [E|E]; [congruence|].
    split; [exact E|]. intros j Hj.
    apply (getx_success m.r[px] lambda G AT numSS numTotal Hlen E j Hj).
  - repeat split; try reflexivity.
    destruct (getx m.r[px] lambda G AT numSS numTotal); reflexivity.
Qed.

(** C10.  When [getx] reports overflow at complex j (the first whose log
    exceeds MAXLOGX), the cells x[0..j-1] hold the newly computed mole
    fractions and the cells from j on hold what they held before: the
    buffer is left with new values below j and old values from j on. *)
Theorem getx_overflow_partial_write (x lambda G : list D) (AT : list (list Z))
    (numSS numTotal j : nat) :
  (numTotal <= length x)%nat -> (j < numTotal)%nat ->
  first_overflow lambda G AT numSS 0 j ->
  let r := fst (getx x lambda G AT numSS numTotal) in
  let x' := snd (getx x lambda G AT numSS numTotal) in
  r = 0%Z /\ length x' = length x /\
  (forall k, (k < j)%nat -> x'.[k] = exp (- G.[k] + didot lambda AT.r[k] numSS)) /\
  (forall k, (j <= k)%nat -> x'.[k] = x.[k]).
Proof.
  intros Hlen Hj Hf r x'. subst r x'. unfold getx.
  rewrite (getx_loop_overflow lambda G AT numSS numTotal 0 j) by (try lia; assumption).
  simpl fst; simpl snd. rewrite Nat.sub_0_r. unfold write_x.
  split; [reflexivity|]. split; [apply forloop_upd_length|]. split.
  - intros k Hk.
    apply (forloop_upd_in (fun j => exp (logx_of lambda G AT numSS j))); lia.
  - intros k Hk. apply forloop_upd_out. lia.
Qed.

End GetxSpec.

(* ================================================================== *)
(** ** Vectors written cell by cell *)

Section Vectors.

Context {D : Type} {DD : Double D}.
Local Open Scope dbl_scope.

Lemma nth_map_seq {B : Type} (f : nat -> B) (n k : nat) (d : B) :
  (k < n)%nat -> nth k (map f (seq 0 n)) d = f k.
Proof.
  intros Hk.
  rewrite (nth_indep _ d (f 0%nat)) by (rewrite length_map, length_seq; exact Hk).
  rewrite (map_nth f (seq 0 n) 0%nat k), seq_nth by exact Hk. reflexivity.
Qed.

(** A buffer of [n] cells filled by [for (i = 0; i < n; i++) v[i] = f i]. *)
Lemma fill_is_map (f : nat -> D) (n : nat) (v : list D) :
  length v = n ->
  forloop 0 n (fun i v => upd i (f i) v) v = map f (seq 0 n).
Proof.
  intros Hlen. apply (nth_ext _ _ d0 d0).
  - rewrite (forloop_upd_length (fun i _ => f i)), length_map, length_seq. exact Hlen.
  - intros k Hk. rewrite (forloop_upd_length (fun i _ => f i)) in Hk.
    rewrite forloop_upd_in by lia. rewrite nth_map_seq by lia. reflexivity.
Qed.

(** The same when cell [i] is computed from the old cell [i]. *)
Lemma refill_is_map (g : nat -> D -> D) (n : nat) (v : list D) :
  length v = n ->
  forloop 0 n (fun i v => upd i (g i v.[i]) v) v = map (fun i => g i v.[i]) (seq 0 n).
Proof.
  intros Hlen. apply (nth_ext _ _ d0 d0).
  - rewrite (forloop_upd_length (fun i v => g i v.[i])), length_map, length_seq. exact Hlen.
  - intros k Hk. rewrite (forloop_upd_length (fun i v => g i v.[i])) in Hk.
    rewrite (forloop_upd_cell g) by lia. rewrite nth_map_seq by lia. reflexivity.
Qed.

(** A loop that writes cell [i] only when [c i] holds. *)
Lemma forloop_cond_upd (c : nat -> bool) (f : nat -> D) (lo n : nat) (v : list D) (k : nat) :
  (lo <= k < lo + n)%nat -> (lo + n <= length v)%nat ->
  (forloop lo n (fun i v => if c i then upd i (f i) v else v) v).[k]
  = if c k then f k else v.[k].
Proof.
  unfold forloop. revert lo v.
  induction n as [|n IH]; intros lo v Hk Hlen; simpl; [lia|].
  assert (Hout : forall (m : nat) (lo' : nat) (w : list D), (k < lo')%nat ->
            (fold_left (fun s i => if c i then upd i (f i) s else s) (seq lo' m) w).[k] = w.[k]).
  { induction m as [|m IHm]; intros lo' w Hlt; simpl; [reflexivity|].
    rewrite IHm by lia. destruct (c lo'); [apply nth_upd_other; lia|reflexivity]. }
  assert (Hl : length (if c lo then upd lo (f lo) v else v) = length v)
    by (destruct (c lo); [apply upd_length|reflexivity]).
  destruct (Nat.eq_dec k lo) as [->|Hne].
  - rewrite Hout by lia. destruct (c lo); [apply nth_upd_same; lia|reflexivity].
  - rewrite IH by (rewrite ?Hl; lia).
    destruct (c k); [reflexivity|].
    destruct (c lo); [apply nth_upd_other; lia|reflexivity].
Qed.

Lemma forloop_cond_upd_length (c : nat -> bool) (f : nat -> D) (lo n : nat) (v : list D) :
  length (forloop lo n (fun i v => if c i then upd i (f i) v else v) v) = length v.
Proof.
  unfold forloop. revert lo v.
  induction n as [|n IH]; intros lo v; simpl; [reflexivity|].
  rewrite IH. destruct (c lo); [apply upd_length|reflexivity].
Qed.

End Vectors.

(* ================================================================== *)
(** ** The search direction *)

Section SearchDir.

Context {D rng : Type} {DD : Double D} {EE : Extern D rng}.
Local Open Scope dbl_scope.

Variables (Grad : list D) (Hes : list (list D)) (delta : D) (numSS : nat).

(** The quantities of section 4.6, computed as the source computes them. *)
Definition delta2_of : D := pow delta d2.
Definition CholSuccess_of : Z := fst (choleskyDecomposition (HesCopy_of Hes numSS) numSS).
Definition Newton_step : list D :=
  let HesCopy := snd (choleskyDecomposition (HesCopy_of Hes numSS) numSS) in
  map (fun i => (choleskySolve HesCopy numSS Grad (malloc numSS)).[i] * - d1) (seq 0 numSS).
Definition Cauchy_dir : list D :=
  let HGrad := MatrixVectorMult Hes Grad numSS in
  map (fun i => dot Grad Grad numSS / dot Grad HGrad numSS * - Grad.[i]) (seq 0 numSS).
Definition normsq (v : list D) : D := dot v v numSS.

(** The coefficients of the quadratic and its two roots. *)
Definition dogleg_a : D :=
  normsq Newton_step + normsq Cauchy_dir - d2 * dot Newton_step Cauchy_dir numSS.
Definition dogleg_b : D := of_int 2 * (dot Newton_step Cauchy_dir numSS - normsq Cauchy_dir).
Definition dogleg_c : D := normsq Cauchy_dir - delta2_of.
Definition dogleg_q : D :=
  - d0_5 * (dogleg_b + (if dogleg_b <? d0 then of_int (-1) else of_int 1)
                       * sqrt (dogleg_b * dogleg_b - of_int 4 * dogleg_a * dogleg_c)).
Definition root1 : D := dogleg_q / dogleg_a.
Definition root2 : D := dogleg_c / dogleg_q.
Definition in_unit (t : D) : bool := ((t >=? d0) && (t <=? d1))%bool.

(** [p'] agrees with [v] on the first [numSS] cells and with [p] elsewhere. *)
Definition step_is (p p' v : list D) : Prop :=
  length p' = length p /\
  (forall i, (i < numSS)%nat -> p'.[i] = v.[i]) /\
  (forall i, (numSS <= i)%nat -> p'.[i] = p.[i]).

Definition Newton_taken : bool :=
  ((CholSuccess_of =? 1)%Z && (normsq Newton_step <=? delta2_of))%bool.

Lemma step_is_fill (p : list D) (f : nat -> D) :
  (numSS <= length p)%nat ->
  step_is p (forloop 0 numSS (fun i p => upd i (f i) p) p) (map f (seq 0 numSS)).
Proof.
  intros Hlen. split; [apply (forloop_upd_length (fun i _ => f i))|]. split.
  - intros i Hi. rewrite forloop_upd_in by lia. rewrite nth_map_seq by lia. reflexivity.
  - intros i Hi. apply (forloop_upd_out (fun i _ => f i)). lia.
Qed.

Lemma map_nth_seq_id (v : list D) :
  length v = numSS -> map (fun i => v.[i]) (seq 0 numSS) = v.
Proof.
  intros Hlen. apply (nth_ext _ _ d0 d0).
  - rewrite length_map, length_seq. symmetry; exact Hlen.
  - intros k Hk. rewrite length_map, length_seq in Hk.
    apply (nth_map_seq (fun i => v.[i])). exact Hk.
Qed.

Lemma step_is_copy (p v : list D) :
  (numSS <= length p)%nat -> length v = numSS ->
  step_is p (forloop 0 numSS (fun i p => upd i v.[i] p) p) v.
Proof.
  intros Hp Hv.
  pose proof (step_is_fill p (fun i => v.[i]) Hp) as H.
  rewrite (map_nth_seq_id v Hv) in H. exact H.
Qed.

End SearchDir.

Section SearchDirSpec.

Context {D rng : Type} {DD : Double D} {EE : Extern D rng}.
Local Open Scope dbl_scope.

Lemma Cauchy_dir_computed (Grad : list D) (Hes : list (list D)) (numSS : nat) :
  let pU := forloop 0 numSS (fun i pU => upd i (- Grad.[i]) pU) (malloc numSS) in
  let pUcoeff := dot Grad Grad numSS / dot Grad (MatrixVectorMult Hes Grad numSS) numSS in
  forloop 0 numSS (fun i pU => upd i (pUcoeff * pU.[i]) pU) pU = Cauchy_dir Grad Hes numSS.
Proof.
  intros pU pUcoeff. subst pU.
  rewrite (fill_is_map (fun i => - Grad.[i])) by apply malloc_length.
  rewrite (refill_is_map (fun _ a => pUcoeff * a)) by (rewrite length_map, length_seq; reflexivity).
  unfold Cauchy_dir. apply map_ext_in. intros i Hi. apply in_seq in Hi.
  rewrite (nth_map_seq (fun i => - Grad.[i])) by lia. reflexivity.
Qed.

Lemma Newton_step_computed (Grad : list D) (Hes : list (list D)) (numSS : nat) :
  let HesCopy := snd (choleskyDecomposition (HesCopy_of Hes numSS) numSS) in
  length (choleskySolve HesCopy numSS Grad (malloc numSS)) = numSS ->
  forloop 0 numSS (fun i pB => upd i (pB.[i] * - d1) pB)
    (choleskySolve HesCopy numSS Grad (malloc numSS)) = Newton_step Grad Hes numSS.
Proof.
  intros HesCopy Hlen.
  rewrite (refill_is_map (fun _ a => a * - d1)) by exact Hlen.
  reflexivity.
Qed.

(** [getSearchDir] as a case split over the quantities of section 4.6. *)
Lemma getSearchDir_cases (p Grad : list D) (Hes : list (list D)) (delta : D)
    (numSS : nat) :
  length (choleskySolve (snd (choleskyDecomposition (HesCopy_of Hes numSS) numSS))
            numSS Grad (malloc numSS)) = numSS ->
  let copy (v : list D) := forloop 0 numSS (fun i p => upd i v.[i] p) p in
  let chol := CholSuccess_of Hes numSS in
  let pB := Newton_step Grad Hes numSS in
  let pU := Cauchy_dir Grad Hes numSS in
  let delta2 := delta2_of delta in
  let alpha1 := root1 Grad Hes delta numSS in
  let alpha2 := root2 Grad Hes delta numSS in
  getSearchDir p Grad Hes delta numSS =
  if Newton_taken Grad Hes delta numSS then (1%Z, copy pB)
  else if normsq numSS pU >=? delta2
  then (if (chol =? 1)%Z then 2%Z else 5%Z,
        forloop 0 numSS
          (fun i p => upd i (sqrt (delta2 / normsq numSS pU) * pU.[i]) p) p)
  else if negb (chol =? 1)%Z then (4%Z, copy pU)
  else if in_unit alpha2
  then (3%Z, forloop 0 numSS
               (fun i p => upd i (pU.[i] + alpha2 * (pB.[i] - pU.[i])) p) p)
  else if in_unit alpha1
  then (3%Z, forloop 0 numSS
               (fun i p => upd i (pU.[i] + alpha1 * (pB.[i] - pU.[i])) p) p)
  else (6%Z, copy pU).
Proof.
  intros Hsolve copy chol pB pU delta2 alpha1 alpha2.
  unfold getSearchDir.
  pose proof (Newton_step_computed Grad Hes numSS Hsolve) as HB.
  pose proof (Cauchy_dir_computed Grad Hes numSS) as HU. cbv zeta in HU.
  unfold Newton_taken.
  assert (Hchol : chol = fst (choleskyDecomposition (HesCopy_of Hes numSS) numSS))
    by reflexivity.
  destruct (choleskyDecomposition (HesCopy_of Hes numSS) numSS) as [cs hc] eqn:Ecs.
  simpl in Hchol, HB. fold chol. rewrite Hchol. clear Hchol.
  rewrite HU.
  destruct (cs =? 1)%Z eqn:Ec.
  - rewrite HB. reflexivity.
  - reflexivity.
Qed.

(** C5.  [getSearchDir] takes the dogleg decision of section 4.6: the
    Newton step pB (code 1) when Cholesky succeeded and |pB|^2 <= delta^2;
    otherwise the Cauchy direction pU scaled to the boundary when
    |pU|^2 >= delta^2 (code 2, or 5 when Cholesky failed); otherwise pU
    itself when Cholesky failed (code 4); otherwise the dogleg point
    pU + alpha (pB - pU) (code 3) with alpha the root c/q if it lies in
    [0,1], else the root q/a if that one does; and pU with code 6 when
    neither root lies in [0,1]. *)
Theorem getSearchDir_dogleg (p Grad : list D) (Hes : list (list D)) (delta : D)
    (numSS : nat) :
  (numSS <= length p)%nat ->
  length (choleskySolve (snd (choleskyDecomposition (HesCopy_of Hes numSS) numSS))
            numSS Grad (malloc numSS)) = numSS ->
  let code := fst (getSearchDir p Grad Hes delta numSS) in
  let p' := snd (getSearchDir p Grad Hes delta numSS) in
  let chol := CholSuccess_of Hes numSS in
  let pB := Newton_step Grad Hes numSS in
  let pU := Cauchy_dir Grad Hes numSS in
  let delta2 := delta2_of delta in
  let alpha1 := root1 Grad Hes delta numSS in
  let alpha2 := root2 Grad Hes delta numSS in
  let along (alpha : D) := map (fun i => pU.[i] + alpha * (pB.[i] - pU.[i])) (seq 0 numSS) in
  (chol = 1%Z /\ (normsq numSS pB <=? delta2) = true ->
     code = 1%Z /\ step_is numSS p p' pB) /\
  (~ (chol = 1%Z /\ (normsq numSS pB <=? delta2) = true) ->
     ((normsq numSS pU >=? delta2) = true ->
        code = (if (chol =? 1)%Z then 2%Z else 5%Z) /\
        step_is numSS p p'
          (map (fun i => sqrt (delta2 / normsq numSS pU) * pU.[i]) (seq 0 numSS))) /\
     ((normsq numSS pU >=? delta2) = false ->
        (chol <> 1%Z -> code = 4%Z /\ step_is numSS p p' pU) /\
        (chol = 1%Z ->
           (in_unit alpha2 = true -> code = 3%Z /\ step_is numSS p p' (along alpha2)) /\
           (in_unit alpha2 = false -> in_unit alpha1 = true ->
              code = 3%Z /\ step_is numSS p p' (along alpha1)) /\
           (in_unit alpha2 = false -> in_unit alpha1 = false ->
              code = 6%Z /\ step_is numSS p p' pU)))).
Proof.
  intros Hp Hsolve code p' chol pB pU delta2 alpha1 alpha2 along.
  subst code p'. rewrite (getSearchDir_cases p Grad Hes delta numSS Hsolve).
  cbv zeta. fold chol pB pU delta2 alpha1 alpha2.
  assert (HpU : length pU = numSS).
  { unfold pU, Cauchy_dir. rewrite length_map, length_seq. reflexivity. }
  assert (HpB : length pB = numSS).
  { unfold pB, Newton_step. rewrite length_map, length_seq. reflexivity. }
  unfold Newton_taken. fold chol pB delta2.
  destruct (chol =? 1)%Z eqn:Ec;
    [apply Z.eqb_eq in Ec|apply Z.eqb_neq in Ec];
    destruct (normsq numSS pB <=? delta2) eqn:EB;
    destruct (normsq numSS pU >=? delta2) eqn:EU;
    destruct (in_unit alpha2) eqn:E2;
    destruct (in_unit alpha1) eqn:E1;
    simpl;
    repeat match goal with
           | |- _ /\ _ => split
           | |- _ -> _ => intro
           | H : _ /\ _ |- _ => destruct H
           | H : ~ (_ /\ _) |- _ => exfalso; apply H; split; [assumption|reflexivity]
           | |- step_is _ _ (forloop _ _ (fun i p => upd i ?v.[i] p) _) ?v =>
               apply step_is_copy; assumption
           | |- step_is _ _ _ _ => apply step_is_fill; assumption
           end;
    try reflexivity; try discriminate; try contradiction.
Qed.

End SearchDirSpec.

(* ================================================================== *)
(** ** The initial guess *)

Section InitialGuess.

Context {D rng : Type} {DD : Double D} {EE : Extern D rng}.
Local Open Scope dbl_scope.

(** Row [row] of A has exactly one non-zero entry, in column [j]. *)
Definition one_nonzero (row : list Z) (numTotal j : nat) : Prop :=
  (j < numTotal)%nat /\ row.z[j] <> 0%Z /\
  forall k, (k < numTotal)%nat -> k <> j -> row.z[k] = 0%Z.

Lemma sumint_S (row : list Z) (n : nat) :
  sumint row (S n) = (sumint row n + row.z[n])%Z.
Proof. unfold sumint. rewrite seq_S, fold_left_app. reflexivity. Qed.

Lemma sumint_one_nonzero (row : list Z) (numTotal j : nat) :
  one_nonzero row numTotal j -> sumint row numTotal = row.z[j].
Proof.
  intros [Hj [_ Hz]].
  assert (H : forall n, (n <= numTotal)%nat ->
            sumint row n = if (j <? n)%nat then row.z[j] else 0%Z).
  { induction n as [|n IH]; intros Hn; [reflexivity|].
    rewrite sumint_S, IH by lia.
    destruct (Nat.ltb_spec j n), (Nat.ltb_spec j (S n)); try lia.
    - rewrite (Hz n) by lia. lia.
    - replace n with j by lia. lia.
    - rewrite (Hz n) by lia. lia. }
  rewrite H by lia. destruct (Nat.ltb_spec j numTotal); [reflexivity|lia].
Qed.

Lemma FindNonZero_one_nonzero (row : list Z) (numTotal j : nat) :
  one_nonzero row numTotal j -> FindNonZero row numTotal = Z.of_nat j.
Proof.
  intros [Hj [Hnz Hz]]. unfold FindNonZero.
  assert (H : forall m lo, (lo <= j < lo + m)%nat -> (lo + m <= numTotal)%nat ->
            FindNonZero_from (seq lo m) row = Z.of_nat j).
  { induction m as [|m IH]; intros lo Hlo Hm; [lia|]. simpl.
    destruct (Nat.eq_dec lo j) as [->|Hne].
    - destruct (Z.eqb_spec row.z[j] 0); [contradiction|reflexivity].
    - rewrite (Hz lo) by lia. simpl. apply IH; lia. }
  apply H; lia.
Qed.

Lemma PerturbLambda_length (fuel : nat) (lambda : list D) (PerturbScale : D)
    (G : list D) (AT : list (list Z)) (numSS numTotal : nat) (dummyx : list D)
    (gen : rng) (lambda' : list D) (gen' : rng) :
  PerturbLambda fuel lambda PerturbScale G AT numSS numTotal dummyx gen
    = Some (lambda', gen') ->
  length lambda' = length lambda.
Proof.
  revert PerturbScale dummyx gen.
  induction fuel as [|fuel IH]; intros s dummyx gen H; simpl in H; [discriminate|].
  destruct (forloop 0 numSS _ (malloc numSS, gen)) as [newlambda g1].
  destruct (getx dummyx newlambda G AT numSS numTotal) as [xOK dummyx'].
  destruct (xOK =? 0)%Z.
  - eapply IH; exact H.
  - inversion H; subst.
    apply (forloop_upd_length (fun i _ => newlambda.[i])).
Qed.

(** C6.  After [getInitialGuess] returns, with or without the perturbation
    (which runs after the uniform assignment and before this override),
    every monomer i whose row of A has exactly one non-zero entry, in column
    j, has lambda[i] = log(x0[i]) + G[j], the monomer being among the
    complexes as its own complex of size 1: some column k has A[i][k] = 1
    (x0[i] is the mole fraction of that complex; with one non-zero entry in
    the row, k is j).  The test of line 277 is that the row sums to 1, which
    on such a row holds; whatever the row, one that sums to 1 gets
    lambda[i] = log(x0[i]) + G[j], j the first column with A[i][j] <> 0.
    Without a seed the function always returns. *)
Theorem getInitialGuess_pins (fuel : nat) (x0 lambda G : list D) (AT A : list (list Z))
    (numSS numTotal : nat) (PerturbScale : D) (rand_seed : Z) (gen : rng) :
  (numSS <= length lambda)%nat ->
  (rand_seed = 0%Z ->
     getInitialGuess fuel x0 lambda G AT A numSS numTotal PerturbScale rand_seed gen
       <> None) /\
  forall lambda' gen',
    getInitialGuess fuel x0 lambda G AT A numSS numTotal PerturbScale rand_seed gen
      = Some (lambda', gen') ->
    length lambda' = length lambda /\
    (forall i j k, (i < numSS)%nat -> one_nonzero A.r[i] numTotal j ->
       (k < numTotal)%nat -> A.r[i].z[k] = 1%Z ->
       lambda'.[i] = log x0.[i] + G.[j]) /\
    (forall i, (i < numSS)%nat -> sumint A.r[i] numTotal = 1%Z ->
       lambda'.[i] = log x0.[i] + G.[Z.to_nat (FindNonZero A.r[i] numTotal)]).
Proof.
  intros Hlen. unfold getInitialGuess.
  set (LambdaVal := forloop 1 (numTotal - 1) _ _).
  set (lam0 := forloop 0 numSS (fun i l => upd i LambdaVal l) lambda).
  assert (Hlam0 : length lam0 = length lambda)
    by apply (forloop_upd_length (fun _ _ => LambdaVal)).
  set (pin := fun i : nat => (sumint A.r[i] numTotal =? 1)%Z).
  set (val := fun i : nat => log x0.[i] + G.[Z.to_nat (FindNonZero A.r[i] numTotal)]).
  assert (Hpin : forall l, (numSS <= length l)%nat ->
            length (forloop 0 numSS
                      (fun i l => if pin i then upd i (val i) l else l) l) = length l /\
            forall i, (i < numSS)%nat -> sumint A.r[i] numTotal = 1%Z ->
              (forloop 0 numSS
                 (fun i l => if pin i then upd i (val i) l else l) l).[i] = val i).
  { intros l Hl. split; [apply forloop_cond_upd_length|].
    intros i Hi Hs. rewrite forloop_cond_upd by lia.
    unfold pin. rewrite Hs. reflexivity. }
  split.
  - intros ->. simpl. discriminate.
  - intros lambda' gen' H.
    assert (Hmid : exists l, (numSS <= length l)%nat /\ length l = length lambda /\
              lambda' = forloop 0 numSS
                          (fun i l => if pin i then upd i (val i) l else l) l).
    { destruct (rand_seed =? 0)%Z.
      - inversion H; subst. exists lam0. repeat split; lia.
      - destruct (PerturbLambda fuel lam0 PerturbScale G AT numSS numTotal
                    (malloc numTotal) gen) as [[l g]|] eqn:EP; [|discriminate].
        inversion H; subst. apply PerturbLambda_length in EP.
        exists l. repeat split; lia. }
    destruct Hmid as [l [Hl [Hll ->]]].
    destruct (Hpin l Hl) as [HL HP].
    split; [lia|]. split; [|exact HP].
    intros i j k Hi Hone Hk H1.
    assert (Hkj : k = j).
    { destruct Hone as (_ & _ & Hz). destruct (Nat.eq_dec k j) as [E|E]; [exact E|].
      rewrite (Hz k Hk E) in H1. discriminate. }
    subst k.
    rewrite HP by (try assumption; rewrite (sumint_one_nonzero _ _ _ Hone); exact H1).
    unfold val. rewrite (FindNonZero_one_nonzero _ _ _ Hone), Nat2Z.id. reflexivity.
Qed.

End InitialGuess.

(* ================================================================== *)
(** ** The driver: loops *)

Section Driver.

Context {D rng : Type} {DD : Double D} {EE : Extern D rng}.
Local Open Scope dbl_scope.

Variables (A : list (list Z)) (G x0 : list D) (numSS numTotal : nat).
Variables (MaxIters : Z) (tol deltaBar eta kT : D) (MaxNoStep MaxTrial : Z).
Variables (PerturbScale MolesWaterPerLiter : D) (seed : Z).
Variable pfuel : nat.

Abbreviation AbsTol := (AbsTol_of x0 numSS tol).
Abbreviation AT := (AT_of A numSS numTotal).
Abbreviation InnerBody := (inner_body A G x0 numSS numTotal deltaBar eta).
Abbreviation InnerGuard := (inner_guard x0 numSS MaxIters tol MaxNoStep).
Abbreviation TrustRegion := (trust_region A G x0 numSS numTotal MaxIters tol deltaBar eta MaxNoStep).
Abbreviation TrialBody :=
  (trial_body A G x0 numSS numTotal MaxIters tol deltaBar eta MaxNoStep PerturbScale seed pfuel).
Abbreviation OuterGuard := (outer_guard x0 numSS tol MaxTrial).
Abbreviation Trials :=
  (trials A G x0 numSS numTotal MaxIters tol deltaBar eta MaxNoStep MaxTrial PerturbScale seed pfuel).

Lemma CheckTol_flag (Grad Tol : list D) (n : nat) :
  CheckTol Grad Tol n = 0%Z \/ CheckTol Grad Tol n = 1%Z.
Proof.
  unfold CheckTol. generalize (seq 0 n) as idx.
  induction idx as [|i idx IH]; simpl; [right; reflexivity|].
  destruct (fabs Grad.[i] >? Tol.[i]); [left; reflexivity|exact IH].
Qed.

Lemma CheckTol_1 (Grad Tol : list D) (n : nat) :
  CheckTol Grad Tol n = 1%Z ->
  forall i, (i < n)%nat -> (fabs Grad.[i] >? Tol.[i]) = false.
Proof.
  unfold CheckTol. intros H i Hi.
  assert (Hin : In i (seq 0 n)) by (apply in_seq; lia).
  revert H Hin. generalize (seq 0 n) as idx.
  induction idx as [|k idx IH]; simpl; intros H Hin; [contradiction|].
  destruct (fabs Grad.[k] >? Tol.[k]) eqn:E; [discriminate|].
  destruct Hin as [->|Hin]; [exact E|apply IH; assumption].
Qed.

(** What one pass of the trust-region loop leaves in the state. *)
Lemma inner_body_Ret (st st' : state D rng) :
  InnerBody st = Ret st' ->
  let Hes := getHes (st_x st) A numSS numTotal in
  let p := snd (getSearchDir (st_p st) (st_Grad st) Hes (st_delta st) numSS) in
  let rho := getRho (st_lambda st) p (st_Grad st) (st_x st) Hes x0 G AT numSS numTotal in
  st_iters st' = (st_iters st + 1)%Z /\
  st_nTrial st' = st_nTrial st /\
  st_rand_seed st' = st_rand_seed st /\
  st_gen st' = st_gen st /\
  st_p st' = p /\
  st_delta st' = adjust_delta numSS deltaBar rho p (st_delta st) /\
  (st_lambda st', st_nNoStep st') =
    (if rho >? eta
     then (forloop 0 numSS (fun i l => upd i (l.[i] + p.[i]) l) (st_lambda st), 0%Z)
     else (st_lambda st, (st_nNoStep st + 1)%Z)) /\
  getx (st_x st) (st_lambda st') G AT numSS numTotal = (1%Z, st_x st') /\
  st_Grad st' = getGrad (st_Grad st) x0 (st_x st') A numSS numTotal.
Proof.
  intros H Hes p rho. unfold inner_body in H. fold Hes in H.
  subst rho p.
  destruct (getSearchDir (st_p st) (st_Grad st) Hes (st_delta st) numSS)
    as [code p0] eqn:Ep.
  simpl snd in *.
  set (rho := getRho (st_lambda st) p0 (st_Grad st) (st_x st) Hes x0 G AT numSS numTotal) in *.
  destruct (if rho >? eta then _ else _) as [lam nns] eqn:El.
  destruct (getx (st_x st) lam G AT numSS numTotal) as [ok x] eqn:Ex.
  destruct (ok =? 0)%Z eqn:Eok; [discriminate|].
  assert (ok = 1%Z).
  { pose proof (getx_flag (st_x st) lam G AT numSS numTotal) as F.
    rewrite Ex in F. simpl in F. apply Z.eqb_neq in Eok. lia. }
  subst ok. inversion H; subst st'; simpl.
  repeat split; try reflexivity; assumption.
Qed.

Lemma trust_region_total (n : nat) (st : state D rng) :
  (MaxIters - st_iters st <= Z.of_nat n)%Z -> TrustRegion n st <> OutOfFuel.
Proof.
  revert st. induction n as [|n IH]; intros st Hn; simpl.
  - destruct (InnerGuard st) eqn:Eg; [|discriminate].
    unfold inner_guard in Eg.
    apply andb_prop in Eg; destruct Eg as [Eg _].
    apply andb_prop in Eg; destruct Eg as [Eg _].
    apply Z.ltb_lt in Eg. lia.
  - destruct (InnerGuard st) eqn:Eg; [|discriminate].
    destruct (InnerBody st) as [st'| | |] eqn:Eb; simpl; try discriminate.
    + apply IH. apply inner_body_Ret in Eb. destruct Eb as [Hi _]. lia.
    + exfalso. unfold inner_body in Eb.
      destruct (getSearchDir _ _ _ _ _) as [code p0].
      destruct (if _ >? eta then _ else _) as [lam nns].
      destruct (getx (st_x st) lam G AT numSS numTotal) as [ok x].
      destruct (ok =? 0)%Z; discriminate.
Qed.

(** A property of the state that every pass keeps holds when the loop
    returns, and then the guard is false. *)
Lemma trust_region_inv (I : state D rng -> Prop) :
  (forall st st', I st -> InnerGuard st = true -> InnerBody st = Ret st' -> I st') ->
  forall n st st', I st -> TrustRegion n st = Ret st' ->
    I st' /\ InnerGuard st' = false.
Proof.
  intros Hstep. induction n as [|n IH]; intros st st' HI H; simpl in H.
  - destruct (InnerGuard st) eqn:Eg; [discriminate|].
    inversion H; subst. split; assumption.
  - destruct (InnerGuard st) eqn:Eg.
    + destruct (InnerBody st) as [st1| | |] eqn:Eb; simpl in H; try discriminate.
      apply (IH st1); [|exact H]. eapply Hstep; eassumption.
    + inversion H; subst. split; assumption.
Qed.

(** [Grad] is the gradient at [x]: what [getGrad] leaves in it. *)
Definition grad_ok (st : state D rng) : Prop :=
  length (st_Grad st) = numSS /\
  forall i, (i < numSS)%nat ->
    (st_Grad st).[i] = - x0.[i] + didot (st_x st) A.r[i] numTotal.

Lemma getGrad_spec (Grad x : list D) :
  length Grad = numSS ->
  grad_ok (mkState x [] (getGrad Grad x0 x A numSS numTotal) [] d0 0 0 0 0 [] (init_genrand 0)).
Proof.
  intros Hlen. unfold grad_ok, getGrad. simpl.
  change (fold_left (fun Grad i => upd i (- x0.[i] + didot x A.r[i] numTotal) Grad)
            (seq 0 numSS) Grad)
    with (forloop 0 numSS (fun i Grad => upd i (- x0.[i] + didot x A.r[i] numTotal) Grad) Grad).
  split.
  - rewrite (forloop_upd_length (fun i _ => - x0.[i] + didot x A.r[i] numTotal)). exact Hlen.
  - intros i Hi.
    apply (forloop_upd_in (fun i => - x0.[i] + didot x A.r[i] numTotal)); lia.
Qed.

Lemma AbsTol_nth (i : nat) : (i < numSS)%nat -> AbsTol.[i] = tol * x0.[i].
Proof.
  intros Hi. unfold AbsTol_of.
  apply (forloop_upd_in (fun i => tol * x0.[i])); rewrite ?malloc_length; lia.
Qed.

Lemma inner_body_grad (st st' : state D rng) :
  grad_ok st -> InnerBody st = Ret st' -> grad_ok st'.
Proof.
  intros [Hlen _] H. apply inner_body_Ret in H.
  destruct H as (_ & _ & _ & _ & _ & _ & _ & _ & HG).
  pose proof (getGrad_spec (st_Grad st) (st_x st') Hlen) as [H1 H2]. simpl in H1, H2.
  unfold grad_ok. rewrite HG. split; assumption.
Qed.

(** What one trial leaves in the state. *)
Lemma trial_body_Ret (st st' : state D rng) :
  TrialBody st = Ret st' ->
  st_nTrial st' = (st_nTrial st + 1)%Z /\
  (length (st_Grad st) = numSS -> grad_ok st').
Proof.
  unfold trial_body. intros H.
  destruct (if (st_nTrial st =? 1)%Z then _ else _) as [rs g].
  destruct (getInitialGuess _ _ _ _ _ _ _ _ _ _ _) as [[lam g']|]; [|discriminate].
  destruct (getx (st_x st) lam G AT numSS numTotal) as [ok x].
  destruct (ok =? 0)%Z; [discriminate|].
  match type of H with
  | (bind (trust_region _ _ _ _ _ _ _ _ _ _ ?n ?s) _) = _ =>
      destruct (TrustRegion n s) as [st1| | |] eqn:Et; simpl in H; try discriminate;
      pose proof (trust_region_inv
                    (fun t => st_nTrial t = st_nTrial s /\
                              (length (st_Grad st) = numSS -> grad_ok t))) as Inv;
      specialize (Inv (fun t t' (It : _ /\ _) _ Hb =>
                    conj (eq_trans (proj1 (proj2 (inner_body_Ret t t' Hb))) (proj1 It))
                         (fun Hl => inner_body_grad t t' (proj2 It Hl) Hb)));
      specialize (Inv n s st1)
  end.
  destruct Inv as [[Hn Hg] _]; [|exact Et|].
  - split; [reflexivity|]. intros Hl.
    pose proof (getGrad_spec (st_Grad st) x Hl) as Hs. exact Hs.
  - inversion H; subst st'; simpl. simpl in Hn. split; [lia|].
    intros Hl. specialize (Hg Hl). exact Hg.
Qed.

Lemma trial_body_not_OutOfFuel (st : state D rng) : TrialBody st <> OutOfFuel.
Proof.
  unfold trial_body.
  destruct (if (st_nTrial st =? 1)%Z then _ else _) as [rs g].
  destruct (getInitialGuess _ _ _ _ _ _ _ _ _ _ _) as [[lam g']|]; [|discriminate].
  destruct (getx (st_x st) lam G AT numSS numTotal) as [ok x].
  destruct (ok =? 0)%Z; [discriminate|].
  match goal with
  | |- (bind (trust_region _ _ _ _ _ _ _ _ _ _ ?n ?s) _) <> _ =>
      pose proof (trust_region_total n s) as T;
      destruct (TrustRegion n s) as [st1| | |]; simpl; try discriminate
  end.
  exfalso. apply T; [|reflexivity]. simpl. lia.
Qed.

Lemma trials_total (n : nat) (st : state D rng) :
  (MaxTrial - st_nTrial st <= Z.of_nat n)%Z -> Trials n st <> OutOfFuel.
Proof.
  revert st. induction n as [|n IH]; intros st Hn; simpl.
  - destruct (OuterGuard st) eqn:Eg; [|discriminate].
    unfold outer_guard in Eg. apply andb_prop in Eg; destruct Eg as [_ Eg].
    apply Z.ltb_lt in Eg. lia.
  - destruct (OuterGuard st) eqn:Eg; [|discriminate].
    pose proof (trial_body_not_OutOfFuel st) as Hb.
    destruct (TrialBody st) as [st'| | |] eqn:Eb; simpl; try discriminate.
    + apply IH. apply trial_body_Ret in Eb. destruct Eb as [Hi _]. lia.
    + contradiction.
Qed.

Lemma trials_inv (I : state D rng -> Prop) :
  (forall st st', I st -> OuterGuard st = true -> TrialBody st = Ret st' -> I st') ->
  forall n st st', I st -> Trials n st = Ret st' ->
    I st' /\ OuterGuard st' = false.
Proof.
  intros Hstep. induction n as [|n IH]; intros st st' HI H; simpl in H.
  - destruct (OuterGuard st) eqn:Eg; [discriminate|].
    inversion H; subst. split; assumption.
  - destruct (OuterGuard st) eqn:Eg.
    + destruct (TrialBody st) as [st1| | |] eqn:Eb; simpl in H; try discriminate.
      apply (IH st1); [|exact H]. eapply Hstep; eassumption.
    + inversion H; subst. split; assumption.
Qed.


Lemma trust_region_stop (n : nat) (st : state D rng) :
  InnerGuard st = false -> TrustRegion n st = Ret st.
Proof. intros H. destruct n; simpl; rewrite H; reflexivity. Qed.

Abbreviation Run :=
  (CalcConc_run A G x0 numSS numTotal MaxIters tol deltaBar eta kT MaxNoStep MaxTrial
     PerturbScale MolesWaterPerLiter seed pfuel).

(** The sentinel gradient of lines 116-118. *)
Definition sentinel_Grad : list D :=
  forloop 0 numSS (fun i g => upd i (AbsTol.[i] + d1) g) (malloc numSS).

(** The counted loops never outrun their counts. *)
Lemma CalcConc_run_not_OutOfFuel (x : list D) (gen : rng) : Run x gen <> OutOfFuel.
Proof.
  unfold CalcConc_run.
  pose proof (trials_total (Z.to_nat MaxTrial) (init_state x0 numSS tol x gen)) as T.
  destruct (Trials (Z.to_nat MaxTrial) (init_state x0 numSS tol x gen)); simpl;
    try discriminate.
  exfalso. apply T; [|reflexivity]. simpl. lia.
Qed.


Lemma trials_S (n : nat) (st : state D rng) :
  Trials (S n) st =
  if OuterGuard st then st' <- TrialBody st ;; Trials n st' else Ret st.
Proof. reflexivity. Qed.

Lemma trials_stop (n : nat) (st : state D rng) :
  OuterGuard st = false -> Trials n st = Ret st.
Proof. intros H. destruct n; simpl; rewrite H; reflexivity. Qed.

(** With [MaxTrial = 1], a first trial that ends within the tolerance makes
    [CalcConc] return 0. *)
Lemma first_trial_flag (x : list D) (gen gen' : rng) (lambda x1 : list D) (st1 : state D rng) :
  MaxTrial = 1%Z ->
  CheckTol sentinel_Grad AbsTol numSS = 0%Z ->
  getInitialGuess pfuel x0 (malloc numSS) G AT A numSS numTotal PerturbScale 0 gen
    = Some (lambda, gen') ->
  getx x lambda G AT numSS numTotal = (1%Z, x1) ->
  TrustRegion (Z.to_nat MaxIters)
    (mkState x1 lambda (getGrad sentinel_Grad x0 x1 A numSS numTotal) (malloc numSS)
       (d0_99 * deltaBar) 0 0 0 0 (repeat 0%Z 6) gen') = Ret st1 ->
  CheckTol (st_Grad st1) AbsTol numSS = 1%Z ->
  CalcConc A G x0 numSS numTotal MaxIters tol deltaBar eta kT MaxNoStep MaxTrial
    PerturbScale MolesWaterPerLiter seed pfuel x gen = Ret (0%Z, st_x st1).
Proof.
  intros HM Hs Hg Hx Ht Hc.
  assert (Hn : st_nTrial st1 = 0%Z).
  { assert (Hstep : forall t t', st_nTrial t = 0%Z -> InnerGuard t = true ->
                       InnerBody t = Ret t' -> st_nTrial t' = 0%Z).
    { intros t t' It _ Hb. apply inner_body_Ret in Hb.
      destruct Hb as (_ & Hn & _). congruence. }
    pose proof (fun H0 => proj1 (trust_region_inv (fun t => st_nTrial t = 0%Z)
                                   Hstep _ _ _ H0 Ht)) as K.
    apply K. reflexivity. }
  unfold CalcConc, CalcConc_run.
  replace (Z.to_nat MaxTrial) with 1%nat by (rewrite HM; reflexivity).
  rewrite trials_S.
  unfold outer_guard at 1. unfold init_state at 1 2. cbn [st_Grad st_nTrial].
  fold sentinel_Grad. rewrite Hs.
  replace (0 <? MaxTrial)%Z with true by (rewrite HM; reflexivity).
  cbn [Z.eqb andb].
  unfold trial_body at 1. unfold init_state.
  cbn [st_nTrial st_rand_seed st_gen st_lambda st_x st_Grad st_p Z.eqb].
  fold sentinel_Grad. rewrite Hg, Hx. cbn [Z.eqb]. rewrite Ht. cbn [bind].
  rewrite trials_stop.
  - cbn [bind fin_ret fin_state st_x st_nTrial]. rewrite Hn, HM. reflexivity.
  - unfold outer_guard. cbn [st_Grad]. rewrite Hc. reflexivity.
Qed.

(** C2, as the code has it.  What [CalcConc] hands back is the [int] flag,
    0 or 1, and the vector x: it is the same whatever kT and
    MolesWaterPerLiter are, the two inputs that only the free energy
    depends on.  The free energy and the run statistics stay in locals. *)
Theorem CalcConc_returns_flag_and_x (x : list D) (gen : rng) (kT' MolesWaterPerLiter' : D) :
  CalcConc A G x0 numSS numTotal MaxIters tol deltaBar eta kT MaxNoStep MaxTrial
    PerturbScale MolesWaterPerLiter seed pfuel x gen =
  CalcConc A G x0 numSS numTotal MaxIters tol deltaBar eta kT' MaxNoStep MaxTrial
    PerturbScale MolesWaterPerLiter' seed pfuel x gen /\
  forall r xf,
    CalcConc A G x0 numSS numTotal MaxIters tol deltaBar eta kT MaxNoStep MaxTrial
      PerturbScale MolesWaterPerLiter seed pfuel x gen = Ret (r, xf) ->
    (r = 0%Z \/ r = 1%Z) /\
    exists f, Run x gen = Ret f /\ r = fin_ret f /\ xf = st_x (fin_state f).
Proof.
  unfold CalcConc, CalcConc_run.
  destruct (Trials (Z.to_nat MaxTrial) (init_state x0 numSS tol x gen)) as [st| | |];
    simpl; split; try reflexivity; try discriminate.
  intros r xf H. inversion H; subst. split.
  - destruct (st_nTrial st =? MaxTrial)%Z; [left|right]; reflexivity.
  - eexists. split; [reflexivity|]. split; reflexivity.
Qed.


End Driver.

(* ================================================================== *)
(** ** A trial point that overflows *)

Section RejectedStep.

Context {D rng : Type} {DD : Double D} {EE : Extern D rng}.
Local Open Scope dbl_scope.

Variables (A : list (list Z)) (G x0 : list D) (numSS numTotal : nat).
Variables (deltaBar eta : D).

(** [lambda] gives no overflow: the state of the loop after every
    successful [getx]. *)
Definition feasible (lambda : list D) : Prop :=
  fst (getx (malloc numTotal) lambda G (AT_of A numSS numTotal) numSS numTotal) = 1%Z.

(** The trial point [lambda + p] of [getRho]. *)
Definition trial_point (lambda p : list D) : list D :=
  forloop 0 numSS (fun i nl => upd i (lambda.[i] + p.[i]) nl) (malloc numSS).

Lemma getRho_overflow (lambda p Grad x : list D) (Hes : list (list D)) :
  fst (getx (malloc numTotal) (trial_point lambda p) G (AT_of A numSS numTotal)
         numSS numTotal) = 0%Z ->
  getRho lambda p Grad x Hes x0 G (AT_of A numSS numTotal) numSS numTotal = - d1.
Proof.
  unfold getRho, trial_point. intros H.
  destruct (getx (malloc numTotal) _ G (AT_of A numSS numTotal) numSS numTotal) as [ok newx].
  simpl in H. subst ok. reflexivity.
Qed.

(** The pass of the loop when the trial point overflows, in any arithmetic
    where -1 > eta is false and -1 < 0.25 is true. *)
Lemma overflow_pass (st : state D rng) :
  (- d1 >? eta) = false -> (- d1 <? d0_25) = true ->
  let Hes := getHes (st_x st) A numSS numTotal in
  let p := snd (getSearchDir (st_p st) (st_Grad st) Hes (st_delta st) numSS) in
  fst (getx (malloc numTotal) (trial_point (st_lambda st) p) G (AT_of A numSS numTotal)
         numSS numTotal) = 0%Z ->
  feasible (st_lambda st) ->
  getRho (st_lambda st) p (st_Grad st) (st_x st) Hes x0 G (AT_of A numSS numTotal)
    numSS numTotal = - d1 /\
  exists st',
    inner_body A G x0 numSS numTotal deltaBar eta st = Ret st' /\
    st_lambda st' = st_lambda st /\
    st_nNoStep st' = (st_nNoStep st + 1)%Z /\
    st_iters st' = (st_iters st + 1)%Z /\
    st_delta st' = st_delta st / d4 /\
    feasible (st_lambda st').
Proof.
  intros Heta H025 Hes p Hov Hfeas.
  pose proof (getRho_overflow (st_lambda st) p (st_Grad st) (st_x st) Hes Hov) as Hrho.
  split; [exact Hrho|].
  unfold inner_body. fold Hes.
  destruct (getSearchDir (st_p st) (st_Grad st) Hes (st_delta st) numSS) as [code p0] eqn:Ep.
  subst p. simpl snd in *. rewrite Hrho, Heta.
  unfold feasible in Hfeas.
  rewrite (getx_flag_indep (malloc numTotal) (st_x st)) in Hfeas.
  destruct (getx (st_x st) (st_lambda st) G (AT_of A numSS numTotal) numSS numTotal)
    as [ok x] eqn:Ex.
  simpl in Hfeas. subst ok. simpl.
  eexists. split; [reflexivity|]. simpl.
  repeat split.
  - unfold adjust_delta. rewrite H025. reflexivity.
  - unfold feasible. rewrite (getx_flag_indep (malloc numTotal) (st_x st)), Ex. reflexivity.
Qed.

(** Every pass that returns leaves a [lambda] that gives no overflow. *)
Lemma inner_body_feasible (st st' : state D rng) :
  inner_body A G x0 numSS numTotal deltaBar eta st = Ret st' -> feasible (st_lambda st').
Proof.
  intros H. apply inner_body_Ret in H.
  destruct H as (_ & _ & _ & _ & _ & _ & _ & Hx & _).
  unfold feasible. rewrite (getx_flag_indep (malloc numTotal) (st_x st)), Hx. reflexivity.
Qed.

End RejectedStep.

(* ================================================================== *)
(** ** IEEE binary64 *)

(** For two numbers, "a is not greater than b" is "a <= b". *)
Lemma SFcompare_not_lt_le (a b : spec_float) :
  SFltb b a = false -> SFeqb a a = true -> SFeqb b b = true -> SFleb a b = true.
Proof.
  unfold SFltb, SFleb, SFeqb.
  destruct a as [sa|sa| |sa ma ea], b as [sb|sb| |sb mb eb];
    try destruct sa; try destruct sb; simpl; try reflexivity; try discriminate;
    intros H _ _.
  all: change (Pos.compare_cont Eq mb ma) with (mb ?= ma)%positive in H;
       change (Pos.compare_cont Eq ma mb) with (ma ?= mb)%positive;
       rewrite (Z.compare_antisym ea eb) in H;
       rewrite (Pos.compare_antisym ma mb) in H;
       destruct (ea ?= eb)%Z; simpl in *; try reflexivity; try discriminate;
       destruct (ma ?= mb)%positive; simpl in *; try reflexivity; discriminate.
Qed.

(** In binary64 a residual that is not greater than its tolerance is less
    than or equal to it, unless one of the two is a NaN. *)
Lemma not_greater_is_le (a b : float) :
  PrimFloat.ltb b a = false ->
  PrimFloat.is_nan a = false -> PrimFloat.is_nan b = false ->
  PrimFloat.leb a b = true.
Proof.
  unfold PrimFloat.is_nan.
  rewrite FloatAxioms.ltb_spec, FloatAxioms.leb_spec, !FloatAxioms.eqb_spec.
  intros H Ha Hb. apply negb_false_iff in Ha, Hb.
  apply SFcompare_not_lt_le; assumption.
Qed.

Section IEEE.

Variables (libm_exp libm_log : float -> float) (libm_pow : float -> float -> float).
Context {rng : Type} {EE : Extern float rng}.

#[local] Instance Float64_here : Double float := Float64 libm_exp libm_log libm_pow.

Lemma Prim2SF_zero : Prim2SF 0 = S754_zero false.
Proof. reflexivity. Qed.

Lemma Prim2SF_minus_one : Prim2SF (-1) = S754_finite true 4503599627370496 (-52).
Proof. reflexivity. Qed.

(** A number above zero is not below -1. *)
Lemma positive_not_below_minus_one (eta : float) :
  PrimFloat.ltb 0 eta = true -> PrimFloat.ltb eta (-1) = false.
Proof.
  rewrite !FloatAxioms.ltb_spec, Prim2SF_zero, Prim2SF_minus_one.
  destruct (Prim2SF eta) as [s|s| |s m e]; try destruct s; simpl;
    try discriminate; reflexivity.
Qed.

(** C8.  If the mole fractions at the trial point lambda + p overflow,
    [getRho] returns -1 and, for every eta above 0 (so for every eta in
    (0, 1/4)), the pass rejects the step: lambda is left as it is, nNoStep
    and iters go up by one, the radius is quartered, the re-evaluation of x
    at the unchanged lambda succeeds, and the pass returns to the loop
    without [exit(ERR_OVERFLOW)]. *)
Theorem overflowing_trial_is_rejected (A : list (list Z)) (G x0 : list float)
    (numSS numTotal : nat) (deltaBar eta : float) (st : state float rng) :
  PrimFloat.ltb 0 eta = true ->
  let Hes := getHes (st_x st) A numSS numTotal in
  let p := snd (getSearchDir (st_p st) (st_Grad st) Hes (st_delta st) numSS) in
  fst (getx (malloc numTotal) (trial_point numSS (st_lambda st) p) G
         (AT_of A numSS numTotal) numSS numTotal) = 0%Z ->
  feasible A G numSS numTotal (st_lambda st) ->
  getRho (st_lambda st) p (st_Grad st) (st_x st) Hes x0 G (AT_of A numSS numTotal)
    numSS numTotal = (-1)%float /\
  exists st',
    inner_body A G x0 numSS numTotal deltaBar eta st = Ret st' /\
    st_lambda st' = st_lambda st /\
    st_nNoStep st' = (st_nNoStep st + 1)%Z /\
    st_iters st' = (st_iters st + 1)%Z /\
    st_delta st' = PrimFloat.div (st_delta st) 4 /\
    feasible A G numSS numTotal (st_lambda st').
Proof.
  intros Heta Hes p Hov Hfeas.
  exact (overflow_pass A G x0 numSS numTotal deltaBar eta st
           (positive_not_below_minus_one eta Heta) eq_refl Hov Hfeas).
Qed.

(** C1, at an input where the code falls short of it.  One single species,
    one complex, A = [[1]], G = [0], x0 = [1], tol = 1e-7, MaxTrial = 1, and
    any C library with exp(0) = 1 and log(1) = 0: the first trial starts at
    lambda = 0, x = 1, where the gradient is 0 and passes the tolerance
    check, and yet [CalcConc] returns 0. *)
Theorem CalcConc_returns_0_after_converging (MaxIters : Z)
    (deltaBar eta kT : float) (MaxNoStep : Z) (PerturbScale MolesWaterPerLiter : float)
    (seed : Z) (pfuel : nat) (xin : float) (gen : rng) :
  libm_exp 0 = 1%float -> libm_log 1 = 0%float -> PrimFloat.ltb MAXLOGX 0 = false ->
  let tol := PrimFloat.div 1 10000000 in
  CalcConc [[1%Z]] [0%float] [1%float] 1 1 MaxIters tol deltaBar eta kT MaxNoStep 1
    PerturbScale MolesWaterPerLiter seed pfuel [xin] gen = Ret (0%Z, [1%float]) /\
  getGrad [0%float] [1%float] [1%float] [[1%Z]] 1 1 = [0%float] /\
  CheckTol [0%float] (AbsTol_of [1%float] 1 tol) 1 = 1%Z.
Proof.
  intros Hexp Hlog Hmax tol.
  assert (Hg : getInitialGuess pfuel [1%float] (malloc 1) [0%float]
                 (AT_of [[1%Z]] 1 1) [[1%Z]] 1 1 PerturbScale 0 gen
               = Some ([0%float], gen)).
  { cbv. rewrite Hlog. reflexivity. }
  assert (Hx : getx [xin] [0%float] [0%float] (AT_of [[1%Z]] 1 1) 1 1
               = (1%Z, [1%float])).
  { cbv -[MAXLOGX]. rewrite Hmax, Hexp. reflexivity. }
  assert (HG : getGrad [0%float] [1%float] [1%float] [[1%Z]] 1 1 = [0%float])
    by reflexivity.
  assert (Hc : CheckTol [0%float] (AbsTol_of [1%float] 1 tol) 1 = 1%Z) by reflexivity.
  split; [|split; assumption].
  set (st1 := mkState [1%float] [0%float] [0%float] (malloc 1)
                (PrimFloat.mul d0_99 deltaBar) 0 0 0 0 (repeat 0%Z 6) gen).
  change [1%float] with (st_x st1) at 2.
  apply (first_trial_flag [[1%Z]] [0%float] [1%float] 1 1 MaxIters tol deltaBar eta kT
           MaxNoStep 1 PerturbScale MolesWaterPerLiter seed pfuel [xin] gen gen
           [0%float] [1%float] st1).
  - reflexivity.
  - reflexivity.
  - exact Hg.
  - exact Hx.
  - apply trust_region_stop. unfold inner_guard.
    change (st_Grad st1) with [0%float].
    rewrite Hc. destruct (_ <? MaxIters)%Z; reflexivity.
  - reflexivity.
Qed.

End IEEE.

(* ================================================================== *)
(** ** The perturbation loop in IEEE binary64 *)

(** Two numbers are the same up to the sign of zero. *)
Definition sf_zero (a : spec_float) : Prop := exists s, a = S754_zero s.
Definition sf_same (a b : spec_float) : Prop := a = b \/ (sf_zero a /\ sf_zero b).
Definition fsame (x y : float) : Prop := sf_same (Prim2SF x) (Prim2SF y).

(** [s], halved [n] times. *)
Fixpoint halved (n : nat) (s : float) : float :=
  match n with
  | O => s
  | S n' => halved n' (PrimFloat.div s 2)
  end.

Lemma sf_same_refl (a : spec_float) : sf_same a a.
Proof. left; reflexivity. Qed.

Lemma SFadd_same (a a' b b' : spec_float) :
  sf_same a a' -> sf_same b b' -> sf_same (SF64add a b) (SF64add a' b').
Proof.
  intros [->|[[sa ->] [sa' ->]]] [->|[[sb ->] [sb' ->]]].
  - left; reflexivity.
  - destruct a' as [s|s| |s m e]; destruct sb, sb'; try (destruct s); simpl;
      try (left; reflexivity); right; split; eexists; reflexivity.
  - destruct b' as [s|s| |s m e]; destruct sa, sa'; try (destruct s); simpl;
      try (left; reflexivity); right; split; eexists; reflexivity.
  - destruct sa, sa', sb, sb'; simpl; right; split; eexists; reflexivity.
Qed.

Lemma SFmul_same (a a' c : spec_float) :
  sf_same a a' -> sf_same (SF64mul a c) (SF64mul a' c).
Proof.
  intros [->|[[sa ->] [sa' ->]]]; [left; reflexivity|].
  destruct c as [s|s| |s m e]; simpl; try (left; reflexivity);
    right; split; eexists; reflexivity.
Qed.

Lemma SFltb_same (a a' c : spec_float) : sf_same a a' -> SFltb c a = SFltb c a'.
Proof.
  intros [->|[[sa ->] [sa' ->]]]; [reflexivity|].
  destruct c as [s|s| |s m e]; reflexivity.
Qed.

Lemma fsame_add (a a' b b' : float) :
  fsame a a' -> fsame b b' -> fsame (PrimFloat.add a b) (PrimFloat.add a' b').
Proof. unfold fsame. rewrite !FloatAxioms.add_spec. apply SFadd_same. Qed.

Lemma fsame_mul (a a' c : float) :
  fsame a a' -> fsame (PrimFloat.mul a c) (PrimFloat.mul a' c).
Proof. unfold fsame. rewrite !FloatAxioms.mul_spec. apply SFmul_same. Qed.

Lemma fsame_ltb (a a' c : float) : fsame a a' -> PrimFloat.ltb c a = PrimFloat.ltb c a'.
Proof. unfold fsame. rewrite !FloatAxioms.ltb_spec. apply SFltb_same. Qed.

(** A finite number is a zero or has a mantissa. *)
Lemma is_finite_sf (y : float) :
  PrimFloat.is_finite y = true ->
  sf_zero (Prim2SF y) \/ exists s m e, Prim2SF y = S754_finite s m e.
Proof.
  unfold PrimFloat.is_finite, PrimFloat.is_nan, PrimFloat.is_infinity.
  rewrite !FloatAxioms.eqb_spec, FloatAxioms.abs_spec.
  change (Prim2SF infinity) with (S754_infinity false).
  destruct (Prim2SF y) as [s|s| |s m e]; simpl; try discriminate.
  - intros _. left. exists s. reflexivity.
  - rewrite orb_true_r. discriminate.
  - intros _. right. exists s, m, e. reflexivity.
Qed.

Lemma eqb_zero_sf (s : float) : PrimFloat.eqb s 0 = true -> sf_zero (Prim2SF s).
Proof.
  rewrite FloatAxioms.eqb_spec. change (Prim2SF 0) with (S754_zero false).
  destruct (Prim2SF s) as [b|b| |b m e]; try destruct b; simpl; try discriminate;
    intros _; eexists; reflexivity.
Qed.

(** Adding a perturbation of scale zero leaves a number as it is, up to the
    sign of zero. *)
Lemma zero_perturbation (l s y : float) :
  PrimFloat.eqb s 0 = true -> PrimFloat.is_finite y = true ->
  fsame (PrimFloat.add l (PrimFloat.mul (PrimFloat.mul s 2) y)) l.
Proof.
  intros Hs Hy. apply eqb_zero_sf in Hs. destruct Hs as [ss Hs].
  unfold fsame. rewrite FloatAxioms.add_spec, !FloatAxioms.mul_spec, Hs.
  change (Prim2SF 2) with (S754_finite false 4503599627370496 (-51)).
  destruct (is_finite_sf y Hy) as [[sy ->]|[sy [my [ey ->]]]];
    destruct (Prim2SF l) as [b|b| |b m e]; simpl;
    try (left; reflexivity);
    destruct b, ss, sy; simpl; try (left; reflexivity);
    right; split; eexists; reflexivity.
Qed.

Section Halving.

Local Open Scope Z_scope.

(** The divisor 2.0. *)
Definition sf_two : spec_float := S754_finite false 4503599627370496 (-51).

Lemma digits2_succ (p : positive) :
  Zpos (digits2_pos (Pos.succ p)) <= Zpos (digits2_pos p) + 1.
Proof. induction p; simpl; lia. Qed.

(* valid finite: e <= 971, max (d + e - 53) (-1074) = e *)
Lemma valid_finite (s : bool) (m : positive) (e : Z) :
  valid_binary (S754_finite s m e) = true ->
  e <= 971 /\ Z.max (Zpos (digits2_pos m) + e - 53) (-1074) = e.
Proof.
  unfold valid_binary, bounded, canonical_mantissa, fexp, SpecFloat.emin, prec, emax.
  intros H. apply andb_prop in H. destruct H as [H1 H2].
  apply Z.eqb_eq in H1. apply Z.leb_le in H2. split; [lia|exact H1].
Qed.


Lemma div_eucl_pair (a b : Z) : Z.div_eucl a b = (a / b, a mod b).
Proof. unfold Z.div, Z.modulo. destruct (Z.div_eucl a b); reflexivity. Qed.

(* no shift needed when the mantissa is short enough *)
Lemma shr_fexp_noshift (m : Z) (l : location) :
  Zdigits2 m <= 53 ->
  shr_fexp prec emax m (-1074) l = (shr_record_of_loc m l, -1074).
Proof.
  intros H. unfold shr_fexp, fexp, SpecFloat.emin, prec, emax.
  replace (Z.max (Zdigits2 m + -1074 - 53) (3 - 1024 - 53) - -1074) with 0 by lia.
  reflexivity.
Qed.

Lemma shr_fexp_normal (m : positive) (e : Z) (l : location) :
  Zpos (digits2_pos m) = 53 -> -1074 <= e ->
  shr_fexp prec emax (Zpos m) e l = (shr_record_of_loc (Zpos m) l, e).
Proof.
  intros H He. unfold shr_fexp, fexp, SpecFloat.emin, prec, emax. cbn [Zdigits2]. rewrite H.
  replace (Z.max (53 + e - 53) (3 - 1024 - 53) - e) with 0 by lia.
  reflexivity.
Qed.


Lemma core_normal (m : positive) (e : Z) :
  Zpos (digits2_pos m) = 53 -> -1072 <= e ->
  SFdiv_core_binary prec emax (Zpos m) e 4503599627370496 (-51) = (Zpos m~0, e - 2, loc_Exact).
Proof.
  intros Hd He. unfold SFdiv_core_binary.
  cbn [Zdigits2]. rewrite Hd.
  change (Zpos (digits2_pos 4503599627370496)) with 53.
  assert (E : Z.min (fexp prec emax (53 + e - (53 + -51))) (e - -51) = e - 2).
  { unfold fexp, SpecFloat.emin, prec, emax. lia. }
  rewrite E.
  replace (e - -51 - (e - 2)) with 53 by lia.
  rewrite Z.shiftl_mul_pow2 by lia.
  change (2 ^ 53) with 9007199254740992.
  replace (Zpos m * 9007199254740992) with (Zpos m~0 * 4503599627370496) by lia.
  rewrite div_eucl_pair, Z.div_mul, Z.mod_mul by discriminate.
  reflexivity.
Qed.

Lemma half_normal (s : bool) (m : positive) (e : Z) :
  Zpos (digits2_pos m) = 53 -> -1072 <= e <= 971 ->
  SF64div (S754_finite s m e) sf_two = S754_finite s m (e - 1).
Proof.
  intros Hd He.
  unfold SF64div, SFdiv, sf_two.
  rewrite core_normal by (try assumption; lia).
  rewrite xorb_false_r.
  unfold binary_round_aux.
  assert (E1 : shr_fexp prec emax (Zpos m~0) (e - 2) loc_Exact
               = ({| shr_m := Zpos m; shr_r := false; shr_s := false |}, e - 1)).
  { unfold shr_fexp. cbn [Zdigits2 digits2_pos]. rewrite Pos2Z.inj_succ, Hd.
    assert (E : fexp prec emax (Z.succ 53 + (e - 2)) - (e - 2) = 1)
      by (unfold fexp, SpecFloat.emin, prec, emax; lia).
    rewrite E. cbn. f_equal. lia. }
  rewrite E1. cbn [shr_m loc_of_shr_record round_nearest_even].
  rewrite shr_fexp_normal by (try assumption; lia).
  cbn [shr_record_of_loc shr_m].
  replace (e - 1 <=? emax - prec) with true
    by (symmetry; apply Z.leb_le; unfold emax, prec; lia).
  reflexivity.
Qed.

Lemma round_subnormal (s : bool) (q : Z) (l : location) :
  0 <= q -> Zdigits2 q <= 53 ->
  Zdigits2 (round_nearest_even q l) <= 53 ->
  binary_round_aux prec emax s q (-1074) l =
  match round_nearest_even q l with
  | Z0 => S754_zero s
  | Zpos m => S754_finite s m (-1074)
  | Zneg _ => S754_nan
  end.
Proof.
  intros Hq Hd Hd'. unfold binary_round_aux.
  rewrite shr_fexp_noshift by exact Hd.
  assert (E : loc_of_shr_record (shr_record_of_loc q l) = l)
    by (destruct l as [|[| |]]; reflexivity).
  assert (E' : shr_m (shr_record_of_loc q l) = q)
    by (destruct l as [|[| |]]; reflexivity).
  rewrite E, E'.
  rewrite shr_fexp_noshift by exact Hd'.
  cbn [shr_record_of_loc shr_m].
  destruct (round_nearest_even q l); reflexivity.
Qed.

Lemma half_min_normal (s : bool) (m : positive) :
  Zpos (digits2_pos m) = 53 ->
  SF64div (S754_finite s m (-1073)) sf_two = S754_finite s m (-1074).
Proof.
  intros Hd. unfold SF64div, SFdiv, sf_two, SFdiv_core_binary.
  cbn [Zdigits2]. rewrite Hd.
  change (Zpos (digits2_pos 4503599627370496)) with 53.
  change (Z.min (fexp prec emax (53 + -1073 - (53 + -51))) (-1073 - -51)) with (-1074).
  change (-1073 - -51 - -1074) with 52.
  rewrite Z.shiftl_mul_pow2 by lia.
  change (2 ^ 52) with 4503599627370496.
  rewrite div_eucl_pair, Z.div_mul, Z.mod_mul by discriminate.
  rewrite xorb_false_r.
  change (new_location 4503599627370496 0) with loc_Exact.
  rewrite round_subnormal; cbn [round_nearest_even Zdigits2]; try lia.
  reflexivity.
Qed.

Lemma half_subnormal (s : bool) (m : positive) :
  Zpos (digits2_pos m) <= 53 ->
  SF64div (S754_finite s m (-1074)) sf_two = S754_zero s \/
  exists m', SF64div (S754_finite s m (-1074)) sf_two = S754_finite s m' (-1074)
             /\ (m' < m)%positive.
Proof.
  intros Hd. unfold SF64div, SFdiv, sf_two, SFdiv_core_binary.
  cbn [Zdigits2].
  change (Zpos (digits2_pos 4503599627370496)) with 53.
  assert (E : Z.min (fexp prec emax (Zpos (digits2_pos m) + -1074 - (53 + -51))) (-1074 - -51)
              = -1074) by (unfold fexp, SpecFloat.emin, prec, emax; lia).
  rewrite E. change (-1074 - -51 - -1074) with 51.
  rewrite Z.shiftl_mul_pow2 by lia.
  change (2 ^ 51) with 2251799813685248.
  rewrite div_eucl_pair, xorb_false_r.
  destruct m as [p|p|].
  - (* odd mantissa: a tie *)
    right.
    assert (Equo : Zpos p~1 * 2251799813685248 / 4503599627370496 = Zpos p)
      by (symmetry; apply (Z.div_unique _ _ _ 2251799813685248); lia).
    assert (Er : (Zpos p~1 * 2251799813685248) mod 4503599627370496 = 2251799813685248)
      by (symmetry; apply (Z.mod_unique _ _ (Zpos p)); lia).
    rewrite Equo, Er.
    change (new_location 4503599627370496 2251799813685248) with (loc_Inexact Eq).
    cbn [digits2_pos] in Hd. rewrite Pos2Z.inj_succ in Hd.
    assert (Hp : Zpos (digits2_pos p) <= 52) by lia.
    pose proof (digits2_succ p) as Hs.
    rewrite round_subnormal.
    + cbn [round_nearest_even].
      destruct (Z.even (Zpos p)).
      * exists p. split; [reflexivity|lia].
      * change (Zpos p + 1) with (Zpos (p + 1)). exists (p + 1)%positive.
        split; [reflexivity|lia].
    + lia.
    + cbn [Zdigits2]. lia.
    + cbn [round_nearest_even]. destruct (Z.even (Zpos p)); cbn [Zdigits2]; [lia|].
      change (Zpos p + 1) with (Zpos (p + 1)). rewrite Pos.add_1_r.
      cbn [Zdigits2]. lia.
  - (* even mantissa: exact *)
    right.
    replace (Zpos p~0 * 2251799813685248) with (Zpos p * 4503599627370496) by lia.
    rewrite Z.div_mul, Z.mod_mul by discriminate.
    change (new_location 4503599627370496 0) with loc_Exact.
    cbn [digits2_pos] in Hd. rewrite Pos2Z.inj_succ in Hd.
    rewrite round_subnormal; cbn [round_nearest_even Zdigits2]; try lia.
    exists p. split; [reflexivity|lia].
  - left. reflexivity.
Qed.

Lemma half_finite (s : bool) (m : positive) (e : Z) :
  valid_binary (S754_finite s m e) = true ->
  SF64div (S754_finite s m e) sf_two = S754_zero s \/
  exists m' e', SF64div (S754_finite s m e) sf_two = S754_finite s m' e'
                /\ -1074 <= e' /\ Zpos m' + e' < Zpos m + e.
Proof.
  intros Hv. apply valid_finite in Hv. destruct Hv as [He Hc].
  destruct (Z_le_gt_dec (-1072) e) as [H1|H1].
  - right. exists m, (e - 1). rewrite half_normal by lia. split; [reflexivity|lia].
  - destruct (Z.eq_dec e (-1073)) as [->|H2].
    + right. exists m, (-1074). rewrite half_min_normal by lia. split; [reflexivity|lia].
    + assert (e = -1074) by lia. subst e.
      destruct (half_subnormal s m) as [H|[m' [H Hlt]]]; [lia|left; exact H|].
      right. exists m', (-1074). split; [exact H|lia].
Qed.

(** Halving a finite number again and again reaches zero. *)
Lemma halving_reaches_zero (s : float) :
  PrimFloat.is_finite s = true -> exists n, PrimFloat.eqb (halved n s) 0 = true.
Proof.
  intros Hfin.
  assert (K : forall (k : nat) (t : float),
            sf_zero (Prim2SF t) \/
            (exists sg m e, Prim2SF t = S754_finite sg m e /\ Zpos m + e + 1075 <= Z.of_nat k) ->
            exists n, PrimFloat.eqb (halved n t) 0 = true).
  { induction k as [|k IH]; intros t [[sg Hz]|[sg [m [e [Ht Hm]]]]].
    - exists 0%nat. simpl. rewrite FloatAxioms.eqb_spec, Hz. reflexivity.
    - exfalso. pose proof (Prim2SF_valid t) as Hv. rewrite Ht in Hv.
      apply valid_finite in Hv. lia.
    - exists 0%nat. simpl. rewrite FloatAxioms.eqb_spec, Hz. reflexivity.
    - pose proof (Prim2SF_valid t) as Hv. rewrite Ht in Hv.
      assert (Hh : Prim2SF (PrimFloat.div t 2) = SF64div (S754_finite sg m e) sf_two)
        by (rewrite FloatAxioms.div_spec, Ht; reflexivity).
      destruct (half_finite sg m e Hv) as [H|[m' [e' [H [He' Hlt]]]]].
      + exists 1%nat. simpl. rewrite FloatAxioms.eqb_spec, Hh, H. reflexivity.
      + destruct (IH (PrimFloat.div t 2)) as [n Hn].
        * right. exists sg, m', e'. split; [rewrite Hh; exact H|lia].
        * exists (S n). exact Hn. }
  destruct (is_finite_sf s Hfin) as [Hz|[sg [m [e Hs]]]].
  - apply (K 0%nat). left. exact Hz.
  - pose proof (Prim2SF_valid s) as Hv. rewrite Hs in Hv. apply valid_finite in Hv.
    apply (K (Z.to_nat (Zpos m + e + 1075))). right. exists sg, m, e.
    split; [exact Hs|lia].
Qed.

End Halving.

Section Perturbation.

Variables (libm_exp libm_log : float -> float) (libm_pow : float -> float -> float).
Context {rng : Type} {EE : Extern float rng}.

#[local] Instance Float64_there : Double float := Float64 libm_exp libm_log libm_pow.

Local Open Scope dbl_scope.

Variables (G : list float) (AT : list (list Z)) (numSS numTotal : nat).

Lemma didot_same (v v' : list float) (row : list Z) (n : nat) :
  (forall i, (i < n)%nat -> fsame v.[i] v'.[i]) ->
  fsame (didot v row n) (didot v' row n).
Proof.
  intros H. unfold didot.
  assert (K : forall idx acc acc', (forall i, In i idx -> (i < n)%nat) ->
            fsame acc acc' ->
            fsame (fold_left (fun acc i => acc + v.[i] * of_int row.z[i]) idx acc)
                  (fold_left (fun acc i => acc + v'.[i] * of_int row.z[i]) idx acc')).
  { induction idx as [|i idx IH]; intros acc acc' Hin Hacc; simpl; [exact Hacc|].
    apply IH; [intros k Hk; apply Hin; right; exact Hk|].
    apply fsame_add; [exact Hacc|]. apply fsame_mul. apply H. apply Hin. left; reflexivity. }
  apply K; [|apply sf_same_refl].
  intros i Hi. apply in_seq in Hi. lia.
Qed.

(** Two lambdas that are the same up to the sign of zero give the same
    verdict. *)
Lemma getx_flag_same (x x' v v' : list float) :
  (forall i, (i < numSS)%nat -> fsame v.[i] v'.[i]) ->
  fst (getx x v G AT numSS numTotal) = fst (getx x' v' G AT numSS numTotal).
Proof.
  intros H.
  assert (E : forall j, (logx_of v G AT numSS j >? MAXLOGX)
                        = (logx_of v' G AT numSS j >? MAXLOGX)).
  { intros j. unfold logx_of. apply fsame_ltb.
    apply fsame_add; [apply sf_same_refl|]. apply didot_same. exact H. }
  destruct (getx_flag x v G AT numSS numTotal) as [F|F];
    destruct (getx_flag x' v' G AT numSS numTotal) as [F'|F']; try congruence.
  - apply getx_overflow_iff in F. destruct F as [j [Hj Hov]].
    rewrite E in Hov.
    assert (fst (getx x' v' G AT numSS numTotal) = 0%Z)
      by (apply getx_overflow_iff; exists j; split; assumption).
    congruence.
  - apply getx_overflow_iff in F'. destruct F' as [j [Hj Hov]].
    rewrite <- E in Hov.
    assert (fst (getx x v G AT numSS numTotal) = 0%Z)
      by (apply getx_overflow_iff; exists j; split; assumption).
    congruence.
Qed.

(** Lines 647-649: the perturbed lambda of one pass. *)
Definition draw (lambda : list float) (s : float) (gen : rng) : list float * rng :=
  forloop 0 numSS
    (fun i '(nl, g) =>
       let '(u, g') := genrand_real1 g in
       (upd i (lambda.[i] + s * d2 * (u - d0_5)) nl, g'))
    (malloc numSS, gen).

(** The generator returns numbers [u] with [u - 0.5] finite (it returns
    them in [0,1]). *)
Definition draws_finite : Prop :=
  forall g : rng, PrimFloat.is_finite (PrimFloat.sub (fst (genrand_real1 g)) 0.5) = true.

Lemma PerturbLambda_S (fuel : nat) (lambda : list float) (s : float)
    (dummyx : list float) (gen : rng) :
  PerturbLambda (S fuel) lambda s G AT numSS numTotal dummyx gen =
  let newlambda := fst (draw lambda s gen) in
  let gen' := snd (draw lambda s gen) in
  if (fst (getx dummyx newlambda G AT numSS numTotal) =? 0)%Z
  then PerturbLambda fuel lambda (s / d2) G AT numSS numTotal
         (snd (getx dummyx newlambda G AT numSS numTotal)) gen'
  else Some (forloop 0 numSS (fun i l => upd i newlambda.[i] l) lambda, gen').
Proof.
  cbn [PerturbLambda]. fold (draw lambda s gen).
  destruct (draw lambda s gen) as [nl g']. cbn [fst snd].
  destruct (getx dummyx nl G AT numSS numTotal) as [ok dx]. reflexivity.
Qed.

(** The state of the generator after [n] calls of [genrand_real1]. *)
Fixpoint after_draws (n : nat) (gen : rng) : rng :=
  match n with
  | O => gen
  | S n' => snd (genrand_real1 (after_draws n' gen))
  end.

Lemma after_draws_add (a b : nat) (gen : rng) :
  after_draws (a + b) gen = after_draws b (after_draws a gen).
Proof.
  induction b as [|b IH]; [rewrite Nat.add_0_r; reflexivity|].
  rewrite Nat.add_succ_r. simpl. rewrite IH. reflexivity.
Qed.

(** One pass draws [numSS] numbers, one for each entry in turn. *)
Lemma draw_cells (lambda : list float) (s : float) (gen : rng) :
  snd (draw lambda s gen) = after_draws numSS gen /\
  forall i, (i < numSS)%nat ->
    (fst (draw lambda s gen)).[i]
    = lambda.[i] + s * d2 * (fst (genrand_real1 (after_draws i gen)) - d0_5).
Proof.
  unfold draw.
  assert (K : forall k, (k <= numSS)%nat ->
            let r := forloop 0 k
                       (fun i '(nl, g) =>
                          let '(u, g') := genrand_real1 g in
                          (upd i (lambda.[i] + s * d2 * (u - d0_5)) nl, g'))
                       (malloc numSS, gen) in
            length (fst r) = numSS /\ snd r = after_draws k gen /\
            forall i, (i < k)%nat ->
              (fst r).[i]
              = lambda.[i] + s * d2 * (fst (genrand_real1 (after_draws i gen)) - d0_5)).
  { induction k as [|k IH]; intros Hk.
    - simpl. split; [apply malloc_length|]. split; [reflexivity|intros; lia].
    - cbv zeta. rewrite forloop_snoc. simpl Nat.add.
      destruct (IH ltac:(lia)) as (Hl & Hg & Hc). cbv zeta in Hl, Hg, Hc.
      destruct (forloop 0 k _ (malloc numSS, gen)) as [nl g]. simpl fst in *. simpl snd in *.
      subst g. simpl after_draws.
      destruct (genrand_real1 (after_draws k gen)) as [u g'] eqn:Eu. simpl fst. simpl snd.
      split; [rewrite upd_length; exact Hl|]. split; [reflexivity|].
      intros i Hi. destruct (Nat.eq_dec i k) as [->|Hne].
      + rewrite Eu. simpl fst. apply nth_upd_same. lia.
      + rewrite nth_upd_other by lia. apply Hc. lia. }
  destruct (K numSS (Nat.le_refl _)) as (_ & Hg & Hc). split; assumption.
Qed.

(** The lambda that pass [k] draws: the scale has been halved [k] times
    and the generator called [k * numSS] times. *)
Definition drawn_at (lambda : list float) (s : float) (gen : rng) (k : nat) : list float :=
  fst (draw lambda (halved k s) (after_draws (k * numSS) gen)).

(** Pass [k] is the first whose lambda gives no overflow. *)
Definition first_accepted (lambda : list float) (s : float) (gen : rng) (k : nat) : Prop :=
  (forall j, (j < k)%nat ->
     fst (getx (malloc numTotal) (drawn_at lambda s gen j) G AT numSS numTotal) = 0%Z) /\
  fst (getx (malloc numTotal) (drawn_at lambda s gen k) G AT numSS numTotal) = 1%Z.

(** What [PerturbLambda] returns when pass [k] is the first accepted. *)
Lemma PerturbLambda_accepts (lambda : list float) (k : nat) :
  forall (s : float) (dummyx : list float) (gen : rng),
  first_accepted lambda s gen k ->
  forall more,
    PerturbLambda (S k + more) lambda s G AT numSS numTotal dummyx gen
    = Some (forloop 0 numSS (fun i l => upd i (drawn_at lambda s gen k).[i] l) lambda,
            after_draws (S k * numSS) gen).
Proof.
  induction k as [|k IH]; intros s dummyx gen [Hbefore Hk] more.
  - change (1 + more)%nat with (S more). rewrite PerturbLambda_S. cbv zeta.
    unfold drawn_at in Hk. simpl in Hk.
    rewrite (getx_flag_indep _ (malloc numTotal)), Hk. simpl.
    rewrite Nat.add_0_r. rewrite (proj1 (draw_cells lambda s gen)). reflexivity.
  - change (S (S k) + more)%nat with (S (S k + more)). rewrite PerturbLambda_S. cbv zeta.
    pose proof (Hbefore 0%nat ltac:(lia)) as H0. unfold drawn_at in H0. simpl in H0.
    rewrite (getx_flag_indep _ (malloc numTotal)), H0. simpl Z.eqb. cbv iota.
    rewrite (proj1 (draw_cells lambda s gen)).
    assert (Hshift : forall j, drawn_at lambda (s / d2) (after_draws numSS gen) j
                               = drawn_at lambda s gen (S j)).
    { intros j. unfold drawn_at. simpl halved.
      replace (S j * numSS)%nat with (numSS + j * numSS)%nat by (simpl; lia).
      rewrite after_draws_add. reflexivity. }
    rewrite (IH (s / d2) _ (after_draws numSS gen)).
    + rewrite Hshift.
      replace (S (S k) * numSS)%nat with (numSS + S k * numSS)%nat by (simpl; lia).
      rewrite after_draws_add. reflexivity.
    + split.
      * intros j Hj. rewrite Hshift. apply Hbefore. lia.
      * rewrite Hshift. exact Hk.
Qed.

(** Some pass is accepted: at the latest the one whose scale is zero. *)
Lemma some_pass_accepted (lambda : list float) (n : nat) :
  forall (s : float) (gen : rng),
  fst (getx (malloc numTotal) lambda G AT numSS numTotal) = 1%Z ->
  draws_finite ->
  PrimFloat.eqb (halved n s) 0 = true ->
  exists k, (k <= n)%nat /\ first_accepted lambda s gen k.
Proof.
  intros s gen Hfeas Hdraw.
  assert (Hflag : forall k, fst (getx (malloc numTotal) (drawn_at lambda s gen k)
                                  G AT numSS numTotal) = 0%Z \/
                            fst (getx (malloc numTotal) (drawn_at lambda s gen k)
                                  G AT numSS numTotal) = 1%Z)
    by (intros k; apply getx_flag).
  intros Hz.
  assert (Hlast : fst (getx (malloc numTotal) (drawn_at lambda s gen n)
                         G AT numSS numTotal) = 1%Z).
  { rewrite (getx_flag_same (malloc numTotal) (malloc numTotal) (drawn_at lambda s gen n) lambda).
    - exact Hfeas.
    - intros i Hi. unfold drawn_at.
      rewrite (proj2 (draw_cells lambda _ _) i Hi).
      apply zero_perturbation; [exact Hz|apply Hdraw]. }
  clear Hz.
  induction n as [|n IH].
  - exists 0%nat. split; [lia|]. split; [intros j Hj; lia|exact Hlast].
  - (* the least accepted pass among 0 .. S n *)
    assert (L : forall m, (m <= S n)%nat ->
              (exists k, (k < m)%nat /\ first_accepted lambda s gen k) \/
              (forall j, (j < m)%nat ->
                 fst (getx (malloc numTotal) (drawn_at lambda s gen j)
                        G AT numSS numTotal) = 0%Z)).
    { induction m as [|m IHm]; intros Hm.
      - right. intros j Hj. lia.
      - destruct (IHm ltac:(lia)) as [[k [Hk Hfa]]|Hall].
        + left. exists k. split; [lia|exact Hfa].
        + destruct (Hflag m) as [F|F].
          * right. intros j Hj. destruct (Nat.eq_dec j m) as [->|Hne]; [exact F|].
            apply Hall. lia.
          * left. exists m. split; [lia|]. split; assumption. }
    destruct (L (S n) (Nat.le_refl _)) as [[k [Hk Hfa]]|Hall].
    + exists k. split; [lia|exact Hfa].
    + exists (S n). split; [lia|]. split; assumption.
Qed.

(** C9.  [PerturbLambda] returns for every lambda that gives no overflow,
    whatever the finite scale.  There is a pass k, the first whose lambda
    gives no overflow, such that every pass before it was refused, and what
    comes back is the lambda drawn in pass k written over lambda: entry i
    below numSS is lambda[i] + s_k * 2 * (u - 0.5), s_k the scale halved k
    times and u what the generator returns at its call number
    k * numSS + i; the entries from numSS on are those of lambda; the
    generator has been called (k + 1) * numSS times; and the new lambda
    gives no overflow.  The generator returns numbers u with u - 0.5
    finite.  k + 1 passes are made, and more passes granted change
    nothing. *)
Theorem PerturbLambda_terminates (lambda : list float) (PerturbScale : float)
    (dummyx : list float) (gen : rng) :
  (numSS <= length lambda)%nat ->
  fst (getx dummyx lambda G AT numSS numTotal) = 1%Z ->
  draws_finite ->
  PrimFloat.is_finite PerturbScale = true ->
  exists k lambda' gen',
    (forall more,
       PerturbLambda (S k + more) lambda PerturbScale G AT numSS numTotal dummyx gen
         = Some (lambda', gen')) /\
    (forall j, (j < k)%nat ->
       fst (getx dummyx (drawn_at lambda PerturbScale gen j) G AT numSS numTotal) = 0%Z) /\
    length lambda' = length lambda /\
    (forall i, (i < numSS)%nat ->
       lambda'.[i] = lambda.[i] + halved k PerturbScale * d2 *
                       (fst (genrand_real1 (after_draws (k * numSS + i) gen)) - d0_5)) /\
    (forall i, (numSS <= i)%nat -> lambda'.[i] = lambda.[i]) /\
    gen' = after_draws (S k * numSS) gen /\
    fst (getx dummyx lambda' G AT numSS numTotal) = 1%Z.
Proof.
  intros Hlen Hfeas Hdraw Hfin.
  destruct (halving_reaches_zero PerturbScale Hfin) as [n Hn].
  assert (Hfeas' : fst (getx (malloc numTotal) lambda G AT numSS numTotal) = 1%Z)
    by (rewrite (getx_flag_indep _ dummyx); exact Hfeas).
  destruct (some_pass_accepted lambda n PerturbScale gen Hfeas' Hdraw Hn)
    as (k & _ & Hfa).
  exists k. eexists. eexists.
  split; [intros more; apply (PerturbLambda_accepts lambda k PerturbScale dummyx gen Hfa)|].
  destruct Hfa as [Hbefore Hk].
  split; [intros j Hj; rewrite (getx_flag_indep _ (malloc numTotal)); apply Hbefore; exact Hj|].
  split; [apply (forloop_upd_length (fun i _ => (drawn_at lambda PerturbScale gen k).[i]))|].
  split; [|split; [|split; [reflexivity|]]].
  - intros i Hi.
    rewrite (forloop_upd_in (fun i => (drawn_at lambda PerturbScale gen k).[i])) by lia.
    unfold drawn_at. rewrite (proj2 (draw_cells lambda _ _) i Hi).
    rewrite after_draws_add. reflexivity.
  - intros i Hi.
    apply (forloop_upd_out (fun i _ => (drawn_at lambda PerturbScale gen k).[i])). lia.
  - rewrite (getx_flag_same dummyx (malloc numTotal) _ (drawn_at lambda PerturbScale gen k)).
    + exact Hk.
    + intros i Hi.
      rewrite (forloop_upd_in (fun i => (drawn_at lambda PerturbScale gen k).[i])) by lia.
      apply sf_same_refl.
Qed.

End Perturbation.

(* ================================================================== *)
(** ** The trust radius *)

(** *** Rounding in IEEE binary64 *)

Section Rounding.

Local Open Scope Z_scope.

Lemma digits2_bounds (p : positive) :
  2 ^ (Zpos (digits2_pos p) - 1) <= Zpos p < 2 ^ Zpos (digits2_pos p).
Proof.
  induction p as [p IH|p IH|]; cbn [digits2_pos]; rewrite ?Pos2Z.inj_succ.
  - replace (Z.succ (Zpos (digits2_pos p)) - 1) with (Z.succ (Zpos (digits2_pos p) - 1)) by lia.
    rewrite !Z.pow_succ_r by lia. lia.
  - replace (Z.succ (Zpos (digits2_pos p)) - 1) with (Z.succ (Zpos (digits2_pos p) - 1)) by lia.
    rewrite !Z.pow_succ_r by lia. lia.
  - simpl. lia.
Qed.

Lemma Zdigits2_nonneg (n : Z) : 0 <= Zdigits2 n.
Proof. destruct n; simpl; lia. Qed.

Lemma Zdigits2_bounds (n : Z) :
  0 < n -> 2 ^ (Zdigits2 n - 1) <= n < 2 ^ Zdigits2 n.
Proof. destruct n as [|p|p]; try lia. intros _. apply digits2_bounds. Qed.

(* fewer than k digits below 2^k *)
Lemma Zdigits2_le (n k : Z) : 0 <= n < 2 ^ k -> 0 <= k -> Zdigits2 n <= k.
Proof.
  intros [H0 H1] Hk. destruct (Z.eq_dec n 0) as [->|Hn]; [simpl; lia|].
  pose proof (Zdigits2_bounds n ltac:(lia)) as [Hl _].
  pose proof (Zdigits2_nonneg n).
  destruct (Z_le_gt_dec (Zdigits2 n) k) as [|Hgt]; [assumption|].
  exfalso.
  assert (2 ^ k <= 2 ^ (Zdigits2 n - 1)) by (apply Z.pow_le_mono_r; lia).
  lia.
Qed.

Lemma Zdigits2_ge (n k : Z) : 2 ^ k <= n -> 0 <= k -> k + 1 <= Zdigits2 n.
Proof.
  intros H Hk.
  assert (0 < n) by (pose proof (Z.pow_pos_nonneg 2 k); lia).
  pose proof (Zdigits2_bounds n ltac:(lia)) as [_ Hu].
  pose proof (Zdigits2_nonneg n).
  destruct (Z_le_gt_dec (k + 1) (Zdigits2 n)) as [|Hgt]; [assumption|].
  exfalso.
  assert (2 ^ Zdigits2 n <= 2 ^ k) by (apply Z.pow_le_mono_r; lia).
  lia.
Qed.

Lemma shr_1_m (r : shr_record) : 0 <= shr_m r -> shr_m (shr_1 r) = shr_m r / 2 /\ 0 <= shr_m (shr_1 r).
Proof.
  destruct r as [m r s]. simpl. intros H.
  destruct m as [|[p|p|]|p]; simpl; try lia.
  - split; [reflexivity|lia].
  - split; [|lia]. apply (Z.div_unique _ _ _ 1); lia.
  - split; [|lia]. apply (Z.div_unique _ _ _ 0); lia.
  - split; [reflexivity|lia].
Qed.

Lemma pow2_xI (p : positive) : 2 ^ Zpos p~1 = 2 * 2 ^ Zpos p * 2 ^ Zpos p.
Proof.
  replace (Zpos p~1) with (1 + Zpos p + Zpos p) by lia.
  rewrite !Z.pow_add_r by lia. reflexivity.
Qed.

Lemma pow2_xO (p : positive) : 2 ^ Zpos p~0 = 2 ^ Zpos p * 2 ^ Zpos p.
Proof.
  replace (Zpos p~0) with (Zpos p + Zpos p) by lia.
  rewrite !Z.pow_add_r by lia. reflexivity.
Qed.

Lemma iter_pos_shr_m (p : positive) (r : shr_record) :
  0 <= shr_m r ->
  shr_m (iter_pos shr_1 p r) = shr_m r / 2 ^ Zpos p /\ 0 <= shr_m (iter_pos shr_1 p r).
Proof.
  revert r. induction p as [p IH|p IH|]; intros r H; cbn [iter_pos].
  - destruct (shr_1_m r H) as [E1 H1].
    destruct (IH _ H1) as [E2 H2]. destruct (IH _ H2) as [E3 H3].
    split; [|exact H3]. rewrite E3, E2, E1, pow2_xI.
    pose proof (Z.pow_pos_nonneg 2 (Zpos p) ltac:(lia) ltac:(lia)).
    rewrite !Z.div_div by lia. f_equal; lia.
  - destruct (IH _ H) as [E2 H2]. destruct (IH _ H2) as [E3 H3].
    split; [|exact H3]. rewrite E3, E2, pow2_xO.
    pose proof (Z.pow_pos_nonneg 2 (Zpos p) ltac:(lia) ltac:(lia)).
    rewrite !Z.div_div by lia. f_equal; lia.
  - destruct (shr_1_m r H) as [E1 H1]. split; [|exact H1]. rewrite E1. reflexivity.
Qed.

Lemma rne_bounds (q : Z) (l : location) :
  q <= round_nearest_even q l <= q + 1.
Proof. destruct l as [|[| |]]; simpl; try lia. destruct (Z.even q); lia. Qed.

Lemma shr_record_of_loc_m (m : Z) (l : location) : shr_m (shr_record_of_loc m l) = m.
Proof. destruct l as [|[| |]]; reflexivity. Qed.

(* the first shift of binary_round_aux *)
Lemma shr_fexp_m (P E : Z) (l : location) :
  0 <= P ->
  let n := Z.max 0 (fexp prec emax (Zdigits2 P + E) - E) in
  shr_m (fst (shr_fexp prec emax P E l)) = P / 2 ^ n /\
  snd (shr_fexp prec emax P E l) = E + n.
Proof.
  intros HP n. unfold shr_fexp, shr. subst n.
  destruct (fexp prec emax (Zdigits2 P + E) - E) as [|p|p] eqn:En; simpl fst; simpl snd.
  - rewrite shr_record_of_loc_m. simpl. rewrite Z.div_1_r. split; lia.
  - destruct (iter_pos_shr_m p (shr_record_of_loc P l)) as [E1 _].
    { rewrite shr_record_of_loc_m. exact HP. }
    rewrite E1, shr_record_of_loc_m.
    replace (Z.max 0 (Zpos p)) with (Zpos p) by lia. split; reflexivity.
  - rewrite shr_record_of_loc_m. simpl. rewrite Z.div_1_r. split; lia.
Qed.

Lemma fexp_64 (x : Z) : fexp prec emax x = Z.max (x - 53) (-1074).
Proof. reflexivity. Qed.

Lemma bounded_64 (m : positive) (e : Z) :
  bounded prec emax m e = true ->
  Z.max (Zpos (digits2_pos m) + e - 53) (-1074) = e /\ e <= 971.
Proof.
  unfold bounded, canonical_mantissa. rewrite fexp_64.
  intros H. apply andb_prop in H. destruct H as [H1 H2].
  apply Z.eqb_eq in H1. apply Z.leb_le in H2.
  change (emax - prec) with 971 in H2. split; assumption.
Qed.

(** What [binary_round_aux] returns, by its two shifts. *)
Lemma bra_unfold (s : bool) (P E : Z) (l : location) :
  0 <= P ->
  exists R e1 m2 e2,
    P / 2 ^ (e1 - E) <= R <= P / 2 ^ (e1 - E) + 1 /\
    e1 = Z.max E (Z.max (Zdigits2 P + E - 53) (-1074)) /\
    e2 = Z.max e1 (Zdigits2 R + e1 - 53) /\
    m2 = R / 2 ^ (e2 - e1) /\
    binary_round_aux prec emax s P E l =
      match m2 with
      | Z0 => S754_zero s
      | Zpos m => if e2 <=? 971 then S754_finite s m e2 else S754_infinity s
      | Zneg _ => S754_nan
      end.
Proof.
  intros HP. unfold binary_round_aux.
  destruct (shr_fexp_m P E l HP) as [Em1 Ee1]. cbv zeta in Em1, Ee1.
  destruct (shr_fexp prec emax P E l) as [r1 e1]. simpl fst in *; simpl snd in *.
  set (R := round_nearest_even (shr_m r1) (loc_of_shr_record r1)).
  assert (HR : shr_m r1 <= R <= shr_m r1 + 1) by apply rne_bounds.
  assert (Hq : 0 <= shr_m r1).
  { rewrite Em1. apply Z.div_pos; [exact HP|]. apply Z.pow_pos_nonneg; lia. }
  assert (HR0 : 0 <= R) by lia.
  destruct (shr_fexp_m R e1 loc_Exact HR0) as [Em2 Ee2]. cbv zeta in Em2, Ee2.
  destruct (shr_fexp prec emax R e1 loc_Exact) as [r2 e2]. simpl fst in *; simpl snd in *.
  rewrite fexp_64 in *.
  exists R, e1, (shr_m r2), e2.
  assert (He1 : e1 = Z.max E (Z.max (Zdigits2 P + E - 53) (-1074))) by lia.
  assert (He2 : e2 = Z.max e1 (Zdigits2 R + e1 - 53)) by lia.
  replace (e1 - E) with (Z.max 0 (Z.max (Zdigits2 P + E - 53) (-1074) - E)) by lia.
  rewrite <- Em1.
  replace (e2 - e1) with (Z.max 0 (Z.max (Zdigits2 R + e1 - 53) (-1074) - e1)) by lia.
  split; [exact HR|]. split; [exact He1|]. split; [exact He2|]. split; [exact Em2|].
  change (emax - prec) with 971. reflexivity.
Qed.

(** Rounding a number below a representable one gives at most that one. *)
Lemma bra_lt_le (s : bool) (m : positive) (e P E : Z) (l : location) :
  bounded prec emax m e = true -> 0 <= P -> E <= e -> P < Zpos m * 2 ^ (e - E) ->
  binary_round_aux prec emax s P E l = S754_zero s \/
  exists m' e', binary_round_aux prec emax s P E l = S754_finite s m' e' /\
                (e' < e \/ (e' = e /\ Zpos m' <= Zpos m)).
Proof.
  intros Hb HP HE Hlt.
  apply bounded_64 in Hb. destruct Hb as [Hc He].
  destruct (bra_unfold s P E l HP) as (R & e1 & m2 & e2 & HR & He1 & He2 & Hm2 & ->).
  pose proof (digits2_bounds m) as [_ Hdm].
  set (dm := Zpos (digits2_pos m)) in *.
  assert (HdP : Zdigits2 P <= dm + e - E).
  { apply Zdigits2_le; [|lia]. split; [exact HP|].
    replace (dm + e - E) with (dm + (e - E)) by lia.
    rewrite Z.pow_add_r by lia.
    pose proof (Z.pow_pos_nonneg 2 (e - E) ltac:(lia) ltac:(lia)). nia. }
  assert (He1e : e1 <= e) by lia.
  assert (HE1 : E <= e1) by lia.
  (* R <= m 2^(e - e1) *)
  assert (HRle : R <= Zpos m * 2 ^ (e - e1)).
  { assert (P / 2 ^ (e1 - E) < Zpos m * 2 ^ (e - e1)).
    { apply Z.div_lt_upper_bound; [apply Z.pow_pos_nonneg; lia|].
      replace (2 ^ (e1 - E) * (Zpos m * 2 ^ (e - e1))) with (Zpos m * 2 ^ (e - E)); [exact Hlt|].
      replace (e - E) with ((e1 - E) + (e - e1)) by lia.
      rewrite Z.pow_add_r by lia. lia. }
    lia. }
  assert (HR0 : 0 <= R).
  { assert (0 <= P / 2 ^ (e1 - E)) by (apply Z.div_pos; [lia|apply Z.pow_pos_nonneg; lia]). lia. }
  assert (HdR : Zdigits2 R <= dm + e - e1).
  { apply Zdigits2_le; [|lia]. split; [exact HR0|].
    replace (dm + e - e1) with (dm + (e - e1)) by lia.
    rewrite Z.pow_add_r by lia.
    pose proof (Z.pow_pos_nonneg 2 (e - e1) ltac:(lia) ltac:(lia)). nia. }
  assert (He2e : e2 <= e) by lia.
  assert (HE2 : e1 <= e2) by lia.
  assert (Hm2le : e2 = e -> m2 <= Zpos m).
  { intros ->. rewrite Hm2.
    apply Z.div_le_upper_bound; [apply Z.pow_pos_nonneg; lia|].
    rewrite Z.mul_comm. exact HRle. }
  assert (Hm20 : 0 <= m2).
  { rewrite Hm2. apply Z.div_pos; [lia|apply Z.pow_pos_nonneg; lia]. }
  destruct m2 as [|m'|m']; [left; reflexivity| |lia].
  right. exists m', e2.
  replace (e2 <=? 971) with true by (symmetry; apply Z.leb_le; lia).
  split; [reflexivity|].
  destruct (Z.eq_dec e2 e) as [Heq|Hne]; [right|left; lia].
  split; [exact Heq|apply Hm2le; exact Heq].
Qed.

(** Rounding a number that is at least the smallest positive one gives a
    number that is not zero. *)
Lemma bra_pos (s : bool) (P E : Z) (l : location) :
  1 <= P -> -1073 <= Zdigits2 P + E ->
  binary_round_aux prec emax s P E l = S754_infinity s \/
  exists m' e', binary_round_aux prec emax s P E l = S754_finite s m' e'.
Proof.
  intros HP Hd.
  destruct (bra_unfold s P E l ltac:(lia)) as (R & e1 & m2 & e2 & HR & He1 & He2 & Hm2 & ->).
  pose proof (Zdigits2_bounds P ltac:(lia)) as [HPl _].
  assert (HdP : 1 <= Zdigits2 P).
  { pose proof (Zdigits2_ge P 0 ltac:(simpl; lia) ltac:(lia)). lia. }
  assert (Hq : 1 <= P / 2 ^ (e1 - E)).
  { apply Z.div_le_lower_bound; [apply Z.pow_pos_nonneg; lia|].
    rewrite Z.mul_1_r.
    apply Z.le_trans with (2 ^ (Zdigits2 P - 1)); [|exact HPl].
    apply Z.pow_le_mono_r; lia. }
  assert (HR1 : 1 <= R) by lia.
  pose proof (Zdigits2_bounds R ltac:(lia)) as [HRl _].
  assert (HdR : 1 <= Zdigits2 R).
  { pose proof (Zdigits2_ge R 0 ltac:(simpl; lia) ltac:(lia)). lia. }
  assert (Hm : 1 <= m2).
  { rewrite Hm2. apply Z.div_le_lower_bound; [apply Z.pow_pos_nonneg; lia|].
    rewrite Z.mul_1_r.
    apply Z.le_trans with (2 ^ (Zdigits2 R - 1)); [|exact HRl].
    apply Z.pow_le_mono_r; lia. }
  destruct m2 as [|m'|m']; try lia.
  destruct (e2 <=? 971); [right; exists m', e2; reflexivity|left; reflexivity].
Qed.

(** The order of two positive finite numbers. *)
Definition lex_le (m' : positive) (e' : Z) (m : positive) (e : Z) : Prop :=
  e' < e \/ (e' = e /\ Zpos m' <= Zpos m).

Lemma lex_le_refl (m : positive) (e : Z) : lex_le m e m e.
Proof. right. split; [reflexivity|lia]. Qed.

Lemma lex_le_trans (m1 : positive) (e1 : Z) (m2 : positive) (e2 : Z) (m3 : positive) (e3 : Z) :
  lex_le m1 e1 m2 e2 -> lex_le m2 e2 m3 e3 -> lex_le m1 e1 m3 e3.
Proof. unfold lex_le. lia. Qed.

Lemma SFleb_finite (m' : positive) (e' : Z) (m : positive) (e : Z) :
  SFleb (S754_finite false m' e') (S754_finite false m e) = true <-> lex_le m' e' m e.
Proof.
  unfold SFleb, SFcompare, lex_le.
  change (Pos.compare_cont Eq m' m) with (m' ?= m)%positive.
  destruct (Z.compare_spec e' e) as [->|H|H].
  - destruct (Pos.compare_spec m' m) as [->|Hm|Hm]; split; intros K;
      try reflexivity; try discriminate; try (right; split; [reflexivity|lia]); lia.
  - split; [left; exact H|reflexivity].
  - split; [discriminate|lia].
Qed.

Lemma SFltb_finite (m' : positive) (e' : Z) (m : positive) (e : Z) :
  SFltb (S754_finite false m' e') (S754_finite false m e) = true ->
  lex_le m' e' m e.
Proof.
  intros H. apply SFleb_finite. unfold SFltb, SFleb in *.
  destruct (SFcompare _ _) as [[| |]|]; try discriminate; reflexivity.
Qed.

Definition sf_four : spec_float := S754_finite false 4503599627370496 (-50).
Definition sf_099 : spec_float := S754_finite false 8917127262193582 (-53).

(** A quarter of a positive finite number: zero or a positive finite number
    that is not larger, and not zero from 2^-1072 on. *)
Lemma quarter_rounds (m : positive) (e : Z) :
  bounded prec emax m e = true ->
  (SF64div (S754_finite false m e) sf_four = S754_zero false /\
   ~ lex_le 4 (-1074) m e) \/
  exists m' e', SF64div (S754_finite false m e) sf_four = S754_finite false m' e'
                /\ lex_le m' e' m e.
Proof.
  intros Hb. pose proof (bounded_64 m e Hb) as [Hc He].
  pose proof (digits2_bounds m) as [Hdl Hdu].
  unfold SF64div, SFdiv, sf_four, SFdiv_core_binary. cbn [Zdigits2 xorb].
  change (Zpos (digits2_pos 4503599627370496)) with 53.
  set (dm := Zpos (digits2_pos m)) in *.
  rewrite fexp_64.
  assert (E0 : Z.min (Z.max (dm + e - (53 + -50) - 53) (-1074)) (e - -50)
               = Z.max (dm + e - 56) (-1074)) by lia.
  rewrite E0. set (e0 := Z.max (dm + e - 56) (-1074)).
  assert (Hs : 50 <= e - -50 - e0 <= 53) by lia.
  destruct (e - -50 - e0) as [|sp|sp] eqn:Es; try lia.
  rewrite Z.shiftl_mul_pow2 by lia.
  pose proof (Z.pow_pos_nonneg 2 (Zpos sp) ltac:(lia) ltac:(lia)) as Hpow.
  assert (Hdiv : Z.div_eucl (Zpos m * 2 ^ Zpos sp) 4503599627370496
                 = (Zpos m * 2 ^ Zpos sp / 4503599627370496,
                    (Zpos m * 2 ^ Zpos sp) mod 4503599627370496)).
  { unfold Z.div, Z.modulo. destruct (Z.div_eucl _ _); reflexivity. }
  rewrite Hdiv.
  set (q0 := Zpos m * 2 ^ Zpos sp / 4503599627370496).
  set (l0 := new_location _ _).
  assert (Hq0 : 0 <= q0) by (apply Z.div_pos; lia).
  assert (Hq0u : q0 < Zpos m * 2 ^ (e - e0)).
  { apply Z.div_lt_upper_bound; [lia|].
    replace (e - e0) with (Zpos sp - 50) by lia.
    change 4503599627370496 with (2 ^ 52).
    rewrite Z.mul_assoc, (Z.mul_comm (2 ^ 52)), <- Z.mul_assoc, <- Z.pow_add_r by lia.
    apply Z.mul_lt_mono_pos_l; [lia|]. apply Z.pow_lt_mono_r; lia. }
  destruct (bra_lt_le false m e q0 e0 l0 Hb Hq0 ltac:(lia) Hq0u) as [Hz|[m' [e' [Hf Hl]]]].
  - destruct (Z_lt_ge_dec e (-1073)) as [Hlow|Hhigh].
    + destruct (Z_lt_ge_dec (Zpos m) 4) as [Hm|Hm].
      * left. split; [exact Hz|]. unfold lex_le. lia.
      * exfalso.
        assert (Hq1 : 1 <= q0).
        { apply Z.div_le_lower_bound; [lia|]. rewrite Z.mul_1_r.
          assert (Zpos sp = 50) by lia.
          replace (Zpos sp) with 50 by lia. change (2 ^ 50) with 1125899906842624. lia. }
        destruct (bra_pos false q0 e0 l0 Hq1) as [Hi|[m' [e' Hf]]].
        { pose proof (Zdigits2_ge q0 0 ltac:(simpl; lia) ltac:(lia)). lia. }
        { congruence. }
        { congruence. }
    + exfalso.
      assert (dm = 53) by lia.
      assert (Hq1 : 1 <= q0).
      { apply Z.div_le_lower_bound; [lia|]. rewrite Z.mul_1_r.
        replace dm with 53 in Hdl by lia. change (2 ^ (53 - 1)) with 4503599627370496 in Hdl.
        nia. }
      destruct (bra_pos false q0 e0 l0 Hq1) as [Hi|[m' [e' Hf]]].
      { pose proof (Zdigits2_ge q0 0 ltac:(simpl; lia) ltac:(lia)). lia. }
      { congruence. }
      { congruence. }
  - right. exists m', e'. split; [exact Hf|exact Hl].
Qed.

(** Twice a positive finite number is positive. *)
Lemma twice_positive (m : positive) (e : Z) :
  bounded prec emax m e = true ->
  SF64mul sf_two (S754_finite false m e) = S754_infinity false \/
  exists m' e', SF64mul sf_two (S754_finite false m e) = S754_finite false m' e'.
Proof.
  intros Hb. pose proof (bounded_64 m e Hb) as [Hc He].
  pose proof (digits2_bounds m) as [Hdl Hdu].
  unfold SF64mul, SFmul, sf_two. cbn [xorb].
  apply bra_pos; [lia|].
  set (dm := Zpos (digits2_pos m)) in *.
  assert (dm + 52 <= Zdigits2 (Zpos (4503599627370496 * m))).
  { replace (dm + 52) with ((dm + 51) + 1) by lia.
    apply Zdigits2_ge; [|lia].
    replace (dm + 51) with ((dm - 1) + 52) by lia.
    rewrite Z.pow_add_r by lia. change (2 ^ 52) with 4503599627370496.
    rewrite Pos2Z.inj_mul. nia. }
  lia.
Qed.

(** 0.99 times a positive finite number is positive and not larger. *)
Lemma times_099_rounds (m : positive) (e : Z) :
  bounded prec emax m e = true ->
  exists m' e', SF64mul sf_099 (S754_finite false m e) = S754_finite false m' e'
                /\ lex_le m' e' m e.
Proof.
  intros Hb. pose proof (bounded_64 m e Hb) as [Hc He].
  pose proof (digits2_bounds m) as [Hdl Hdu].
  set (dm := Zpos (digits2_pos m)) in *.
  destruct (Z.eq_dec e (-1074)) as [->|Hne];
    [destruct (Pos.eq_dec m 1) as [->|Hm1]|].
  - exists 1%positive, (-1074). split; [vm_compute; reflexivity|apply lex_le_refl].
  - (* subnormal, m >= 2 *)
    unfold SF64mul, SFmul, sf_099. cbn [xorb].
    set (P := Zpos (8917127262193582 * m)). set (E := -53 + -1074).
    assert (HP : 0 <= P) by (unfold P; lia).
    assert (Hlt : P < Zpos m * 2 ^ (-1074 - E)).
    { unfold P, E. change (2 ^ (-1074 - (-53 + -1074))) with 9007199254740992.
      rewrite Pos2Z.inj_mul. lia. }
    assert (Hd : dm + 52 <= Zdigits2 P).
    { replace (dm + 52) with ((dm + 51) + 1) by lia.
      apply Zdigits2_ge; [|lia].
      replace (dm + 51) with ((dm - 1) + 52) by lia.
      rewrite Z.pow_add_r by lia. change (2 ^ 52) with 4503599627370496.
      unfold P. rewrite Pos2Z.inj_mul. nia. }
    assert (Hdm : 2 <= dm).
    { assert (2 ^ 1 <= Zpos m) by (simpl; lia).
      pose proof (Zdigits2_ge (Zpos m) 1 ltac:(assumption) ltac:(lia)). exact H0. }
    destruct (bra_lt_le false m (-1074) P E loc_Exact Hb HP ltac:(unfold E; lia) Hlt)
      as [Hz|[m' [e' [Hf Hl]]]].
    + exfalso.
      destruct (bra_pos false P E loc_Exact ltac:(unfold P; lia) ltac:(unfold E; lia))
        as [Hi|[m' [e' Hf]]]; congruence.
    + exists m', e'. split; assumption.
  - (* normal *)
    assert (dm = 53) by lia.
    unfold SF64mul, SFmul, sf_099. cbn [xorb].
    set (P := Zpos (8917127262193582 * m)). set (E := -53 + e).
    assert (HP : 0 <= P) by (unfold P; lia).
    assert (Hlt : P < Zpos m * 2 ^ (e - E)).
    { unfold P, E. replace (e - (-53 + e)) with 53 by lia.
      change (2 ^ 53) with 9007199254740992.
      rewrite Pos2Z.inj_mul. lia. }
    assert (Hd : dm + 52 <= Zdigits2 P).
    { replace (dm + 52) with ((dm + 51) + 1) by lia.
      apply Zdigits2_ge; [|lia].
      replace (dm + 51) with ((dm - 1) + 52) by lia.
      rewrite Z.pow_add_r by lia. change (2 ^ 52) with 4503599627370496.
      unfold P. rewrite Pos2Z.inj_mul. nia. }
    destruct (bra_lt_le false m e P E loc_Exact Hb HP ltac:(unfold E; lia) Hlt)
      as [Hz|[m' [e' [Hf Hl]]]].
    + exfalso.
      destruct (bra_pos false P E loc_Exact ltac:(unfold P; lia) ltac:(unfold E; lia))
        as [Hi|[m' [e' Hf]]]; congruence.
    + exists m', e'. split; assumption.
Qed.

(** Rounding a number that is at least a representable one gives at least
    that one. *)
Lemma bra_ge (s : bool) (m : positive) (e P E : Z) (l : location) :
  bounded prec emax m e = true -> E <= e -> Zpos m * 2 ^ (e - E) <= P ->
  binary_round_aux prec emax s P E l = S754_infinity s \/
  exists m' e', binary_round_aux prec emax s P E l = S754_finite s m' e' /\
                lex_le m e m' e'.
Proof.
  intros Hb HE Hle.
  apply bounded_64 in Hb. destruct Hb as [Hc He].
  pose proof (Z.pow_pos_nonneg 2 (e - E) ltac:(lia) ltac:(lia)) as Hpw.
  assert (HP : 1 <= P) by nia.
  destruct (bra_unfold s P E l ltac:(lia)) as (R & e1 & m2 & e2 & HR & He1 & He2 & Hm2 & ->).
  pose proof (digits2_bounds m) as [Hdm _].
  set (dm := Zpos (digits2_pos m)) in *.
  assert (HdP : dm + e - E <= Zdigits2 P).
  { replace (dm + e - E) with ((dm - 1 + (e - E)) + 1) by lia.
    apply Zdigits2_ge; [|lia].
    rewrite Z.pow_add_r by lia.
    apply Z.le_trans with (Zpos m * 2 ^ (e - E)); [|exact Hle].
    apply Z.mul_le_mono_nonneg_r; lia. }
  assert (Hee1 : e <= e1) by lia.
  pose proof (Zdigits2_bounds P ltac:(lia)) as [HPl _].
  assert (Hq : 1 <= P / 2 ^ (e1 - E)).
  { apply Z.div_le_lower_bound; [apply Z.pow_pos_nonneg; lia|].
    rewrite Z.mul_1_r.
    destruct (Z_le_gt_dec (e1 - E) (Zdigits2 P - 1)) as [Hs|Hs].
    - apply Z.le_trans with (2 ^ (Zdigits2 P - 1)); [|exact HPl].
      apply Z.pow_le_mono_r; lia.
    - (* e1 = -1074 = e *)
      replace (e1 - E) with (e - E) by lia.
      apply Z.le_trans with (Zpos m * 2 ^ (e - E)); [|exact Hle]. nia. }
  assert (HR1 : 1 <= R) by lia.
  pose proof (Zdigits2_bounds R ltac:(lia)) as [HRl _].
  assert (HdR : 1 <= Zdigits2 R).
  { pose proof (Zdigits2_ge R 0 ltac:(simpl; lia) ltac:(lia)). lia. }
  assert (Hm : 1 <= m2).
  { rewrite Hm2. apply Z.div_le_lower_bound; [apply Z.pow_pos_nonneg; lia|].
    rewrite Z.mul_1_r.
    apply Z.le_trans with (2 ^ (Zdigits2 R - 1)); [|exact HRl].
    apply Z.pow_le_mono_r; lia. }
  assert (Hme : e2 = e -> Zpos m <= m2).
  { intros Heq. assert (He1e : e1 = e) by lia. rewrite Hm2.
    replace (e2 - e1) with 0 by lia. rewrite Z.pow_0_r, Z.div_1_r.
    apply Z.le_trans with (P / 2 ^ (e1 - E)); [|lia].
    replace (e1 - E) with (e - E) by lia.
    apply Z.div_le_lower_bound; [lia|]. rewrite Z.mul_comm. exact Hle. }
  destruct m2 as [|m'|m']; try lia.
  destruct (e2 <=? 971); [|left; reflexivity].
  right. exists m', e2. split; [reflexivity|].
  unfold lex_le. destruct (Z.eq_dec e2 e) as [Heq|Hne]; [right|left; lia].
  split; [symmetry; exact Heq|apply Hme; exact Heq].
Qed.

Lemma iter_xO (m d : positive) : Zpos (Pos.iter xO m d) = Zpos m * 2 ^ Zpos d.
Proof.
  induction d as [|d IH] using Pos.peano_ind.
  - simpl. lia.
  - rewrite Pos.iter_succ, Pos2Z.inj_xO, IH, Pos2Z.inj_succ, Z.pow_succ_r by lia. lia.
Qed.

Lemma shl_align_value (m : positive) (e e' : Z) :
  e' <= e ->
  Zpos (fst (shl_align m e e')) = Zpos m * 2 ^ (e - e') /\
  snd (shl_align m e e') = e'.
Proof.
  intros H. unfold shl_align.
  destruct (e' - e) as [|d|d] eqn:Ed; simpl fst; simpl snd.
  - replace (e - e') with 0 by lia. split; lia.
  - lia.
  - rewrite iter_xO. replace (e - e') with (Zpos d) by lia. split; reflexivity.
Qed.

Lemma shl_align_other (m : positive) (e e' : Z) :
  e <= e' -> shl_align m e e' = (m, e).
Proof.
  intros H. unfold shl_align. destruct (e' - e) as [|d|d] eqn:Ed; try reflexivity. lia.
Qed.

Definition sf_one : spec_float := S754_finite false 4503599627370496 (-52).

Definition lex_lt (m : positive) (e : Z) (m' : positive) (e' : Z) : Prop :=
  e < e' \/ (e = e' /\ Zpos m < Zpos m').

Lemma SFltb_finite_lt (m : positive) (e : Z) (m' : positive) (e' : Z) :
  lex_lt m e m' e' -> SFltb (S754_finite false m e) (S754_finite false m' e') = true.
Proof.
  unfold SFltb, SFcompare, lex_lt.
  change (Pos.compare_cont Eq m m') with (m ?= m')%positive.
  intros [H|[-> H]].
  - apply Z.compare_lt_iff in H. rewrite H. reflexivity.
  - rewrite Z.compare_refl. apply Pos.compare_lt_iff in H. rewrite H. reflexivity.
Qed.

(** Adding 1 to a positive finite number below 2^53 gives a larger one. *)
Lemma plus_one_larger (m : positive) (e : Z) :
  bounded prec emax m e = true -> e <= 0 ->
  exists m' e', SF64add (S754_finite false m e) sf_one = S754_finite false m' e'
                /\ lex_lt m e m' e'.
Proof.
  intros Hb He0. pose proof (bounded_64 m e Hb) as [Hc He].
  pose proof (digits2_bounds m) as [Hdl Hdu].
  set (dm := Zpos (digits2_pos m)) in *.
  unfold SF64add, SFadd, sf_one. cbn [cond_Zopp].
  set (ez := Z.min e (-52)).
  destruct (shl_align_value m e ez ltac:(lia)) as [Ea _].
  destruct (shl_align_value 4503599627370496 (-52) ez ltac:(lia)) as [Eb _].
  rewrite Ea, Eb.
  set (S := Zpos m * 2 ^ (e - ez) + 4503599627370496 * 2 ^ (-52 - ez)).
  assert (HS : S = Zpos m * 2 ^ (e - ez) + 2 ^ (- ez)).
  { unfold S. change 4503599627370496 with (2 ^ 52).
    rewrite <- Z.pow_add_r by lia. do 2 f_equal. lia. }
  pose proof (Z.pow_pos_nonneg 2 (e - ez) ltac:(lia) ltac:(lia)) as Hp1.
  pose proof (Z.pow_pos_nonneg 2 (- ez) ltac:(lia) ltac:(lia)) as Hp2.
  assert (HSpos : 0 < S) by (rewrite HS; nia).
  destruct S as [|Sp|Sp] eqn:ES; try lia.
  unfold binary_normalize, binary_round.
  set (ef := fexp prec emax (Zpos (digits2_pos Sp) + ez)).
  (* the successor of the number *)
  assert (Hsucc : exists ms es, bounded prec emax ms es = true /\ lex_lt m e ms es /\
                    e <= es /\ Zpos ms * 2 ^ (es - e) = Zpos m + 1).
  { destruct (Z_lt_ge_dec (Zpos m + 1) (2 ^ dm)) as [Hlt|Hge].
    - exists (m + 1)%positive, e. split; [|split; [right; split; [reflexivity|lia]|split; [lia|]]].
      + unfold bounded, canonical_mantissa. rewrite fexp_64.
        assert (Zpos (digits2_pos (m + 1)) = dm).
        { pose proof (Zdigits2_le (Zpos (m + 1)) dm ltac:(lia) ltac:(lia)).
          pose proof (Zdigits2_ge (Zpos (m + 1)) (dm - 1) ltac:(lia) ltac:(lia)).
          simpl Zdigits2 in *. lia. }
        rewrite H. apply andb_true_intro. split; [apply Z.eqb_eq; lia|apply Z.leb_le].
        change (emax - prec) with 971. lia.
      + rewrite Z.sub_diag, Z.pow_0_r. lia.
    - assert (Hm1 : Zpos m + 1 = 2 ^ dm) by lia.
      destruct (Z.eq_dec dm 53) as [H53|Hn53].
      + exists 4503599627370496%positive, (e + 1). split; [|split; [left; lia|split; [lia|]]].
        * unfold bounded, canonical_mantissa. rewrite fexp_64.
          change (Zpos (digits2_pos 4503599627370496)) with 53.
          apply andb_true_intro. split; [apply Z.eqb_eq; lia|apply Z.leb_le].
          change (emax - prec) with 971. lia.
        * replace (e + 1 - e) with 1 by lia. rewrite Hm1, H53. reflexivity.
      + (* subnormal: the successor has one more digit *)
        assert (He74 : e = -1074) by lia.
        exists (m + 1)%positive, e. split; [|split; [right; split; [reflexivity|lia]|split; [lia|]]].
        * unfold bounded, canonical_mantissa. rewrite fexp_64.
          assert (Zpos (digits2_pos (m + 1)) = dm + 1).
          { assert (Zpos (m + 1) < 2 ^ (dm + 1)).
            { rewrite Z.pow_add_r by lia. change (2 ^ 1) with 2. lia. }
            pose proof (Zdigits2_le (Zpos (m + 1)) (dm + 1) ltac:(lia) ltac:(lia)).
            pose proof (Zdigits2_ge (Zpos (m + 1)) dm ltac:(lia) ltac:(lia)).
            simpl Zdigits2 in *. lia. }
          rewrite H. apply andb_true_intro. split; [apply Z.eqb_eq; lia|apply Z.leb_le].
          change (emax - prec) with 971. lia.
        * rewrite Z.sub_diag, Z.pow_0_r. lia. }
  destruct Hsucc as (ms & es & Hbs & Hlt & Hes & Hval).
  assert (Hfin : forall P E, E <= ez -> P = Zpos Sp * 2 ^ (ez - E) ->
            exists m' e', binary_round_aux prec emax false P E loc_Exact
                          = S754_finite false m' e' /\ lex_lt m e m' e').
  { intros P E HE HPv.
    pose proof (Z.pow_pos_nonneg 2 (ez - E) ltac:(lia) ltac:(lia)) as Hp3.
    assert (Hge : Zpos ms * 2 ^ (es - E) <= P).
    { rewrite HPv, HS.
      replace (es - E) with ((es - e) + (e - ez) + (ez - E)) by lia.
      rewrite !Z.pow_add_r by lia.
      rewrite !Z.mul_assoc, Hval.
      apply Z.mul_le_mono_nonneg_r; [lia|].
      assert (2 ^ (e - ez) <= 2 ^ (- ez)) by (apply Z.pow_le_mono_r; lia).
      nia. }
    destruct (bra_ge false ms es P E loc_Exact Hbs ltac:(lia) Hge) as [Hi|[m' [e' [Hf Hl]]]].
    - (* not an infinity: the sum is below 2^54 *)
      exfalso.
      assert (Hup : P < 4503599627370496 * 2 ^ (2 - E)).
      { rewrite HPv, HS.
        replace (2 - E) with ((2 - ez) + (ez - E)) by lia.
        rewrite Z.pow_add_r, Z.mul_assoc by lia.
        apply Z.mul_lt_mono_pos_r; [lia|].
        change 4503599627370496 with (2 ^ 52). rewrite <- Z.pow_add_r by lia.
        assert (Zpos m * 2 ^ (e - ez) < 2 ^ (dm + (e - ez))).
        { rewrite Z.pow_add_r by lia. nia. }
        assert (2 ^ (dm + (e - ez)) <= 2 ^ (53 - ez)) by (apply Z.pow_le_mono_r; lia).
        assert (2 ^ (- ez) <= 2 ^ (53 - ez)) by (apply Z.pow_le_mono_r; lia).
        replace (52 + (2 - ez)) with (1 + (53 - ez)) by lia.
        rewrite Z.pow_add_r by lia. change (2 ^ 1) with 2. lia. }
      destruct (bra_lt_le false 4503599627370496 2 P E loc_Exact eq_refl ltac:(lia) ltac:(lia) Hup)
        as [Hz|[m' [e' [Hf _]]]]; congruence.
    - exists m', e'. split; [exact Hf|].
      unfold lex_lt, lex_le in *. lia. }
  destruct (Z_le_gt_dec ef ez) as [Hcase|Hcase].
  - destruct (shl_align_value Sp ez ef Hcase) as [Ev Ee].
    destruct (shl_align Sp ez ef) as [mz ez']. simpl fst in *; simpl snd in *. subst ez'.
    apply Hfin; [exact Hcase|exact Ev].
  - rewrite shl_align_other by lia.
    apply Hfin; [lia|]. rewrite Z.sub_diag, Z.pow_0_r. lia.
Qed.

End Rounding.

(** *** In IEEE binary64 *)

(** The radius is in the range from 0 to deltaBar. *)
Definition radius_in_range (deltaBar delta : float) : Prop :=
  PrimFloat.leb 0 delta = true /\ PrimFloat.leb delta deltaBar = true.

(** The same for the number that [delta] denotes, deltaBar being mB 2^eB. *)
Definition sf_in_range (mB : positive) (eB : Z) (a : spec_float) : Prop :=
  sf_zero a \/ exists m e, a = S754_finite false m e /\ lex_le m e mB eB.

Definition sf_positive (a : spec_float) : Prop :=
  a = S754_infinity false \/ exists m e, a = S754_finite false m e.

Lemma ltb_0_sf (x : float) : PrimFloat.ltb 0 x = true <-> sf_positive (Prim2SF x).
Proof.
  rewrite FloatAxioms.ltb_spec. change (Prim2SF 0) with (S754_zero false).
  unfold sf_positive. split.
  - destruct (Prim2SF x) as [s|[|]| |[|] m e]; simpl; try discriminate; intros _;
      [left; reflexivity|right; exists m, e; reflexivity].
  - intros [->|[m [e ->]]]; reflexivity.
Qed.

Lemma range_sf (deltaBar delta : float) (mB : positive) (eB : Z) :
  Prim2SF deltaBar = S754_finite false mB eB ->
  radius_in_range deltaBar delta <-> sf_in_range mB eB (Prim2SF delta).
Proof.
  intros HB. unfold radius_in_range, sf_in_range.
  rewrite !FloatAxioms.leb_spec, HB. change (Prim2SF 0) with (S754_zero false).
  split.
  - intros [H0 H1]. destruct (Prim2SF delta) as [s|s| |s m e].
    + left. exists s. reflexivity.
    + destruct s; simpl in *; discriminate.
    + discriminate.
    + destruct s; [simpl in H0; discriminate|].
      right. exists m, e. split; [reflexivity|]. apply SFleb_finite. exact H1.
  - intros [[s ->]|[m [e [-> Hl]]]]; split; try reflexivity.
    apply SFleb_finite. exact Hl.
Qed.

Lemma bar_sf (deltaBar : float) :
  PrimFloat.is_finite deltaBar = true -> PrimFloat.ltb 0 deltaBar = true ->
  exists mB eB, Prim2SF deltaBar = S754_finite false mB eB /\
                bounded prec emax mB eB = true.
Proof.
  intros Hfin Hpos. apply ltb_0_sf in Hpos.
  pose proof (Prim2SF_valid deltaBar) as Hv.
  destruct (is_finite_sf deltaBar Hfin) as [[s Hz]|[s [m [e Hf]]]].
  - rewrite Hz in Hpos. destruct Hpos as [H|[m [e H]]]; discriminate.
  - rewrite Hf in Hpos, Hv. destruct Hpos as [H|[m' [e' H]]]; [discriminate|].
    inversion H; subst. exists m', e'. split; [exact Hf|exact Hv].
Qed.

Lemma ltb_leb (a b : float) : PrimFloat.ltb a b = true -> PrimFloat.leb a b = true.
Proof.
  rewrite FloatAxioms.ltb_spec, FloatAxioms.leb_spec. unfold SFltb, SFleb.
  destruct (SFcompare _ _) as [[| |]|]; try discriminate; reflexivity.
Qed.

(** A radius in range that is at least 2^-1072. *)
Lemma large_radius_sf (delta : float) (mB : positive) (eB : Z) :
  sf_in_range mB eB (Prim2SF delta) -> PrimFloat.leb 0x1p-1072 delta = true ->
  exists m e, Prim2SF delta = S754_finite false m e /\ lex_le 4 (-1074) m e.
Proof.
  intros Hr Hbig. rewrite FloatAxioms.leb_spec in Hbig.
  change (Prim2SF 0x1p-1072) with (S754_finite false 4 (-1074)) in Hbig.
  destruct Hr as [[s Hz]|[m [e [Hf Hl]]]].
  - rewrite Hz in Hbig. discriminate.
  - rewrite Hf in Hbig. apply SFleb_finite in Hbig. exists m, e. split; assumption.
Qed.

Section RadiusIEEE.

Variables (libm_exp libm_log : float -> float) (libm_pow : float -> float -> float).
Context {rng : Type} {EE : Extern float rng}.

#[local] Instance Float64_radius : Double float := Float64 libm_exp libm_log libm_pow.

Lemma initial_radius_binary64 (deltaBar : float) :
  PrimFloat.is_finite deltaBar = true -> PrimFloat.ltb 0 deltaBar = true ->
  PrimFloat.ltb 0 (d0_99 * deltaBar)%dbl = true /\
  PrimFloat.leb (d0_99 * deltaBar)%dbl deltaBar = true.
Proof.
  intros Hfin Hpos.
  destruct (bar_sf deltaBar Hfin Hpos) as (mB & eB & HB & Hv).
  change (d0_99 * deltaBar)%dbl with (PrimFloat.mul d0_99 deltaBar).
  destruct (times_099_rounds mB eB Hv) as (m' & e' & Hm & Hl).
  assert (E : Prim2SF (PrimFloat.mul d0_99 deltaBar) = S754_finite false m' e').
  { rewrite FloatAxioms.mul_spec, HB. change (Prim2SF d0_99) with sf_099. exact Hm. }
  split.
  - apply ltb_0_sf. rewrite E. right. exists m', e'. reflexivity.
  - rewrite FloatAxioms.leb_spec, E, HB. apply SFleb_finite. exact Hl.
Qed.

Lemma adjust_delta_binary64 (numSS : nat) (deltaBar rho : float) (p : list float)
    (delta : float) :
  PrimFloat.is_finite deltaBar = true -> PrimFloat.ltb 0 deltaBar = true ->
  radius_in_range deltaBar delta ->
  radius_in_range deltaBar (adjust_delta numSS deltaBar rho p delta) /\
  (PrimFloat.leb 0x1p-1072 delta = true ->
   PrimFloat.ltb 0 (adjust_delta numSS deltaBar rho p delta) = true).
Proof.
  intros Hfin Hpos Hr.
  destruct (bar_sf deltaBar Hfin Hpos) as (mB & eB & HB & Hv).
  pose proof (Prim2SF_valid delta) as Hvd.
  apply (range_sf deltaBar delta mB eB HB) in Hr.
  unfold adjust_delta.
  destruct (rho <? d0_25)%dbl.
  - (* quartered *)
    change (delta / d4)%dbl with (PrimFloat.div delta 4).
    assert (E : Prim2SF (PrimFloat.div delta 4) = SF64div (Prim2SF delta) sf_four)
      by (rewrite FloatAxioms.div_spec; reflexivity).
    split.
    + apply (range_sf _ _ mB eB HB). rewrite E.
      destruct Hr as [[s Hz]|[m [e [Hf Hl]]]].
      * rewrite Hz. left. destruct s; eexists; reflexivity.
      * rewrite Hf in *. destruct (quarter_rounds m e Hvd) as [[Hq _]|[m' [e' [Hq Hl']]]]; rewrite Hq.
        -- left. exists false. reflexivity.
        -- right. exists m', e'. split; [reflexivity|]. eapply lex_le_trans; eassumption.
    + intros Hbig. apply ltb_0_sf. rewrite E.
      destruct (large_radius_sf delta mB eB Hr Hbig) as (m & e & Hf & Hl).
      rewrite Hf in *.
      destruct (quarter_rounds m e Hvd) as [[_ Hn]|[m' [e' [Hq _]]]]; [contradiction|].
      rewrite Hq. right. exists m', e'. reflexivity.
  - destruct (_ && _)%bool.
    + (* doubled, up to deltaBar *)
      unfold min2. change (d2 * delta)%dbl with (PrimFloat.mul 2 delta).
      assert (E : Prim2SF (PrimFloat.mul 2 delta) = SF64mul sf_two (Prim2SF delta))
        by (rewrite FloatAxioms.mul_spec; reflexivity).
      change (PrimFloat.mul 2 delta <? deltaBar)%dbl
        with (PrimFloat.ltb (PrimFloat.mul 2 delta) deltaBar).
      destruct (PrimFloat.ltb (PrimFloat.mul 2 delta) deltaBar) eqn:Elt.
      * split.
        -- split; [|apply ltb_leb; exact Elt].
           rewrite FloatAxioms.leb_spec, E. change (Prim2SF 0) with (S754_zero false).
           destruct Hr as [[s Hz]|[m [e [Hf Hl]]]].
           ++ rewrite Hz. destruct s; reflexivity.
           ++ rewrite Hf in *.
              destruct (twice_positive m e Hvd) as [Hi|[m' [e' Hq]]]; [rewrite Hi|rewrite Hq];
                reflexivity.
        -- intros Hbig. apply ltb_0_sf. rewrite E.
           destruct (large_radius_sf delta mB eB Hr Hbig) as (m & e & Hf & Hl).
           rewrite Hf in *.
           destruct (twice_positive m e Hvd) as [Hi|[m' [e' Hq]]]; [rewrite Hi|rewrite Hq].
           ++ left. reflexivity.
           ++ right. exists m', e'. reflexivity.
      * split; [|intros _; exact Hpos].
        apply (range_sf _ _ mB eB HB). right. exists mB, eB.
        split; [exact HB|apply lex_le_refl].
    + (* unchanged *)
      split; [apply (range_sf _ _ mB eB HB); exact Hr|].
      intros Hbig. apply ltb_0_sf.
      destruct (large_radius_sf delta mB eB Hr Hbig) as (m & e & Hf & Hl).
      rewrite Hf. right. exists m, e. reflexivity.
Qed.

End RadiusIEEE.

(* ================================================================== *)
(** *** Zeros and NaNs in IEEE binary64 *)

(** A number that is a zero or a NaN, and a number that is a NaN. *)
Definition sf_null (a : spec_float) : Prop := sf_zero a \/ a = S754_nan.
Definition fnull (x : float) : Prop := sf_null (Prim2SF x).
Definition fnan (x : float) : Prop := Prim2SF x = S754_nan.

(** A number that is a NaN or has the sign bit clear. *)
Definition sf_unsigned (a : spec_float) : Prop :=
  match a with
  | S754_nan => True
  | S754_zero s | S754_infinity s | S754_finite s _ _ => s = false
  end.

Ltac sf_cases :=
  repeat match goal with
         | H : sf_null _ |- _ => destruct H as [[? ->]| ->]
         | H : sf_zero _ |- _ => destruct H as [? ->]
         | H : sf_same _ _ |- _ => destruct H as [->|[[? ->] [? ->]]]
         end.

Ltac sf_close :=
  simpl;
  first [ reflexivity
        | left; eexists; reflexivity
        | right; reflexivity
        | right; split; eexists; reflexivity ].

Lemma fnan_null (x : float) : fnan x -> fnull x.
Proof. intros H. right. exact H. Qed.

Lemma SFmul_null_r (a b : spec_float) : sf_null b -> sf_null (SF64mul a b).
Proof.
  intros H. sf_cases; destruct a as [s|s| |s m e]; sf_close.
Qed.

Lemma SFmul_null_l (a b : spec_float) : sf_null a -> sf_null (SF64mul a b).
Proof.
  intros H. sf_cases; destruct b as [s|s| |s m e]; sf_close.
Qed.

Lemma SFadd_null (a b : spec_float) : sf_null a -> sf_null b -> sf_null (SF64add a b).
Proof.
  intros Ha Hb. sf_cases;
    repeat match goal with s : bool |- _ => destruct s end; sf_close.
Qed.

Lemma SFsub_null (a b : spec_float) : sf_null a -> sf_null b -> sf_null (SF64sub a b).
Proof.
  intros Ha Hb. sf_cases;
    repeat match goal with s : bool |- _ => destruct s end; sf_close.
Qed.

Lemma SFdiv_null (a b : spec_float) : sf_null a -> sf_null (SF64div a b).
Proof.
  intros H. sf_cases; destruct b as [s|s| |s m e]; sf_close.
Qed.

Lemma SFdiv_null_null (a b : spec_float) :
  sf_null a -> sf_null b -> SF64div a b = S754_nan.
Proof. intros Ha Hb. sf_cases; reflexivity. Qed.

Lemma fnull_mul_r (a b : float) : fnull b -> fnull (PrimFloat.mul a b).
Proof. unfold fnull. rewrite FloatAxioms.mul_spec. apply SFmul_null_r. Qed.

Lemma fnull_mul_l (a b : float) : fnull a -> fnull (PrimFloat.mul a b).
Proof. unfold fnull. rewrite FloatAxioms.mul_spec. apply SFmul_null_l. Qed.

Lemma fnull_add (a b : float) : fnull a -> fnull b -> fnull (PrimFloat.add a b).
Proof. unfold fnull. rewrite FloatAxioms.add_spec. apply SFadd_null. Qed.

Lemma fnull_sub (a b : float) : fnull a -> fnull b -> fnull (PrimFloat.sub a b).
Proof. unfold fnull. rewrite FloatAxioms.sub_spec. apply SFsub_null. Qed.

Lemma fnull_div (a b : float) : fnull a -> fnull (PrimFloat.div a b).
Proof. unfold fnull. rewrite FloatAxioms.div_spec. apply SFdiv_null. Qed.

Lemma fnull_opp (a : float) : fnull a -> fnull (PrimFloat.opp a).
Proof.
  unfold fnull. rewrite FloatAxioms.opp_spec. intros H. sf_cases; sf_close.
Qed.

Lemma fnull_sqrt (a : float) : fnull a -> fnull (PrimFloat.sqrt a).
Proof.
  unfold fnull. rewrite FloatAxioms.sqrt_spec. intros H. sf_cases; sf_close.
Qed.

Lemma fnan_div_null (a b : float) : fnull a -> fnull b -> fnan (PrimFloat.div a b).
Proof. unfold fnull, fnan. rewrite FloatAxioms.div_spec. apply SFdiv_null_null. Qed.

Lemma fnan_mul_r (a b : float) : fnan b -> fnan (PrimFloat.mul a b).
Proof.
  unfold fnan. rewrite FloatAxioms.mul_spec. intros ->.
  destruct (Prim2SF a) as [s|s| |s m e]; reflexivity.
Qed.

Lemma fnan_mul_l (a b : float) : fnan a -> fnan (PrimFloat.mul a b).
Proof. unfold fnan. rewrite FloatAxioms.mul_spec. intros ->. reflexivity. Qed.

Lemma fnan_add_r (a b : float) : fnan b -> fnan (PrimFloat.add a b).
Proof.
  unfold fnan. rewrite FloatAxioms.add_spec. intros ->.
  destruct (Prim2SF a) as [s|s| |s m e]; reflexivity.
Qed.

Lemma fnan_add_l (a b : float) : fnan a -> fnan (PrimFloat.add a b).
Proof. unfold fnan. rewrite FloatAxioms.add_spec. intros ->. reflexivity. Qed.

Lemma fnan_sub_l (a b : float) : fnan a -> fnan (PrimFloat.sub a b).
Proof. unfold fnan. rewrite FloatAxioms.sub_spec. intros ->. reflexivity. Qed.

Lemma fnan_sub_r (a b : float) : fnan b -> fnan (PrimFloat.sub a b).
Proof.
  unfold fnan. rewrite FloatAxioms.sub_spec. intros ->.
  destruct (Prim2SF a) as [s|s| |s m e]; reflexivity.
Qed.

Lemma fnan_opp (a : float) : fnan a -> fnan (PrimFloat.opp a).
Proof. unfold fnan. rewrite FloatAxioms.opp_spec. intros ->. reflexivity. Qed.

Lemma fnan_div_r (a b : float) : fnan b -> fnan (PrimFloat.div a b).
Proof.
  unfold fnan. rewrite FloatAxioms.div_spec. intros ->.
  destruct (Prim2SF a) as [s|s| |s m e]; reflexivity.
Qed.

(** A NaN is neither below nor above any number. *)
Lemma fnan_ltb (a b : float) :
  fnan a -> PrimFloat.ltb a b = false /\ PrimFloat.ltb b a = false.
Proof.
  unfold fnan. rewrite !FloatAxioms.ltb_spec. intros ->.
  split; [reflexivity|]. destruct (Prim2SF b) as [s|s| |s m e]; reflexivity.
Qed.

(** Subtraction and the sign of zero. *)
Lemma SFsub_same (a a' b b' : spec_float) :
  sf_same a a' -> sf_same b b' -> sf_same (SF64sub a b) (SF64sub a' b').
Proof.
  intros Ha Hb. sf_cases; try (left; reflexivity);
    repeat match goal with
           | x : spec_float |- _ => destruct x
           | s : bool |- _ => destruct s
           end;
    try (left; reflexivity); right; split; eexists; reflexivity.
Qed.

Lemma fsame_sub (a a' b b' : float) :
  fsame a a' -> fsame b b' -> fsame (PrimFloat.sub a b) (PrimFloat.sub a' b').
Proof. unfold fsame. rewrite !FloatAxioms.sub_spec. apply SFsub_same. Qed.

(** The difference of a number and itself is a zero or a NaN. *)
Lemma SFsub_self (a b : spec_float) : sf_same a b -> sf_null (SF64sub a b).
Proof.
  intros H. sf_cases.
  - destruct b as [s|s| |s m e].
    + destruct s; sf_close.
    + destruct s; sf_close.
    + sf_close.
    + left. exists false. unfold SF64sub, SFsub.
      rewrite Z.sub_diag. reflexivity.
  - repeat match goal with s : bool |- _ => destruct s end; sf_close.
Qed.

Lemma fnull_sub_same (a b : float) : fsame a b -> fnull (PrimFloat.sub a b).
Proof. unfold fsame, fnull. rewrite FloatAxioms.sub_spec. apply SFsub_self. Qed.

(** Adding a zero. *)
Lemma fsame_add_zero (a z : float) : sf_zero (Prim2SF z) -> fsame (PrimFloat.add a z) a.
Proof.
  unfold fsame. rewrite FloatAxioms.add_spec. intros [sz ->].
  destruct (Prim2SF a) as [s|s| |s m e]; try (left; reflexivity).
  destruct s, sz; simpl; try (left; reflexivity); right; split; eexists; reflexivity.
Qed.

(** Two numbers that are the same up to the sign of zero are equal, or are
    the two zeros. *)
Lemma fsame_cases (a b : float) :
  fsame a b -> a = b \/ ((a = 0%float \/ a = (-0)%float) /\ (b = 0%float \/ b = (-0)%float)).
Proof.
  assert (Z : forall x, sf_zero (Prim2SF x) -> x = 0%float \/ x = (-0)%float).
  { intros x [s Hs]. rewrite <- (FloatAxioms.SF2Prim_Prim2SF x), Hs.
    destruct s; [right|left]; reflexivity. }
  intros [H|[Ha Hb]].
  - left. apply FloatAxioms.Prim2SF_inj. exact H.
  - right. split; apply Z; assumption.
Qed.

(** **** The sign of a sum of squares *)

Lemma bra_shape (s : bool) (P E : Z) (l : location) :
  (0 <= P)%Z ->
  binary_round_aux prec emax s P E l = S754_zero s \/
  binary_round_aux prec emax s P E l = S754_infinity s \/
  exists m e, binary_round_aux prec emax s P E l = S754_finite s m e.
Proof.
  intros HP.
  destruct (bra_unfold s P E l HP) as (R & e1 & m2 & e2 & HR & He1 & He2 & Hm2 & ->).
  assert (0 <= m2)%Z.
  { rewrite Hm2. apply Z.div_pos; [|apply Z.pow_pos_nonneg; lia].
    assert (0 <= P / 2 ^ (e1 - E))%Z
      by (apply Z.div_pos; [exact HP|apply Z.pow_pos_nonneg; lia]).
    lia. }
  destruct m2 as [|m|m]; [left; reflexivity| |lia].
  right. destruct (e2 <=? 971)%Z; [right; exists m, e2; reflexivity|left; reflexivity].
Qed.

Lemma bra_unsigned (P E : Z) (l : location) :
  (0 <= P)%Z ->
  sf_unsigned (binary_round_aux prec emax false P E l) /\
  binary_round_aux prec emax false P E l <> S754_nan.
Proof.
  intros HP.
  destruct (bra_shape false P E l HP) as [->|[->|[m [e ->]]]];
    split; try reflexivity; discriminate.
Qed.

(** A square is a NaN or has the sign bit clear, and is a NaN only if the
    number is. *)
Lemma SFmul_square (a : spec_float) :
  sf_unsigned (SF64mul a a) /\ (SF64mul a a = S754_nan -> a = S754_nan).
Proof.
  destruct a as [s|s| |s m e]; simpl.
  - split; [destruct s; reflexivity|discriminate].
  - split; [destruct s; reflexivity|discriminate].
  - split; [exact I|reflexivity].
  - replace (xorb s s) with false by (destruct s; reflexivity).
    destruct (bra_unsigned (Zpos (m * m)) (e + e) loc_Exact ltac:(lia)) as [H1 H2].
    split; [exact H1|]. intros H. contradiction.
Qed.

(** So is the sum of two such numbers, which is a NaN only if one of them
    is. *)
Lemma SFadd_unsigned (a b : spec_float) :
  sf_unsigned a -> sf_unsigned b ->
  sf_unsigned (SF64add a b) /\ (SF64add a b = S754_nan -> a = S754_nan \/ b = S754_nan).
Proof.
  intros Ha Hb.
  destruct a as [sa|sa| |sa ma ea], b as [sb|sb| |sb mb eb]; simpl in Ha, Hb; subst; simpl;
    try (split; [reflexivity|discriminate]);
    try (split; [exact I|intros _; left; reflexivity]);
    try (split; [exact I|intros _; right; reflexivity]).
  unfold binary_normalize.
  destruct (shl_align ma ea (Z.min ea eb)) as [ma' ea'] eqn:E1.
  destruct (shl_align mb eb (Z.min ea eb)) as [mb' eb'] eqn:E2.
  simpl fst. simpl Z.add. unfold binary_round.
  destruct (shl_align (ma' + mb') _ _) as [mz ez].
  destruct (bra_unsigned (Zpos mz) ez loc_Exact ltac:(lia)) as [H1 H2].
  split; [exact H1|]. intros H. contradiction.
Qed.

(** Zero is not below or equal to a number that is not a NaN and has the
    sign bit clear. *)
Lemma leb_zero_unsigned (a : spec_float) :
  sf_unsigned a -> SFleb (S754_zero false) a = false -> a = S754_nan.
Proof.
  destruct a as [s|s| |s m e]; simpl; intros Hs H; subst; try discriminate.
  reflexivity.
Qed.

(* ================================================================== *)
(** *** The states of the trust-region loop *)

Section Passes.

Context {D rng : Type} {DD : Double D} {EE : Extern D rng}.
Local Open Scope dbl_scope.

Variables (A : list (list Z)) (G x0 : list D) (numSS numTotal : nat).
Variables (MaxIters : Z) (tol deltaBar eta : D) (MaxNoStep : Z).

(** [x] holds the mole fractions of [lambda], which gives no overflow. *)
Definition x_at (x lambda : list D) : Prop :=
  feasible A G numSS numTotal lambda /\
  forall j, (j < numTotal)%nat ->
    x.[j] = exp (logx_of lambda G (AT_of A numSS numTotal) numSS j).

(** The state between two passes, as [getx] leaves it (lines 131 and 182):
    [p] and [x] have their cells, and [x] holds the mole fractions of
    [lambda]. *)
Definition coherent (st : state D rng) : Prop :=
  (numSS <= length (st_p st))%nat /\ (numTotal <= length (st_x st))%nat /\
  x_at (st_x st) (st_lambda st).

(** What is asked of the Cholesky routines at a state: the solution has
    [numSS] cells, and the Newton step is not taken at a radius whose square
    is zero (a Newton step has a squared length above zero). *)
Definition Newton_sound (st : state D rng) : bool :=
  let Hes := getHes (st_x st) A numSS numTotal in
  ((length (choleskySolve (snd (choleskyDecomposition (HesCopy_of Hes numSS) numSS))
              numSS (st_Grad st) (malloc numSS)) =? numSS)%nat
   && negb (Newton_taken (st_Grad st) Hes (st_delta st) numSS
            && (delta2_of (st_delta st) <=? d0)))%bool.

(** The states at which the passes of the loop start, [n] bounding the
    passes as in [trust_region]. *)
Fixpoint visited (n : nat) (st : state D rng) : list (state D rng) :=
  match n with
  | O => []
  | S n' =>
      if inner_guard x0 numSS MaxIters tol MaxNoStep st
      then st :: match inner_body A G x0 numSS numTotal deltaBar eta st with
                 | Ret st' => visited n' st'
                 | _ => []
                 end
      else []
  end.

Lemma getSearchDir_length (p Grad : list D) (Hes : list (list D)) (delta : D) (n : nat) :
  length (snd (getSearchDir p Grad Hes delta n)) = length p.
Proof.
  unfold getSearchDir.
  destruct (choleskyDecomposition (HesCopy_of Hes n) n) as [cs hc].
  repeat match goal with
         | |- context [if ?c then _ else _] => destruct c
         end;
    cbn [snd];
    match goal with
    | |- length (forloop 0 n (fun i p => upd i (@?f i p) p) _) = _ =>
        apply (forloop_upd_length f)
    end.
Qed.

Lemma coherent_kept (st st' : state D rng) :
  inner_body A G x0 numSS numTotal deltaBar eta st = Ret st' ->
  coherent st -> coherent st'.
Proof.
  intros Hb (Hp & Hx & _).
  pose proof (inner_body_feasible A G x0 numSS numTotal deltaBar eta st st' Hb) as Hfeas.
  apply inner_body_Ret in Hb.
  destruct Hb as (_ & _ & _ & _ & Ep & _ & _ & Ex & _).
  assert (Hok : fst (getx (st_x st) (st_lambda st') G (AT_of A numSS numTotal)
                       numSS numTotal) = 1%Z) by (rewrite Ex; reflexivity).
  pose proof (getx_success _ _ _ _ _ _ Hx Hok) as Hcells.
  pose proof (getx_length (st_x st) (st_lambda st') G (AT_of A numSS numTotal)
                numSS numTotal) as Hlen.
  rewrite Ex in Hcells, Hlen. simpl in Hcells, Hlen.
  split; [rewrite Ep, getSearchDir_length; exact Hp|].
  split; [lia|]. split; [exact Hfeas|exact Hcells].
Qed.

(** A trial that returns has entered the loop at the radius 0.99 deltaBar,
    in such a state (lines 131-139), and ends with the radius the loop
    ends with. *)
Lemma trial_enters_loop (PerturbScale : D) (seed : Z) (pfuel : nat)
    (st st' : state D rng) :
  trial_body A G x0 numSS numTotal MaxIters tol deltaBar eta MaxNoStep PerturbScale
    seed pfuel st = Ret st' ->
  (numSS <= length (st_p st))%nat -> (numTotal <= length (st_x st))%nat ->
  exists s0 s1,
    coherent s0 /\ st_delta s0 = d0_99 * deltaBar /\
    trust_region A G x0 numSS numTotal MaxIters tol deltaBar eta MaxNoStep
      (Z.to_nat MaxIters) s0 = Ret s1 /\
    st_delta st' = st_delta s1.
Proof.
  unfold trial_body. intros H Hp Hx.
  destruct (if (st_nTrial st =? 1)%Z then _ else _) as [rs g].
  destruct (getInitialGuess _ _ _ _ _ _ _ _ _ _ _) as [[lam g']|]; [|discriminate].
  destruct (getx (st_x st) lam G (AT_of A numSS numTotal) numSS numTotal) as [ok x] eqn:Ex.
  destruct (ok =? 0)%Z eqn:Eok; [discriminate|].
  assert (Hok : fst (getx (st_x st) lam G (AT_of A numSS numTotal) numSS numTotal) = 1%Z).
  { pose proof (getx_flag (st_x st) lam G (AT_of A numSS numTotal) numSS numTotal) as F.
    rewrite Ex in *. simpl in *. apply Z.eqb_neq in Eok. lia. }
  pose proof (getx_success _ _ _ _ _ _ Hx Hok) as Hcells.
  pose proof (getx_length (st_x st) lam G (AT_of A numSS numTotal) numSS numTotal) as Hlen.
  rewrite Ex in Hcells, Hlen. simpl in Hcells, Hlen.
  match type of H with
  | (bind (trust_region _ _ _ _ _ _ _ _ _ _ ?n ?s) _) = _ =>
      destruct (trust_region A G x0 numSS numTotal MaxIters tol deltaBar eta MaxNoStep n s)
        as [s1| | |] eqn:Et; simpl in H; try discriminate;
      exists s, s1
  end.
  split; [|split; [reflexivity|split; [exact Et|inversion H; reflexivity]]].
  split; [exact Hp|]. split; [simpl; lia|]. split; [|exact Hcells].
  unfold feasible. simpl.
  rewrite (getx_flag_indep (malloc numTotal) (st_x st)). exact Hok.
Qed.

End Passes.
(** The radius is positive and at most deltaBar. *)
Definition radius_positive (deltaBar delta : float) : Prop :=
  PrimFloat.ltb 0 delta = true /\ PrimFloat.leb delta deltaBar = true.
(* ================================================================== *)
(** *** The radius stays positive in IEEE binary64 *)

Section RadiusKept.

Variables (libm_exp libm_log : float -> float) (libm_pow : float -> float -> float).
Context {rng : Type} {EE : Extern float rng}.

#[local] Instance Float64_kept : Double float := Float64 libm_exp libm_log libm_pow.

Local Open Scope dbl_scope.

(** **** Sums over zeros and NaNs *)

Lemma fnull_d0 : fnull d0.
Proof. left. exists false. reflexivity. Qed.

Lemma fold_null (f : nat -> float) (idx : list nat) (acc : float) :
  fnull acc -> (forall i, In i idx -> fnull (f i)) ->
  fnull (fold_left (fun a i => a + f i) idx acc).
Proof.
  revert acc. induction idx as [|i idx IH]; intros acc Ha H; simpl; [exact Ha|].
  apply IH.
  - apply fnull_add; [exact Ha|apply H; left; reflexivity].
  - intros k Hk. apply H. right. exact Hk.
Qed.

Lemma fold_nan (f : nat -> float) (idx : list nat) (acc : float) :
  fnan acc \/ (exists i, In i idx /\ fnan (f i)) ->
  fnan (fold_left (fun a i => a + f i) idx acc).
Proof.
  revert acc. induction idx as [|i idx IH]; intros acc H; simpl.
  - destruct H as [H|[i [[] _]]]. exact H.
  - apply IH. destruct H as [H|[k [[->|Hk] Hn]]].
    + left. apply fnan_add_l. exact H.
    + left. apply fnan_add_r. exact Hn.
    + right. exists k. split; assumption.
Qed.

Lemma dot_null (u v : list float) (n : nat) :
  (forall i, (i < n)%nat -> fnull (u.[i] * v.[i])) -> fnull (dot u v n).
Proof.
  intros H. unfold dot. apply (fold_null (fun i => u.[i] * v.[i])); [apply fnull_d0|].
  intros i Hi. apply in_seq in Hi. apply H. lia.
Qed.

Lemma dot_nan (u v : list float) (n i : nat) :
  (i < n)%nat -> fnan (u.[i] * v.[i]) -> fnan (dot u v n).
Proof.
  intros Hi H. unfold dot. apply (fold_nan (fun i => u.[i] * v.[i])).
  right. exists i. split; [apply in_seq; lia|exact H].
Qed.

Lemma didot_nan (u : list float) (row : list Z) (n i : nat) :
  (i < n)%nat -> fnan u.[i] -> fnan (didot u row n).
Proof.
  intros Hi H. unfold didot. apply (fold_nan (fun i => u.[i] * of_int row.z[i])).
  right. exists i. split; [apply in_seq; lia|apply fnan_mul_l; exact H].
Qed.

Lemma fold_same (f g : nat -> float) (idx : list nat) (acc acc' : float) :
  fsame acc acc' -> (forall i, In i idx -> fsame (f i) (g i)) ->
  fsame (fold_left (fun a i => a + f i) idx acc) (fold_left (fun a i => a + g i) idx acc').
Proof.
  revert acc acc'. induction idx as [|i idx IH]; intros acc acc' Ha H; simpl; [exact Ha|].
  apply IH.
  - apply fsame_add; [exact Ha|apply H; left; reflexivity].
  - intros k Hk. apply H. right. exact Hk.
Qed.

Lemma dot_same (u u' v : list float) (n : nat) :
  (forall i, (i < n)%nat -> fsame u.[i] u'.[i]) -> fsame (dot u v n) (dot u' v n).
Proof.
  intros H. unfold dot.
  apply (fold_same (fun i => u.[i] * v.[i]) (fun i => u'.[i] * v.[i]));
    [apply sf_same_refl|].
  intros i Hi. apply in_seq in Hi. apply fsame_mul. apply H. lia.
Qed.

Lemma sum_ext (a b : list float) (n : nat) :
  (forall j, (j < n)%nat -> a.[j] = b.[j]) -> sum a n = sum b n.
Proof.
  intros H. unfold sum.
  assert (K : forall idx acc, (forall j, In j idx -> (j < n)%nat) ->
            fold_left (fun acc i => acc + a.[i]) idx acc
            = fold_left (fun acc i => acc + b.[i]) idx acc).
  { induction idx as [|i idx IH]; intros acc Hin; cbn [fold_left]; [reflexivity|].
    rewrite (H i) by (apply Hin; left; reflexivity).
    apply IH. intros j Hj. apply Hin. right. exact Hj. }
  apply K. intros j Hj. apply in_seq in Hj. lia.
Qed.

(** A sum of squares is a NaN or has the sign bit clear, and is a NaN only
    if one of the numbers is. *)
Lemma fold_squares (v : list float) (idx : list nat) (acc : float) :
  sf_unsigned (Prim2SF acc) ->
  sf_unsigned (Prim2SF (fold_left (fun a i => a + v.[i] * v.[i]) idx acc)) /\
  (fnan (fold_left (fun a i => a + v.[i] * v.[i]) idx acc) ->
   fnan acc \/ exists i, In i idx /\ fnan v.[i]).
Proof.
  revert acc. induction idx as [|i idx IH]; intros acc Ha; simpl.
  - split; [exact Ha|]. intros H. left. exact H.
  - assert (Hsq : sf_unsigned (Prim2SF (v.[i] * v.[i])) /\
                  (fnan (v.[i] * v.[i]) -> fnan v.[i])).
    { change (v.[i] * v.[i]) with (PrimFloat.mul v.[i] v.[i]).
      unfold fnan. rewrite FloatAxioms.mul_spec. apply SFmul_square. }
    destruct Hsq as [Hs Hn].
    assert (Hadd : sf_unsigned (Prim2SF (acc + v.[i] * v.[i])) /\
                   (fnan (acc + v.[i] * v.[i]) -> fnan acc \/ fnan (v.[i] * v.[i]))).
    { change (acc + v.[i] * v.[i]) with (PrimFloat.add acc (v.[i] * v.[i])).
      unfold fnan. rewrite FloatAxioms.add_spec. apply SFadd_unsigned; assumption. }
    destruct Hadd as [Hu Hna].
    destruct (IH _ Hu) as [H1 H2]. split; [exact H1|].
    intros H. destruct (H2 H) as [K|[k [Hk Hv]]].
    + destruct (Hna K) as [K'|K']; [left; exact K'|].
      right. exists i. split; [left; reflexivity|apply Hn; exact K'].
    + right. exists k. split; [right; exact Hk|exact Hv].
Qed.

(** A sum of squares that zero is not below or equal to has a NaN among
    the numbers. *)
Lemma normsq_below_zero (v : list float) (n : nat) :
  (normsq n v >=? PrimFloat.zero) = false -> exists i, (i < n)%nat /\ fnan v.[i].
Proof.
  unfold normsq, dot. intros H.
  assert (H0 : sf_unsigned (Prim2SF d0)) by reflexivity.
  destruct (fold_squares v (seq 0 n) d0 H0) as [Hu Hn].
  assert (K : fnan (fold_left (fun a i => a + v.[i] * v.[i]) (seq 0 n) d0)).
  { unfold fnan. apply leb_zero_unsigned; [exact Hu|].
    change (PrimFloat.leb 0 (fold_left (fun a i => a + v.[i] * v.[i]) (seq 0 n) d0) = false)
      in H.
    rewrite FloatAxioms.leb_spec in H. exact H. }
  destruct (Hn K) as [K0|[i [Hi Hv]]].
  - discriminate K0.
  - exists i. split; [apply in_seq in Hi; lia|exact Hv].
Qed.

(** Numbers that are zeros or NaNs: one of them is a NaN, or all are
    zeros. *)
Lemma null_split (f : nat -> float) (n : nat) :
  (forall i, (i < n)%nat -> fnull (f i)) ->
  (exists i, (i < n)%nat /\ fnan (f i)) \/
  (forall i, (i < n)%nat -> sf_zero (Prim2SF (f i))).
Proof.
  induction n as [|n IH]; intros H.
  - right. intros i Hi. lia.
  - destruct (IH (fun i Hi => H i (Nat.lt_lt_succ_r _ _ Hi))) as [[i [Hi Hn]]|Hz].
    + left. exists i. split; [lia|exact Hn].
    + destruct (H n (Nat.lt_succ_diag_r n)) as [Hzn|Hnn].
      * right. intros i Hi. destruct (Nat.eq_dec i n) as [->|Hne]; [exact Hzn|].
        apply Hz. lia.
      * left. exists n. split; [lia|exact Hnn].
Qed.

(** **** The step when the square of the radius is zero *)

(** Every entry of the step is a zero or a NaN, or one of them is a NaN,
    unless the Newton step is taken. *)
Lemma zero_radius_step (p Grad : list float) (Hes : list (list float)) (delta : float)
    (numSS : nat) :
  (numSS <= length p)%nat ->
  length (choleskySolve (snd (choleskyDecomposition (HesCopy_of Hes numSS) numSS))
            numSS Grad (malloc numSS)) = numSS ->
  delta2_of delta = PrimFloat.zero ->
  Newton_taken Grad Hes delta numSS = false ->
  let p' := snd (getSearchDir p Grad Hes delta numSS) in
  (forall i, (i < numSS)%nat -> fnull p'.[i]) \/
  (exists i, (i < numSS)%nat /\ fnan p'.[i]).
Proof.
  intros Hp Hsolve Hd HN p'. subst p'.
  rewrite (getSearchDir_cases p Grad Hes delta numSS Hsolve). cbv zeta.
  rewrite HN, Hd.
  set (pU := Cauchy_dir Grad Hes numSS).
  set (pB := Newton_step Grad Hes numSS).
  destruct (normsq numSS pU >=? PrimFloat.zero) eqn:EU.
  - left. intros i Hi. cbn [snd].
    rewrite (forloop_upd_in
               (fun i => sqrt (PrimFloat.zero / normsq numSS pU) * pU.[i])) by lia.
    apply fnull_mul_l. apply fnull_sqrt. apply fnull_div. apply fnull_d0.
  - right. destruct (normsq_below_zero pU numSS EU) as [i [Hi Hn]].
    exists i. split; [exact Hi|].
    assert (Hcopy : fnan (forloop 0 numSS (fun i p => upd i pU.[i] p) p).[i]).
    { rewrite (forloop_upd_in (fun i => pU.[i])) by lia. exact Hn. }
    assert (Halong : forall alpha,
              fnan (forloop 0 numSS
                      (fun i p => upd i (pU.[i] + alpha * (pB.[i] - pU.[i])) p) p).[i]).
    { intros alpha.
      rewrite (forloop_upd_in (fun i => pU.[i] + alpha * (pB.[i] - pU.[i]))) by lia.
      apply fnan_add_l. exact Hn. }
    repeat match goal with
           | |- context [if ?c then _ else _] => destruct c
           end;
      cbn [snd]; first [exact Hcopy | apply Halong].
Qed.

(** **** The ratio rho for such a step *)

Variables (A : list (list Z)) (G x0 : list float) (numSS numTotal : nat).

Abbreviation AT := (AT_of A numSS numTotal).

(** [exp] gives the same for the two zeros. *)
Hypothesis exp_zero : libm_exp (-0)%float = libm_exp 0%float.

Lemma exp_same (a b : float) : fsame a b -> exp a = exp b.
Proof.
  intros H. change (libm_exp a = libm_exp b).
  destruct (fsame_cases a b H) as [->|[[->| ->] [->| ->]]];
    try reflexivity; [symmetry|]; exact exp_zero.
Qed.

Lemma logx_same (v v' : list float) (j : nat) :
  (forall i, (i < numSS)%nat -> fsame v.[i] v'.[i]) ->
  fsame (logx_of v G AT numSS j) (logx_of v' G AT numSS j).
Proof.
  intros H. unfold logx_of. apply fsame_add; [apply sf_same_refl|].
  apply (didot_same libm_exp libm_log libm_pow). exact H.
Qed.

Lemma sf_same_sym (a b : spec_float) : sf_same a b -> sf_same b a.
Proof. intros [->|[Ha Hb]]; [left; reflexivity|right; split; assumption]. Qed.

Lemma getRho_nan (lambda p Grad x : list float) (Hes : list (list float)) :
  x_at A G numSS numTotal x lambda ->
  (forall i, (i < numSS)%nat -> fnull p.[i]) \/ (exists i, (i < numSS)%nat /\ fnan p.[i]) ->
  fnan (getRho lambda p Grad x Hes x0 G AT numSS numTotal).
Proof.
  intros [Hfeas Hx] Hp.
  assert (Hp' : (exists i, (i < numSS)%nat /\ fnan p.[i]) \/
                (forall i, (i < numSS)%nat -> sf_zero (Prim2SF p.[i]))).
  { destruct Hp as [Hp|Hp]; [|left; exact Hp]. apply (null_split (fun i => p.[i])). exact Hp. }
  clear Hp.
  unfold getRho.
  set (newlambda := forloop 0 numSS (fun i nl => upd i (lambda.[i] + p.[i]) nl)
                      (malloc numSS)).
  assert (Hnl : forall i, (i < numSS)%nat -> newlambda.[i] = lambda.[i] + p.[i]).
  { intros i Hi. unfold newlambda.
    apply (forloop_upd_in (fun i => lambda.[i] + p.[i])); [lia|].
    rewrite malloc_length. lia. }
  destruct Hp' as [[i [Hi Hn]]|Hz].
  - (* a NaN in the step *)
    assert (Hnan : forall j, fnan (logx_of newlambda G AT numSS j)).
    { intros j. unfold logx_of. apply fnan_add_r. apply (didot_nan _ _ _ i Hi).
      rewrite Hnl by exact Hi. apply fnan_add_r. exact Hn. }
    assert (Hok : fst (getx (malloc numTotal) newlambda G AT numSS numTotal) = 1%Z).
    { destruct (getx_flag (malloc numTotal) newlambda G AT numSS numTotal) as [F|F];
        [|exact F].
      apply getx_overflow_iff in F. destruct F as [j [_ Hov]].
      change (PrimFloat.ltb MAXLOGX (logx_of newlambda G AT numSS j) = true) in Hov.
      rewrite (proj2 (fnan_ltb _ MAXLOGX (Hnan j))) in Hov. discriminate. }
    destruct (getx (malloc numTotal) newlambda G AT numSS numTotal) as [ok newx].
    simpl in Hok. subst ok. simpl.
    apply fnan_div_r. apply fnan_sub_l. apply fnan_opp.
    apply (dot_nan _ _ _ i Hi). apply fnan_mul_r. exact Hn.
  - (* a step of zeros *)
    assert (Hsame : forall i, (i < numSS)%nat -> fsame newlambda.[i] lambda.[i]).
    { intros i Hi. rewrite Hnl by exact Hi. apply fsame_add_zero. apply Hz. exact Hi. }
    assert (Hok : fst (getx (malloc numTotal) newlambda G AT numSS numTotal) = 1%Z).
    { rewrite (getx_flag_same libm_exp libm_log libm_pow G AT numSS numTotal
                 (malloc numTotal) (malloc numTotal) newlambda lambda Hsame).
      exact Hfeas. }
    pose proof (getx_success (malloc numTotal) newlambda G AT numSS numTotal
                  ltac:(rewrite malloc_length; lia) Hok) as Hnewx.
    destruct (getx (malloc numTotal) newlambda G AT numSS numTotal) as [ok newx].
    simpl in Hok, Hnewx. subst ok. simpl.
    assert (Hsum : sum newx numTotal = sum x numTotal).
    { apply sum_ext. intros j Hj. rewrite Hnewx, Hx by exact Hj.
      apply exp_same. apply logx_same. exact Hsame. }
    rewrite Hsum.
    apply fnan_div_null.
    + apply fnull_sub_same. apply fsame_sub; [apply sf_same_refl|].
      apply sf_same_sym. apply dot_same. exact Hsame.
    + apply fnull_sub.
      * apply fnull_opp. apply dot_null. intros i Hi. apply fnull_mul_r. left. apply Hz. exact Hi.
      * apply fnull_div. apply dot_null. intros i Hi. apply fnull_mul_l. left. apply Hz. exact Hi.
Qed.

(** **** The passes of the loop *)

Variables (MaxIters : Z) (tol deltaBar eta : float) (MaxNoStep : Z).

Abbreviation InnerBody := (inner_body A G x0 numSS numTotal deltaBar eta).
Abbreviation InnerGuard := (inner_guard x0 numSS MaxIters tol MaxNoStep).
Abbreviation TrustRegion :=
  (trust_region A G x0 numSS numTotal MaxIters tol deltaBar eta MaxNoStep).
Abbreviation Visited :=
  (visited A G x0 numSS numTotal MaxIters tol deltaBar eta MaxNoStep).

(** [pow] gives zero for the square of a positive number below 2^-1072 (the
    square is below 2^-2144). *)
Hypothesis pow_underflows :
  forall d, PrimFloat.ltb 0 d = true -> PrimFloat.ltb d 0x1p-1072 = true ->
            libm_pow d 2 = 0%float.

(** A positive number that 2^-1072 is not below or equal to is below
    2^-1072. *)
Lemma below_threshold (d : float) :
  PrimFloat.ltb 0 d = true -> PrimFloat.leb 0x1p-1072 d = false ->
  PrimFloat.ltb d 0x1p-1072 = true.
Proof.
  intros Hpos Hle. apply ltb_0_sf in Hpos.
  rewrite FloatAxioms.ltb_spec. rewrite FloatAxioms.leb_spec in Hle.
  change (Prim2SF 0x1p-1072) with (S754_finite false 4 (-1074)) in *.
  destruct Hpos as [Hi|[m [e Hf]]].
  - rewrite Hi in Hle. discriminate.
  - rewrite Hf in *. apply SFltb_finite_lt.
    assert (Hn : ~ lex_le 4 (-1074) m e).
    { intros K. apply SFleb_finite in K. rewrite K in Hle. discriminate. }
    unfold lex_le in Hn. unfold lex_lt. lia.
Qed.

(** A pass that starts with a positive radius below 2^-1072 leaves the
    radius as it is: the step is made of zeros and NaNs, and rho is a
    NaN. *)
Lemma tiny_pass (st st' : state float rng) :
  InnerBody st = Ret st' -> coherent A G numSS numTotal st ->
  Newton_sound A numSS numTotal st = true ->
  PrimFloat.ltb 0 (st_delta st) = true ->
  PrimFloat.ltb (st_delta st) 0x1p-1072 = true ->
  st_delta st' = st_delta st.
Proof.
  intros Hb (Hp & Hx & Hat) Hs Hpos Htiny.
  apply inner_body_Ret in Hb.
  destruct Hb as (_ & _ & _ & _ & _ & Ed & _).
  rewrite Ed. clear Ed.
  unfold Newton_sound in Hs. cbv zeta in Hs.
  apply andb_prop in Hs. destruct Hs as [Hlen HN].
  apply Nat.eqb_eq in Hlen. apply negb_true_iff in HN.
  set (Hes := getHes (st_x st) A numSS numTotal) in *.
  assert (Hd : delta2_of (st_delta st) = PrimFloat.zero)
    by (apply (pow_underflows (st_delta st) Hpos Htiny)).
  rewrite Hd in HN. change (PrimFloat.zero <=? d0) with true in HN.
  rewrite andb_true_r in HN.
  pose proof (zero_radius_step (st_p st) (st_Grad st) Hes
                (st_delta st) numSS Hp Hlen Hd HN) as Hstep.
  cbv zeta in Hstep.
  pose proof (getRho_nan (st_lambda st) _ (st_Grad st) (st_x st) Hes Hat Hstep) as Hrho.
  unfold adjust_delta.
  set (rho := getRho _ _ _ _ _ _ _ _ _ _) in *.
  change (rho <? d0_25) with (PrimFloat.ltb rho d0_25).
  change (rho >? d0_75) with (PrimFloat.ltb d0_75 rho).
  rewrite (proj1 (fnan_ltb rho d0_25 Hrho)), (proj2 (fnan_ltb rho d0_75 Hrho)).
  reflexivity.
Qed.

Hypothesis deltaBar_finite : PrimFloat.is_finite deltaBar = true.
Hypothesis deltaBar_positive : PrimFloat.ltb 0 deltaBar = true.

(** Every pass keeps the radius positive and at most deltaBar. *)
Lemma pass_keeps_positive (st st' : state float rng) :
  InnerBody st = Ret st' -> coherent A G numSS numTotal st ->
  Newton_sound A numSS numTotal st = true ->
  radius_positive deltaBar (st_delta st) -> radius_positive deltaBar (st_delta st').
Proof.
  intros Hb Hc Hs [Hpos Hle].
  assert (Hr : radius_in_range deltaBar (st_delta st))
    by (split; [apply ltb_leb; exact Hpos|exact Hle]).
  destruct (PrimFloat.leb 0x1p-1072 (st_delta st)) eqn:Ebig.
  - pose proof Hb as Hb'. apply inner_body_Ret in Hb'.
    destruct Hb' as (_ & _ & _ & _ & _ & Ed & _).
    destruct (adjust_delta_binary64 libm_exp libm_log libm_pow numSS deltaBar
                (getRho (st_lambda st)
                   (snd (getSearchDir (st_p st) (st_Grad st)
                           (getHes (st_x st) A numSS numTotal) (st_delta st) numSS))
                   (st_Grad st) (st_x st) (getHes (st_x st) A numSS numTotal) x0 G
                   (AT_of A numSS numTotal) numSS numTotal)
                (snd (getSearchDir (st_p st) (st_Grad st)
                        (getHes (st_x st) A numSS numTotal) (st_delta st) numSS))
                (st_delta st) deltaBar_finite deltaBar_positive Hr) as [[_ H1] H2].
    unfold radius_positive. rewrite Ed. split; [apply H2; exact Ebig|exact H1].
  - pose proof (below_threshold _ Hpos Ebig) as Htiny.
    unfold radius_positive. rewrite (tiny_pass st st' Hb Hc Hs Hpos Htiny).
    split; assumption.
Qed.

(** The loop keeps the radius positive and at most deltaBar: at the start
    of every pass and when it returns. *)
Lemma loop_keeps_positive (n : nat) :
  forall st st',
    TrustRegion n st = Ret st' -> coherent A G numSS numTotal st ->
    radius_positive deltaBar (st_delta st) ->
    Forall (fun t => Newton_sound A numSS numTotal t = true) (Visited n st) ->
    Forall (fun t => radius_positive deltaBar (st_delta t)) (Visited n st) /\
    radius_positive deltaBar (st_delta st').
Proof.
  induction n as [|n IH]; intros st st' Ht Hc Hr Hs; simpl in Ht.
  - destruct (InnerGuard st); [discriminate|]. inversion Ht; subst.
    split; [constructor|exact Hr].
  - cbn [visited] in *. destruct (InnerGuard st).
    + destruct (InnerBody st) as [st1| | |] eqn:Eb; simpl in Ht; try discriminate.
      inversion Hs as [|t l Hs1 Hs2]; subst.
      destruct (IH st1 st' Ht (coherent_kept A G x0 numSS numTotal deltaBar eta st st1 Eb Hc)
                  (pass_keeps_positive st st1 Eb Hc Hs1 Hr) Hs2) as [H1 H2].
      split; [constructor; assumption|exact H2].
    + inversion Ht; subst. split; [constructor|exact Hr].
Qed.

End RadiusKept.

(** C7.  On every pass of the trust-region loop, in whatever arithmetic the
    program is run, the radius becomes delta/4 when rho < 0.25,
    min(2 delta, deltaBar) when rho > 0.75 and | |p| - delta | < NUM_PRECISION,
    and stays as it is otherwise; eta plays no part in it.  Consequently, in
    binary64 and for a finite positive deltaBar: a trial starts the radius
    at 0.99 deltaBar, which is positive and at most deltaBar; whatever the
    C library and the Cholesky routines do, the radius never exceeds
    deltaBar and never goes below zero, and a pass leaves it positive
    whenever it was at least 2^-1072; and it is positive and at most
    deltaBar at the start of every pass of the loop and when the loop
    returns, hence throughout every trial that returns, provided that [pow]
    gives zero for the square of a positive number below 2^-1072, that [exp]
    gives the same for the two zeros, and that at the states the loop goes
    through the Cholesky routines return [numSS] cells and no Newton step is
    taken at a radius whose square is zero.  (The quarter of a radius below
    2^-1072 can round to zero; but there the square of the radius is zero,
    the step is made of zeros and NaNs, rho is a NaN, and the radius is left
    as it is.) *)
Theorem trust_radius :
  (forall (D rng : Type) (DD : Double D) (EE : Extern D rng)
          (A : list (list Z)) (G x0 : list D) (numSS numTotal : nat)
          (deltaBar eta : D) (st st' : state D rng),
     inner_body A G x0 numSS numTotal deltaBar eta st = Ret st' ->
     let Hes := getHes (st_x st) A numSS numTotal in
     let p := snd (getSearchDir (st_p st) (st_Grad st) Hes (st_delta st) numSS) in
     let rho := getRho (st_lambda st) p (st_Grad st) (st_x st) Hes x0 G
                  (AT_of A numSS numTotal) numSS numTotal in
     let delta := st_delta st in
     st_delta st' =
       (if rho <? d0_25 then delta / d4
        else if ((rho >? d0_75) && (fabs (norm p numSS - delta) <? NUM_PRECISION))%bool
             then min2 (d2 * delta) deltaBar
             else delta)%dbl) /\
  (forall (libm_exp libm_log : float -> float) (libm_pow : float -> float -> float)
          (rng : Type) (EE : Extern float rng)
          (A : list (list Z)) (G x0 : list float) (numSS numTotal : nat)
          (MaxIters : Z) (tol deltaBar eta : float) (MaxNoStep : Z),
     let DD := Float64 libm_exp libm_log libm_pow in
     PrimFloat.is_finite deltaBar = true -> PrimFloat.ltb 0 deltaBar = true ->
     radius_positive deltaBar (d0_99 * deltaBar)%dbl /\
     (forall st st',
        inner_body A G x0 numSS numTotal deltaBar eta st = Ret st' ->
        radius_in_range deltaBar (st_delta st) ->
        radius_in_range deltaBar (st_delta st') /\
        (PrimFloat.leb 0x1p-1072 (st_delta st) = true ->
         PrimFloat.ltb 0 (st_delta st') = true)) /\
     (forall n st st',
        trust_region A G x0 numSS numTotal MaxIters tol deltaBar eta MaxNoStep n st
          = Ret st' ->
        radius_in_range deltaBar (st_delta st) ->
        radius_in_range deltaBar (st_delta st')) /\
     ((forall d, PrimFloat.ltb 0 d = true -> PrimFloat.ltb d 0x1p-1072 = true ->
                 libm_pow d 2%float = 0%float) ->
      libm_exp (-0)%float = libm_exp 0%float ->
      (forall st st',
         inner_body A G x0 numSS numTotal deltaBar eta st = Ret st' ->
         coherent A G numSS numTotal st -> Newton_sound A numSS numTotal st = true ->
         radius_positive deltaBar (st_delta st) ->
         radius_positive deltaBar (st_delta st')) /\
      (forall n st st',
         trust_region A G x0 numSS numTotal MaxIters tol deltaBar eta MaxNoStep n st
           = Ret st' ->
         coherent A G numSS numTotal st ->
         radius_positive deltaBar (st_delta st) ->
         Forall (fun t => Newton_sound A numSS numTotal t = true)
           (visited A G x0 numSS numTotal MaxIters tol deltaBar eta MaxNoStep n st) ->
         Forall (fun t => radius_positive deltaBar (st_delta t))
           (visited A G x0 numSS numTotal MaxIters tol deltaBar eta MaxNoStep n st) /\
         radius_positive deltaBar (st_delta st')) /\
      (forall PerturbScale seed pfuel st st',
         trial_body A G x0 numSS numTotal MaxIters tol deltaBar eta MaxNoStep
           PerturbScale seed pfuel st = Ret st' ->
         (numSS <= length (st_p st))%nat -> (numTotal <= length (st_x st))%nat ->
         exists s0 s1,
           coherent A G numSS numTotal s0 /\ st_delta s0 = (d0_99 * deltaBar)%dbl /\
           trust_region A G x0 numSS numTotal MaxIters tol deltaBar eta MaxNoStep
             (Z.to_nat MaxIters) s0 = Ret s1 /\
           st_delta st' = st_delta s1 /\
           (Forall (fun t => Newton_sound A numSS numTotal t = true)
              (visited A G x0 numSS numTotal MaxIters tol deltaBar eta MaxNoStep
                 (Z.to_nat MaxIters) s0) ->
            Forall (fun t => radius_positive deltaBar (st_delta t))
              (visited A G x0 numSS numTotal MaxIters tol deltaBar eta MaxNoStep
                 (Z.to_nat MaxIters) s0) /\
            radius_positive deltaBar (st_delta st'))))).
Proof.
  split.
  - intros D rng DD EE A G x0 numSS numTotal deltaBar eta st st' Hb Hes p rho delta.
    apply inner_body_Ret in Hb. destruct Hb as (_ & _ & _ & _ & _ & Hdelta & _).
    exact Hdelta.
  - intros libm_exp libm_log libm_pow rng EE A G x0 numSS numTotal MaxIters tol deltaBar
           eta MaxNoStep DD Hfin Hpos.
    split; [apply initial_radius_binary64; assumption|].
    assert (Hstep : forall st st',
              inner_body A G x0 numSS numTotal deltaBar eta st = Ret st' ->
              radius_in_range deltaBar (st_delta st) ->
              radius_in_range deltaBar (st_delta st') /\
              (PrimFloat.leb 0x1p-1072 (st_delta st) = true ->
               PrimFloat.ltb 0 (st_delta st') = true)).
    { intros st st' Hb Hd. apply inner_body_Ret in Hb.
      destruct Hb as (_ & _ & _ & _ & _ & Hdelta & _).
      rewrite Hdelta. apply adjust_delta_binary64; assumption. }
    split; [exact Hstep|]. split.
    + intros n st st' Ht Hd.
      apply (trust_region_inv A G x0 numSS numTotal MaxIters tol deltaBar eta MaxNoStep
               (fun t => radius_in_range deltaBar (st_delta t))
               (fun t t' It _ Hb => proj1 (Hstep t t' Hb It)) n st st' Hd Ht).
    + intros Hpow Hexp.
      assert (Hloop : forall n st st',
                trust_region A G x0 numSS numTotal MaxIters tol deltaBar eta MaxNoStep n st
                  = Ret st' ->
                coherent A G numSS numTotal st ->
                radius_positive deltaBar (st_delta st) ->
                Forall (fun t => Newton_sound A numSS numTotal t = true)
                  (visited A G x0 numSS numTotal MaxIters tol deltaBar eta MaxNoStep n st) ->
                Forall (fun t => radius_positive deltaBar (st_delta t))
                  (visited A G x0 numSS numTotal MaxIters tol deltaBar eta MaxNoStep n st) /\
                radius_positive deltaBar (st_delta st')).
      { intros n st st' Ht Hc Hr Hs.
        eapply (loop_keeps_positive libm_exp libm_log libm_pow); eassumption. }
      split; [|split; [exact Hloop|]].
      * intros st st' Hb Hc Hs Hr.
        eapply (pass_keeps_positive libm_exp libm_log libm_pow); eassumption.
      * intros PerturbScale seed pfuel st st' Ht Hp Hx.
        destruct (trial_enters_loop A G x0 numSS numTotal MaxIters tol deltaBar eta
                    MaxNoStep PerturbScale seed pfuel st st' Ht Hp Hx)
          as (s0 & s1 & Hc & Hd & Hl & He).
        exists s0, s1. split; [exact Hc|]. split; [exact Hd|]. split; [exact Hl|].
        split; [exact He|]. intros Hs. rewrite He.
        apply (Hloop (Z.to_nat MaxIters) s0 s1 Hl Hc); [|exact Hs].
        rewrite Hd. apply initial_radius_binary64; assumption.
Qed.

(* ================================================================== *)
(** ** The sentinel gradient in IEEE binary64 *)

Section SentinelIEEE.

Variables (libm_exp libm_log : float -> float) (libm_pow : float -> float -> float).

#[local] Instance Float64_sentinel : Double float := Float64 libm_exp libm_log libm_pow.

Lemma CheckTol_0 (Grad Tol : list float) (n i : nat) :
  (i < n)%nat -> (fabs Grad.[i] >? Tol.[i])%dbl = true -> CheckTol Grad Tol n = 0%Z.
Proof.
  intros Hi H.
  destruct (CheckTol_flag Grad Tol n) as [E|E]; [exact E|].
  rewrite (CheckTol_1 Grad Tol n E i Hi) in H. discriminate.
Qed.

(** A tolerance a in [0, 2^53) is exceeded by a + 1.0. *)
Lemma plus_one_exceeds (a : float) :
  PrimFloat.leb 0 a = true -> PrimFloat.ltb a 0x1p53 = true ->
  PrimFloat.ltb a (PrimFloat.abs (PrimFloat.add a 1)) = true.
Proof.
  intros H0 H1.
  pose proof (Prim2SF_valid a) as Hv.
  rewrite FloatAxioms.leb_spec in H0. rewrite FloatAxioms.ltb_spec in H1.
  rewrite FloatAxioms.ltb_spec, FloatAxioms.abs_spec, FloatAxioms.add_spec.
  change (Prim2SF 0) with (S754_zero false) in H0.
  change (Prim2SF 0x1p53) with (S754_finite false 4503599627370496 1) in H1.
  change (Prim2SF 1) with sf_one.
  destruct (Prim2SF a) as [s|s| |s m e].
  - destruct s; reflexivity.
  - destruct s; discriminate.
  - discriminate.
  - destruct s; [discriminate|].
    assert (He : (e <= 0)%Z).
    { pose proof H1 as H1b.
      apply SFltb_finite in H1. destruct H1 as [H1|[H1 H2]]; [lia|].
      exfalso. subst e. pose proof (bounded_64 m 1 Hv) as [Hc _].
      pose proof (digits2_bounds m) as [Hl _].
      assert (Hd : Zpos (digits2_pos m) = 53%Z) by lia.
      rewrite Hd in Hl. change (2 ^ (53 - 1))%Z with 4503599627370496%Z in Hl.
      assert (m = 4503599627370496%positive) by lia. subst m.
      vm_compute in H1b. discriminate. }
    destruct (plus_one_larger m e Hv He) as (m' & e' & Hp & Hlt).
    rewrite Hp. simpl SFabs. apply SFltb_finite_lt. exact Hlt.
Qed.

(** In binary64 the sentinel gradient of lines 116-118 fails the tolerance,
    and the trial loop is entered, as soon as one absolute tolerance
    tol * x0[i] is a number in [0, 2^53). *)
Lemma sentinel_fails_binary64 (x0 : list float) (numSS : nat) (tol : float) (i : nat) :
  (i < numSS)%nat ->
  PrimFloat.leb 0 (tol * x0.[i])%dbl = true ->
  PrimFloat.ltb (tol * x0.[i])%dbl 0x1p53 = true ->
  CheckTol (sentinel_Grad x0 numSS tol) (AbsTol_of x0 numSS tol) numSS = 0%Z.
Proof.
  intros Hi H0 H1. apply (CheckTol_0 _ _ numSS i Hi).
  assert (Ea : (AbsTol_of x0 numSS tol).[i] = (tol * x0.[i])%dbl).
  { unfold AbsTol_of.
    apply (forloop_upd_in (fun i => (tol * x0.[i])%dbl)); rewrite ?malloc_length; lia. }
  assert (Es : (sentinel_Grad x0 numSS tol).[i]
               = ((AbsTol_of x0 numSS tol).[i] + d1)%dbl).
  { unfold sentinel_Grad.
    apply (forloop_upd_in (fun i => ((AbsTol_of x0 numSS tol).[i] + d1)%dbl));
      rewrite ?malloc_length; lia. }
  rewrite Es, Ea.
  exact (plus_one_exceeds (tol * x0.[i])%dbl H0 H1).
Qed.

End SentinelIEEE.

(* ================================================================== *)
(** ** Runs of the model on examples *)

Section Examples.

Local Open Scope float_scope.

#[local] Existing Instance Float64_demo.

Definition ex_tol : float := PrimFloat.div 1 10000000.

(** One single species and its dimer: A = [[1, 2]], G = [0, -10],
    x0 = [1e-5]. *)
Definition dimer_A : list (list Z) := [[1; 2]]%Z.
Definition dimer_G : list float := [0; -10]%float.
Definition dimer_x0 : list float := [PrimFloat.div 1 100000].

Definition dimer_run (MaxTrial : Z) : outcome (@final float Z) :=
  CalcConc_run (DD := Float64_demo) (EE := Extern_demo) dimer_A dimer_G dimer_x0 1 2
    10000 ex_tol 1000 (PrimFloat.div 1 8) (PrimFloat.div 3 5) 50 MaxTrial 100
    (PrimFloat.div 5514 100) 0 100 [0; 0]%float 0%Z.

Definition dimer_final : @final float Z :=
  Eval vm_compute in
    match dimer_run 100 with
    | Ret f => f
    | _ => mkFinal (init_state (DD := Float64_demo) [] 0 0%float [] 0%Z)
                   0%float 0%Z
    end.

Lemma dimer_run_converges : dimer_run 100 = Ret dimer_final /\ fin_ret dimer_final = 1%Z.
Proof. split; vm_compute; reflexivity. Qed.

Lemma getx_spec_witness :
  let m : list (list float) := [[0; 0]; [0]; [0; -10]]%float in
  let m' := snd (getx_mem (DD := Float64_demo) (EE := Extern_demo) 0 1 2 [[1]; [2]]%Z 1 2 m) in
  m'.r[1] = m.r[1] /\ m'.r[2] = m.r[2].
Proof.
  destruct (getx_spec (DD := Float64_demo) (EE := Extern_demo)
              [[0; 0]; [0]; [0; -10]]%float 0 1 2 [[1]; [2]]%Z 1 2) as (_ & _ & Hl & HG & _).
  - discriminate.
  - discriminate.
  - simpl; lia.
  - simpl; lia.
  - split; assumption.
Defined.

Lemma getx_overflow_partial_write_witness :
  snd (getx (DD := Float64_demo) (EE := Extern_demo) [7; 7; 7]%float [300]%float
         [0; -10; 0]%float [[0]; [1]; [1]]%Z 1 3) = [1; 7; 7]%float.
Proof.
  destruct (getx_overflow_partial_write (DD := Float64_demo) (EE := Extern_demo)
              [7; 7; 7]%float [300]%float [0; -10; 0]%float [[0]; [1]; [1]]%Z 1 3 1)
    as (_ & _ & _ & _).
  - simpl; lia.
  - lia.
  - split; [vm_compute; reflexivity|].
    intros k Hk. replace k with 0%nat by lia. vm_compute; reflexivity.
  - vm_compute; reflexivity.
Defined.

Lemma getSearchDir_dogleg_witness :
  fst (getSearchDir (DD := Float64_demo) (EE := Extern_demo) [0]%float [-1]%float
         [[2]]%float 1%float 1) = 1%Z.
Proof.
  destruct (getSearchDir_dogleg (DD := Float64_demo) (EE := Extern_demo)
              [0]%float [-1]%float [[2]]%float 1%float 1) as [HN _].
  - simpl; lia.
  - vm_compute; reflexivity.
  - apply HN. split; vm_compute; reflexivity.
Defined.

(** One inert single species next to a reactive one, A = [[1,0,0],[0,1,2]],
    on a restart (the seed is not zero, the perturbation runs): lambda[0]
    is log(x0[0]) + G[0]. *)
Lemma getInitialGuess_pins_witness :
  match getInitialGuess (DD := Float64_demo) (EE := Extern_demo) 100
          [PrimFloat.div 3 1000000; PrimFloat.div 1 100000] [0; 0]%float [0; 0; -5]%float
          [[1; 0]; [0; 1]; [0; 2]]%Z [[1; 0; 0]; [0; 1; 2]]%Z 2 3 100%float 7 7%Z with
  | Some (lambda', _) =>
      nth 0 lambda' 0%float = (log_demo (PrimFloat.div 3 1000000) + 0)%float
  | None => False
  end.
Proof.
  destruct (getInitialGuess (DD := Float64_demo) (EE := Extern_demo) 100
              [PrimFloat.div 3 1000000; PrimFloat.div 1 100000] [0; 0]%float
              [0; 0; -5]%float [[1; 0]; [0; 1]; [0; 2]]%Z [[1; 0; 0]; [0; 1; 2]]%Z
              2 3 100%float 7 7%Z) as [[lambda' gen']|] eqn:E.
  - destruct (getInitialGuess_pins (DD := Float64_demo) (EE := Extern_demo) 100
                [PrimFloat.div 3 1000000; PrimFloat.div 1 100000] [0; 0]%float
                [0; 0; -5]%float [[1; 0]; [0; 1]; [0; 2]]%Z [[1; 0; 0]; [0; 1; 2]]%Z
                2 3 100%float 7 7%Z) as [_ H].
    + simpl; lia.
    + destruct (H lambda' gen' E) as (_ & Hpin & _).
      apply (Hpin 0%nat 0%nat 0%nat).
      * lia.
      * split; [lia|]. split; [discriminate|].
        intros k Hk Hne. destruct k as [|[|[|k]]]; try reflexivity; lia.
      * lia.
      * reflexivity.
  - vm_compute in E. discriminate.
Defined.


(** A state whose Cauchy step, scaled to the radius 990, leads to an
    overflow: lambda = -300 for the single species. *)
Definition steep_state : @state float Z :=
  let x := snd (getx (DD := Float64_demo) (EE := Extern_demo) [0]%float [-300]%float
                  [0]%float [[1]]%Z 1 1) in
  mkState x [-300]%float
    (getGrad (DD := Float64_demo) [0]%float [1]%float x [[1]]%Z 1 1)
    [0]%float 990%float 0 0 0 0 (repeat 0%Z 6) 0%Z.

(** The three positive numbers below 2^-1072. *)
Lemma below_threshold_values (d : float) :
  PrimFloat.ltb 0 d = true -> PrimFloat.ltb d 0x1p-1072 = true ->
  d = 0x1p-1074 \/ d = 0x1p-1073 \/ d = 0x1.8p-1073.
Proof.
  intros Hpos Hlt. apply ltb_0_sf in Hpos.
  rewrite FloatAxioms.ltb_spec in Hlt.
  change (Prim2SF 0x1p-1072) with (S754_finite false 4 (-1074)) in Hlt.
  pose proof (FloatAxioms.Prim2SF_valid d) as Hv.
  destruct Hpos as [Hi|[m [e Hf]]].
  - rewrite Hi in Hlt. discriminate.
  - rewrite Hf in Hlt, Hv. apply bounded_64 in Hv. destruct Hv as [Hv _].
    assert (Hme : e = (-1074)%Z /\ (Zpos m < 4)%Z).
    { unfold SFltb, SFcompare in Hlt.
      change (Pos.compare_cont Eq m 4) with (m ?= 4)%positive in Hlt.
      destruct (Z.compare_spec e (-1074)) as [He|He|He]; try discriminate; [|lia].
      destruct (Pos.compare_spec m 4) as [Hm|Hm|Hm]; try discriminate.
      split; [exact He|lia]. }
    destruct Hme as [-> Hm].
    assert (K : forall s, Prim2SF d = s -> d = SF2Prim s)
      by (intros s <-; symmetry; apply FloatAxioms.SF2Prim_Prim2SF).
    assert (Hm3 : m = 1%positive \/ m = 2%positive \/ m = 3%positive) by lia.
    destruct Hm3 as [->|[->| ->]]; apply K in Hf; rewrite Hf.
    + left. reflexivity.
    + right. left. reflexivity.
    + right. right. reflexivity.
Qed.

Lemma pow_demo_underflows (d : float) :
  PrimFloat.ltb 0 d = true -> PrimFloat.ltb d 0x1p-1072 = true -> pow_demo d 2 = 0.
Proof.
  intros Hpos Hlt.
  destruct (below_threshold_values d Hpos Hlt) as [->|[->| ->]]; vm_compute; reflexivity.
Qed.

(** The state in which the first trial of the dimer enters the loop, for a
    given deltaBar. *)
Definition dimer_entry (deltaBar : float) : @state float Z :=
  let AT := AT_of dimer_A 1 2 in
  match getInitialGuess (EE := Extern_demo) 100 dimer_x0 [0] dimer_G AT dimer_A 1 2
          100 0 0%Z with
  | Some (lambda, gen) =>
      let x := snd (getx (EE := Extern_demo) [0; 0] lambda dimer_G AT 1 2) in
      mkState x lambda (getGrad [0] dimer_x0 x dimer_A 1 2) [0]
              (d0_99 * deltaBar)%dbl 0 0 0 0 (repeat 0%Z 6) gen
  | None => init_state (DD := Float64_demo) [] 0 0%float [] 0%Z
  end.

(** Two runs of the loop.  From [steep_state], with deltaBar = 1000, the
    radius is quartered and doubled several times (990, 495, 123.75,
    30.9375, 61.875, ...).  From the dimer with deltaBar = 2^-1073 the radius
    is 2^-1073, below 2^-1072: the step is zero, rho is a NaN and the radius
    stays where it is until [MaxNoStep] ends the loop. *)
Lemma trust_radius_witness :
  (exists st',
     trust_region (EE := Extern_demo) [[1]]%Z [0] [1] 1 1 10000 ex_tol 1000
       (PrimFloat.div 1 8) 50 100 steep_state = Ret st' /\
     Forall (fun t => radius_positive 1000 (st_delta t))
       (visited (EE := Extern_demo) [[1]]%Z [0] [1] 1 1 10000 ex_tol 1000
          (PrimFloat.div 1 8) 50 100 steep_state) /\
     radius_positive 1000 (st_delta st')) /\
  (exists st',
     trust_region (EE := Extern_demo) dimer_A dimer_G dimer_x0 1 2 10000 ex_tol 0x1p-1073
       (PrimFloat.div 1 8) 3 100 (dimer_entry 0x1p-1073) = Ret st' /\
     Forall (fun t => radius_positive 0x1p-1073 (st_delta t))
       (visited (EE := Extern_demo) dimer_A dimer_G dimer_x0 1 2 10000 ex_tol 0x1p-1073
          (PrimFloat.div 1 8) 3 100 (dimer_entry 0x1p-1073)) /\
     radius_positive 0x1p-1073 (st_delta st')).
Proof.
  pose proof (proj2 trust_radius exp_demo log_demo pow_demo Z Extern_demo) as T.
  split.
  - destruct (T [[1]]%Z [0] [1] 1%nat 1%nat 10000%Z ex_tol 1000 (PrimFloat.div 1 8) 50%Z)
      as (_ & _ & _ & K); [vm_compute; reflexivity|vm_compute; reflexivity|].
    destruct (K pow_demo_underflows eq_refl) as (_ & L & _).
    destruct (trust_region (EE := Extern_demo) [[1]]%Z [0] [1] 1 1 10000 ex_tol 1000
                (PrimFloat.div 1 8) 50 100 steep_state) as [st'| | |] eqn:E;
      try (vm_compute in E; discriminate).
    exists st'. split; [reflexivity|].
    apply (L 100%nat steep_state st' E).
    + split; [vm_compute; lia|]. split; [vm_compute; lia|].
      split; [vm_compute; reflexivity|].
      intros j Hj. destruct j as [|j]; [vm_compute; reflexivity|lia].
    + split; vm_compute; reflexivity.
    + apply Forall_forall. apply (proj1 (forallb_forall _ _)). vm_compute. reflexivity.
  - destruct (T dimer_A dimer_G dimer_x0 1%nat 2%nat 10000%Z ex_tol 0x1p-1073
                (PrimFloat.div 1 8) 3%Z)
      as (_ & _ & _ & K); [vm_compute; reflexivity|vm_compute; reflexivity|].
    destruct (K pow_demo_underflows eq_refl) as (_ & L & _).
    destruct (trust_region (EE := Extern_demo) dimer_A dimer_G dimer_x0 1 2 10000 ex_tol
                0x1p-1073 (PrimFloat.div 1 8) 3 100 (dimer_entry 0x1p-1073))
      as [st'| | |] eqn:E;
      try (vm_compute in E; discriminate).
    exists st'. split; [reflexivity|].
    apply (L 100%nat (dimer_entry 0x1p-1073) st' E).
    + split; [vm_compute; lia|]. split; [vm_compute; lia|].
      split; [vm_compute; reflexivity|].
      intros j Hj. destruct j as [|[|j]]; [vm_compute; reflexivity..|lia].
    + split; vm_compute; reflexivity.
    + apply Forall_forall. apply (proj1 (forallb_forall _ _)). vm_compute. reflexivity.
Defined.

Lemma overflowing_trial_is_rejected_witness :
  exists st',
    inner_body (DD := Float64_demo) (EE := Extern_demo) [[1]]%Z [0]%float [1]%float 1 1
      1000%float (PrimFloat.div 1 8) steep_state = Ret st' /\
    st_lambda st' = [-300]%float /\ st_nNoStep st' = 1%Z.
Proof.
  destruct (overflowing_trial_is_rejected exp_demo log_demo pow_demo (EE := Extern_demo)
              [[1]]%Z [0]%float [1]%float 1 1 1000%float (PrimFloat.div 1 8) steep_state)
    as (_ & st' & Hb & Hl & Hn & _).
  - vm_compute; reflexivity.
  - vm_compute; reflexivity.
  - vm_compute; reflexivity.
  - exists st'. split; [exact Hb|]. split; [exact Hl|exact Hn].
Defined.

Lemma CalcConc_returns_0_after_converging_witness :
  CalcConc (DD := Float64_demo) (EE := Extern_demo) [[1%Z]] [0%float] [1%float] 1 1
    10000 ex_tol 1000 (PrimFloat.div 1 8) (PrimFloat.div 3 5) 50 1 100
    (PrimFloat.div 5514 100) 0 100 [0%float] 0%Z = Ret (0%Z, [1%float]).
Proof.
  apply (CalcConc_returns_0_after_converging exp_demo log_demo pow_demo
           (EE := Extern_demo) 10000 1000 (PrimFloat.div 1 8) (PrimFloat.div 3 5) 50 100
           (PrimFloat.div 5514 100) 0 100 0%float 0%Z).
  - vm_compute; reflexivity.
  - vm_compute; reflexivity.
  - vm_compute; reflexivity.
Defined.

(** One inert single species with G = [1]: the free energy computed inside
    [CalcConc] is kT * MolesWaterPerLiter. *)
Definition inert_CalcConc (kT : float) : outcome (Z * list float) :=
  CalcConc (DD := Float64_demo) (EE := Extern_demo) [[1%Z]] [1] [1] 1 1
    10000 ex_tol 1000 (PrimFloat.div 1 8) kT 50 2 100 1 0 100 [0] 0%Z.

Definition inert_FreeEnergy (kT : float) : float :=
  match CalcConc_run (DD := Float64_demo) (EE := Extern_demo) [[1%Z]] [1] [1] 1 1
          10000 ex_tol 1000 (PrimFloat.div 1 8) kT 50 2 100 1 0 100 [0] 0%Z with
  | Ret f => fin_FreeEnergy f
  | _ => 0
  end.

(** C2 fails as stated: two calls that differ in kT hand back the same
    flag and the same x, while the free energies computed inside are 1 and
    2; what [CalcConc] returns does not carry the free energy. *)
Lemma CalcConc_drops_free_energy :
  inert_CalcConc 1 = Ret (1%Z, [1]) /\ inert_CalcConc 2 = Ret (1%Z, [1]) /\
  inert_FreeEnergy 1 = 1 /\ inert_FreeEnergy 2 = 2 /\
  inert_FreeEnergy 1 <> inert_FreeEnergy 2.
Proof.
  repeat split; try (vm_compute; reflexivity).
  intros H. apply (f_equal (fun v => PrimFloat.eqb v 1)) in H.
  vm_compute in H. discriminate.
Qed.

Lemma demo_draws_finite : draws_finite (EE := Extern_demo).
Proof.
  assert (K : forallb (fun k => PrimFloat.is_finite
                         (PrimFloat.sub (PrimFloat.div (float_of_int (Z.of_nat k)) 1000)
                                        (PrimFloat.div 1 2)))
                      (seq 0 1001) = true) by (vm_compute; reflexivity).
  intros g. cbn [genrand_real1 Extern_demo lcg_real1 fst].
  pose proof (Z.mod_pos_bound g 1001 ltac:(lia)) as Hb.
  rewrite forallb_forall in K.
  specialize (K (Z.to_nat (g mod 1001))).
  rewrite Z2Nat.id in K by lia.
  apply K. apply in_seq. lia.
Qed.

(** With lambda = [1], scale 1000 and the generator started at 1000, the
    first number drawn is 1: the first pass draws lambda = 1001, which
    overflows ([MAXLOGX] is 250 here); the second, at scale 500, draws 131,
    which does not. *)
Lemma perturbation_run :
  PerturbLambda (DD := Float64_demo) (EE := Extern_demo) 1 [1] 1000 [0] [[1%Z]] 1 1 [0]
    1000%Z = None /\
  PerturbLambda (DD := Float64_demo) (EE := Extern_demo) 2 [1] 1000 [0] [[1%Z]] 1 1 [0]
    1000%Z = Some ([131], 520568998%Z).
Proof. split; vm_compute; reflexivity. Qed.

Lemma PerturbLambda_terminates_witness :
  exists k lambda' gen',
    (forall more,
       PerturbLambda (DD := Float64_demo) (EE := Extern_demo) (S k + more) [1] 1000 [0]
         [[1%Z]] 1 1 [0] 1000%Z = Some (lambda', gen')) /\
    (forall j, (j < k)%nat ->
       fst (getx (DD := Float64_demo) (EE := Extern_demo) [0]
              (drawn_at exp_demo log_demo pow_demo (EE := Extern_demo) 1 [1] 1000 1000%Z j)
              [0] [[1%Z]] 1 1) = 0%Z) /\
    length lambda' = 1%nat /\
    (forall i, (i < 1)%nat ->
       nth i lambda' 0
       = nth i [1] 0 + halved k 1000 * 2 *
           (fst (genrand_real1 (Extern := Extern_demo (DD := Float64_demo))
                   (after_draws (EE := Extern_demo (DD := Float64_demo)) (k * 1 + i) 1000%Z))
            - PrimFloat.div 1 2)) /\
    (forall i, (1 <= i)%nat -> nth i lambda' 0 = nth i [1] 0) /\
    gen' = after_draws (EE := Extern_demo (DD := Float64_demo)) (S k * 1) 1000%Z /\
    fst (getx (DD := Float64_demo) (EE := Extern_demo) [0] lambda' [0] [[1%Z]] 1 1) = 1%Z.
Proof.
  apply (PerturbLambda_terminates exp_demo log_demo pow_demo (EE := Extern_demo)
           [0] [[1%Z]] 1 1 [1] 1000 [0] 1000%Z).
  - simpl; lia.
  - vm_compute; reflexivity.
  - exact demo_draws_finite.
  - vm_compute; reflexivity.
Defined.

End Examples.

(* ================================================================== *)
(** * Further properties of CalcConc.c *)

(** ** The kernels: [CheckTol], [getGrad], [getHes], [getSearchDir] *)

Section Kernels.

Context {D rng : Type} {DD : Double D} {EE : Extern D rng}.
Local Open Scope dbl_scope.

Lemma CheckTol_loop_0 (Grad Tol : list D) (lo n : nat) :
  CheckTol_loop (seq lo n) Grad Tol = 0%Z <->
  exists i, (lo <= i < lo + n)%nat /\ (fabs Grad.[i] >? Tol.[i]) = true /\
            forall k, (lo <= k < i)%nat -> (fabs Grad.[k] >? Tol.[k]) = false.
Proof.
  revert lo. induction n as [|n IH]; intros lo; simpl.
  - split; [discriminate|]. intros [i [Hi _]]. lia.
  - destruct (fabs Grad.[lo] >? Tol.[lo]) eqn:E.
    + split; [|reflexivity]. intros _. exists lo. split; [lia|]. split; [exact E|].
      intros k Hk. lia.
    + rewrite IH. split.
      * intros [i [Hi [Ht Hb]]]. exists i. split; [lia|]. split; [exact Ht|].
        intros k Hk. destruct (Nat.eq_dec k lo) as [->|]; [exact E|apply Hb; lia].
      * intros [i [Hi [Ht Hb]]]. exists i.
        assert (i <> lo) by (intros ->; congruence).
        split; [lia|]. split; [exact Ht|]. intros k Hk. apply Hb. lia.
Qed.

Lemma CheckTol_within (Grad Tol : list D) (n : nat) :
  (forall i, (i < n)%nat -> (fabs Grad.[i] >? Tol.[i]) = false) ->
  CheckTol Grad Tol n = 1%Z.
Proof.
  intros Hall.
  destruct (CheckTol_flag Grad Tol n) as [E|E]; [|exact E].
  unfold CheckTol in E. apply CheckTol_loop_0 in E.
  destruct E as [i [Hi [Ht _]]]. rewrite Hall in Ht by lia. discriminate.
Qed.

(** X1.  [CheckTol] returns 1 exactly when no entry of the gradient exceeds
    its tolerance in absolute value, and 0 exactly when one does (the loop
    stops at the first); for [numSS = 0] it returns 1. *)
Theorem CheckTol_all_within (Grad AbsTol : list D) (numSS : nat) :
  (CheckTol Grad AbsTol numSS = 1%Z <->
     forall i, (i < numSS)%nat -> (fabs Grad.[i] >? AbsTol.[i]) = false) /\
  (CheckTol Grad AbsTol numSS = 0%Z <->
     exists i, (i < numSS)%nat /\ (fabs Grad.[i] >? AbsTol.[i]) = true /\
               forall k, (k < i)%nat -> (fabs Grad.[k] >? AbsTol.[k]) = false) /\
  CheckTol Grad AbsTol 0 = 1%Z.
Proof.
  assert (H0 : CheckTol Grad AbsTol numSS = 0%Z <->
     exists i, (i < numSS)%nat /\ (fabs Grad.[i] >? AbsTol.[i]) = true /\
               forall k, (k < i)%nat -> (fabs Grad.[k] >? AbsTol.[k]) = false).
  { unfold CheckTol. rewrite CheckTol_loop_0. split.
    - intros [i [Hi [Ht Hb]]]. exists i. split; [lia|]. split; [exact Ht|].
      intros k Hk. apply Hb. lia.
    - intros [i [Hi [Ht Hb]]]. exists i. split; [lia|]. split; [exact Ht|].
      intros k Hk. apply Hb. lia. }
  split; [|split; [exact H0|reflexivity]].
  split.
  - apply CheckTol_1.
  - apply CheckTol_within.
Qed.

Lemma getGrad_forloop (Grad x0 x : list D) (A : list (list Z)) (numSS numTotal : nat) :
  getGrad Grad x0 x A numSS numTotal =
  forloop 0 numSS (fun i Grad => upd i (- x0.[i] + didot x A.r[i] numTotal) Grad) Grad.
Proof. reflexivity. Qed.

(** X2.  [getGrad] writes the cells 0 .. numSS-1 of [Grad], cell i with
    -x0[i] + <x, A[i]>, and no other cell; what these cells held before
    plays no part. *)
Theorem getGrad_cells (Grad x0 x : list D) (A : list (list Z)) (numSS numTotal : nat) :
  (numSS <= length Grad)%nat ->
  let Grad' := getGrad Grad x0 x A numSS numTotal in
  length Grad' = length Grad /\
  (forall i, (i < numSS)%nat -> Grad'.[i] = - x0.[i] + didot x A.r[i] numTotal) /\
  (forall i, (numSS <= i)%nat -> Grad'.[i] = Grad.[i]) /\
  (forall Grad2, length Grad2 = length Grad ->
     (forall i, (numSS <= i)%nat -> Grad2.[i] = Grad.[i]) ->
     getGrad Grad2 x0 x A numSS numTotal = Grad').
Proof.
  intros Hlen Grad'. subst Grad'. rewrite getGrad_forloop.
  set (f := fun i : nat => - x0.[i] + didot x A.r[i] numTotal).
  assert (HL : forall g, length (forloop 0 numSS (fun i Grad => upd i (f i) Grad) g) = length g)
    by (intros g; apply (forloop_upd_length (fun i _ => f i))).
  assert (HI : forall g i, (numSS <= length g)%nat -> (i < numSS)%nat ->
             (forloop 0 numSS (fun i Grad => upd i (f i) Grad) g).[i] = f i)
    by (intros g i Hg Hi; apply (forloop_upd_in f); lia).
  assert (HO : forall g i, (numSS <= i)%nat ->
             (forloop 0 numSS (fun i Grad => upd i (f i) Grad) g).[i] = g.[i])
    by (intros g i Hi; apply (forloop_upd_out (fun i _ => f i)); lia).
  split; [apply HL|]. split; [intros i Hi; apply HI; assumption|].
  split; [intros i Hi; apply HO; assumption|].
  intros Grad2 Hl2 Hsame. rewrite getGrad_forloop. fold f.
  apply (nth_ext _ _ d0 d0).
  - rewrite !HL. exact Hl2.
  - intros i Hi. rewrite HL in Hi.
    destruct (Nat.lt_ge_cases i numSS) as [Hlt|Hge].
    + rewrite !HI by lia. reflexivity.
    + rewrite !HO by lia. apply Hsame. exact Hge.
Qed.

(** The return code of [getSearchDir] and the cells of [p] it leaves. *)
Lemma getSearchDir_frame (p Grad : list D) (Hes : list (list D)) (delta : D) (numSS : nat) :
  let code := fst (getSearchDir p Grad Hes delta numSS) in
  let p' := snd (getSearchDir p Grad Hes delta numSS) in
  (1 <= code <= 6)%Z /\ length p' = length p /\
  (forall i, (numSS <= i)%nat -> p'.[i] = p.[i]).
Proof.
  unfold getSearchDir.
  destruct (choleskyDecomposition (HesCopy_of Hes numSS) numSS) as [cs hc].
  repeat match goal with
         | |- context [if ?b then _ else _] => destruct b
         end; simpl fst; simpl snd;
    (split; [lia|]);
    (split; [apply (forloop_upd_length (fun i _ => _))
            |intros i Hi; apply (forloop_upd_out (fun i _ => _)); lia]).
Qed.

(** X4.  Whatever the gradient, the Hessian and the radius, [getSearchDir]
    returns a code from 1 to 6, so that [RunStats[code - 1]] is one of the
    six counters, and it writes no cell of [p] from [numSS] on. *)
Theorem getSearchDir_code_in_range (p Grad : list D) (Hes : list (list D)) (delta : D)
    (numSS : nat) :
  let code := fst (getSearchDir p Grad Hes delta numSS) in
  let p' := snd (getSearchDir p Grad Hes delta numSS) in
  (0 <= code - 1 < 6)%Z /\ length p' = length p /\
  (forall i, (numSS <= i)%nat -> p'.[i] = p.[i]).
Proof.
  intros code p'.
  destruct (getSearchDir_frame p Grad Hes delta numSS) as [Hc [Hl Ho]].
  fold code in Hc. split; [lia|]. split; [exact Hl|exact Ho].
Qed.

End Kernels.

(** Case analysis on the comparisons of indices in the goal. *)
Ltac index_cases :=
  repeat match goal with
         | |- context [Nat.ltb ?a ?b] => destruct (Nat.ltb_spec a b)
         | |- context [Nat.leb ?a ?b] => destruct (Nat.leb_spec a b)
         | |- context [Nat.eqb ?a ?b] => destruct (Nat.eqb_spec a b)
         end;
  simpl; try reflexivity; try (exfalso; lia); try (subst; reflexivity).

Section HessianInPlace.

Context {D : Type} {DD : Double D}.
Local Open Scope dbl_scope.

(** [M[m][n] = v]. *)
Definition set_cell (m n : nat) (v : D) (M : list (list D)) : list (list D) :=
  upd m (upd n v M.r[m]) M.

(** [getHes] statement by statement: the upper triangle column by column,
    each entry through the scratch vector [Avec], then the lower triangle
    copied from the upper one, all into the matrix [Hes] of the caller. *)
Definition getHes_inplace (Hes : list (list D)) (x : list D) (A : list (list Z))
    (numSS numTotal : nat) : list (list D) :=
  let Avec := malloc numTotal in
  let '(Hes, _) :=
    forloop 0 numSS
      (fun n st =>
         forloop 0 (S n)
           (fun m '(Hes, Avec) =>
              let Avec :=
                forloop 0 numTotal
                  (fun j Avec => upd j (of_int A.r[m].z[j] * of_int A.r[n].z[j]) Avec)
                  Avec in
              (set_cell m n (dot x Avec numTotal) Hes, Avec))
           st)
      (Hes, Avec) in
  forloop 1 (numSS - 1)
    (fun m Hes => forloop 0 m (fun n Hes => set_cell m n Hes.r[n].[m] Hes) Hes)
    Hes.

Definition square (numSS : nat) (M : list (list D)) : Prop :=
  length M = numSS /\ forall m, (m < numSS)%nat -> length M.r[m] = numSS.

Lemma set_cell_square (numSS m n : nat) (v : D) (M : list (list D)) :
  square numSS M -> square numSS (set_cell m n v M).
Proof.
  intros [HL HR]. unfold set_cell. split; [rewrite upd_length; exact HL|].
  intros k Hk. destruct (Nat.eq_dec k m) as [->|Hne].
  - rewrite nth_upd_same by lia. rewrite upd_length. apply HR. exact Hk.
  - rewrite nth_upd_other by lia. apply HR. exact Hk.
Qed.

Lemma set_cell_same (numSS m n : nat) (v : D) (M : list (list D)) :
  square numSS M -> (m < numSS)%nat -> (n < numSS)%nat ->
  (set_cell m n v M).r[m].[n] = v.
Proof.
  intros [HL HR] Hm Hn. unfold set_cell.
  rewrite nth_upd_same by lia. apply nth_upd_same. rewrite HR by exact Hm. exact Hn.
Qed.

Lemma upd_beyond {B : Type} (i : nat) (a : B) (v : list B) :
  (length v <= i)%nat -> upd i a v = v.
Proof.
  revert i. induction v as [|h t IH]; intros [|i] H; simpl in *; try reflexivity; try lia.
  f_equal. apply IH. lia.
Qed.

Lemma set_cell_other (m n m' n' : nat) (v : D) (M : list (list D)) :
  (m', n') <> (m, n) -> (set_cell m n v M).r[m'].[n'] = M.r[m'].[n'].
Proof.
  intros Hne. unfold set_cell.
  destruct (Nat.eq_dec m' m) as [->|Hm].
  - destruct (Nat.lt_ge_cases m (length M)) as [Hlt|Hge].
    + rewrite nth_upd_same by exact Hlt. apply nth_upd_other. congruence.
    + rewrite upd_beyond by exact Hge. reflexivity.
  - rewrite nth_upd_other by congruence. reflexivity.
Qed.

Variables (x : list D) (A : list (list Z)) (numSS numTotal : nat).

Abbreviation entry := (Hes_entry x A numTotal).

Lemma Avec_filled (m n : nat) (Avec : list D) :
  length Avec = numTotal ->
  let Avec' := forloop 0 numTotal
                 (fun j Avec => upd j (of_int A.r[m].z[j] * of_int A.r[n].z[j]) Avec) Avec in
  length Avec' = numTotal /\ dot x Avec' numTotal = entry m n.
Proof.
  intros Hl Avec'. subst Avec'.
  rewrite (fill_is_map (fun j => of_int A.r[m].z[j] * of_int A.r[n].z[j])) by exact Hl.
  split; [rewrite length_map, length_seq; reflexivity|reflexivity].
Qed.

(** Column [n] of the upper triangle, after its first [k] entries. *)
Lemma upper_column (n k : nat) (st : list (list D) * list D) :
  (k <= S n)%nat -> (n < numSS)%nat ->
  square numSS (fst st) -> length (snd st) = numTotal ->
  let st' := forloop 0 k
               (fun m '(Hes, Avec) =>
                  let Avec :=
                    forloop 0 numTotal
                      (fun j Avec => upd j (of_int A.r[m].z[j] * of_int A.r[n].z[j]) Avec)
                      Avec in
                  (set_cell m n (dot x Avec numTotal) Hes, Avec))
               st in
  square numSS (fst st') /\ length (snd st') = numTotal /\
  forall m' n', (fst st').r[m'].[n'] =
                if ((n' =? n) && (m' <? k))%nat then entry m' n else (fst st).r[m'].[n'].
Proof.
  intros Hk Hn Hsq Hav. induction k as [|k IH]; cbv zeta.
  - simpl. split; [exact Hsq|]. split; [exact Hav|].
    intros m' n'. rewrite andb_false_r. reflexivity.
  - rewrite forloop_snoc. simpl Nat.add.
    destruct (IH ltac:(lia)) as [Hs [Ha Hc]]. cbv zeta in Hs, Ha, Hc.
    destruct (forloop 0 k _ st) as [H1 A1]. simpl fst in *; simpl snd in *.
    destruct (Avec_filled k n A1 Ha) as [Ha' Hd]. cbv zeta in Ha', Hd.
    rewrite Hd.
    split; [apply set_cell_square; exact Hs|]. split; [exact Ha'|].
    intros m' n'.
    destruct (Nat.eq_dec m' k) as [->|Hm]; [destruct (Nat.eq_dec n' n) as [->|Hn']|].
    + rewrite (set_cell_same numSS) by (try assumption; lia). index_cases.
    + rewrite set_cell_other by congruence. rewrite Hc. index_cases.
    + rewrite set_cell_other by congruence. rewrite Hc. index_cases.
Qed.

Definition upper_body (n : nat) (st : list (list D) * list D) : list (list D) * list D :=
  forloop 0 (S n)
    (fun m '(Hes, Avec) =>
       let Avec :=
         forloop 0 numTotal
           (fun j Avec => upd j (of_int A.r[m].z[j] * of_int A.r[n].z[j]) Avec)
           Avec in
       (set_cell m n (dot x Avec numTotal) Hes, Avec))
    st.

(** The upper triangle, after its first [k] columns. *)
Lemma upper_triangle (k : nat) (st : list (list D) * list D) :
  (k <= numSS)%nat -> square numSS (fst st) -> length (snd st) = numTotal ->
  let st' := forloop 0 k upper_body st in
  square numSS (fst st') /\ length (snd st') = numTotal /\
  forall m' n', (fst st').r[m'].[n'] =
                if ((n' <? k) && (m' <=? n'))%nat then entry m' n' else (fst st).r[m'].[n'].
Proof.
  intros Hk Hsq Hav. induction k as [|k IH]; cbv zeta.
  - simpl. split; [exact Hsq|]. split; [exact Hav|]. intros m' n'. reflexivity.
  - rewrite forloop_snoc. simpl Nat.add.
    destruct (IH ltac:(lia)) as [Hs [Ha Hc]]. cbv zeta in Hs, Ha, Hc.
    destruct (upper_column k (S k) (forloop 0 k upper_body st) (le_n _) ltac:(lia) Hs Ha)
      as [Hs' [Ha' Hc']]. cbv zeta in Hs', Ha', Hc'.
    unfold upper_body at 1.
    split; [exact Hs'|]. split; [exact Ha'|].
    intros m' n'. rewrite Hc', Hc. index_cases.
Qed.

(** Row [m] of the lower triangle, after its first [k] entries, in a matrix
    whose upper triangle is in place. *)
Lemma lower_row (m k : nat) (M : list (list D)) :
  (k <= m)%nat -> (m < numSS)%nat -> square numSS M ->
  let M' := forloop 0 k (fun n Hes => set_cell m n Hes.r[n].[m] Hes) M in
  square numSS M' /\
  forall m' n', M'.r[m'].[n'] =
                if ((m' =? m) && (n' <? k))%nat then M.r[n'].[m] else M.r[m'].[n'].
Proof.
  intros Hk Hm Hsq. induction k as [|k IH]; cbv zeta.
  - simpl. split; [exact Hsq|]. intros m' n'. rewrite andb_false_r. reflexivity.
  - rewrite forloop_snoc. simpl Nat.add.
    destruct (IH ltac:(lia)) as [Hs Hc]. cbv zeta in Hs, Hc.
    set (M1 := forloop 0 k _ M) in *.
    split; [apply set_cell_square; exact Hs|].
    intros m' n'.
    destruct (Nat.eq_dec m' m) as [->|Hm']; [destruct (Nat.eq_dec n' k) as [->|Hn']|].
    + rewrite (set_cell_same numSS) by (try assumption; lia).
      rewrite Hc. index_cases.
    + rewrite set_cell_other by congruence. rewrite Hc. index_cases.
    + rewrite set_cell_other by congruence. rewrite Hc. index_cases.
Qed.

(** The lower triangle, after its rows 1 .. k. *)
Lemma lower_triangle (k : nat) (M : list (list D)) :
  (k < numSS)%nat -> square numSS M ->
  let M' := forloop 1 k
              (fun m Hes => forloop 0 m (fun n Hes => set_cell m n Hes.r[n].[m] Hes) Hes) M in
  square numSS M' /\
  forall m' n', M'.r[m'].[n'] =
                if ((m' <=? k) && (n' <? m'))%nat then M.r[n'].[m'] else M.r[m'].[n'].
Proof.
  intros Hk Hsq. induction k as [|k IH]; cbv zeta.
  - simpl. split; [exact Hsq|]. intros m' n'. index_cases.
  - rewrite forloop_snoc. simpl Nat.add.
    destruct (IH ltac:(lia)) as [Hs Hc]. cbv zeta in Hs, Hc.
    set (M1 := forloop 1 k _ M) in *.
    destruct (lower_row (S k) (S k) M1 (le_n _) ltac:(lia) Hs) as [Hs' Hc'].
    cbv zeta in Hs', Hc'.
    split; [exact Hs'|].
    intros m' n'. rewrite Hc', !Hc. index_cases.
Qed.

(** X3.  [getHes] overwrites every entry of the numSS by numSS matrix it is
    given: entry (m, n) becomes the dot product of x with the products
    A[m][j] A[n][j], computed for the pair in the order (smaller, larger);
    the result is symmetric and owes nothing to what the matrix held.  It is
    the matrix [getHes] that the driver is written with. *)
Theorem getHes_inplace_fills (Hes : list (list D)) :
  square numSS Hes ->
  let Hes' := getHes_inplace Hes x A numSS numTotal in
  Hes' = getHes x A numSS numTotal /\
  (forall m n, (m < numSS)%nat -> (n < numSS)%nat ->
     Hes'.r[m].[n] = entry (Nat.min m n) (Nat.max m n) /\ Hes'.r[m].[n] = Hes'.r[n].[m]).
Proof.
  intros Hsq Hes'. subst Hes'. unfold getHes_inplace.
  destruct (upper_triangle numSS (Hes, malloc numTotal) (le_n _) Hsq (malloc_length numTotal))
    as [Hs [_ Hc]]. cbv zeta in Hs, Hc.
  change (forloop 0 numSS _ (Hes, malloc numTotal))
    with (forloop 0 numSS upper_body (Hes, malloc numTotal)).
  destruct (forloop 0 numSS upper_body (Hes, malloc numTotal)) as [U Av].
  simpl fst in *.
  assert (Hcell : forall m n, (m < numSS)%nat -> (n < numSS)%nat ->
            (forloop 1 (numSS - 1)
               (fun m Hes => forloop 0 m (fun n Hes => set_cell m n Hes.r[n].[m] Hes) Hes) U)
              .r[m].[n] = entry (Nat.min m n) (Nat.max m n)).
  { intros m n Hm Hn.
    destruct (lower_triangle (numSS - 1) U ltac:(lia) Hs) as [_ Hl]. cbv zeta in Hl.
    rewrite Hl, !Hc.
    destruct (Nat.le_gt_cases m n).
    - rewrite Nat.min_l, Nat.max_r by lia. index_cases.
    - rewrite Nat.min_r, Nat.max_l by lia. index_cases. }
  assert (Hsq' : square numSS
            (forloop 1 (numSS - 1)
               (fun m Hes => forloop 0 m (fun n Hes => set_cell m n Hes.r[n].[m] Hes) Hes) U)).
  { destruct (Nat.eq_dec numSS 0) as [E0|E0].
    - replace (numSS - 1)%nat with 0%nat by lia. exact Hs.
    - destruct (lower_triangle (numSS - 1) U ltac:(lia) Hs) as [Hq _]. exact Hq. }
  set (L := forloop 1 (numSS - 1) _ U) in *.
  split.
  - destruct Hsq' as [HL HR].
    apply (nth_ext _ _ [] []).
    + rewrite HL. unfold getHes. rewrite length_map, length_seq. reflexivity.
    + intros m Hm. rewrite HL in Hm.
      unfold getHes.
      rewrite (nth_map_seq (fun m => map (fun n => if (m <=? n)%nat then entry m n else entry n m)
                                         (seq 0 numSS))) by exact Hm.
      apply (nth_ext _ _ d0 d0).
      * rewrite HR by exact Hm. rewrite length_map, length_seq. reflexivity.
      * intros n Hn. rewrite HR in Hn by exact Hm.
        rewrite (nth_map_seq (fun n => if (m <=? n)%nat then entry m n else entry n m))
          by exact Hn.
        rewrite Hcell by assumption.
        destruct (Nat.leb_spec m n).
        -- rewrite Nat.min_l, Nat.max_r by lia. reflexivity.
        -- rewrite Nat.min_r, Nat.max_l by lia. reflexivity.
  - intros m n Hm Hn. split; [apply Hcell; assumption|].
    rewrite !Hcell by assumption. rewrite Nat.min_comm, Nat.max_comm. reflexivity.
Qed.

End HessianInPlace.

(** ** The driver: counters, bounds and what a run depends on *)

(** The sum of the six counters. *)
Definition sumZ (l : list Z) : Z := fold_right Z.add 0%Z l.

Lemma sumZ_bump (k : nat) (l : list Z) :
  (k < length l)%nat -> sumZ (upd k (nth k l 0 + 1)%Z l) = (sumZ l + 1)%Z.
Proof.
  revert k. induction l as [|h t IH]; intros [|k] H; simpl in *; try lia.
  rewrite IH by lia. lia.
Qed.

Lemma Forall_upd {B : Type} (P : B -> Prop) (k : nat) (a : B) (l : list B) :
  Forall P l -> P a -> Forall P (upd k a l).
Proof.
  intros Hl Ha. revert k. induction Hl as [|h t Hh Ht IH]; intros [|k]; simpl;
    constructor; auto.
Qed.

Section DriverCounters.

Context {D rng : Type} {DD : Double D} {EE : Extern D rng}.
Local Open Scope dbl_scope.

Variables (A : list (list Z)) (G x0 : list D) (numSS numTotal : nat).
Variables (MaxIters : Z) (tol deltaBar eta kT : D) (MaxNoStep MaxTrial : Z).
Variables (PerturbScale MolesWaterPerLiter : D) (seed : Z).
Variable pfuel : nat.

Abbreviation AbsTol := (AbsTol_of x0 numSS tol).
Abbreviation AT := (AT_of A numSS numTotal).
Abbreviation InnerBody := (inner_body A G x0 numSS numTotal deltaBar eta).
Abbreviation InnerGuard := (inner_guard x0 numSS MaxIters tol MaxNoStep).
Abbreviation TrustRegion :=
  (trust_region A G x0 numSS numTotal MaxIters tol deltaBar eta MaxNoStep).
Abbreviation TrialBody :=
  (trial_body A G x0 numSS numTotal MaxIters tol deltaBar eta MaxNoStep PerturbScale seed pfuel).
Abbreviation OuterGuard := (outer_guard x0 numSS tol MaxTrial).
Abbreviation Trials :=
  (trials A G x0 numSS numTotal MaxIters tol deltaBar eta MaxNoStep MaxTrial PerturbScale seed pfuel).
Abbreviation Run :=
  (CalcConc_run A G x0 numSS numTotal MaxIters tol deltaBar eta kT MaxNoStep MaxTrial
     PerturbScale MolesWaterPerLiter seed pfuel).

(** The statistics are six counters that are not negative and add up to
    the number of passes. *)
Definition stats_ok (st : state D rng) : Prop :=
  length (st_RunStats st) = 6%nat /\ Forall (fun c => (0 <= c)%Z) (st_RunStats st) /\
  sumZ (st_RunStats st) = st_iters st.

Lemma inner_body_stats (st st' : state D rng) :
  InnerBody st = Ret st' -> stats_ok st -> stats_ok st'.
Proof.
  intros H [HL [HF HS]]. unfold inner_body in H.
  pose proof (getSearchDir_frame (st_p st) (st_Grad st)
                (getHes (st_x st) A numSS numTotal) (st_delta st) numSS) as Hc.
  destruct (getSearchDir _ _ _ _ _) as [code p0]. simpl in Hc. destruct Hc as [Hc _].
  destruct (if _ >? eta then _ else _) as [lam nns].
  destruct (getx (st_x st) lam G AT numSS numTotal) as [ok x].
  destruct (ok =? 0)%Z; [discriminate|].
  inversion H; subst st'; clear H. unfold stats_ok; simpl.
  assert (Hk : (Z.to_nat (code - 1) < length (st_RunStats st))%nat) by (rewrite HL; lia).
  split; [rewrite upd_length; exact HL|]. split.
  - apply Forall_upd; [exact HF|].
    assert (0 <= nth (Z.to_nat (code - 1)) (st_RunStats st) 0)%Z.
    { rewrite Forall_forall in HF. apply HF. apply nth_In. exact Hk. }
    lia.
  - rewrite sumZ_bump by exact Hk. lia.
Qed.

(** What a pass keeps of the counters [iters] and [nNoStep]. *)
Definition counters_ok (st : state D rng) : Prop :=
  (0 <= st_iters st <= Z.max 0 MaxIters)%Z /\
  (0 <= st_nNoStep st <= Z.max 0 MaxNoStep)%Z.

Lemma inner_body_counters (st st' : state D rng) :
  counters_ok st -> InnerGuard st = true -> InnerBody st = Ret st' -> counters_ok st'.
Proof.
  intros [Hi Hn] Hg H. apply inner_body_Ret in H.
  destruct H as (Hit & _ & _ & _ & _ & _ & Hl & _).
  unfold inner_guard in Hg.
  apply andb_prop in Hg; destruct Hg as [Hg Hg3].
  apply andb_prop in Hg; destruct Hg as [Hg1 _].
  apply Z.ltb_lt in Hg1, Hg3.
  unfold counters_ok. rewrite Hit.
  split; [lia|].
  destruct (_ >? eta); inversion Hl; lia.
Qed.

Lemma inner_body_exits (st : state D rng) (c : Z) :
  InnerBody st = Exit c -> c = ERR_OVERFLOW.
Proof.
  unfold inner_body.
  destruct (getSearchDir _ _ _ _ _) as [code p0].
  destruct (if _ >? eta then _ else _) as [lam nns].
  destruct (getx (st_x st) lam G AT numSS numTotal) as [ok x].
  destruct (ok =? 0)%Z; intros H; inversion H; reflexivity.
Qed.

Lemma inner_body_finishes (st : state D rng) : InnerBody st <> Unfinished.
Proof.
  unfold inner_body.
  destruct (getSearchDir _ _ _ _ _) as [code p0].
  destruct (if _ >? eta then _ else _) as [lam nns].
  destruct (getx (st_x st) lam G AT numSS numTotal) as [ok x].
  destruct (ok =? 0)%Z; discriminate.
Qed.

Lemma trust_region_exits (n : nat) (st : state D rng) (c : Z) :
  TrustRegion n st = Exit c -> c = ERR_OVERFLOW.
Proof.
  revert st. induction n as [|n IH]; intros st H; simpl in H.
  - destruct (InnerGuard st); discriminate.
  - destruct (InnerGuard st); [|discriminate].
    destruct (InnerBody st) as [st1| | |] eqn:Eb; simpl in H; try discriminate.
    + exact (IH _ H).
    + inversion H; subst. exact (inner_body_exits _ _ Eb).
Qed.

Lemma trust_region_finishes (n : nat) (st : state D rng) : TrustRegion n st <> Unfinished.
Proof.
  revert st. induction n as [|n IH]; intros st; simpl.
  - destruct (InnerGuard st); discriminate.
  - destruct (InnerGuard st); [|discriminate].
    pose proof (inner_body_finishes st).
    destruct (InnerBody st) as [st1| | |] eqn:Eb; simpl; try discriminate.
    + apply IH.
    + contradiction.
Qed.

(** The state a trial hands to the trust-region loop, and what the loop
    made of it. *)
Lemma trial_body_split (st st' : state D rng) :
  TrialBody st = Ret st' ->
  exists s0 s1,
    TrustRegion (Z.to_nat MaxIters) s0 = Ret s1 /\
    st_iters s0 = 0%Z /\ st_nNoStep s0 = 0%Z /\ st_RunStats s0 = repeat 0%Z 6 /\
    st_nTrial s0 = st_nTrial st /\
    fst (getx (st_x st) (st_lambda s0) G AT numSS numTotal) = 1%Z /\
    st_x s0 = snd (getx (st_x st) (st_lambda s0) G AT numSS numTotal) /\
    st' = mkState (st_x s1) (st_lambda s1) (st_Grad s1) (st_p s1) (st_delta s1)
            (st_iters s1) (st_nNoStep s1) (st_nTrial s1 + 1)%Z (st_rand_seed s1)
            (st_RunStats s1) (st_gen s1).
Proof.
  unfold trial_body. intros H.
  destruct (if (st_nTrial st =? 1)%Z then _ else _) as [rs g].
  destruct (getInitialGuess _ _ _ _ _ _ _ _ _ _ _) as [[lam g']|]; [|discriminate].
  destruct (getx (st_x st) lam G AT numSS numTotal) as [ok x] eqn:Ex.
  destruct (ok =? 0)%Z eqn:Eok; [discriminate|].
  match type of H with
  | (bind (trust_region _ _ _ _ _ _ _ _ _ _ ?n ?s) _) = _ =>
      destruct (TrustRegion n s) as [s1| | |] eqn:Et; simpl in H; try discriminate;
      exists s, s1
  end.
  simpl. rewrite Ex. simpl.
  pose proof (getx_flag (st_x st) lam G AT numSS numTotal) as F.
  rewrite Ex in F. simpl in F. apply Z.eqb_neq in Eok.
  repeat split; try reflexivity; try exact Et; try lia.
  inversion H; reflexivity.
Qed.

Lemma trial_body_exits (st : state D rng) (c : Z) :
  TrialBody st = Exit c -> c = ERR_OVERFLOW.
Proof.
  unfold trial_body. intros H.
  destruct (if (st_nTrial st =? 1)%Z then _ else _) as [rs g].
  destruct (getInitialGuess _ _ _ _ _ _ _ _ _ _ _) as [[lam g']|]; [|discriminate].
  destruct (getx (st_x st) lam G AT numSS numTotal) as [ok x] eqn:Ex.
  destruct (ok =? 0)%Z eqn:Eok; [inversion H; reflexivity|].
  match type of H with
  | (bind (trust_region _ _ _ _ _ _ _ _ _ _ ?n ?s) _) = _ =>
      destruct (TrustRegion n s) as [s1| | |] eqn:Et; simpl in H; try discriminate
  end.
  inversion H; subst. exact (trust_region_exits _ _ _ Et).
Qed.

Lemma trials_exits (n : nat) (st : state D rng) (c : Z) :
  Trials n st = Exit c -> c = ERR_OVERFLOW.
Proof.
  revert st. induction n as [|n IH]; intros st H; simpl in H.
  - destruct (OuterGuard st); discriminate.
  - destruct (OuterGuard st); [|discriminate].
    destruct (TrialBody st) as [st1| | |] eqn:Eb; simpl in H; try discriminate.
    + exact (IH _ H).
    + inversion H; subst. exact (trial_body_exits _ _ Eb).
Qed.

Lemma stats_ok_start (s0 : state D rng) :
  st_iters s0 = 0%Z -> st_RunStats s0 = repeat 0%Z 6 -> stats_ok s0.
Proof.
  intros Hi Hr. unfold stats_ok. rewrite Hr, Hi. simpl.
  repeat split; try reflexivity. repeat constructor; lia.
Qed.

Lemma trial_body_stats (st st' : state D rng) :
  TrialBody st = Ret st' -> stats_ok st' /\ counters_ok st' /\ InnerGuard st' = false.
Proof.
  intros H. apply trial_body_split in H.
  destruct H as (s0 & s1 & Ht & Hi & Hn & Hr & _ & _ & _ & ->).
  pose proof (trust_region_inv A G x0 numSS numTotal MaxIters tol deltaBar eta MaxNoStep
                (fun t => stats_ok t /\ counters_ok t)) as Inv.
  destruct (Inv) with (n := Z.to_nat MaxIters) (st := s0) (st' := s1) as [[Hs Hc] Hg].
  - intros t t' [Hs Hc] Hg Hb. split.
    + exact (inner_body_stats t t' Hb Hs).
    + exact (inner_body_counters t t' Hc Hg Hb).
  - split; [exact (stats_ok_start s0 Hi Hr)|].
    unfold counters_ok. rewrite Hi, Hn. lia.
  - exact Ht.
  - repeat split; try apply Hs; try apply Hc. exact Hg.
Qed.

(** X6.  When a trial ends, the six counters of RunStats are not negative
    and add up to the number of passes of the trust-region loop in that
    trial; so they are for the last trial when CalcConc reaches its
    return. *)
Theorem RunStats_add_up_to_iters :
  (forall st st', TrialBody st = Ret st' ->
     length (st_RunStats st') = 6%nat /\
     Forall (fun c => (0 <= c)%Z) (st_RunStats st') /\
     sumZ (st_RunStats st') = st_iters st') /\
  (forall x gen f, Run x gen = Ret f ->
     (0 < st_nTrial (fin_state f))%Z ->
     length (st_RunStats (fin_state f)) = 6%nat /\
     Forall (fun c => (0 <= c)%Z) (st_RunStats (fin_state f)) /\
     sumZ (st_RunStats (fin_state f)) = st_iters (fin_state f)).
Proof.
  split.
  - intros st st' H. exact (proj1 (trial_body_stats st st' H)).
  - intros x gen f H Hn. unfold CalcConc_run in H.
    destruct (Trials (Z.to_nat MaxTrial) (init_state x0 numSS tol x gen)) as [st| | |] eqn:Et;
      simpl in H; try discriminate.
    inversion H; subst f; simpl in *. clear H.
    pose proof (trials_inv A G x0 numSS numTotal MaxIters tol deltaBar eta MaxNoStep MaxTrial
                  PerturbScale seed pfuel
                  (fun t => (0 < st_nTrial t)%Z -> stats_ok t)) as Inv.
    destruct (Inv) with (n := Z.to_nat MaxTrial) (st := init_state x0 numSS tol x gen) (st' := st)
      as [Hs _].
    + intros t t' _ _ Hb _. exact (proj1 (trial_body_stats t t' Hb)).
    + simpl. lia.
    + exact Et.
    + exact (Hs Hn).
Qed.

(** X7.  The counted loops of CalcConc never outrun their counters: a run
    makes at most MaxTrial trials of at most MaxIters passes each, and the
    only code it calls exit with is ERR_OVERFLOW; when a trial ends, iters is
    between 0 and max(0, MaxIters), nNoStep between 0 and max(0, MaxNoStep),
    and one of the three conditions of the while loop of line 152 has
    failed. *)
Theorem CalcConc_loops_are_bounded :
  (forall x gen, Run x gen <> OutOfFuel) /\
  (forall x gen c, Run x gen = Exit c -> c = ERR_OVERFLOW) /\
  (forall st st', TrialBody st = Ret st' ->
     (0 <= st_iters st' <= Z.max 0 MaxIters)%Z /\
     (0 <= st_nNoStep st' <= Z.max 0 MaxNoStep)%Z /\
     ((MaxIters <= st_iters st')%Z \/
      CheckTol (st_Grad st') AbsTol numSS = 1%Z \/
      (MaxNoStep <= st_nNoStep st')%Z)).
Proof.
  split; [|split].
  - intros x gen. unfold CalcConc_run.
    pose proof (trials_total A G x0 numSS numTotal MaxIters tol deltaBar eta MaxNoStep MaxTrial
                  PerturbScale seed pfuel
                  (Z.to_nat MaxTrial) (init_state x0 numSS tol x gen)) as T.
    destruct (Trials (Z.to_nat MaxTrial) (init_state x0 numSS tol x gen)); simpl;
      try discriminate.
    exfalso. apply T; [|reflexivity]. simpl. lia.
  - intros x gen c H. unfold CalcConc_run in H.
    destruct (Trials (Z.to_nat MaxTrial) (init_state x0 numSS tol x gen)) as [st| | |] eqn:Et;
      simpl in H; try discriminate.
    inversion H; subst. exact (trials_exits _ _ _ Et).
  - intros st st' H. destruct (trial_body_stats st st' H) as (_ & [Hi Hn] & Hg).
    split; [exact Hi|]. split; [exact Hn|].
    unfold inner_guard in Hg.
    apply andb_false_iff in Hg. destruct Hg as [Hg|Hg].
    + apply andb_false_iff in Hg. destruct Hg as [Hg|Hg].
      * left. apply Z.ltb_ge in Hg. exact Hg.
      * right; left. apply Z.eqb_neq in Hg.
        destruct (CheckTol_flag (st_Grad st') AbsTol numSS); [contradiction|assumption].
    + right; right. apply Z.ltb_ge in Hg. exact Hg.
Qed.

End DriverCounters.

(** ** The driver: what the caller gets *)

Section DriverResults.

Context {D rng : Type} {DD : Double D} {EE : Extern D rng}.
Local Open Scope dbl_scope.

Variables (A : list (list Z)) (G x0 : list D) (numSS numTotal : nat).
Variables (MaxIters : Z) (tol deltaBar eta kT : D) (MaxNoStep MaxTrial : Z).
Variables (PerturbScale MolesWaterPerLiter : D) (seed : Z).
Variable pfuel : nat.

Abbreviation AbsTol := (AbsTol_of x0 numSS tol).
Abbreviation AT := (AT_of A numSS numTotal).
Abbreviation InnerBody := (inner_body A G x0 numSS numTotal deltaBar eta).
Abbreviation InnerGuard := (inner_guard x0 numSS MaxIters tol MaxNoStep).
Abbreviation TrustRegion :=
  (trust_region A G x0 numSS numTotal MaxIters tol deltaBar eta MaxNoStep).
Abbreviation OuterGuard := (outer_guard x0 numSS tol MaxTrial).
Abbreviation Run :=
  (CalcConc_run A G x0 numSS numTotal MaxIters tol deltaBar eta kT MaxNoStep MaxTrial
     PerturbScale MolesWaterPerLiter seed pfuel).

(** X8.  With MaxTrial <= 0, or with no single species (numSS = 0), the
    trial loop is not entered: CalcConc leaves the buffer x as the caller
    passed it, and returns 0 for MaxTrial = 0 and 1 (the value for a
    converged run) otherwise. *)
Theorem CalcConc_without_trials (x : list D) (gen : rng) :
  (MaxTrial <= 0)%Z \/ numSS = 0%nat ->
  CalcConc A G x0 numSS numTotal MaxIters tol deltaBar eta kT MaxNoStep MaxTrial
    PerturbScale MolesWaterPerLiter seed pfuel x gen
  = Ret (if (MaxTrial =? 0)%Z then 0%Z else 1%Z, x).
Proof.
  intros HM. unfold CalcConc, CalcConc_run.
  rewrite trials_stop.
  - cbn -[Z.eqb]. rewrite (Z.eqb_sym 0 MaxTrial). reflexivity.
  - unfold outer_guard. destruct HM as [HM|HM].
    + simpl st_nTrial.
      replace (0 <? MaxTrial)%Z with false by (symmetry; apply Z.ltb_ge; lia).
      apply andb_false_r.
    + rewrite HM. reflexivity.
Qed.

(** The mole fractions in the state are those of its lambda. *)
Definition x_of_lambda (st : state D rng) : Prop :=
  forall j, (j < numTotal)%nat ->
    (st_x st).[j] = exp (logx_of (st_lambda st) G AT numSS j) /\
    (logx_of (st_lambda st) G AT numSS j >? MAXLOGX) = false.

Lemma getx_x_of_lambda (xb lam x1 : list D) :
  (numTotal <= length xb)%nat ->
  getx xb lam G AT numSS numTotal = (1%Z, x1) ->
  length x1 = length xb /\
  forall j, (j < numTotal)%nat ->
    x1.[j] = exp (logx_of lam G AT numSS j) /\
    (logx_of lam G AT numSS j >? MAXLOGX) = false.
Proof.
  intros Hl H.
  pose proof (getx_length xb lam G AT numSS numTotal) as HL.
  pose proof (getx_success xb lam G AT numSS numTotal Hl) as HS.
  pose proof (getx_overflow_iff xb lam G AT numSS numTotal) as HO.
  rewrite H in HL, HS, HO. simpl in HL, HS, HO.
  split; [exact HL|]. intros j Hj. split; [apply HS; [reflexivity|exact Hj]|].
  destruct (logx_of lam G AT numSS j >? MAXLOGX) eqn:E; [|reflexivity].
  exfalso. assert (1 = 0)%Z; [|lia]. apply HO. exists j. split; assumption.
Qed.

Lemma trial_body_x (xlen : nat) (st st' : state D rng) :
  (numTotal <= xlen)%nat -> length (st_x st) = xlen ->
  trial_body A G x0 numSS numTotal MaxIters tol deltaBar eta MaxNoStep PerturbScale seed pfuel st
    = Ret st' ->
  length (st_x st') = xlen /\ x_of_lambda st'.
Proof.
  intros Hn Hl H. apply trial_body_split in H.
  destruct H as (s0 & s1 & Ht & _ & _ & _ & _ & Hf & Hx & ->).
  assert (Hg : getx (st_x st) (st_lambda s0) G AT numSS numTotal = (1%Z, st_x s0)).
  { rewrite Hx, <- Hf. apply surjective_pairing. }
  pose proof (trust_region_inv A G x0 numSS numTotal MaxIters tol deltaBar eta MaxNoStep
                (fun t => length (st_x t) = xlen /\ x_of_lambda t)) as Inv.
  destruct (Inv) with (n := Z.to_nat MaxIters) (st := s0) (st' := s1) as [[H1 H2] _].
  - intros t t' [Hlt _] _ Hb. apply inner_body_Ret in Hb.
    destruct Hb as (_ & _ & _ & _ & _ & _ & _ & Hgx & _).
    apply getx_x_of_lambda in Hgx; [|lia].
    destruct Hgx as [Hlen Hc]. split; [lia|exact Hc].
  - apply getx_x_of_lambda in Hg; [|lia].
    destruct Hg as [Hlen Hc]. split; [lia|exact Hc].
  - exact Ht.
  - split; [exact H1|exact H2].
Qed.

(** X9.  When CalcConc reaches its return after at least one trial, the
    buffer x (of at least numTotal cells) holds the mole fractions of the
    final lambda: x[j] = exp(-G[j] + <lambda, AT[j]>) for every complex j,
    none of these logs exceeds MAXLOGX, and the buffer has the length it
    had. *)
Theorem returned_x_is_exp_of_final_lambda (x : list D) (gen : rng) (f : final D rng) :
  (numTotal <= length x)%nat ->
  Run x gen = Ret f ->
  (0 < st_nTrial (fin_state f))%Z ->
  let lambda := st_lambda (fin_state f) in
  let xf := st_x (fin_state f) in
  length xf = length x /\
  forall j, (j < numTotal)%nat ->
    xf.[j] = exp (- G.[j] + didot lambda AT.r[j] numSS) /\
    (- G.[j] + didot lambda AT.r[j] numSS >? MAXLOGX) = false.
Proof.
  intros Hn H Hpos. unfold CalcConc_run in H.
  destruct (trials _ _ _ _ _ _ _ _ _ _ _ _ _ _ _ _) as [st| | |] eqn:Et;
    simpl in H; try discriminate.
  inversion H; subst f; simpl in *. clear H.
  pose proof (trials_inv A G x0 numSS numTotal MaxIters tol deltaBar eta MaxNoStep MaxTrial
                PerturbScale seed pfuel
                (fun t => length (st_x t) = length x /\
                          ((0 < st_nTrial t)%Z -> x_of_lambda t))) as Inv.
  destruct (Inv) with (n := Z.to_nat MaxTrial) (st := init_state x0 numSS tol x gen) (st' := st)
    as [[H1 H2] _].
  - intros t t' [Hlt _] _ Hb.
    destruct (trial_body_x (length x) t t' Hn Hlt Hb) as [Ha Hb'].
    split; [exact Ha|intros _; exact Hb'].
  - simpl. split; [reflexivity|lia].
  - exact Et.
  - split; [exact H1|]. exact (H2 Hpos).
Qed.

End DriverResults.

(** *** The generator *)

Section Generator.

Context {D rng : Type} {DD : Double D} {EE : Extern D rng}.
Local Open Scope dbl_scope.

Variables (A : list (list Z)) (G x0 : list D) (numSS numTotal : nat).
Variables (MaxIters : Z) (tol deltaBar eta kT : D) (MaxNoStep MaxTrial : Z).
Variable MolesWaterPerLiter : D.

Abbreviation InnerBody := (inner_body A G x0 numSS numTotal deltaBar eta).
Abbreviation InnerGuard := (inner_guard x0 numSS MaxIters tol MaxNoStep).
Abbreviation TrustRegion :=
  (trust_region A G x0 numSS numTotal MaxIters tol deltaBar eta MaxNoStep).
Abbreviation OuterGuard := (outer_guard x0 numSS tol MaxTrial).
Abbreviation TrialBody :=
  (trial_body A G x0 numSS numTotal MaxIters tol deltaBar eta MaxNoStep).
Abbreviation Trials :=
  (trials A G x0 numSS numTotal MaxIters tol deltaBar eta MaxNoStep MaxTrial).

(** The same state of [CalcConc] beside another state of the generator. *)
Definition with_gen (g : rng) (st : state D rng) : state D rng :=
  mkState (st_x st) (st_lambda st) (st_Grad st) (st_p st) (st_delta st) (st_iters st)
          (st_nNoStep st) (st_nTrial st) (st_rand_seed st) (st_RunStats st) g.

Definition outcome_with_gen (g : rng) (o : outcome (state D rng)) : outcome (state D rng) :=
  match o with
  | Ret st => Ret (with_gen g st)
  | Exit c => Exit c
  | Unfinished => Unfinished
  | OutOfFuel => OutOfFuel
  end.

Lemma inner_body_with_gen (g : rng) (st : state D rng) :
  InnerBody (with_gen g st) = outcome_with_gen g (InnerBody st).
Proof.
  unfold inner_body. simpl.
  destruct (getSearchDir _ _ _ _ _) as [code p0].
  destruct (if _ >? eta then _ else _) as [lam nns].
  destruct (getx (st_x st) lam G _ numSS numTotal) as [ok x].
  destruct (ok =? 0)%Z; reflexivity.
Qed.

Lemma trust_region_with_gen (g : rng) (n : nat) (st : state D rng) :
  TrustRegion n (with_gen g st) = outcome_with_gen g (TrustRegion n st).
Proof.
  revert st. induction n as [|n IH]; intros st; simpl;
    change (InnerGuard (with_gen g st)) with (InnerGuard st);
    destruct (InnerGuard st); try reflexivity.
  rewrite inner_body_with_gen.
  destruct (InnerBody st) as [st1| | |]; simpl; try reflexivity.
  apply IH.
Qed.

(** With [rand_seed = 0] the initial guess draws no random number. *)
Lemma getInitialGuess_unseeded (lambda : list D) :
  exists lambda0, forall fuel PerturbScale gen,
    getInitialGuess fuel x0 lambda G (AT_of A numSS numTotal) A numSS numTotal
      PerturbScale 0 gen = Some (lambda0, gen).
Proof. eexists. intros fuel PerturbScale gen. unfold getInitialGuess. simpl. reflexivity. Qed.

Lemma trial_body_with_gen (PerturbScale PerturbScale' : D) (seed seed' : Z)
    (pfuel pfuel' : nat) (g : rng) (st : state D rng) :
  st_nTrial st <> 1%Z -> st_rand_seed st = 0%Z ->
  TrialBody PerturbScale' seed' pfuel' (with_gen g st)
  = outcome_with_gen g (TrialBody PerturbScale seed pfuel st).
Proof.
  intros Hn Hs. unfold trial_body. simpl.
  apply Z.eqb_neq in Hn. rewrite Hn, Hs.
  destruct (getInitialGuess_unseeded (st_lambda st)) as [lambda0 Hg].
  rewrite !Hg.
  destruct (getx (st_x st) lambda0 G _ numSS numTotal) as [ok x].
  destruct (ok =? 0)%Z; [reflexivity|].
  match goal with
  | |- bind (trust_region _ _ _ _ _ _ _ _ _ _ ?n ?s') _ = _ (bind (trust_region _ _ _ _ _ _ _ _ _ _ _ ?s) _) =>
      change s' with (with_gen g s); rewrite (trust_region_with_gen g n s);
      destruct (TrustRegion n s) as [s1| | |]; reflexivity
  end.
Qed.

(** The trial counter only grows, and a trial loop that leaves it as it was
    has run no trial. *)
Lemma trials_nTrial (PerturbScale : D) (seed : Z) (pfuel : nat) (n : nat)
    (st st' : state D rng) :
  Trials PerturbScale seed pfuel n st = Ret st' ->
  (st_nTrial st <= st_nTrial st')%Z /\
  (st_nTrial st' = st_nTrial st -> st' = st /\ OuterGuard st = false).
Proof.
  revert st. induction n as [|n IH]; intros st H; simpl in H.
  - destruct (OuterGuard st) eqn:Eg; [discriminate|].
    inversion H; subst. split; [lia|]. intros _. split; reflexivity.
  - destruct (OuterGuard st) eqn:Eg.
    + destruct (TrialBody PerturbScale seed pfuel st) as [st1| | |] eqn:Eb;
        simpl in H; try discriminate.
      apply trial_body_Ret in Eb. destruct Eb as [Hn _].
      apply IH in H. destruct H as [Hle _]. split; [lia|]. intros E. lia.
    + inversion H; subst. split; [lia|]. intros _. split; [reflexivity|reflexivity].
Qed.

(** X10.  The first trial draws no random number: when a run reaches the
    return of CalcConc with nTrial <= 1, the same call with any other seed,
    PerturbScale and state of the generator returns the same flag and the
    same x. *)
Theorem first_trial_draws_no_random_number
    (PerturbScale PerturbScale' : D) (seed seed' : Z) (pfuel pfuel' : nat)
    (x : list D) (gen gen' : rng) (f : final D rng) :
  CalcConc_run A G x0 numSS numTotal MaxIters tol deltaBar eta kT MaxNoStep MaxTrial
    PerturbScale MolesWaterPerLiter seed pfuel x gen = Ret f ->
  (st_nTrial (fin_state f) <= 1)%Z ->
  CalcConc A G x0 numSS numTotal MaxIters tol deltaBar eta kT MaxNoStep MaxTrial
    PerturbScale' MolesWaterPerLiter seed' pfuel' x gen'
  = Ret (fin_ret f, st_x (fin_state f)).
Proof.
  intros H Hn. unfold CalcConc, CalcConc_run in *.
  destruct (Trials PerturbScale seed pfuel (Z.to_nat MaxTrial) (init_state x0 numSS tol x gen))
    as [st| | |] eqn:Et; simpl in H; try discriminate.
  inversion H; subst f; simpl in *. clear H.
  assert (K : Trials PerturbScale' seed' pfuel' (Z.to_nat MaxTrial)
                (init_state x0 numSS tol x gen') = Ret (with_gen gen' st)).
  { change (init_state x0 numSS tol x gen')
      with (with_gen gen' (init_state x0 numSS tol x gen)).
    set (st0 := init_state x0 numSS tol x gen) in *.
    destruct (Z.to_nat MaxTrial) as [|n]; simpl in Et |- *;
      change (OuterGuard (with_gen gen' st0)) with (OuterGuard st0);
      destruct (OuterGuard st0) eqn:Eg; try discriminate;
      try (inversion Et; reflexivity).
    rewrite (trial_body_with_gen PerturbScale PerturbScale' seed seed' pfuel pfuel')
      by (simpl; lia || reflexivity).
    destruct (TrialBody PerturbScale seed pfuel st0) as [st1| | |] eqn:Eb;
      simpl in Et |- *; try discriminate.
    pose proof (trial_body_Ret _ _ _ _ _ _ _ _ _ _ _ _ _ _ _ Eb) as [H1 _].
    simpl in H1.
    destruct (trials_nTrial _ _ _ _ _ _ Et) as [Hle Heq].
    destruct Heq as [-> Hg1]; [lia|].
    apply trials_stop. exact Hg1. }
  rewrite K. reflexivity.
Qed.

End Generator.

(** ** NaN in binary64 *)

Lemma is_nan_SF (a : float) : PrimFloat.is_nan a = true <-> Prim2SF a = S754_nan.
Proof.
  unfold PrimFloat.is_nan. rewrite FloatAxioms.eqb_spec.
  destruct (Prim2SF a) as [s|s| |s m e]; split; intros H;
    try discriminate; try reflexivity; exfalso;
    unfold SFeqb, SFcompare in H;
    try rewrite Z.compare_refl in H;
    try (change (Pos.compare_cont Eq m m) with (m ?= m)%positive in H;
         rewrite Pos.compare_refl in H);
    destruct s; discriminate.
Qed.

Lemma ltb_nan (a b : float) :
  PrimFloat.is_nan a = true \/ PrimFloat.is_nan b = true -> PrimFloat.ltb a b = false.
Proof.
  rewrite !is_nan_SF, FloatAxioms.ltb_spec. intros [-> | ->].
  - reflexivity.
  - destruct (Prim2SF a) as [s|s| |s m e]; try destruct s; reflexivity.
Qed.

Section NaN.

Variables (libm_exp libm_log : float -> float) (libm_pow : float -> float -> float).
Context {rng : Type} {EE : Extern float rng}.

#[local] Instance Float64_nan : Double float := Float64 libm_exp libm_log libm_pow.
Local Open Scope dbl_scope.

(** X11.  Binary64: when tol * x0[i] is a NaN for every single species i
    (a NaN tol, or NaN totals), the sentinel gradient passes the tolerance
    check, no trial is run, and CalcConc returns 1, the value for a
    converged run (0 if MaxTrial = 0), with the buffer x as the caller passed
    it. *)
Theorem NaN_tolerance_reports_convergence
    (A : list (list Z)) (G x0 : list float) (numSS numTotal : nat)
    (MaxIters : Z) (tol deltaBar eta kT : float) (MaxNoStep MaxTrial : Z)
    (PerturbScale MolesWaterPerLiter : float) (seed : Z) (pfuel : nat)
    (x : list float) (gen : rng) :
  (forall i, (i < numSS)%nat -> PrimFloat.is_nan (tol * x0.[i]) = true) ->
  CheckTol (st_Grad (init_state x0 numSS tol x gen)) (AbsTol_of x0 numSS tol) numSS = 1%Z /\
  CalcConc A G x0 numSS numTotal MaxIters tol deltaBar eta kT MaxNoStep MaxTrial
    PerturbScale MolesWaterPerLiter seed pfuel x gen
  = Ret (if (MaxTrial =? 0)%Z then 0%Z else 1%Z, x).
Proof.
  intros Hnan.
  assert (HC : CheckTol (st_Grad (init_state x0 numSS tol x gen))
                 (AbsTol_of x0 numSS tol) numSS = 1%Z).
  { apply CheckTol_within. intros i Hi.
    apply ltb_nan. left.
    rewrite (AbsTol_nth x0 numSS tol i Hi). apply Hnan. exact Hi. }
  split; [exact HC|].
  unfold CalcConc, CalcConc_run.
  rewrite trials_stop.
  - cbn -[Z.eqb]. rewrite (Z.eqb_sym 0 MaxTrial). reflexivity.
  - unfold outer_guard. rewrite HC. reflexivity.
Qed.

End NaN.

(** ** The uniform initial guess in IEEE binary64 *)

(** If b is below c and a is not, then a is not below b. *)
Lemma SFltb_chain (a b c : spec_float) :
  SFltb b c = true -> SFltb a c = false -> SFltb a b = false.
Proof.
  destruct a as [sa|sa| |sa ma ea], b as [sb|sb| |sb mb eb], c as [sc|sc| |sc mc ec];
    try destruct sa; try destruct sb; try destruct sc;
    cbv beta iota delta [SFltb SFcompare];
    try reflexivity; try discriminate;
    repeat match goal with
           | |- context [Pos.compare_cont Eq ?x ?y] =>
               change (Pos.compare_cont Eq x y) with (x ?= y)%positive
           end;
    repeat match goal with
           | |- context [(?x ?= ?y)%Z] => destruct (Z.compare_spec x y)
           | |- context [(?x ?= ?y)%positive] => destruct (Pos.compare_spec x y)
           end;
    cbv beta iota delta [CompOpp];
    try reflexivity; try discriminate; intros; subst; lia.
Qed.

Lemma ltb_chain (a b c : float) :
  PrimFloat.ltb b c = true -> PrimFloat.ltb a c = false -> PrimFloat.ltb a b = false.
Proof. rewrite !FloatAxioms.ltb_spec. apply SFltb_chain. Qed.

Lemma ltb_irrefl (a : float) : PrimFloat.ltb a a = false.
Proof.
  rewrite FloatAxioms.ltb_spec. unfold SFltb, SFcompare.
  destruct (Prim2SF a) as [s|s| |s m e]; try destruct s; try reflexivity.
  - rewrite Z.compare_refl.
    change (Pos.compare_cont Eq m m) with (m ?= m)%positive.
    rewrite Pos.compare_refl. reflexivity.
  - rewrite Z.compare_refl.
    change (Pos.compare_cont Eq m m) with (m ?= m)%positive.
    rewrite Pos.compare_refl. reflexivity.
Qed.

Section LeastBound.

Variables (libm_exp libm_log : float -> float) (libm_pow : float -> float -> float).
Context {rng : Type} {EE : Extern float rng}.

#[local] Instance Float64_bound : Double float := Float64 libm_exp libm_log libm_pow.

Local Open Scope dbl_scope.

(** Lines 258-264: the scan for the least of the numbers [bound j]. *)
Lemma least_scan (bound : nat -> float) (n : nat) :
  let L := forloop 1 n (fun j L => if bound j <? L then bound j else L) (bound 0%nat) in
  exists j0, (j0 <= n)%nat /\ L = bound j0 /\
             forall j, (j <= n)%nat -> (bound j <? L) = false.
Proof.
  induction n as [|n IH]; cbv zeta.
  - exists 0%nat. split; [lia|]. split; [reflexivity|].
    intros j Hj. replace j with 0%nat by lia. apply ltb_irrefl.
  - rewrite forloop_snoc. cbv zeta in IH.
    destruct IH as (j0 & Hj0 & HL & Hall).
    set (L := forloop 1 n _ _) in *. simpl Nat.add.
    destruct (bound (S n) <? L) eqn:E.
    + exists (S n). split; [lia|]. split; [reflexivity|].
      intros j Hj. destruct (Nat.eq_dec j (S n)) as [->|Hne]; [apply ltb_irrefl|].
      apply (ltb_chain _ _ L); [exact E|apply Hall; lia].
    + exists j0. split; [lia|]. split; [exact HL|].
      intros j Hj. destruct (Nat.eq_dec j (S n)) as [->|Hne]; [exact E|].
      apply Hall. lia.
Qed.

(** X12.  In binary64 and without a seed, [getInitialGuess] returns, and
    the value it gives to every lambda[i] whose row of A does not sum to 1
    is the least of the bounds (1 + G[j]) / sumint(AT[j], numSS),
    j < numTotal: it is one of them, and none of them is below it; so it is
    below or equal to each of them that is a number, unless it is a NaN
    itself.  The generator is left as it is. *)
Theorem initial_guess_is_least_bound (fuel : nat) (x0 lambda G : list float)
    (AT A : list (list Z)) (numSS numTotal : nat) (PerturbScale : float) (gen : rng) :
  (1 <= numTotal)%nat -> (numSS <= length lambda)%nat ->
  let bound (j : nat) := (d1 + G.[j]) / of_int (sumint AT.r[j] numSS) in
  exists j0 lambda',
    (j0 < numTotal)%nat /\
    getInitialGuess fuel x0 lambda G AT A numSS numTotal PerturbScale 0 gen
      = Some (lambda', gen) /\
    (forall i, (i < numSS)%nat -> sumint A.r[i] numTotal <> 1%Z ->
       lambda'.[i] = bound j0) /\
    (forall j, (j < numTotal)%nat -> (bound j <? bound j0) = false) /\
    (forall j, (j < numTotal)%nat ->
       PrimFloat.is_nan (bound j) = false -> PrimFloat.is_nan (bound j0) = false ->
       (bound j0 <=? bound j) = true).
Proof.
  intros Hn Hlen bound.
  destruct (least_scan bound (numTotal - 1)) as (j0 & Hj0 & HL & Hall).
  cbv zeta in HL.
  exists j0. eexists. split; [lia|].
  unfold getInitialGuess.
  set (LambdaVal := forloop 1 (numTotal - 1) _ _).
  assert (E : LambdaVal = bound j0) by exact HL.
  clearbody LambdaVal. subst LambdaVal. cbn [Z.eqb].
  split; [reflexivity|]. split; [|split].
  - intros i Hi Hs.
    rewrite (forloop_cond_upd (fun i => (sumint A.r[i] numTotal =? 1)%Z)
               (fun i => log x0.[i] + G.[Z.to_nat (FindNonZero A.r[i] numTotal)]))
      by (rewrite ?(forloop_upd_length (fun _ _ => bound j0)); lia).
    apply Z.eqb_neq in Hs. rewrite Hs.
    apply (forloop_upd_in (fun _ => bound j0)); lia.
  - intros j Hj. rewrite <- HL. apply Hall. lia.
  - intros j Hj Hnj Hn0. apply not_greater_is_le; try assumption.
    rewrite <- HL. apply Hall. lia.
Qed.

End LeastBound.

(** ** What [PerturbLambda] returns *)

Section PerturbationResult.

Variables (libm_exp libm_log : float -> float) (libm_pow : float -> float -> float).
Context {rng : Type} {EE : Extern float rng}.

#[local] Instance Float64_result : Double float := Float64 libm_exp libm_log libm_pow.

Local Open Scope dbl_scope.

Variables (G : list float) (AT : list (list Z)) (numSS numTotal : nat).

Abbreviation DrawnAt := (drawn_at libm_exp libm_log libm_pow numSS).

(** The passes after the first are the passes of a call with half the
    scale and the generator where the first pass left it. *)
Lemma drawn_at_next (lambda : list float) (s : float) (gen : rng) (j : nat) :
  DrawnAt lambda (s / d2) (after_draws numSS gen) j = DrawnAt lambda s gen (S j).
Proof.
  unfold drawn_at. simpl halved.
  replace (S j * numSS)%nat with (numSS + j * numSS)%nat by (simpl; lia).
  rewrite after_draws_add. reflexivity.
Qed.

Lemma PerturbLambda_passes (lambda : list float) (fuel : nat) :
  forall (s : float) (dummyx : list float) (gen : rng),
  match PerturbLambda fuel lambda s G AT numSS numTotal dummyx gen with
  | Some (lambda', gen') =>
      exists k, (k < fuel)%nat /\
        (forall j, (j < k)%nat ->
           fst (getx dummyx (DrawnAt lambda s gen j) G AT numSS numTotal) = 0%Z) /\
        fst (getx dummyx (DrawnAt lambda s gen k) G AT numSS numTotal) = 1%Z /\
        lambda' = forloop 0 numSS (fun i l => upd i (DrawnAt lambda s gen k).[i] l) lambda /\
        gen' = after_draws (S k * numSS) gen
  | None =>
      forall j, (j < fuel)%nat ->
        fst (getx dummyx (DrawnAt lambda s gen j) G AT numSS numTotal) = 0%Z
  end.
Proof.
  induction fuel as [|fuel IH]; intros s dummyx gen.
  - simpl. intros j Hj. lia.
  - rewrite (PerturbLambda_S libm_exp libm_log libm_pow). cbv zeta.
    assert (E0 : DrawnAt lambda s gen 0 = fst (draw libm_exp libm_log libm_pow numSS lambda s gen))
      by reflexivity.
    destruct (draw_cells libm_exp libm_log libm_pow numSS lambda s gen) as [Hg _].
    destruct (fst (getx dummyx (fst (draw libm_exp libm_log libm_pow numSS lambda s gen))
                     G AT numSS numTotal) =? 0)%Z eqn:Hok.
    + apply Z.eqb_eq in Hok. rewrite Hg.
      set (dx := snd (getx dummyx (fst (draw libm_exp libm_log libm_pow numSS lambda s gen))
                        G AT numSS numTotal)).
      specialize (IH (s / d2) dx (after_draws numSS gen)).
      destruct (PerturbLambda fuel lambda (s / d2) G AT numSS numTotal dx
                  (after_draws numSS gen)) as [[lambda' gen']|].
      * destruct IH as (k & Hk & Hbefore & Hat & Hl & Hgen).
        exists (S k). split; [lia|]. split; [|split; [|split]].
        -- intros j Hj. destruct j as [|j].
           ++ rewrite E0. exact Hok.
           ++ rewrite <- drawn_at_next. rewrite (getx_flag_indep dummyx dx).
              apply Hbefore. lia.
        -- rewrite <- drawn_at_next. rewrite (getx_flag_indep dummyx dx). exact Hat.
        -- rewrite <- drawn_at_next. exact Hl.
        -- rewrite Hgen.
           replace (S (S k) * numSS)%nat with (numSS + S k * numSS)%nat by (simpl; lia).
           rewrite after_draws_add. reflexivity.
      * intros j Hj. destruct j as [|j].
        -- rewrite E0. exact Hok.
        -- rewrite <- drawn_at_next. rewrite (getx_flag_indep dummyx dx). apply IH. lia.
    + exists 0%nat. split; [lia|]. split; [intros j Hj; lia|].
      split; [|split].
      * rewrite E0. apply Z.eqb_neq in Hok.
        destruct (getx_flag dummyx (fst (draw libm_exp libm_log libm_pow numSS lambda s gen))
                    G AT numSS numTotal); [contradiction|assumption].
      * rewrite E0. reflexivity.
      * rewrite Hg. simpl. rewrite Nat.add_0_r. reflexivity.
Qed.

(** X13.  Whatever lambda, scale and generator it is called with, whenever
    [PerturbLambda] returns it returns the lambda drawn in the first pass
    whose lambda gives no overflow, say pass k, written over lambda: entry i
    below numSS is lambda[i] + s_k * 2 * (u - 0.5), s_k the scale halved k
    times and u the number the generator returns at its call number
    k * numSS + i; the other entries and the length are those of lambda; and
    the generator has been called (k + 1) * numSS times.  The passes before
    k drew a lambda that gives an overflow. *)
Theorem PerturbLambda_returns_first_accepted (fuel : nat) (lambda : list float)
    (s : float) (dummyx : list float) (gen : rng) (lambda' : list float) (gen' : rng) :
  (numSS <= length lambda)%nat ->
  PerturbLambda fuel lambda s G AT numSS numTotal dummyx gen = Some (lambda', gen') ->
  exists k, (k < fuel)%nat /\
    (forall j, (j < k)%nat ->
       fst (getx dummyx (DrawnAt lambda s gen j) G AT numSS numTotal) = 0%Z) /\
    fst (getx dummyx (DrawnAt lambda s gen k) G AT numSS numTotal) = 1%Z /\
    length lambda' = length lambda /\
    (forall i, (i < numSS)%nat ->
       lambda'.[i] = lambda.[i] + halved k s * d2 *
                       (fst (genrand_real1 (after_draws (k * numSS + i) gen)) - d0_5)) /\
    (forall i, (numSS <= i)%nat -> lambda'.[i] = lambda.[i]) /\
    gen' = after_draws (S k * numSS) gen.
Proof.
  intros Hlen H.
  pose proof (PerturbLambda_passes lambda fuel s dummyx gen) as P.
  rewrite H in P. destruct P as (k & Hk & Hbefore & Hat & -> & ->).
  exists k. split; [exact Hk|]. split; [exact Hbefore|]. split; [exact Hat|].
  split; [apply (forloop_upd_length (fun i _ => (DrawnAt lambda s gen k).[i]))|].
  split; [|split; [|reflexivity]].
  - intros i Hi.
    rewrite (forloop_upd_in (fun i => (DrawnAt lambda s gen k).[i])) by lia.
    unfold drawn_at.
    rewrite (proj2 (draw_cells libm_exp libm_log libm_pow numSS lambda _ _) i Hi).
    rewrite after_draws_add. reflexivity.
  - intros i Hi.
    apply (forloop_upd_out (fun i _ => (DrawnAt lambda s gen k).[i])). lia.
Qed.

End PerturbationResult.

(** ** [getCauchyPoint] *)

Section CauchyPoint.

Context {D rng : Type} {DD : Double D} {EE : Extern D rng}.
Local Open Scope dbl_scope.

(** X14.  [getCauchyPoint] writes the cells 0..numSS-1 of CauchyPoint, cell
    i with coeff * Grad[i], where coeff = -tau * delta / |Grad| and tau is
    the smaller of |Grad|^3 / (delta * <Grad, Hes Grad>) and 1 (it is 1
    unless the quotient is below 1: also when the quotient is not a number);
    it leaves every other cell and the length as they were, and what the
    cells held before plays no part. *)
Theorem getCauchyPoint_cells (CauchyPoint : list D) (Hes : list (list D))
    (Grad : list D) (delta : D) (numSS : nat) :
  (numSS <= length CauchyPoint)%nat ->
  let normGrad := norm Grad numSS in
  let quotient :=
    pow normGrad (of_int 3) / (delta * dot Grad (MatrixVectorMult Hes Grad numSS) numSS) in
  let tau := if quotient <? d1 then quotient else d1 in
  let CP := getCauchyPoint CauchyPoint Hes Grad delta numSS in
  length CP = length CauchyPoint /\
  (forall i, (i < numSS)%nat -> CP.[i] = - tau * delta / normGrad * Grad.[i]) /\
  (forall i, (numSS <= i)%nat -> CP.[i] = CauchyPoint.[i]) /\
  (forall other, length other = length CauchyPoint ->
     forall i, (i < numSS)%nat ->
       (getCauchyPoint other Hes Grad delta numSS).[i] = CP.[i]).
Proof.
  intros Hlen normGrad quotient tau CP. subst CP. unfold getCauchyPoint.
  fold normGrad. fold quotient. unfold min2. fold tau.
  split; [apply (forloop_upd_length (fun i _ => - tau * delta / normGrad * Grad.[i]))|].
  split; [|split].
  - intros i Hi.
    apply (forloop_upd_in (fun i => - tau * delta / normGrad * Grad.[i])); lia.
  - intros i Hi.
    apply (forloop_upd_out (fun i _ => - tau * delta / normGrad * Grad.[i])). lia.
  - intros other Ho i Hi.
    rewrite !(forloop_upd_in (fun i => - tau * delta / normGrad * Grad.[i])) by lia.
    reflexivity.
Qed.

End CauchyPoint.

(** ** The diagonal of the Hessian in IEEE binary64 *)

(** A number that is a NaN, a zero, or has the sign bit clear. *)
Definition sf_not_negative (a : spec_float) : Prop :=
  match a with
  | S754_nan | S754_zero _ => True
  | S754_infinity s | S754_finite s _ _ => s = false
  end.

Lemma unsigned_not_negative (a : spec_float) : sf_unsigned a -> sf_not_negative a.
Proof. destruct a; simpl; auto. Qed.

Lemma SFmul_not_negative (a b : spec_float) :
  sf_not_negative a -> sf_not_negative b -> sf_not_negative (SF64mul a b).
Proof.
  intros Ha Hb.
  destruct a as [sa|sa| |sa ma ea], b as [sb|sb| |sb mb eb]; simpl in Ha, Hb; subst; simpl;
    try exact I; try reflexivity.
  destruct (bra_shape false (Zpos (ma * mb)) (ea + eb) loc_Exact ltac:(lia))
    as [->|[->|[m [e ->]]]]; simpl; auto.
Qed.

Lemma SFadd_not_negative (a b : spec_float) :
  sf_not_negative a -> sf_not_negative b -> sf_not_negative (SF64add a b).
Proof.
  intros Ha Hb.
  destruct a as [sa|sa| |sa ma ea], b as [sb|sb| |sb mb eb]; simpl in Ha, Hb; subst; simpl;
    try exact I; try reflexivity;
    try (destruct sa, sb; exact I).
  unfold binary_normalize.
  destruct (shl_align ma ea (Z.min ea eb)) as [ma' ea'].
  destruct (shl_align mb eb (Z.min ea eb)) as [mb' eb'].
  simpl fst. simpl Z.add. unfold binary_round.
  destruct (shl_align (ma' + mb') _ _) as [mz ez].
  destruct (bra_shape false (Zpos mz) ez loc_Exact ltac:(lia))
    as [->|[->|[m [e ->]]]]; simpl; auto.
Qed.

(** Zero is below or equal to such a number, unless it is a NaN. *)
Lemma leb_zero_not_negative (a : float) :
  sf_not_negative (Prim2SF a) ->
  PrimFloat.is_nan a = true \/ PrimFloat.leb 0 a = true.
Proof.
  unfold PrimFloat.is_nan. rewrite FloatAxioms.leb_spec, FloatAxioms.eqb_spec.
  change (Prim2SF 0) with (S754_zero false).
  destruct (Prim2SF a) as [s|s| |s m e]; simpl; intros H; subst; auto.
Qed.

(** A number that zero is below or equal to. *)
Lemma not_negative_leb (a : float) :
  PrimFloat.leb 0 a = true -> sf_not_negative (Prim2SF a).
Proof.
  rewrite FloatAxioms.leb_spec. change (Prim2SF 0) with (S754_zero false).
  destruct (Prim2SF a) as [s|s| |s m e]; simpl; try (intros _; exact I);
    destruct s; try discriminate; reflexivity.
Qed.

Section HessianDiagonal.

Variables (libm_exp libm_log : float -> float) (libm_pow : float -> float -> float).

#[local] Instance Float64_diagonal : Double float := Float64 libm_exp libm_log libm_pow.

Local Open Scope dbl_scope.

(** X21.  In binary64 no diagonal entry of the Hessian that [getHes]
    computes is negative, whatever A is, when no mole fraction x[j] is
    negative or a NaN (each is an [exp] in the driver): entry (m, m) is a
    NaN or zero is below or equal to it.  So the first pivot of the Cholesky
    routine is never a negative number. *)
Theorem Hessian_diagonal_is_not_negative (x : list float) (A : list (list Z))
    (numSS numTotal m : nat) :
  (m < numSS)%nat ->
  (forall j, (j < numTotal)%nat -> PrimFloat.leb 0 x.[j] = true) ->
  let h := (getHes x A numSS numTotal).r[m].[m] in
  PrimFloat.is_nan h = true \/ PrimFloat.leb 0 h = true.
Proof.
  intros Hm Hx h. apply leb_zero_not_negative. subst h.
  unfold getHes.
  rewrite (nth_map_seq (fun m => map (fun n => if (m <=? n)%nat
                                               then Hes_entry x A numTotal m n
                                               else Hes_entry x A numTotal n m)
                                     (seq 0 numSS))) by exact Hm.
  rewrite (nth_map_seq (fun n => if (m <=? n)%nat then Hes_entry x A numTotal m n
                               else Hes_entry x A numTotal n m)) by exact Hm.
  rewrite Nat.leb_refl. unfold Hes_entry, dot.
  assert (K : forall idx acc, (forall j, In j idx -> (j < numTotal)%nat) ->
            sf_not_negative (Prim2SF acc) ->
            sf_not_negative
              (Prim2SF (fold_left
                          (fun acc i =>
                             acc + x.[i] *
                               (map (fun j => of_int A.r[m].z[j] * of_int A.r[m].z[j])
                                    (seq 0 numTotal)).[i])
                          idx acc))).
  { induction idx as [|i idx IH]; intros acc Hin Ha; cbn [fold_left]; [exact Ha|].
    apply IH; [intros j Hj; apply Hin; right; exact Hj|].
    assert (Hi : (i < numTotal)%nat) by (apply Hin; left; reflexivity).
    rewrite (nth_map_seq (fun j => of_int A.r[m].z[j] * of_int A.r[m].z[j])) by exact Hi.
    change (sf_not_negative
              (Prim2SF (PrimFloat.add acc
                          (PrimFloat.mul x.[i]
                             (PrimFloat.mul (of_int A.r[m].z[i]) (of_int A.r[m].z[i])))))).
    rewrite FloatAxioms.add_spec, !FloatAxioms.mul_spec.
    apply SFadd_not_negative; [exact Ha|].
    apply SFmul_not_negative; [apply not_negative_leb; apply Hx; exact Hi|].
    apply unsigned_not_negative. apply SFmul_square. }
  apply K; [intros j Hj; apply in_seq in Hj; lia|exact I].
Qed.

End HessianDiagonal.

(** ** [getRho] at a step of zeros *)

Section ZeroStep.

Variables (libm_exp libm_log : float -> float) (libm_pow : float -> float -> float).
Context {rng : Type} {EE : Extern float rng}.

#[local] Instance Float64_zero_step : Double float := Float64 libm_exp libm_log libm_pow.

Local Open Scope dbl_scope.

Lemma fnan_is_nan (a : float) : fnan a -> PrimFloat.is_nan a = true.
Proof.
  unfold fnan, PrimFloat.is_nan. rewrite FloatAxioms.eqb_spec. intros ->. reflexivity.
Qed.

(** X23.  In binary64, when every entry of the step p is a zero or a NaN
    (as it is when the square of the radius has underflowed to zero and the
    Cauchy direction is scaled by sqrt(0 / |pU|^2)), [getRho] returns a NaN:
    the predicted reduction is a NaN, or it is a zero and the actual
    reduction is a zero or a NaN.  Hence none
    of the tests the driver makes on rho holds (rho < 0.25, rho > 0.75,
    rho > eta): the step is counted as no step and the radius is left as it
    is.  x holds the mole fractions of lambda, which gives no overflow, and
    [exp] gives the same for the two zeros. *)
Theorem zero_step_has_no_ratio (A : list (list Z)) (G x0 : list float)
    (numSS numTotal : nat) (lambda p Grad x : list float) (Hes : list (list float)) :
  libm_exp (-0)%float = libm_exp 0%float ->
  x_at A G numSS numTotal x lambda ->
  (forall i, (i < numSS)%nat ->
     PrimFloat.eqb p.[i] 0 = true \/ PrimFloat.is_nan p.[i] = true) ->
  let rho := getRho lambda p Grad x Hes x0 G (AT_of A numSS numTotal) numSS numTotal in
  PrimFloat.is_nan rho = true /\
  forall c, (rho <? c) = false /\ (rho >? c) = false.
Proof.
  intros Hexp Hx Hp rho.
  assert (Hn : fnan rho).
  { apply (getRho_nan libm_exp libm_log libm_pow A G x0 numSS numTotal Hexp
             lambda p Grad x Hes Hx).
    left. intros i Hi. destruct (Hp i Hi) as [H|H].
    - left. apply eqb_zero_sf. exact H.
    - right. unfold PrimFloat.is_nan in H. rewrite FloatAxioms.eqb_spec in H.
      unfold fnan. destruct (Prim2SF p.[i]) as [s|s| |s m e]; try reflexivity;
        simpl in H; try discriminate.
      + destruct s; discriminate.
      + unfold SFeqb, SFcompare in H. rewrite Z.compare_refl in H.
        change (Pos.compare_cont Eq m m) with (m ?= m)%positive in H.
        rewrite Pos.compare_refl in H. destruct s; discriminate. }
  split; [apply fnan_is_nan; exact Hn|].
  intros c. exact (fnan_ltb rho c Hn).
Qed.

End ZeroStep.

(* ================================================================== *)
(** ** Examples for the further properties *)

Section MoreExamples.

Local Open Scope float_scope.

#[local] Existing Instance Float64_demo.

Lemma getGrad_cells_witness :
  nth 1 (getGrad (DD := Float64_demo) [7; 7]%float [1]%float [2; 3]%float [[1; 2]]%Z 1 2)
      0%float = 7%float.
Proof.
  destruct (getGrad_cells (DD := Float64_demo) [7; 7]%float [1]%float [2; 3]%float
              [[1; 2]]%Z 1 2) as (_ & _ & H & _).
  - simpl; lia.
  - apply (H 1%nat). lia.
Defined.

Lemma getHes_inplace_fills_witness :
  getHes_inplace (DD := Float64_demo) [[0; 0]; [0; 0]]%float [2; 3]%float
    [[1; 2]; [0; 1]]%Z 2 2
  = getHes (DD := Float64_demo) [2; 3]%float [[1; 2]; [0; 1]]%Z 2 2.
Proof.
  destruct (getHes_inplace_fills (DD := Float64_demo) [2; 3]%float [[1; 2]; [0; 1]]%Z 2 2
              [[0; 0]; [0; 0]]%float) as [H _].
  - split; [reflexivity|]. intros m Hm.
    destruct m as [|[|m]]; [reflexivity|reflexivity|lia].
  - exact H.
Defined.

Lemma RunStats_add_up_to_iters_witness :
  sumZ (st_RunStats (fin_state dimer_final)) = st_iters (fin_state dimer_final).
Proof.
  apply (proj2 (RunStats_add_up_to_iters (DD := Float64_demo) (EE := Extern_demo)
                  dimer_A dimer_G dimer_x0 1 2 10000 ex_tol 1000 (PrimFloat.div 1 8)
                  (PrimFloat.div 3 5) 50 100 100 (PrimFloat.div 5514 100) 0 100)
               [0; 0]%float 0%Z dimer_final).
  - vm_compute; reflexivity.
  - vm_compute; reflexivity.
Defined.

(** A total of 2^700 for an inert species: the known lambda, log(2^700),
    is above MAXLOGX, and the first call of [getx] fails. *)
Lemma CalcConc_loops_are_bounded_witness :
  1%Z = ERR_OVERFLOW (Extern := Extern_demo (DD := Float64_demo)).
Proof.
  apply (proj1 (proj2 (CalcConc_loops_are_bounded (DD := Float64_demo) (EE := Extern_demo)
                  [[1%Z]] [0]%float [0x1p+700]%float 1 1 10000 0x1p-700 1000
                  (PrimFloat.div 1 8) (PrimFloat.div 3 5) 50 100 100
                  (PrimFloat.div 5514 100) 0 100))
               [0]%float 0%Z 1%Z).
  vm_compute; reflexivity.
Defined.

Lemma CalcConc_without_trials_witness :
  CalcConc (DD := Float64_demo) (EE := Extern_demo) [[1%Z]] [0]%float [1]%float 1 1
    10000 ex_tol 1000 (PrimFloat.div 1 8) (PrimFloat.div 3 5) 50 (-1) 100
    (PrimFloat.div 5514 100) 0 100 [7]%float 0%Z = Ret (1%Z, [7]%float).
Proof.
  apply (CalcConc_without_trials (DD := Float64_demo) (EE := Extern_demo)
           [[1%Z]] [0]%float [1]%float 1 1 10000 ex_tol 1000 (PrimFloat.div 1 8)
           (PrimFloat.div 3 5) 50 (-1) 100 (PrimFloat.div 5514 100) 0 100 [7]%float 0%Z).
  left. lia.
Defined.

Lemma returned_x_is_exp_of_final_lambda_witness :
  length (st_x (fin_state dimer_final)) = 2%nat.
Proof.
  destruct (returned_x_is_exp_of_final_lambda (DD := Float64_demo) (EE := Extern_demo)
              dimer_A dimer_G dimer_x0 1 2 10000 ex_tol 1000 (PrimFloat.div 1 8)
              (PrimFloat.div 3 5) 50 100 100 (PrimFloat.div 5514 100) 0 100
              [0; 0]%float 0%Z dimer_final) as [H _].
  - simpl; lia.
  - vm_compute; reflexivity.
  - vm_compute; reflexivity.
  - exact H.
Defined.

Lemma first_trial_draws_no_random_number_witness :
  CalcConc (DD := Float64_demo) (EE := Extern_demo) dimer_A dimer_G dimer_x0 1 2
    10000 ex_tol 1000 (PrimFloat.div 1 8) (PrimFloat.div 3 5) 50 100 1
    (PrimFloat.div 5514 100) 7 3 [0; 0]%float 12345%Z
  = Ret (fin_ret dimer_final, st_x (fin_state dimer_final)).
Proof.
  apply (first_trial_draws_no_random_number (DD := Float64_demo) (EE := Extern_demo)
           dimer_A dimer_G dimer_x0 1 2 10000 ex_tol 1000 (PrimFloat.div 1 8)
           (PrimFloat.div 3 5) 50 100 (PrimFloat.div 5514 100) 100 1 0 7 100 3
           [0; 0]%float 0%Z 12345%Z dimer_final).
  - vm_compute; reflexivity.
  - vm_compute. discriminate.
Defined.

Lemma NaN_tolerance_reports_convergence_witness :
  CalcConc (DD := Float64_demo) (EE := Extern_demo) [[1%Z]] [0]%float [1]%float 1 1
    10000 PrimFloat.nan 1000 (PrimFloat.div 1 8) (PrimFloat.div 3 5) 50 100 100
    (PrimFloat.div 5514 100) 0 100 [7]%float 0%Z = Ret (1%Z, [7]%float).
Proof.
  apply (NaN_tolerance_reports_convergence exp_demo log_demo pow_demo (EE := Extern_demo)
           [[1%Z]] [0]%float [1]%float 1 1 10000 PrimFloat.nan 1000 (PrimFloat.div 1 8)
           (PrimFloat.div 3 5) 50 100 100 (PrimFloat.div 5514 100) 0 100 [7]%float 0%Z).
  intros i Hi. replace i with 0%nat by lia. vm_compute; reflexivity.
Defined.

(** A = [[1,0,0],[0,1,2]]: the row of the second single species sums to 3,
    and its lambda is the least bound. *)
Lemma initial_guess_is_least_bound_witness :
  exists j0 lambda',
    (j0 < 3)%nat /\
    getInitialGuess (DD := Float64_demo) (EE := Extern_demo) 0
      [PrimFloat.div 3 1000000; PrimFloat.div 1 100000] [0; 0] [0; 0; -5]
      [[1; 0]; [0; 1]; [0; 2]]%Z [[1; 0; 0]; [0; 1; 2]]%Z 2 3 100 0 0%Z
      = Some (lambda', 0%Z) /\
    nth 1 lambda' 0
    = (1 + nth j0 [0; 0; -5] 0)
      / float_of_int (sumint (nth j0 [[1; 0]; [0; 1]; [0; 2]]%Z []) 2).
Proof.
  destruct (initial_guess_is_least_bound exp_demo log_demo pow_demo (EE := Extern_demo) 0
              [PrimFloat.div 3 1000000; PrimFloat.div 1 100000] [0; 0] [0; 0; -5]
              [[1; 0]; [0; 1]; [0; 2]]%Z [[1; 0; 0]; [0; 1; 2]]%Z 2 3 100 0%Z)
    as (j0 & lambda' & Hj & Hg & Hcells & _).
  - lia.
  - simpl; lia.
  - exists j0, lambda'. split; [exact Hj|]. split; [exact Hg|].
    apply (Hcells 1%nat); [lia|]. vm_compute. discriminate.
Defined.

(** lambda = [1], scale 1000, the generator started at 1000, and five passes
    granted. *)
Lemma PerturbLambda_returns_first_accepted_witness :
  match PerturbLambda (DD := Float64_demo) (EE := Extern_demo) 5 [1] 1000 [0]
          [[1%Z]] 1 1 [0] 1000%Z with
  | Some (lambda', gen') =>
      exists k, (k < 5)%nat /\ length lambda' = 1%nat /\
                gen' = after_draws (EE := Extern_demo (DD := Float64_demo)) (S k * 1) 1000%Z
  | None => False
  end.
Proof.
  destruct (PerturbLambda (DD := Float64_demo) (EE := Extern_demo) 5 [1] 1000 [0]
              [[1%Z]] 1 1 [0] 1000%Z) as [[lambda' gen']|] eqn:E.
  - destruct (PerturbLambda_returns_first_accepted exp_demo log_demo pow_demo
                (EE := Extern_demo) [0] [[1%Z]] 1 1 5 [1] 1000 [0] 1000%Z lambda' gen')
      as (k & Hk & _ & _ & Hl & _ & _ & Hg).
    + simpl; lia.
    + exact E.
    + exists k. split; [exact Hk|]. split; [exact Hl|exact Hg].
  - vm_compute in E. discriminate.
Defined.

Lemma getCauchyPoint_cells_witness :
  nth 1 (getCauchyPoint (DD := Float64_demo) [7; 7] [[2]] [1] 1 1) 0 = 7 /\
  nth 0 (getCauchyPoint (DD := Float64_demo) [7; 7] [[2]] [1] 1 1) 0
  = nth 0 (getCauchyPoint (DD := Float64_demo) [3; 4] [[2]] [1] 1 1) 0.
Proof.
  destruct (getCauchyPoint_cells (DD := Float64_demo) [7; 7] [[2]] [1] 1 1)
    as (_ & _ & Hout & Hany).
  - simpl; lia.
  - split.
    + apply (Hout 1%nat). lia.
    + symmetry. apply (Hany [3; 4]); [reflexivity|lia].
Defined.

Lemma Hessian_diagonal_is_not_negative_witness :
  PrimFloat.is_nan
    (nth 0 (nth 0 (getHes (DD := Float64_demo) [2; 3] [[1; 2]; [0; 1]]%Z 2 2) []) 0) = true \/
  PrimFloat.leb 0
    (nth 0 (nth 0 (getHes (DD := Float64_demo) [2; 3] [[1; 2]; [0; 1]]%Z 2 2) []) 0) = true.
Proof.
  apply (Hessian_diagonal_is_not_negative exp_demo log_demo pow_demo
           [2; 3] [[1; 2]; [0; 1]]%Z 2 2 0).
  - lia.
  - intros j Hj. destruct j as [|[|j]]; [reflexivity..|lia].
Defined.

(** The dimer at its initial guess and the step [-0]. *)
Lemma zero_step_has_no_ratio_witness :
  PrimFloat.is_nan
    (getRho (DD := Float64_demo) (EE := Extern_demo)
       (st_lambda (dimer_entry 1000)) [(-0)%float] (st_Grad (dimer_entry 1000))
       (st_x (dimer_entry 1000))
       (getHes (st_x (dimer_entry 1000)) dimer_A 1 2)
       dimer_x0 dimer_G (AT_of dimer_A 1 2) 1 2) = true.
Proof.
  refine (proj1 (zero_step_has_no_ratio exp_demo log_demo pow_demo (EE := Extern_demo)
                   dimer_A dimer_G dimer_x0 1 2 (st_lambda (dimer_entry 1000))
                   [(-0)%float] (st_Grad (dimer_entry 1000)) (st_x (dimer_entry 1000))
                   (getHes (st_x (dimer_entry 1000)) dimer_A 1 2) _ _ _)).
  - reflexivity.
  - split; [vm_compute; reflexivity|].
    intros j Hj. destruct j as [|[|j]]; [vm_compute; reflexivity..|lia].
  - intros i Hi. left. destruct i as [|i]; [reflexivity|lia].
Defined.

End MoreExamples.


(* ================================================================== *)
(** * The command line of [complexes] (thermo/complexes/ReadCommandLine.c)

    A C string is the [string] of its characters before the terminating
    NUL; [strcpy] and [strcat] return the new contents of the destination.
    The headers of the repository (ReadCommandLine.h, shared.h,
    thermo/core.h, complexesStructs.h) are not among the sources: what this
    file takes from them is a parameter of the sections below. *)

Section CStrings.

Local Open Scope string_scope.

Definition strlen (s : String.string) : Z := Z.of_nat (String.length s).
Definition strcpy (dst src : String.string) : String.string := src.
Definition strcat (dst src : String.string) : String.string := String.append dst src.

Lemma strlen_strcat (a b : String.string) : strlen (strcat a b) = (strlen a + strlen b)%Z.
Proof.
  unfold strlen, strcat. induction a as [|c a IH]; simpl String.length.
  - simpl. lia.
  - simpl String.append. simpl String.length. lia.
Qed.

Lemma strcat_assoc (a b c : String.string) :
  strcat (strcat a b) c = strcat a (strcat b c).
Proof.
  unfold strcat. induction a as [|x a IH]; simpl; [reflexivity|].
  rewrite IH. reflexivity.
Qed.

Lemma strcat_empty (a : String.string) : strcat a "" = a.
Proof.
  unfold strcat. induction a as [|x a IH]; simpl; [reflexivity|].
  rewrite IH. reflexivity.
Qed.

End CStrings.

(** ** [complexes_header] *)

Section Provenance.

Local Open Scope string_scope.
Local Open Scope Z_scope.

(** The macro of the version string. *)
Variable NUPACK_VERSION : String.string.

Definition quote : String.string := String.String (Ascii.ascii_of_nat 34) "".

Definition PROVENANCE_STARTS : String.string := "{ ".
Definition FIELD_VERSION : String.string :=
  String.append quote (String.append "version" (String.append quote (String.append ": " quote))).
Definition FIELD_COMMAND : String.string :=
  String.append quote (String.append "command" (String.append quote (String.append ": " quote))).
Definition FIELD_ENDS : String.string := quote.
Definition FIELD_NEXT : String.string := ", ".

Notation "v .s[ i ]" := (nth i v String.EmptyString)
  (at level 1, left associativity, format "v .s[ i ]").

(** Lines 498-506: the size the array [nupack_command] is declared with. *)
Definition len_nupack_command_of (argc : Z) (argv : list String.string) : Z :=
  forloop 0 (Z.to_nat argc)
    (fun x len =>
       if Z.of_nat x <? argc - 1
       then len + (strlen argv.s[x] + 1)
       else len + strlen argv.s[x])
    0.

(** Lines 512-519: what is written into that array. *)
Definition nupack_command_of (argc : Z) (argv : list String.string) : String.string :=
  forloop 0 (Z.to_nat argc)
    (fun x n =>
       let n := strcat n argv.s[x] in
       if Z.of_nat x <? argc - 1 then strcat n " " else n)
    (strcpy "" "").

(** The returned [int] and the contents of [provenance]. *)
Definition complexes_header (provenance : String.string) (argc : Z)
    (argv : list String.string) : Z * String.string :=
  let len_provenance := 0 in
  let len_provenance := len_provenance + strlen PROVENANCE_STARTS in
  let provenance := strcpy provenance PROVENANCE_STARTS in
  let len_entry_version :=
    strlen FIELD_VERSION + strlen NUPACK_VERSION + strlen FIELD_ENDS + strlen FIELD_NEXT in
  let len_provenance := len_provenance + len_entry_version in
  let provenance :=
    strcat (strcat (strcat (strcat provenance FIELD_VERSION) NUPACK_VERSION) FIELD_ENDS)
           FIELD_NEXT in
  let len_nupack_command := len_nupack_command_of argc argv in
  let len_entry_command :=
    strlen FIELD_COMMAND + len_nupack_command + strlen FIELD_ENDS + strlen FIELD_NEXT in
  let len_provenance := len_provenance + len_entry_command in
  let nupack_command := nupack_command_of argc argv in
  let provenance :=
    strcat (strcat (strcat (strcat provenance FIELD_COMMAND) nupack_command) FIELD_ENDS)
           FIELD_NEXT in
  (len_provenance, provenance).

Lemma command_fills_array (argc : Z) (argv : list String.string) :
  strlen (nupack_command_of argc argv) = len_nupack_command_of argc argv.
Proof.
  unfold nupack_command_of, len_nupack_command_of.
  induction (Z.to_nat argc) as [|k IH].
  - reflexivity.
  - rewrite !forloop_snoc. cbv zeta. simpl Nat.add.
    destruct (Z.of_nat k <? argc - 1).
    + rewrite !strlen_strcat, IH. change (strlen " ") with 1. lia.
    + rewrite strlen_strcat, IH. reflexivity.
Qed.

(** The arguments from [x] on, joined by single blanks. *)
Lemma command_is_concat (argv : list String.string) (k : nat) :
  (k <= length argv)%nat ->
  forloop 0 k
    (fun x n =>
       let n := strcat n argv.s[x] in
       if Z.of_nat x <? Z.of_nat (length argv) - 1 then strcat n " " else n)
    String.EmptyString
  = strcat (String.concat " " (firstn k argv))
           (if (0 <? Z.of_nat k)%Z && (Z.of_nat k <? Z.of_nat (length argv))
            then " " else "").
Proof.
  induction k as [|k IH]; intros Hk.
  - reflexivity.
  - rewrite forloop_snoc. rewrite IH by lia. clear IH. cbv beta zeta. simpl Nat.add.
    assert (Hf : firstn (S k) argv = firstn k argv ++ [argv.s[k]]).
    { clear -Hk. revert k Hk. induction argv as [|a l IH]; intros k Hk; simpl in Hk; [lia|].
      destruct k as [|k]; [reflexivity|].
      change (firstn (S (S k)) (a :: l)) with (a :: firstn (S k) l).
      rewrite IH by lia. reflexivity. }
    rewrite Hf.
    assert (Hc : forall (l : list String.string) (a : String.string),
              String.concat " " (l ++ [a])
              = strcat (strcat (String.concat " " l) (if (0 <? Z.of_nat (length l)) then " " else ""))
                       a).
    { clear. induction l as [|b l IH]; intros a; [reflexivity|].
      destruct l as [|c l].
      - change (strcat b (strcat " " a) = strcat (strcat b " ") a).
        symmetry. apply strcat_assoc.
      - change (String.concat " " ((b :: c :: l) ++ [a]))
          with (strcat b (strcat " " (String.concat " " ((c :: l) ++ [a])))).
        rewrite IH.
        change (String.concat " " (b :: c :: l))
          with (strcat b (strcat " " (String.concat " " (c :: l)))).
        replace (0 <? Z.of_nat (length (c :: l))) with true
          by (symmetry; apply Z.ltb_lt; simpl length; lia).
        replace (0 <? Z.of_nat (length (b :: c :: l))) with true
          by (symmetry; apply Z.ltb_lt; simpl length; lia).
        rewrite !strcat_assoc. reflexivity. }
    rewrite Hc. rewrite length_firstn, Nat.min_l by lia.
    rewrite Nat2Z.inj_succ. unfold Z.succ.
    destruct (Z.ltb_spec 0 (Z.of_nat k)), (Z.ltb_spec (Z.of_nat k) (Z.of_nat (length argv))),
             (Z.ltb_spec (Z.of_nat k) (Z.of_nat (length argv) - 1)),
             (Z.ltb_spec 0 (Z.of_nat k + 1)),
             (Z.ltb_spec (Z.of_nat k + 1) (Z.of_nat (length argv)));
      try lia; cbn [andb]; rewrite ?strcat_empty; reflexivity.
Qed.

(** X15.  The [int] that [complexes_header] returns is the length of the
    string it leaves in [provenance], whatever [provenance] held; the command
    it builds in the local array [nupack_command] has as many characters as
    the array has cells, [len_nupack_command], so that the terminating NUL of
    the last [strcat] (or of the [strcpy], for [argc <= 0]) falls on the cell
    after the last; with [argc] the number of arguments, the command is the
    arguments joined by single blanks. *)
Theorem complexes_header_returns_length (provenance : String.string) (argc : Z)
    (argv : list String.string) :
  fst (complexes_header provenance argc argv)
    = strlen (snd (complexes_header provenance argc argv)) /\
  snd (complexes_header provenance argc argv) = snd (complexes_header "" argc argv) /\
  strlen (nupack_command_of argc argv) = len_nupack_command_of argc argv /\
  (argc = Z.of_nat (length argv) -> nupack_command_of argc argv = String.concat " " argv).
Proof.
  split; [|split; [reflexivity|split; [apply command_fills_array|]]].
  - unfold complexes_header. cbv zeta. cbn [fst snd].
    rewrite !strlen_strcat, command_fills_array. unfold strcpy. lia.
  - intros ->. unfold nupack_command_of. rewrite Nat2Z.id.
    unfold strcpy. rewrite command_is_concat by lia.
    rewrite firstn_all.
    replace (Z.of_nat (length argv) <? Z.of_nat (length argv)) with false
      by (symmetry; apply Z.ltb_ge; lia).
    rewrite andb_false_r. apply strcat_empty.
Qed.

End Provenance.

(** ** [ReadCommandLine] *)

Delimit Scope char_scope with char.

(** What the program has printed on its standard output: whole lines; the
    two lines that hold a number formatted with %g keep the number, and the
    line of an error in the input file keeps the file name and the token. *)
Inductive printed : Type :=
| Line (text : String.string)
| Na_line (sodiumconc : float)
| Mg_line (magnesiumconc : float)
| Error_in (filename token : String.string).

(** How a call ends: it returns, the process ends in [exit(code)], or it
    ends in [abort()]; with the lines printed until then. *)
Inductive ended (R : Type) : Type :=
| Returns (r : R)
| Exits (code : Z) (stdout : list printed)
| Aborts (stdout : list printed).
Arguments Returns {R} r.
Arguments Exits {R} code stdout.
Arguments Aborts {R} stdout.

(** The fields of [globalArgs] that ReadCommandLine.c reads or writes. *)
Record globalArgs_t : Type := mkGlobalArgs {
  T : float;
  dangles : Z;
  parameters : Z;
  cutoff : float;
  onlyOneMFE : Z;
  sodiumconc : float;
  magnesiumconc : float;
  uselongsalt : Z;
  permsOn : Z;
  inputFilePrefix : String.string
}.

(** The globals the function works on, and the standard output. *)
Record process : Type := mkProcess {
  globalArgs : globalArgs_t;
  NUPACK_VALIDATE : Z;
  PARAM_FILE : String.string;
  stdout : list printed
}.

Section ReadCommandLine.

Local Open Scope string_scope.

(** The constants of thermo/core.h. *)
Variables (DNA RNA RNA37 USE_SPECIFIED_PARAMETERS_FILE : Z).
(** [str2double] of the repository; [sscanf] with the formats %f (the
    [float] read, as a [double]) and %s, [None] when nothing is converted;
    [atoi]. *)
Variable str2double : String.string -> float.
Variable sscanf_f : String.string -> option float.
Variable sscanf_s : String.string -> option String.string.
Variable atoi : String.string -> Z.
(** What [PrintNupackThermoHelp] prints. *)
Variable thermo_help : list printed.

Definition printf (l : printed) (p : process) : process :=
  mkProcess (globalArgs p) (NUPACK_VALIDATE p) (PARAM_FILE p) (stdout p ++ [l]).

Definition set_globalArgs (g : globalArgs_t) (p : process) : process :=
  mkProcess g (NUPACK_VALIDATE p) (PARAM_FILE p) (stdout p).

Definition set_T (v : float) (g : globalArgs_t) : globalArgs_t :=
  mkGlobalArgs v (dangles g) (parameters g) (cutoff g) (onlyOneMFE g) (sodiumconc g)
    (magnesiumconc g) (uselongsalt g) (permsOn g) (inputFilePrefix g).
Definition set_dangles (v : Z) (g : globalArgs_t) : globalArgs_t :=
  mkGlobalArgs (T g) v (parameters g) (cutoff g) (onlyOneMFE g) (sodiumconc g)
    (magnesiumconc g) (uselongsalt g) (permsOn g) (inputFilePrefix g).
Definition set_parameters (v : Z) (g : globalArgs_t) : globalArgs_t :=
  mkGlobalArgs (T g) (dangles g) v (cutoff g) (onlyOneMFE g) (sodiumconc g)
    (magnesiumconc g) (uselongsalt g) (permsOn g) (inputFilePrefix g).
Definition set_cutoff (v : float) (g : globalArgs_t) : globalArgs_t :=
  mkGlobalArgs (T g) (dangles g) (parameters g) v (onlyOneMFE g) (sodiumconc g)
    (magnesiumconc g) (uselongsalt g) (permsOn g) (inputFilePrefix g).
Definition set_onlyOneMFE (v : Z) (g : globalArgs_t) : globalArgs_t :=
  mkGlobalArgs (T g) (dangles g) (parameters g) (cutoff g) v (sodiumconc g)
    (magnesiumconc g) (uselongsalt g) (permsOn g) (inputFilePrefix g).
Definition set_sodiumconc (v : float) (g : globalArgs_t) : globalArgs_t :=
  mkGlobalArgs (T g) (dangles g) (parameters g) (cutoff g) (onlyOneMFE g) v
    (magnesiumconc g) (uselongsalt g) (permsOn g) (inputFilePrefix g).
Definition set_magnesiumconc (v : float) (g : globalArgs_t) : globalArgs_t :=
  mkGlobalArgs (T g) (dangles g) (parameters g) (cutoff g) (onlyOneMFE g) (sodiumconc g)
    v (uselongsalt g) (permsOn g) (inputFilePrefix g).
Definition set_uselongsalt (v : Z) (g : globalArgs_t) : globalArgs_t :=
  mkGlobalArgs (T g) (dangles g) (parameters g) (cutoff g) (onlyOneMFE g) (sodiumconc g)
    (magnesiumconc g) v (permsOn g) (inputFilePrefix g).
Definition set_permsOn (v : Z) (g : globalArgs_t) : globalArgs_t :=
  mkGlobalArgs (T g) (dangles g) (parameters g) (cutoff g) (onlyOneMFE g) (sodiumconc g)
    (magnesiumconc g) (uselongsalt g) v (inputFilePrefix g).
Definition set_inputFilePrefix (v : String.string) (g : globalArgs_t) : globalArgs_t :=
  mkGlobalArgs (T g) (dangles g) (parameters g) (cutoff g) (onlyOneMFE g) (sodiumconc g)
    (magnesiumconc g) (uselongsalt g) (permsOn g) v.

(** [isdigit(param[0])]; [param[0]] is the NUL of an empty string. *)
Definition isdigit_first (param : String.string) : bool :=
  match param with
  | String.EmptyString => false
  | String.String c _ => ((48 <=? Ascii.nat_of_ascii c) && (Ascii.nat_of_ascii c <=? 57))%nat
  end.

(** [!strcmp(a, b)]. *)
Definition same (a b : String.string) : bool := String.eqb a b.

(** Lines 76-179: the [switch] on what [getopt_long_only] returned, with
    [optarg] as it left it.  The state is the globals and the local
    [ShowHelp]. *)
Definition option_case (options : Ascii.ascii) (optarg : String.string)
    (st : process * Z) : ended (process * Z) :=
  let '(p, ShowHelp) := st in
  let g := globalArgs p in
  if Ascii.eqb options "e" then
    let line := strcpy "" optarg in
    match sscanf_f line with
    | None => Exits 1 (stdout (printf (Line "Invalid T value") p))
    | Some temp => Returns (set_globalArgs (set_T temp g) p, ShowHelp)
    end
  else if Ascii.eqb options "f" then
    let line := strcpy "" optarg in
    match sscanf_s line with
    | None => Exits 1 (stdout (printf (Line "Invalid parameters value") p))
    | Some param =>
        if isdigit_first param
        then Returns (set_globalArgs (set_dangles (atoi param) g) p, ShowHelp)
        else if same param "none"
        then Returns (set_globalArgs (set_dangles 0 g) p, ShowHelp)
        else if same param "some"
        then Returns (set_globalArgs (set_dangles 1 g) p, ShowHelp)
        else if same param "all"
        then Returns (set_globalArgs (set_dangles 2 g) p, ShowHelp)
        else Exits 1 (stdout (printf (Line "Invalid dangles value") p))
    end
  else if Ascii.eqb options "g" then
    let line := strcpy "" optarg in
    match sscanf_s line with
    | None => Exits 1 (stdout (printf (Line "Invalid parameters value") p))
    | Some param =>
        if (same param "dna" || same param "dna1998")%bool
        then Returns (set_globalArgs (set_parameters DNA g) p, ShowHelp)
        else if (same param "rna" || same param "rna1995")%bool
        then Returns (set_globalArgs (set_parameters RNA g) p, ShowHelp)
        else if (same param "rna37" || same param "rna1999")%bool
        then
          let p :=
            if same (PARAM_FILE p) "rna37"
            then printf (Line "Parameter specification using rna37 has been deprecated. Please use rna1999 instead") p
            else p in
          Returns (set_globalArgs (set_parameters RNA37 g) p, ShowHelp)
        else
          let p := set_globalArgs (set_parameters USE_SPECIFIED_PARAMETERS_FILE g) p in
          Returns (mkProcess (globalArgs p) (NUPACK_VALIDATE p) (strcpy (PARAM_FILE p) param)
                             (stdout p), ShowHelp)
    end
  else if Ascii.eqb options "h" then Returns (p, 1%Z)
  else if Ascii.eqb options "l" then
    let line := strcpy "" optarg in
    match sscanf_f line with
    | None => Exits 1 (stdout (printf (Line "Invalid cutoff value") p))
    | Some temp => Returns (set_globalArgs (set_cutoff temp g) p, ShowHelp)
    end
  else if Ascii.eqb options "n" then
    Returns (set_globalArgs (set_onlyOneMFE 0 g) p, ShowHelp)
  else if Ascii.eqb options "o" then
    let line := strcpy "" optarg in
    Returns (set_globalArgs (set_sodiumconc (str2double line) g) p, ShowHelp)
  else if Ascii.eqb options "p" then
    let line := strcpy "" optarg in
    Returns (set_globalArgs (set_magnesiumconc (str2double line) g) p, ShowHelp)
  else if Ascii.eqb options "q" then
    Returns (set_globalArgs (set_uselongsalt 1 g) p, ShowHelp)
  else if Ascii.eqb options "?" then Returns (p, ShowHelp)
  else if Ascii.eqb options "r" then
    let p := mkProcess (globalArgs p) 1 (PARAM_FILE p) (stdout p) in
    let g := set_permsOn 1 (globalArgs p) in
    let g := set_cutoff 0 g in
    Returns (set_globalArgs g p, ShowHelp)
  else Aborts (stdout p).

(** Lines 62-180: the loop over the options.  [getopt_long_only] is the C
    library's: [events] are the values it returns one after the other until
    it returns -1, each with the [optarg] it sets. *)
Fixpoint option_loop (events : list (Ascii.ascii * String.string)) (st : process * Z)
    : ended (process * Z) :=
  match events with
  | [] => Returns st
  | (options, optarg) :: events' =>
      match option_case options optarg st with
      | Returns st' => option_loop events' st'
      | Exits code out => Exits code out
      | Aborts out => Aborts out
      end
  end.

(** Lines 238-247. *)
Definition DisplayHelpComplexes (p : process) : process :=
  let p := printf (Line "Please read the NUPACK User Guide for detailed instructions.") p in
  let p := printf (Line "Usage: complexes [OPTIONS] PREFIX") p in
  let p := printf (Line "Calculate equilibrium properties of all possible unpseudoknotted complexes") p in
  let p := printf (Line "of the input strands up to user-defined size L_max") p in
  let p := mkProcess (globalArgs p) (NUPACK_VALIDATE p) (PARAM_FILE p)
             (stdout p ++ thermo_help) in
  let p := printf (Line "Additional options:") p in
  let p := printf (Line " -cutoff CUTOFF   set the minimum stored probability/expected value") p in
  printf (Line "") p.

Definition d0_05 : float := PrimFloat.div 5 100.
Definition d1_1 : float := PrimFloat.div 11 10.
Definition d0_2 : float := PrimFloat.div 2 10.

(** [a != b] on doubles. *)
Definition differs (a b : float) : bool := negb (PrimFloat.eqb a b).

(** Lines 188-220: the checks of the salt concentrations. *)
Definition check_salt (p : process) : ended process :=
  let p :=
    if ((differs (sodiumconc (globalArgs p)) 1 || differs (magnesiumconc (globalArgs p)) 0)
        && negb (parameters (globalArgs p) =? DNA)%Z)%bool
    then
      let p := printf (Line "WARNING: No salt corrections availabe for RNA.  Using 1 M Na and 0 M Mg.") p in
      let p := set_globalArgs (set_sodiumconc 1 (globalArgs p)) p in
      set_globalArgs (set_magnesiumconc 0 (globalArgs p)) p
    else p in
  if PrimFloat.leb (sodiumconc (globalArgs p)) 0
  then Exits 1 (stdout (printf (Line "ERROR: In valid sodium concentration.  Must have [Na+] > 0.") p))
  else if PrimFloat.ltb (magnesiumconc (globalArgs p)) 0
  then Exits 1 (stdout (printf (Line "ERROR: In valid magnesium concentration.  Must have [Mg2+] >= 0.") p))
  else
    let p :=
      if (PrimFloat.ltb (sodiumconc (globalArgs p)) d0_05
          || PrimFloat.ltb d1_1 (sodiumconc (globalArgs p)))%bool
      then
        let p := printf (Line "WARNING: Salt correction only verified for 0.05 M < [Na+] < 1.1 M.") p in
        printf (Na_line (sodiumconc (globalArgs p))) p
      else p in
    let p :=
      if PrimFloat.ltb d0_2 (magnesiumconc (globalArgs p))
      then
        let p := printf (Line "WARNING: Salt correction only verified for [Mg2+] <= 0.2 M.") p in
        printf (Mg_line (magnesiumconc (globalArgs p))) p
      else p in
    let p :=
      if (negb (uselongsalt (globalArgs p) =? 0)%Z
          && PrimFloat.ltb 0 (magnesiumconc (globalArgs p)))%bool
      then
        let p := printf (Line "WARNING: No magnesium correction parameters are available for the long") p in
        let p := printf (Line "         helix mode of salt correction.  Using [Mg2+] = 0.") p in
        set_globalArgs (set_magnesiumconc 0 (globalArgs p)) p
      else p in
    Returns p.

Notation "v .s[ i ]" := (nth i v String.EmptyString)
  (at level 1, left associativity, format "v .s[ i ]").

(** [int ReadCommandLine(int nargs, char **args)]: the returned [int] and
    the globals.  [args] and [optind] are as [getopt_long_only] leaves them
    when it has returned -1.  [SetExecutionPath] is not among the sources,
    and writes none of the globals above. *)
Definition ReadCommandLine (nargs : Z) (args : list String.string)
    (events : list (Ascii.ascii * String.string)) (optind : Z) (p : process)
    : ended (Z * process) :=
  let ShowHelp := 0%Z in
  let p := mkProcess (globalArgs p) 0 (PARAM_FILE p) (stdout p) in
  match option_loop events (p, ShowHelp) with
  | Exits code out => Exits code out
  | Aborts out => Aborts out
  | Returns (p, ShowHelp) =>
      if negb (ShowHelp =? 0)%Z
      then Exits 1 (stdout (DisplayHelpComplexes p))
      else
        match check_salt p with
        | Exits code out => Exits code out
        | Aborts out => Aborts out
        | Returns p =>
            if (optind =? nargs)%Z then Returns (0%Z, p)
            else
              let g := set_inputFilePrefix
                         (strcpy (inputFilePrefix (globalArgs p)) args.s[Z.to_nat optind])
                         (globalArgs p) in
              Returns (1%Z, set_globalArgs g p)
        end
  end.

Lemma option_loop_app (pre rest : list (Ascii.ascii * String.string)) (st : process * Z) :
  option_loop (pre ++ rest) st =
  match option_loop pre st with
  | Returns st' => option_loop rest st'
  | Exits code out => Exits code out
  | Aborts out => Aborts out
  end.
Proof.
  revert st. induction pre as [|[o a] pre IH]; intros st; simpl; [reflexivity|].
  destruct (option_case o a st); [apply IH|reflexivity|reflexivity].
Qed.

(** What the salt checks leave when they let the program go on. *)
Lemma check_salt_Returns (p p' : process) :
  check_salt p = Returns p' ->
  PrimFloat.leb (sodiumconc (globalArgs p')) 0 = false /\
  PrimFloat.ltb (magnesiumconc (globalArgs p')) 0 = false /\
  (uselongsalt (globalArgs p') <> 0%Z ->
     PrimFloat.ltb 0 (magnesiumconc (globalArgs p')) = false) /\
  (parameters (globalArgs p') <> DNA ->
     PrimFloat.eqb (sodiumconc (globalArgs p')) 1 = true /\
     PrimFloat.eqb (magnesiumconc (globalArgs p')) 0 = true) /\
  parameters (globalArgs p') = parameters (globalArgs p) /\
  uselongsalt (globalArgs p') = uselongsalt (globalArgs p) /\
  cutoff (globalArgs p') = cutoff (globalArgs p) /\
  permsOn (globalArgs p') = permsOn (globalArgs p) /\
  NUPACK_VALIDATE p' = NUPACK_VALIDATE p.
Proof.
  intros H. unfold check_salt, differs in H.
  set (s0 := sodiumconc (globalArgs p)) in *. set (m0 := magnesiumconc (globalArgs p)) in *.
  destruct (PrimFloat.eqb s0 1) eqn:Es; destruct (PrimFloat.eqb m0 0) eqn:Em;
    destruct (parameters (globalArgs p) =? DNA)%Z eqn:Ep;
    cbn [negb orb andb printf set_globalArgs set_sodiumconc set_magnesiumconc
         globalArgs sodiumconc magnesiumconc uselongsalt parameters] in H;
    fold s0 m0 in H;
    repeat match type of H with
           | context [if (negb (?a =? ?b)%Z && ?c)%bool then _ else _] =>
               destruct (a =? b)%Z eqn:?; destruct c eqn:?; cbn [negb andb] in H
           | context [if ?c then _ else _] => destruct c eqn:?
           end;
    try discriminate; inversion H; subst p'; clear H;
    cbn [printf set_globalArgs set_sodiumconc set_magnesiumconc globalArgs sodiumconc
         magnesiumconc uselongsalt parameters cutoff permsOn NUPACK_VALIDATE];
    fold s0 m0;
    repeat match goal with
           | |- _ /\ _ => split
           | |- _ -> _ => intros ?
           | H : (?a =? ?b)%Z = true |- _ => apply Z.eqb_eq in H
           | H : (?a =? ?b)%Z = false |- _ => apply Z.eqb_neq in H
           end;
    try reflexivity; try assumption; try contradiction; try congruence;
    try solve [exfalso;
               match goal with
               | H : _ = true |- _ => vm_compute in H; discriminate H
               end].
Qed.

(** X16.  When [ReadCommandLine] returns, the salt concentrations have
    passed its checks: [Na+] <= 0 and [Mg2+] < 0 are false; with
    [-longhelixsalt], [Mg2+] > 0 is false; and for parameters other than DNA
    the concentrations compare equal to 1 and to 0, whatever [-sodium] and
    [-magnesium] said. *)
Theorem ReadCommandLine_returns_checked_salt (nargs : Z) (args : list String.string)
    (events : list (Ascii.ascii * String.string)) (optind : Z) (p : process)
    (r : Z) (p' : process) :
  ReadCommandLine nargs args events optind p = Returns (r, p') ->
  let g := globalArgs p' in
  PrimFloat.leb (sodiumconc g) 0 = false /\
  PrimFloat.ltb (magnesiumconc g) 0 = false /\
  (uselongsalt g <> 0%Z -> PrimFloat.ltb 0 (magnesiumconc g) = false) /\
  (parameters g <> DNA ->
     PrimFloat.eqb (sodiumconc g) 1 = true /\ PrimFloat.eqb (magnesiumconc g) 0 = true).
Proof.
  unfold ReadCommandLine. intros H.
  destruct (option_loop events _) as [[p1 sh]| |]; try discriminate.
  destruct (negb (sh =? 0)%Z); [discriminate|].
  destruct (check_salt p1) as [p2| |] eqn:Ec; try discriminate.
  apply check_salt_Returns in Ec.
  destruct Ec as (H1 & H2 & H3 & H4 & _).
  destruct (optind =? nargs)%Z; inversion H; subst; cbv zeta;
    cbn [set_globalArgs set_inputFilePrefix globalArgs sodiumconc magnesiumconc
         uselongsalt parameters];
    repeat split; try assumption; try (apply H4; assumption).
Qed.

(** The option string of line 68 lists the letters a, b, c, d, i, j, k, m
    and s, for which the [switch] has no case. *)
Definition letters_without_case : list Ascii.ascii :=
  String.list_ascii_of_string "abcdijkms".

(** X17.  When [getopt_long_only] returns one of the letters a, b, c, d,
    i, j, k, m, s of its option string, after options that were read without
    an error, the [switch] takes its default branch: the program ends in
    [abort()], before the help is shown or the salt is checked, whatever
    follows on the command line. *)
Theorem option_letter_without_case_aborts (nargs : Z) (args : list String.string)
    (pre post : list (Ascii.ascii * String.string)) (options : Ascii.ascii)
    (optarg : String.string) (optind : Z) (p : process) (st : process * Z) :
  In options letters_without_case ->
  option_loop pre (mkProcess (globalArgs p) 0 (PARAM_FILE p) (stdout p), 0%Z) = Returns st ->
  ReadCommandLine nargs args (pre ++ (options, optarg) :: post) optind p
  = Aborts (stdout (fst st)).
Proof.
  intros Hin Hpre. unfold ReadCommandLine.
  rewrite option_loop_app, Hpre. destruct st as [p1 sh].
  cbn [option_loop fst].
  assert (E : option_case options optarg (p1, sh) = Aborts (stdout p1)).
  { unfold letters_without_case in Hin. cbn [String.list_ascii_of_string In] in Hin.
    repeat match type of Hin with
           | _ \/ _ => destruct Hin as [Hin|Hin]
           end;
      try contradiction; subst options; reflexivity. }
  rewrite E. reflexivity.
Qed.

(** The values of [-validate] and [-cutoff] in the table [long_options]. *)
Definition val_validate : Ascii.ascii := "r"%char.
Definition val_cutoff : Ascii.ascii := "l"%char.

(** The fields that [-validate] sets. *)
Definition validating (p : process) : Prop :=
  NUPACK_VALIDATE p = 1%Z /\ permsOn (globalArgs p) = 1%Z /\ cutoff (globalArgs p) = 0%float.

Ltac option_cases H :=
  unfold option_case in H;
  repeat match type of H with
         | context [if ?c then _ else _] => destruct c eqn:?
         | context [match ?x with Some _ => _ | None => _ end] => destruct x eqn:?
         end;
  try discriminate; inversion H; subst; clear H.

Lemma option_case_validating (options : Ascii.ascii) (optarg : String.string)
    (p p' : process) (sh sh' : Z) :
  option_case options optarg (p, sh) = Returns (p', sh') ->
  Ascii.eqb options "l" = false ->
  validating p -> validating p'.
Proof.
  intros H Hl [H1 [H2 H3]].
  option_cases H; unfold validating;
    cbn [printf set_globalArgs set_T set_dangles set_parameters set_cutoff set_onlyOneMFE
         set_sodiumconc set_magnesiumconc set_uselongsalt set_permsOn
         globalArgs NUPACK_VALIDATE permsOn cutoff];
    try (split; [|split]); try assumption; try reflexivity; try congruence.
Qed.

Lemma option_case_cutoff (options : Ascii.ascii) (optarg : String.string)
    (p p' : process) (sh sh' : Z) :
  option_case options optarg (p, sh) = Returns (p', sh') ->
  Ascii.eqb options "l" = false -> Ascii.eqb options "r" = false ->
  cutoff (globalArgs p') = cutoff (globalArgs p).
Proof.
  intros H Hl Hr.
  option_cases H;
    cbn [printf set_globalArgs set_T set_dangles set_parameters set_cutoff set_onlyOneMFE
         set_sodiumconc set_magnesiumconc set_uselongsalt set_permsOn
         globalArgs NUPACK_VALIDATE permsOn cutoff];
    try reflexivity; try congruence.
Qed.

Lemma option_loop_validating (events : list (Ascii.ascii * String.string))
    (p p' : process) (sh sh' : Z) :
  option_loop events (p, sh) = Returns (p', sh') ->
  (forall ev, In ev events -> Ascii.eqb (fst ev) "l" = false) ->
  validating p -> validating p'.
Proof.
  revert p sh. induction events as [|[o a] events IH]; intros p sh H Hno Hv.
  - inversion H; subst. exact Hv.
  - cbn [option_loop] in H.
    destruct (option_case o a (p, sh)) as [[p1 sh1]| |] eqn:E; try discriminate.
    apply (IH p1 sh1 H).
    + intros ev Hev. apply Hno. right. exact Hev.
    + apply (option_case_validating o a p p1 sh sh1 E); [|exact Hv].
      apply (Hno (o, a)). left. reflexivity.
Qed.

Lemma option_loop_cutoff (events : list (Ascii.ascii * String.string))
    (p p' : process) (sh sh' : Z) :
  option_loop events (p, sh) = Returns (p', sh') ->
  (forall ev, In ev events ->
     Ascii.eqb (fst ev) "l" = false /\ Ascii.eqb (fst ev) "r" = false) ->
  cutoff (globalArgs p') = cutoff (globalArgs p).
Proof.
  revert p sh. induction events as [|[o a] events IH]; intros p sh H Hno.
  - inversion H; subst. reflexivity.
  - cbn [option_loop] in H.
    destruct (option_case o a (p, sh)) as [[p1 sh1]| |] eqn:E; try discriminate.
    rewrite (IH p1 sh1 H) by (intros ev Hev; apply Hno; right; exact Hev).
    destruct (Hno (o, a) (or_introl eq_refl)) as [Hl Hr].
    exact (option_case_cutoff o a p p1 sh sh1 E Hl Hr).
Qed.

(** X18.  Of [-cutoff] and [-validate] the last one on the command line
    decides: when [ReadCommandLine] returns and no [-cutoff] follows the last
    [-validate], the run validates with a cutoff of 0 (and permsOn = 1),
    whatever [-cutoff] said before; when neither follows a [-cutoff], the
    cutoff is the number that option gave. *)
Theorem last_of_cutoff_and_validate_decides (nargs : Z) (args : list String.string)
    (pre post : list (Ascii.ascii * String.string)) (optarg : String.string)
    (optind : Z) (p : process) (r : Z) (p' : process) :
  (ReadCommandLine nargs args (pre ++ (val_validate, optarg) :: post) optind p = Returns (r, p') ->
   (forall ev, In ev post -> Ascii.eqb (fst ev) "l" = false) ->
   NUPACK_VALIDATE p' = 1%Z /\ permsOn (globalArgs p') = 1%Z /\
   cutoff (globalArgs p') = 0%float) /\
  (ReadCommandLine nargs args (pre ++ (val_cutoff, optarg) :: post) optind p = Returns (r, p') ->
   (forall ev, In ev post ->
      Ascii.eqb (fst ev) "l" = false /\ Ascii.eqb (fst ev) "r" = false) ->
   sscanf_f optarg = Some (cutoff (globalArgs p'))).
Proof.
  split; intros H Hpost; unfold ReadCommandLine in H;
    rewrite option_loop_app in H;
    destruct (option_loop pre _) as [[p1 sh1]| |]; try discriminate;
    cbn [option_loop] in H.
  - destruct (option_case val_validate optarg (p1, sh1)) as [[p2 sh2]| |] eqn:E; try discriminate.
    assert (Hv : validating p2).
    { unfold option_case in E. cbn in E. inversion E; subst. repeat split. }
    destruct (option_loop post (p2, sh2)) as [[p3 sh3]| |] eqn:El; try discriminate.
    pose proof (option_loop_validating post p2 p3 sh2 sh3 El Hpost Hv) as [V1 [V2 V3]].
    destruct (negb (sh3 =? 0)%Z); [discriminate|].
    destruct (check_salt p3) as [p4| |] eqn:Ec; try discriminate.
    apply check_salt_Returns in Ec.
    destruct Ec as (_ & _ & _ & _ & _ & _ & C1 & C2 & C3).
    destruct (optind =? nargs)%Z; inversion H; subst;
      cbn [set_globalArgs set_inputFilePrefix globalArgs NUPACK_VALIDATE permsOn cutoff];
      repeat split; congruence.
  - destruct (option_case val_cutoff optarg (p1, sh1)) as [[p2 sh2]| |] eqn:E; try discriminate.
    assert (Hc : sscanf_f optarg = Some (cutoff (globalArgs p2))).
    { unfold option_case in E. cbn in E. unfold strcpy in E.
      destruct (sscanf_f optarg) as [temp|]; [|discriminate].
      inversion E; subst. reflexivity. }
    destruct (option_loop post (p2, sh2)) as [[p3 sh3]| |] eqn:El; try discriminate.
    pose proof (option_loop_cutoff post p2 p3 sh2 sh3 El Hpost) as V.
    destruct (negb (sh3 =? 0)%Z); [discriminate|].
    destruct (check_salt p3) as [p4| |] eqn:Ec; try discriminate.
    apply check_salt_Returns in Ec.
    destruct Ec as (_ & _ & _ & _ & _ & _ & C1 & _ & _).
    destruct (optind =? nargs)%Z; inversion H; subst;
      cbn [set_globalArgs set_inputFilePrefix globalArgs cutoff];
      congruence.
Qed.

(** The value of [-help] in the table [long_options]. *)
Definition val_help : Ascii.ascii := "h"%char.

Lemma option_case_frame (options : Ascii.ascii) (optarg : String.string)
    (p p' : process) (sh sh' : Z) :
  option_case options optarg (p, sh) = Returns (p', sh') ->
  inputFilePrefix (globalArgs p') = inputFilePrefix (globalArgs p) /\
  (sh <> 0%Z -> sh' <> 0%Z) /\
  (Ascii.eqb options val_help = true -> sh' <> 0%Z).
Proof.
  intros H.
  option_cases H;
    cbn [printf set_globalArgs set_T set_dangles set_parameters set_cutoff set_onlyOneMFE
         set_sodiumconc set_magnesiumconc set_uselongsalt set_permsOn
         globalArgs inputFilePrefix];
    (split; [reflexivity|]); (split; [intros; try assumption; lia|]);
    intros Hh; try lia;
    repeat match goal with
           | E : Ascii.eqb _ _ = true |- _ => apply Ascii.eqb_eq in E; subst
           end;
    try discriminate.
Qed.

Lemma option_loop_frame (events : list (Ascii.ascii * String.string))
    (p p' : process) (sh sh' : Z) :
  option_loop events (p, sh) = Returns (p', sh') ->
  inputFilePrefix (globalArgs p') = inputFilePrefix (globalArgs p) /\
  (sh <> 0%Z -> sh' <> 0%Z) /\
  ((exists ev, In ev events /\ Ascii.eqb (fst ev) val_help = true) -> sh' <> 0%Z).
Proof.
  revert p sh. induction events as [|[o a] events IH]; intros p sh H.
  - inversion H; subst. split; [reflexivity|]. split; [auto|].
    intros [ev [[] _]].
  - cbn [option_loop] in H.
    destruct (option_case o a (p, sh)) as [[p1 sh1]| |] eqn:E; try discriminate.
    destruct (option_case_frame o a p p1 sh sh1 E) as (F1 & F2 & F3).
    destruct (IH p1 sh1 H) as (I1 & I2 & I3).
    split; [congruence|]. split; [auto|].
    intros [ev [[<-|Hin] Hh]].
    + apply I2. apply F3. exact Hh.
    + apply I3. exists ev. split; assumption.
Qed.

(** X22.  When [ReadCommandLine] returns, it returns 0 if [optind] is
    [nargs] (no input file on the command line), with [inputFilePrefix] as
    it was, and 1 otherwise, with [inputFilePrefix] the argument at [optind];
    and [-help] was not among the options: with it the function does not
    return. *)
Theorem ReadCommandLine_return_value (nargs : Z) (args : list String.string)
    (events : list (Ascii.ascii * String.string)) (optind : Z) (p : process)
    (r : Z) (p' : process) :
  ReadCommandLine nargs args events optind p = Returns (r, p') ->
  r = (if (optind =? nargs)%Z then 0%Z else 1%Z) /\
  inputFilePrefix (globalArgs p')
    = (if (optind =? nargs)%Z then inputFilePrefix (globalArgs p)
       else args.s[Z.to_nat optind]) /\
  (forall ev, In ev events -> Ascii.eqb (fst ev) val_help = false).
Proof.
  unfold ReadCommandLine. intros H.
  destruct (option_loop events _) as [[p1 sh]| |] eqn:El; try discriminate.
  destruct (option_loop_frame events _ p1 0 sh El) as (F1 & _ & F3).
  cbn [globalArgs] in F1.
  destruct (Z.eqb_spec sh 0) as [Hs|Hs]; cbn [negb] in H; [|discriminate].
  destruct (check_salt p1) as [p2| |] eqn:Ec; try discriminate.
  assert (Ei : inputFilePrefix (globalArgs p2) = inputFilePrefix (globalArgs p1)).
  { unfold check_salt in Ec.
    repeat match type of Ec with
           | context [if ?c then _ else _] => destruct c
           end;
      try discriminate; inversion Ec; reflexivity. }
  assert (Hno : forall ev, In ev events -> Ascii.eqb (fst ev) val_help = false).
  { intros ev Hin. destruct (Ascii.eqb (fst ev) val_help) eqn:E; [|reflexivity].
    exfalso. apply F3; [|exact Hs]. exists ev. split; assumption. }
  destruct (optind =? nargs)%Z; inversion H; subst;
    cbn [set_globalArgs set_inputFilePrefix globalArgs inputFilePrefix];
    unfold strcpy; repeat split; try congruence; exact Hno.
Qed.

End ReadCommandLine.

(** ** [ReadInputFileComplexes] *)

(** What the function writes through its six pointers. *)
Record outputs : Type := mkOutputs {
  filePrefix : String.string;
  nStrands : Z;
  seqs : list String.string;
  seqlength : list Z;
  maxLength : Z;
  maxComplexSize : Z
}.

(** How a call ends: it returns an [int], with the outputs and what it
    printed; or it is still in one of its loops over comment lines after the
    passes granted; or it hands [sscanf] the null pointer that [strtok]
    returned, which C leaves undefined. *)
Inductive read_result : Type :=
| Read (ret : Z) (out : outputs) (stdout : list printed)
| Still_skipping
| Null_token.

Section ReadInputFile.

Local Open Scope string_scope.

(** The size of the line buffers (a macro of the headers). *)
Variable MAXLINE : nat.
(** [sscanf] with the formats %d and %s: [None] when nothing is
    converted. *)
Variable sscanf_d : String.string -> option Z.
Variable sscanf_s : String.string -> option String.string.
(** The files that can be opened for reading, by name, with their
    characters. *)
Variable fopen : String.string -> option (list Ascii.ascii).

Definition newline : Ascii.ascii := Ascii.ascii_of_nat 10.

(** The characters [fgets] stores: at most [n], up to and with the first
    newline; and what is left of the file. *)
Fixpoint read_line (n : nat) (F : list Ascii.ascii) : list Ascii.ascii * list Ascii.ascii :=
  match n, F with
  | O, _ => ([], F)
  | _, [] => ([], [])
  | S n', c :: F' =>
      if Ascii.eqb c newline then ([c], F')
      else let '(l, r) := read_line n' F' in (c :: l, r)
  end.

(** [fgets(line, MAXLINE, F_inp)] of the C library: whether it returned
    [line] rather than NULL, the contents of [line], and the rest of the
    file.  At the end of the file it returns NULL and leaves [line] as it
    is. *)
Definition fgets (line : String.string) (F : list Ascii.ascii)
    : bool * String.string * list Ascii.ascii :=
  match F with
  | [] => (false, line, [])
  | _ :: _ =>
      let '(l, r) := read_line (MAXLINE - 1) F in
      (true, String.string_of_list_ascii l, r)
  end.

(** [line[0]]; the NUL of an empty string. *)
Definition first_char (line : String.string) : Ascii.ascii :=
  match line with
  | String.EmptyString => Ascii.zero
  | String.String c _ => c
  end.

(** [line[0] == '%' || line[0] == '>']. *)
Definition is_comment (line : String.string) : bool :=
  (Ascii.eqb (first_char line) "%" || Ascii.eqb (first_char line) ">")%bool.

(** [while (line[0] == '%' || line[0] == '>') fgets(line, MAXLINE, F_inp);]
    The loop has no bound in the source and does not look at what [fgets]
    returns; [fuel] bounds the passes here and [None] says it was not
    enough. *)
Fixpoint skip_comments (fuel : nat) (line : String.string) (F : list Ascii.ascii)
    : option (String.string * list Ascii.ascii) :=
  if is_comment line
  then match fuel with
       | O => None
       | S fuel' =>
           let '(_, line', F') := fgets line F in
           skip_comments fuel' line' F'
       end
  else Some (line, F).

(** [strtok(line, "%>")] of the C library, first call on a string: the
    token, from the first character that is not a delimiter to the next
    delimiter, or NULL when there is no such character; and the contents of
    [line], cut where the token ends. *)
Definition is_delimiter (c : Ascii.ascii) : bool :=
  (Ascii.eqb c "%" || Ascii.eqb c ">")%bool.

Fixpoint skip_delimiters (s : String.string) : String.string :=
  match s with
  | String.EmptyString => String.EmptyString
  | String.String c s' => if is_delimiter c then skip_delimiters s' else s
  end.

Fixpoint up_to_delimiter (s : String.string) : String.string :=
  match s with
  | String.EmptyString => String.EmptyString
  | String.String c s' =>
      if is_delimiter c then String.EmptyString else String.String c (up_to_delimiter s')
  end.

Fixpoint leading_delimiters (s : String.string) : String.string :=
  match s with
  | String.EmptyString => String.EmptyString
  | String.String c s' =>
      if is_delimiter c then String.String c (leading_delimiters s') else String.EmptyString
  end.

Definition strtok (line : String.string) : option String.string * String.string :=
  match skip_delimiters line with
  | String.EmptyString => (None, line)
  | rest =>
      (Some (up_to_delimiter rest), strcat (leading_delimiters line) (up_to_delimiter rest))
  end.

Definition set_filePrefix (v : String.string) (o : outputs) : outputs :=
  mkOutputs v (nStrands o) (seqs o) (seqlength o) (maxLength o) (maxComplexSize o).
Definition set_maxComplexSize (v : Z) (o : outputs) : outputs :=
  mkOutputs (filePrefix o) (nStrands o) (seqs o) (seqlength o) (maxLength o) v.

(** The state of the loop over the strands: the buffer [line], the rest of
    the file, and the outputs. *)
Definition reading : Type := String.string * list Ascii.ascii * outputs.

(** Lines 293-310: one pass of the loop over the strands.  [inl] is a
    [return] from inside the loop. *)
Definition read_strand (fuel : nat) (filename : String.string) (i : nat)
    (st : reading) : read_result + reading :=
  let '(line, F, out) := st in
  let '(_, line, F) := fgets line F in
  match skip_comments fuel line F with
  | None => inl Still_skipping
  | Some (line, F) =>
      match strtok line with
      | (None, _) => inl Null_token
      | (Some token, line) =>
          match sscanf_s token with
          | None => inl (Read 0 out [Error_in filename token])
          | Some line2 =>
              let seqlength := upd i (strlen line2) (seqlength out) in
              let maxLength :=
                if (nth i seqlength 0 >? maxLength out)%Z then nth i seqlength 0%Z
                else maxLength out in
              let seqs := upd i (strcpy (nth i (seqs out) String.EmptyString) line2) (seqs out) in
              inr (line, F,
                   mkOutputs (filePrefix out) (nStrands out) seqs seqlength maxLength
                             (maxComplexSize out))
          end
      end
  end.

(** [for (i = 0; i < *nStrands; i++)], from [i] on for [n] passes. *)
Fixpoint read_strands (fuel : nat) (filename : String.string) (i n : nat)
    (st : reading) : read_result + reading :=
  match n with
  | O => inr st
  | S n' =>
      match read_strand fuel filename i st with
      | inl r => inl r
      | inr st' => read_strands fuel filename (S i) n' st'
      end
  end.

(** Lines 327-334: the loop over the comment lines at the end, which does
    look at what [fgets] returns. *)
Fixpoint skip_checked (fuel : nat) (check : bool) (line : String.string)
    (F : list Ascii.ascii) : option bool :=
  if (check && is_comment line)%bool
  then match fuel with
       | O => None
       | S fuel' =>
           let '(check', line', F') := fgets line F in
           skip_checked fuel' check' line' F'
       end
  else Some check.

(** [int ReadInputFileComplexes(...)]: [line0] is what the buffer [line]
    holds on entry (it is not initialised), [inputFilePrefix] the field of
    [globalArgs], [out] what the six pointers point to on entry.  A
    [malloc]ed array starts with empty strings and zeros. *)
Definition ReadInputFileComplexes (fuel : nat) (line0 : String.string)
    (inputFilePrefix : String.string) (out : outputs) : read_result :=
  let filename := strcpy String.EmptyString inputFilePrefix in
  let filename := strcat filename ".in" in
  let out := set_filePrefix (strcpy (filePrefix out) inputFilePrefix) out in
  match fopen filename with
  | None => Read 2 out []
  | Some F =>
      let '(_, line, F) := fgets line0 F in
      match skip_comments fuel line F with
      | None => Still_skipping
      | Some (line, F) =>
          match strtok line with
          | (None, _) => Null_token
          | (Some token, line) =>
              match sscanf_d token with
              | None => Read 0 out [Error_in filename token]
              | Some n =>
                  let out :=
                    mkOutputs (filePrefix out) n
                      (repeat String.EmptyString (Z.to_nat n)) (repeat 0%Z (Z.to_nat n))
                      0 (maxComplexSize out) in
                  match read_strands fuel filename 0 (Z.to_nat n) (line, F, out) with
                  | inl r => r
                  | inr (line, F, out) =>
                      let '(_, line, F) := fgets line F in
                      match skip_comments fuel line F with
                      | None => Still_skipping
                      | Some (line, F) =>
                          match strtok line with
                          | (None, _) => Null_token
                          | (Some token, line) =>
                              match sscanf_d token with
                              | None => Read 0 out [Error_in filename token]
                              | Some L =>
                                  let out := set_maxComplexSize L out in
                                  let '(check, line, F) := fgets line F in
                                  if negb check then Read 1 out []
                                  else
                                    match skip_checked fuel check line F with
                                    | None => Still_skipping
                                    | Some check =>
                                        if negb check then Read 1 out [] else Read 1 out []
                                    end
                              end
                          end
                      end
                  end
              end
          end
      end
  end.

(** *** A file of comment lines *)

(** A line of the file that starts with % or > and ends in a newline, short
    enough for one call of [fgets]. *)
Definition comment_line (l : list Ascii.ascii) : Prop :=
  exists c body,
    l = c :: body ++ [newline] /\ is_delimiter c = true /\ ~ In newline body /\
    (length l <= MAXLINE - 1)%nat.

Lemma read_line_whole (body rest : list Ascii.ascii) (n : nat) :
  ~ In newline body -> (length (body ++ [newline]) <= n)%nat ->
  read_line n ((body ++ [newline]) ++ rest) = (body ++ [newline], rest).
Proof.
  revert n. induction body as [|c body IH]; intros n Hn Hlen.
  - destruct n as [|n]; [simpl in Hlen; lia|]. reflexivity.
  - destruct n as [|n]; [simpl in Hlen; lia|].
    cbn [app read_line].
    destruct (Ascii.eqb_spec c newline) as [->|Hc].
    + exfalso. apply Hn. left. reflexivity.
    + change ((body ++ [newline]) ++ rest) with ((body ++ [newline]) ++ rest).
      rewrite IH.
      * reflexivity.
      * intros Hin. apply Hn. right. exact Hin.
      * simpl in Hlen. lia.
Qed.

Lemma fgets_comment_line (line : String.string) (l : list Ascii.ascii)
    (rest : list Ascii.ascii) :
  comment_line l ->
  exists line', fgets line (l ++ rest) = (true, line', rest) /\ is_comment line' = true.
Proof.
  intros (c & body & -> & Hc & Hn & Hlen).
  exists (String.string_of_list_ascii (c :: body ++ [newline])).
  unfold fgets. cbn [app].
  assert (Hc' : c <> newline).
  { intros ->. vm_compute in Hc. discriminate. }
  pose proof (read_line_whole (c :: body) rest (MAXLINE - 1)) as R.
  cbn [app] in R. rewrite R.
  - split; [reflexivity|]. exact Hc.
  - intros [H|H]; [apply Hc'; exact H|apply Hn; exact H].
  - exact Hlen.
Qed.

Lemma skip_comments_forever (fuel : nat) (line : String.string)
    (lines : list (list Ascii.ascii)) :
  is_comment line = true -> Forall comment_line lines ->
  skip_comments fuel line (concat lines) = None.
Proof.
  revert line lines. induction fuel as [|fuel IH]; intros line lines Hl Hall;
    cbn [skip_comments]; rewrite Hl; [reflexivity|].
  destruct lines as [|l lines].
  - cbn [concat fgets]. apply (IH line []); [exact Hl|constructor].
  - cbn [concat]. inversion Hall as [|? ? H1 H2]; subst.
    destruct (fgets_comment_line line l (concat lines) H1) as (line' & E & Hc).
    rewrite E. apply IH; assumption.
Qed.

(** X19.  On a file that holds nothing but comment lines (at least one),
    [ReadInputFileComplexes] never returns: at the end of the file [fgets]
    leaves the last comment line in the buffer, and the loop of lines
    274-276, which does not look at what [fgets] returns, goes on reading
    it. *)
Theorem comment_only_file_never_returns (fuel : nat) (line0 : String.string)
    (inputFilePrefix : String.string) (out : outputs)
    (l : list Ascii.ascii) (lines : list (list Ascii.ascii)) :
  fopen (strcat inputFilePrefix ".in") = Some (concat (l :: lines)) ->
  Forall comment_line (l :: lines) ->
  ReadInputFileComplexes fuel line0 inputFilePrefix out = Still_skipping.
Proof.
  intros Hf Hall. unfold ReadInputFileComplexes, strcpy. rewrite Hf.
  inversion Hall as [|? ? H1 H2]; subst.
  cbn [concat].
  destruct (fgets_comment_line line0 l (concat lines) H1) as (line' & E & Hc).
  rewrite E. rewrite (skip_comments_forever fuel line' lines Hc H2). reflexivity.
Qed.

(** *** What a call that returns leaves *)

Lemma read_strand_inl (fuel : nat) (filename : String.string) (i : nat)
    (st : reading) (r : read_result) :
  read_strand fuel filename i st = inl r ->
  r = Still_skipping \/ r = Null_token \/
  exists token, r = Read 0 (snd st) [Error_in filename token].
Proof.
  unfold read_strand. destruct st as [[line F] out].
  destruct (fgets line F) as [[c line1] F1].
  destruct (skip_comments fuel line1 F1) as [[line2 F2]|]; [|intros H; inversion H; auto].
  destruct (strtok line2) as [[token|] line3]; [|intros H; inversion H; auto].
  destruct (sscanf_s token) as [line2'|]; intros H; inversion H.
  right; right. exists token. reflexivity.
Qed.

(** The outputs after the strands [0 .. i-1] have been read. *)
Definition strands_read (N : nat) (i : nat) (out : outputs) : Prop :=
  length (seqs out) = N /\ length (seqlength out) = N /\
  (0 <= maxLength out)%Z /\
  (forall k, (k < i)%nat ->
     nth k (seqlength out) 0%Z = strlen (nth k (seqs out) String.EmptyString) /\
     (nth k (seqlength out) 0 <= maxLength out)%Z) /\
  ((0 < i)%nat -> exists k, (k < i)%nat /\ nth k (seqlength out) 0%Z = maxLength out) /\
  (i = 0%nat -> maxLength out = 0%Z).

Lemma read_strand_inr (fuel : nat) (filename : String.string) (N i : nat)
    (st st' : reading) :
  read_strand fuel filename i st = inr st' ->
  (i < N)%nat -> strands_read N i (snd st) ->
  strands_read N (S i) (snd st') /\
  filePrefix (snd st') = filePrefix (snd st) /\
  nStrands (snd st') = nStrands (snd st) /\
  maxComplexSize (snd st') = maxComplexSize (snd st).
Proof.
  unfold read_strand. destruct st as [[line F] out].
  destruct (fgets line F) as [[c line1] F1].
  destruct (skip_comments fuel line1 F1) as [[line2 F2]|]; [|discriminate].
  destruct (strtok line2) as [[token|] line3]; [|discriminate].
  destruct (sscanf_s token) as [line2'|]; [|discriminate].
  intros H Hi (HL1 & HL2 & H0 & Hc & Hm & Hz). inversion H; subst st'; clear H.
  cbn [snd] in HL1, HL2, H0, Hc, Hm, Hz.
  cbn [snd seqs seqlength maxLength filePrefix nStrands maxComplexSize].
  split; [|repeat split; reflexivity].
  unfold strcpy.
  assert (Hn : nth i (upd i (strlen line2') (seqlength out)) 0%Z = strlen line2')
    by (apply nth_upd_same; lia).
  rewrite Hn.
  assert (Hs : (0 <= strlen line2')%Z) by (unfold strlen; lia).
  unfold strands_read.
  cbn [seqs seqlength maxLength].
  rewrite !upd_length.
  split; [exact HL1|]. split; [exact HL2|].
  destruct (Z.gtb_spec (strlen line2') (maxLength out)) as [Hgt|Hle]; cbv iota.
  - split; [lia|]. split.
    + intros k Hk. destruct (Nat.eq_dec k i) as [->|Hne].
      * rewrite !nth_upd_same by lia. split; [reflexivity|lia].
      * rewrite !nth_upd_other by lia.
        destruct (Hc k ltac:(lia)) as [E1 E2]. split; [exact E1|lia].
    + split; [|intros; lia]. intros _. exists i. split; [lia|]. apply nth_upd_same. lia.
  - split; [exact H0|]. split.
    + intros k Hk. destruct (Nat.eq_dec k i) as [->|Hne].
      * rewrite !nth_upd_same by lia. split; [reflexivity|lia].
      * rewrite !nth_upd_other by lia. apply Hc. lia.
    + split; [|intros; lia]. intros _. destruct (Nat.eq_dec i 0) as [->|Hne].
      * exists 0%nat. split; [lia|]. rewrite nth_upd_same by lia.
        specialize (Hz eq_refl). lia.
      * destruct (Hm ltac:(lia)) as [k [Hk E]]. exists k. split; [lia|].
        rewrite nth_upd_other by lia. exact E.
Qed.

Lemma read_strands_spec (fuel : nat) (filename : String.string) (N n i : nat)
    (st : reading) :
  (i + n = N)%nat -> strands_read N i (snd st) ->
  match read_strands fuel filename i n st with
  | inl r =>
      r = Still_skipping \/ r = Null_token \/
      exists out token,
        r = Read 0 out [Error_in filename token] /\ filePrefix out = filePrefix (snd st)
  | inr st' =>
      strands_read N N (snd st') /\
      filePrefix (snd st') = filePrefix (snd st) /\
      nStrands (snd st') = nStrands (snd st) /\
      maxComplexSize (snd st') = maxComplexSize (snd st)
  end.
Proof.
  revert i st. induction n as [|n IH]; intros i st Hi Hinv.
  - cbn [read_strands]. assert (i = N) by lia. subst i.
    split; [exact Hinv|]. repeat split; reflexivity.
  - cbn [read_strands].
    destruct (read_strand fuel filename i st) as [r|st1] eqn:E.
    + apply read_strand_inl in E. destruct E as [E|[E|[token E]]]; auto.
      right; right. exists (snd st), token. split; [exact E|reflexivity].
    + apply (read_strand_inr fuel filename N) in E; [|lia|exact Hinv].
      destruct E as (Hinv1 & E1 & E2 & E3).
      specialize (IH (S i) st1 ltac:(lia) Hinv1).
      destruct (read_strands fuel filename (S i) n st1) as [r|st2].
      * destruct IH as [IH|[IH|(out & token & IH & Ef)]]; auto.
        right; right. exists out, token. split; [exact IH|congruence].
      * destruct IH as (I1 & I2 & I3 & I4).
        split; [exact I1|]. repeat split; congruence.
Qed.

(** X20.  When [ReadInputFileComplexes] returns, it returns 2, 0 or 1 and
    [filePrefix] holds the prefix.  It returns 2 exactly when the file
    PREFIX.in cannot be opened, and then nothing else is written.  It returns
    0 with one line of error printed, and 1 with none.  When it returns 1 with
    a number of strands that is not negative, it has stored that many
    sequences with their lengths, and [maxLength] is the largest of the
    lengths (0 if there is no strand). *)
Theorem ReadInputFileComplexes_returns (fuel : nat) (line0 : String.string)
    (inputFilePrefix : String.string) (out out' : outputs) (ret : Z)
    (stdout : list printed) :
  ReadInputFileComplexes fuel line0 inputFilePrefix out = Read ret out' stdout ->
  filePrefix out' = inputFilePrefix /\
  (ret = 2%Z /\ fopen (strcat inputFilePrefix ".in") = None /\ stdout = [] /\
     out' = set_filePrefix inputFilePrefix out
   \/
   ret = 0%Z /\ fopen (strcat inputFilePrefix ".in") <> None /\
     (exists token, stdout = [Error_in (strcat inputFilePrefix ".in") token])
   \/
   ret = 1%Z /\ fopen (strcat inputFilePrefix ".in") <> None /\ stdout = [] /\
     let N := Z.to_nat (nStrands out') in
     length (seqs out') = N /\ length (seqlength out') = N /\
     (0 <= maxLength out')%Z /\
     (forall k, (k < N)%nat ->
        nth k (seqlength out') 0%Z = strlen (nth k (seqs out') String.EmptyString) /\
        (nth k (seqlength out') 0 <= maxLength out')%Z) /\
     ((0 < N)%nat ->
        exists k, (k < N)%nat /\ nth k (seqlength out') 0%Z = maxLength out') /\
     (N = 0%nat -> maxLength out' = 0%Z)).
Proof.
  unfold ReadInputFileComplexes, strcpy.
  destruct (fopen (strcat inputFilePrefix ".in")) as [F|] eqn:Ef.
  2:{ intros H. inversion H; subst. split; [reflexivity|]. left. repeat split. }
  destruct (fgets line0 F) as [[c line1] F1].
  destruct (skip_comments fuel line1 F1) as [[line2 F2]|]; [|discriminate].
  destruct (strtok line2) as [[token|] line3]; [|discriminate].
  destruct (sscanf_d token) as [n|].
  2:{ intros H. inversion H; subst. split; [reflexivity|]. right; left.
      split; [reflexivity|]. split; [discriminate|]. exists token. reflexivity. }
  set (out1 := mkOutputs _ n _ _ 0 _).
  assert (Hinit : strands_read (Z.to_nat n) 0 (snd (line3, F2, out1))).
  { unfold strands_read, out1. cbn [snd seqs seqlength maxLength].
    rewrite !repeat_length. repeat split; lia. }
  pose proof (read_strands_spec fuel (strcat inputFilePrefix ".in") (Z.to_nat n)
                (Z.to_nat n) 0 (line3, F2, out1) eq_refl Hinit) as S.
  destruct (read_strands fuel (strcat inputFilePrefix ".in") 0 (Z.to_nat n) (line3, F2, out1))
    as [r|[[line4 F4] out4]].
  - intros H. subst r.
    destruct S as [S|[S|(o & tk & S & Sf)]]; try discriminate.
    inversion S; subst. split; [exact Sf|]. right; left.
    split; [reflexivity|]. split; [discriminate|]. exists tk. reflexivity.
  - destruct S as (S1 & S2 & S3 & S4).
    cbn [snd] in S1, S2, S3, S4.
    destruct (fgets line4 F4) as [[c5 line5] F5].
    destruct (skip_comments fuel line5 F5) as [[line6 F6]|]; [|discriminate].
    destruct (strtok line6) as [[token2|] line7]; [|discriminate].
    destruct (sscanf_d token2) as [L|].
    2:{ intros H. inversion H; subst. split; [exact S2|]. right; left.
        split; [reflexivity|]. split; [discriminate|]. exists token2. reflexivity. }
    assert (K : forall stdout0, Read 1 (set_maxComplexSize L out4) [] = Read ret out' stdout0 ->
              filePrefix out' = inputFilePrefix /\
              ret = 1%Z /\ stdout0 = [] /\
              let N := Z.to_nat (nStrands out') in
              length (seqs out') = N /\ length (seqlength out') = N /\
              (0 <= maxLength out')%Z /\
              (forall k, (k < N)%nat ->
                 nth k (seqlength out') 0%Z = strlen (nth k (seqs out') String.EmptyString) /\
                 (nth k (seqlength out') 0 <= maxLength out')%Z) /\
              ((0 < N)%nat ->
                 exists k, (k < N)%nat /\ nth k (seqlength out') 0%Z = maxLength out') /\
              (N = 0%nat -> maxLength out' = 0%Z)).
    { intros stdout0 H. inversion H; subst.
      cbn [set_maxComplexSize filePrefix nStrands seqs seqlength maxLength].
      split; [exact S2|]. split; [reflexivity|]. split; [reflexivity|].
      rewrite S3. unfold out1. cbn [nStrands].
      exact S1. }
    destruct (fgets line7 F6) as [[check line8] F8].
    destruct (negb check).
    { intros H. destruct (K stdout H) as (K1 & K2 & K3 & K4).
      split; [exact K1|]. right; right.
      split; [exact K2|]. split; [discriminate|]. split; [exact K3|]. exact K4. }
    destruct (skip_checked fuel check line8 F8) as [check'|]; [|discriminate].
    destruct (negb check'); intros H; destruct (K stdout H) as (K1 & K2 & K3 & K4);
      (split; [exact K1|]); right; right;
      (split; [exact K2|]); (split; [discriminate|]); (split; [exact K3|]); exact K4.
Qed.

End ReadInputFile.

(** ** Examples for the command line *)

Section CommandLineExamples.

Local Open Scope string_scope.

(** Stand-ins for the constants of the headers and for the C library, to
    run the model: DNA, RNA, RNA37 and USE_SPECIFIED_PARAMETERS_FILE are 0,
    1, 2 and 3; the numbers read are those of the three strings below. *)
Definition demo_str2double (s : String.string) : float :=
  if String.eqb s "0.5" then 0.5%float else 1%float.
Definition demo_sscanf_f (s : String.string) : option float :=
  if String.eqb s "37" then Some 37%float
  else if String.eqb s "0.001" then Some (PrimFloat.div 1 1000)
  else None.
Definition demo_word (s : String.string) : option String.string :=
  match s with
  | String.EmptyString => None
  | _ => Some s
  end.

Definition demo_process : process :=
  mkProcess (mkGlobalArgs 37 2 0 (PrimFloat.div 1 1000) 1 1 0 0 0 String.EmptyString)
            0 String.EmptyString [].

Definition demo_ReadCommandLine (args : list String.string)
    (events : list (Ascii.ascii * String.string)) : ended (Z * process) :=
  ReadCommandLine 0 1 2 3 demo_str2double demo_sscanf_f demo_word (fun _ => 0%Z) []
    (Z.of_nat (length args)) args events (Z.of_nat (length args) - 1) demo_process.

(** [complexes -material rna -sodium 0.5 demo]. *)
Definition demo_read : Z * process :=
  Eval vm_compute in
    match demo_ReadCommandLine ["complexes"; "-material"; "rna"; "-sodium"; "0.5"; "demo"]
            [("g"%char, "rna"); ("o"%char, "0.5")] with
    | Returns rp => rp
    | _ => (0%Z, demo_process)
    end.

Lemma ReadCommandLine_returns_checked_salt_witness :
  PrimFloat.eqb (sodiumconc (globalArgs (snd demo_read))) 1 = true.
Proof.
  destruct (ReadCommandLine_returns_checked_salt 0 1 2 3 demo_str2double demo_sscanf_f
              demo_word (fun _ => 0%Z) []
              6 ["complexes"; "-material"; "rna"; "-sodium"; "0.5"; "demo"]
              [("g"%char, "rna"); ("o"%char, "0.5")] 5 demo_process
              (fst demo_read) (snd demo_read)) as (_ & _ & _ & H).
  - vm_compute; reflexivity.
  - apply H. vm_compute. discriminate.
Defined.

Lemma ReadCommandLine_return_value_witness : fst demo_read = 1%Z.
Proof.
  destruct (ReadCommandLine_return_value 0 1 2 3 demo_str2double demo_sscanf_f
              demo_word (fun _ => 0%Z) []
              6 ["complexes"; "-material"; "rna"; "-sodium"; "0.5"; "demo"]
              [("g"%char, "rna"); ("o"%char, "0.5")] 5 demo_process
              (fst demo_read) (snd demo_read)) as [H _].
  - vm_compute; reflexivity.
  - exact H.
Defined.

(** [complexes -a demo]. *)
Lemma option_letter_without_case_aborts_witness :
  demo_ReadCommandLine ["complexes"; "-a"; "demo"] [("a"%char, String.EmptyString)]
  = Aborts [].
Proof.
  apply (option_letter_without_case_aborts 0 1 2 3 demo_str2double demo_sscanf_f
           demo_word (fun _ => 0%Z) []
           3 ["complexes"; "-a"; "demo"]
           [] [] "a"%char String.EmptyString 2 demo_process
           (mkProcess (globalArgs demo_process) 0 (PARAM_FILE demo_process)
                      (stdout demo_process), 0%Z)).
  - vm_compute. left. reflexivity.
  - reflexivity.
Defined.

(** [complexes -cutoff 0.001 -validate demo]. *)
Definition demo_validate : Z * process :=
  Eval vm_compute in
    match demo_ReadCommandLine ["complexes"; "-cutoff"; "0.001"; "-validate"; "demo"]
            [("l"%char, "0.001"); ("r"%char, String.EmptyString)] with
    | Returns rp => rp
    | _ => (0%Z, demo_process)
    end.

Lemma last_of_cutoff_and_validate_decides_witness :
  cutoff (globalArgs (snd demo_validate)) = 0%float.
Proof.
  destruct (proj1 (last_of_cutoff_and_validate_decides 0 1 2 3 demo_str2double
                     demo_sscanf_f demo_word (fun _ => 0%Z) []
                     5 ["complexes"; "-cutoff"; "0.001"; "-validate"; "demo"]
                     [("l"%char, "0.001")] [] String.EmptyString 4 demo_process
                     (fst demo_validate) (snd demo_validate))) as (_ & _ & H).
  - vm_compute; reflexivity.
  - intros ev [].
  - exact H.
Defined.

(** The digits at the start of a string, as a number. *)
Fixpoint demo_digits (s : String.string) (acc : option Z) : option Z :=
  match s with
  | String.EmptyString => acc
  | String.String c s' =>
      let d := Ascii.nat_of_ascii c in
      if ((48 <=? d) && (d <=? 57))%nat
      then demo_digits s' (Some (10 * match acc with Some a => a | None => 0 end
                                 + Z.of_nat (d - 48))%Z)
      else acc
  end.
Definition demo_sscanf_d (s : String.string) : option Z := demo_digits s None.

(** The characters of a string up to the first blank or newline. *)
Fixpoint demo_upto_space (s : String.string) : String.string :=
  match s with
  | String.EmptyString => String.EmptyString
  | String.String c s' =>
      if ((Ascii.nat_of_ascii c =? 32) || (Ascii.nat_of_ascii c =? 10))%nat
      then String.EmptyString
      else String.String c (demo_upto_space s')
  end.
Definition demo_sscanf_s (s : String.string) : option String.string :=
  match demo_upto_space s with
  | String.EmptyString => None
  | w => Some w
  end.

Definition text_line (s : String.string) : list Ascii.ascii :=
  String.list_ascii_of_string s ++ [newline].

(** Two files: one that holds a comment and nothing else, and one with two
    strands and a largest complex size of 2. *)
Definition demo_fopen (name : String.string) : option (list Ascii.ascii) :=
  if String.eqb name "comment.in" then Some (text_line "% two strands")
  else if String.eqb name "demo.in"
  then Some (text_line "2" ++ text_line "ACGT" ++ text_line "GG" ++ text_line "2")
  else None.

Definition demo_outputs : outputs := mkOutputs String.EmptyString 0 [] [] 0 0.

Lemma no_newline (body : list Ascii.ascii) :
  forallb (fun c => negb (Ascii.eqb c newline)) body = true -> ~ In newline body.
Proof.
  intros H Hin. rewrite forallb_forall in H. specialize (H newline Hin).
  rewrite Ascii.eqb_refl in H. discriminate.
Qed.

Lemma comment_only_file_never_returns_witness :
  ReadInputFileComplexes 100 demo_sscanf_d demo_sscanf_s demo_fopen 1000
    String.EmptyString "comment" demo_outputs = Still_skipping.
Proof.
  apply (comment_only_file_never_returns 100 demo_sscanf_d demo_sscanf_s demo_fopen 1000
           String.EmptyString "comment" demo_outputs (text_line "% two strands") []).
  - vm_compute; reflexivity.
  - constructor; [|constructor].
    exists "%"%char, (String.list_ascii_of_string " two strands").
    split; [reflexivity|]. split; [reflexivity|]. split.
    + apply no_newline. vm_compute; reflexivity.
    + vm_compute. lia.
Defined.

Definition demo_file_read : outputs :=
  Eval vm_compute in
    match ReadInputFileComplexes 100 demo_sscanf_d demo_sscanf_s demo_fopen 1000
            String.EmptyString "demo" demo_outputs with
    | Read _ out _ => out
    | _ => demo_outputs
    end.

Lemma ReadInputFileComplexes_returns_witness :
  seqs demo_file_read = ["ACGT"; "GG"] /\ maxLength demo_file_read = 4%Z /\
  length (seqs demo_file_read) = Z.to_nat (nStrands demo_file_read).
Proof.
  split; [reflexivity|]. split; [reflexivity|].
  destruct (ReadInputFileComplexes_returns 100 demo_sscanf_d demo_sscanf_s demo_fopen 1000
              String.EmptyString "demo" demo_outputs demo_file_read 1 [])
    as [_ [H|[H|H]]].
  - vm_compute; reflexivity.
  - destruct H as [E _]. discriminate E.
  - destruct H as [E _]. discriminate E.
  - destruct H as (_ & _ & _ & H & _). exact H.
Defined.

End CommandLineExamples.
